(** * A partial ReiserFS reader driven by a ddrescue map

    Shallow embedding of [parse_ddrescue.py], [reiserfs_blocks.py] and
    [ddrescuelog_processor.py].  Python integers are [Z], [bytes] are lists
    of [byte], exceptions are an explicit error type, mutable reader state is
    threaded through a small state-and-exception monad, and generators are
    folds that hand every yielded value to their consumer, which may stop the
    generator early. *)

From Stdlib Require Import ZArith List Lia String Ascii Bool Relations Sorted
  Permutation.
From coqutil Require Import Byte Word.LittleEndianList.
Import ListNotations.
Local Open Scope Z_scope.

(** ** Exceptions and fallible pure code *)

(** The Python exceptions the modelled code can raise.  [StructError] is
    [struct.error]; [OSError] is a seek to a negative file position. *)
Inductive exn : Type :=
| ValueError
| AssertionError
| KeyError
| StructError
| IndexError
| ZeroDivisionError
| UnboundLocalError
| AttributeError
| OSError.

Inductive result (A : Type) : Type :=
| Ok (a : A)
| Error (e : exn).
Arguments Ok {A} a.
Arguments Error {A} e.

Definition rbind {A B : Type} (r : result A) (k : A -> result B) : result B :=
  match r with
  | Ok a => k a
  | Error e => Error e
  end.

Notation "x <-? e ;; k" := (rbind e (fun x => k))
  (at level 61, e at next level, right associativity).
Notation "' p <-? e ;; k" := (rbind e (fun x => let p := x in k))
  (at level 61, p pattern, e at next level, right associativity).

Definition rassert (b : bool) : result unit :=
  if b then Ok tt else Error AssertionError.

(** ** Byte strings *)

Definition bytes : Type := list byte.

Definition blen {A : Type} (l : list A) : Z := Z.of_nat (List.length l).

(** [bytes(n)]: [n] zero bytes. *)
Definition zeros (n : Z) : bytes := repeat Byte.x00 (Z.to_nat n).

(** Python's slice [l[a:b]] with its treatment of negative and
    out-of-range indices. *)
Definition clamp_index (n i : Z) : Z :=
  if i <? 0 then Z.max (i + n) 0 else Z.min i n.

Definition py_slice {A : Type} (l : list A) (a b : Z) : list A :=
  let n := blen l in
  let a' := clamp_index n a in
  let b' := clamp_index n b in
  firstn (Z.to_nat (b' - a')) (skipn (Z.to_nat a') l).

(** Little-endian unsigned field of [len] bytes at offset [off] of a buffer
    already checked to be long enough. *)
Definition le_at (b : bytes) (off len : nat) : Z :=
  le_combine (firstn len (skipn off b)).

(** [struct.pack] of one unsigned field of [len] bytes. *)
Definition pack_uint (len : nat) (z : Z) : result bytes :=
  if (0 <=? z) && (z <? 2 ^ (Z.of_nat len * 8))
  then Ok (le_split len z)
  else Error StructError.

Definition bytes_eqb (a b : bytes) : bool :=
  if list_eq_dec Byte.byte_eq_dec a b then true else false.

(** ** On-disk decoders *)

Inductive ItemType : Type := STAT | INDIRECT | DIRECT | DIRECTORY | ANY.

Module ItemType.

Definition value (t : ItemType) : Z :=
  match t with
  | STAT => 0
  | INDIRECT => 1
  | DIRECT => 2
  | DIRECTORY => 3
  | ANY => 15
  end.

(** [ItemType(v)]: the enum member of value [v], or [ValueError]. *)
Definition of_value (v : Z) : result ItemType :=
  if v =? 0 then Ok STAT
  else if v =? 1 then Ok INDIRECT
  else if v =? 2 then Ok DIRECT
  else if v =? 3 then Ok DIRECTORY
  else if v =? 15 then Ok ANY
  else Error ValueError.

Definition version1_id2type (id : Z) : result ItemType :=
  if id =? 0 then Ok STAT
  else if id =? 0xFFFFFFFE then Ok INDIRECT
  else if id =? 0xFFFFFFFF then Ok DIRECT
  else if id =? 500 then Ok DIRECTORY
  else if id =? 555 then Ok ANY
  else Error KeyError.

Definition version1_type2id (t : ItemType) : Z :=
  match t with
  | STAT => 0
  | INDIRECT => 0xFFFFFFFE
  | DIRECT => 0xFFFFFFFF
  | DIRECTORY => 500
  | ANY => 555
  end.

Definition eqb (a b : ItemType) : bool := value a =? value b.

End ItemType.

Module Key.

Record t : Type := mk {
  dirid : Z;
  objid : Z;
  offset : Z;
  type : ItemType;
  version : Z
}.

(** [Key.struct = struct.Struct("<IIQ")]. *)
Definition struct_size : Z := 16.

(** [Key.unpack(b, version)]; [version = None] asks for the inference from
    the low four bits of the combined offset-and-type word. *)
Definition unpack (b : bytes) (version : option Z) : result t :=
  if negb (blen b =? struct_size) then Error StructError else
  let parts0 := le_at b 0 4 in
  let parts1 := le_at b 4 4 in
  let parts2 := le_at b 8 8 in
  let version :=
    match version with
    | Some v => v
    | None =>
        let assumed_type := Z.land parts2 0xF in
        if (assumed_type =? 0) || (assumed_type =? 15) then 1 else 2
    end in
  let offset_type := parts2 in
  if version =? 1 then
    ty <-? ItemType.version1_id2type (Z.shiftr offset_type 32) ;;
    Ok (mk parts0 parts1 (Z.land offset_type 0xFFFFFFFF) ty 1)
  else
    ty <-? ItemType.of_value (Z.shiftr offset_type 60) ;;
    Ok (mk parts0 parts1 (Z.land offset_type 0x0FFFFFFFFFFFFFFF) ty 2).

Definition pack (self : t) : result bytes :=
  let parts2 :=
    if version self =? 1
    then Z.lor (offset self) (Z.shiftl (ItemType.version1_type2id (type self)) 32)
    else Z.lor (offset self) (Z.shiftl (ItemType.value (type self)) 60) in
  b0 <-? pack_uint 4 (dirid self) ;;
  b1 <-? pack_uint 4 (objid self) ;;
  b2 <-? pack_uint 8 parts2 ;;
  Ok (b0 ++ b1 ++ b2).

(** Keys are named tuples: they compare as tuples, field by field, the item
    type by its integer value. *)
Definition compare (a b : t) : comparison :=
  match dirid a ?= dirid b with
  | Eq =>
      match objid a ?= objid b with
      | Eq =>
          match offset a ?= offset b with
          | Eq =>
              match ItemType.value (type a) ?= ItemType.value (type b) with
              | Eq => version a ?= version b
              | c => c
              end
          | c => c
          end
      | c => c
      end
  | c => c
  end.

Definition ltb (a b : t) : bool :=
  match compare a b with Lt => true | _ => false end.
Definition leb (a b : t) : bool :=
  match compare a b with Gt => false | _ => true end.
Definition gtb (a b : t) : bool := ltb b a.
Definition geb (a b : t) : bool := leb b a.

(** The keys the on-disk format can hold: 32-bit ids, and an offset of 32
    bits in version 1 or of 60 bits in version 2. *)
Definition valid (k : t) : Prop :=
  0 <= dirid k < 2 ^ 32 /\ 0 <= objid k < 2 ^ 32 /\
  ((version k = 1 /\ 0 <= offset k < 2 ^ 32) \/
   (version k = 2 /\ 0 <= offset k < 2 ^ 60)).

End Key.

(** [struct.Struct("<IH2x")], one child pointer of an internal node; only the
    block number (field 0) is ever used.  [unpack_from] needs eight bytes at
    the offset, which is never negative here. *)
Definition ptr_struct_size : Z := 8.

Definition ptr_struct_unpack_from (payload : bytes) (off : Z) : result Z :=
  if off + ptr_struct_size <=? blen payload
  then Ok (le_at payload (Z.to_nat off) 4)
  else Error StructError.

Module Superblock.

Record t : Type := mk {
  block_count : Z;
  free_blocks : Z;
  root_block : Z;
  journal_block : Z;
  journal_device : Z;
  orig_journal_size : Z;
  journal_trans_max : Z;
  journal_magic : Z;
  journal_max_batch : Z;
  journal_max_commit_age : Z;
  journal_max_trans_age : Z;
  blocksize : Z;
  oid_max_size : Z;
  oid_current_size : Z;
  state : Z;
  magic_string : bytes;
  hash_function : Z;
  tree_height : Z;
  bitmap_number : Z;
  version : Z;
  inode_generation : Z
}.

(** [struct.Struct("<11IHHHH12sIHHH2xI")]. *)
Definition struct_size : Z := 80.

Definition unpack (b : bytes) : result t :=
  if negb (blen b =? struct_size) then Error StructError else
  Ok (mk (le_at b 0 4) (le_at b 4 4) (le_at b 8 4) (le_at b 12 4) (le_at b 16 4)
         (le_at b 20 4) (le_at b 24 4) (le_at b 28 4) (le_at b 32 4) (le_at b 36 4)
         (le_at b 40 4)
         (le_at b 44 2) (le_at b 46 2) (le_at b 48 2) (le_at b 50 2)
         (firstn 12 (skipn 52 b))
         (le_at b 64 4) (le_at b 68 2) (le_at b 70 2) (le_at b 72 2)
         (le_at b 76 4)).

End Superblock.

Inductive FileType : Type :=
| SOCKET | LINK | REGULAR | BLOCK | FT_DIRECTORY | CHARACTER | FIF0.

Module FileType.

(** [FileType(v)]: the enum member of value [v], or [ValueError]. *)
Definition of_value (v : Z) : result FileType :=
  if v =? 12 then Ok SOCKET
  else if v =? 10 then Ok LINK
  else if v =? 8 then Ok REGULAR
  else if v =? 6 then Ok BLOCK
  else if v =? 4 then Ok FT_DIRECTORY
  else if v =? 2 then Ok CHARACTER
  else if v =? 1 then Ok FIF0
  else Error ValueError.

Definition eqb (a b : FileType) : bool :=
  match a, b with
  | SOCKET, SOCKET | LINK, LINK | REGULAR, REGULAR | BLOCK, BLOCK
  | FT_DIRECTORY, FT_DIRECTORY | CHARACTER, CHARACTER | FIF0, FIF0 => true
  | _, _ => false
  end.

End FileType.

Module Stat.

Record t : Type := mk {
  mode : Z;
  filetype : FileType;
  numlinks : Z;
  uid : Z;
  gid : Z;
  size : Z;
  atime : Z;
  mtime : Z;
  ctime : Z
}.

(** [struct.Struct("<HHHH6I")] and [struct.Struct("<H2xIQ7I")]. *)
Definition ver1_struct_size : Z := 32.
Definition ver2_struct_size : Z := 44.

Definition unpack (b : bytes) : result t :=
  '(parts0, numlinks, uid, gid, size, atime, mtime, ctime) <-?
    (if blen b =? ver1_struct_size then
       Ok (le_at b 0 2, le_at b 2 2, le_at b 4 2, le_at b 6 2,
           le_at b 8 4, le_at b 12 4, le_at b 16 4, le_at b 20 4)
     else if blen b =? ver2_struct_size then
       (* parts: mode, numlinks, size, uid, gid, atime, mtime, ctime, ... *)
       Ok (le_at b 0 2, le_at b 4 4, le_at b 16 4, le_at b 20 4,
           le_at b 8 8, le_at b 24 4, le_at b 28 4, le_at b 32 4)
     else Error StructError) ;;
  ft <-? FileType.of_value (Z.shiftr parts0 12) ;;
  Ok (mk (Z.land parts0 0xFFF) ft numlinks uid gid size atime mtime ctime).

End Stat.

Module DirectoryEntry.

Record t : Type := mk {
  offset : Z;
  dirid : Z;
  objid : Z;
  name : bytes;
  state : Z
}.

(** [struct.Struct("<IIIHH")], the entry header only. *)
Definition struct_size : Z := 16.

End DirectoryEntry.

Module Item.

Record t : Type := mk {
  key : Key.t;
  count : Z;
  version : Z;
  body : bytes
}.

(** The [while] loop of [directory_list]: advance [locationEnd] up to the
    implicit end or the first NUL.  [body[locationEnd]] raises [IndexError]
    beyond the body. *)
Fixpoint name_end (fuel : nat) (body : bytes) (implicitEnd locationEnd : Z) : result Z :=
  match fuel with
  | O => Ok locationEnd
  | S fuel' =>
      if locationEnd <? implicitEnd then
        match nth_error body (Z.to_nat locationEnd) with
        | None => Error IndexError
        | Some c =>
            if negb (Byte.eqb c Byte.x00)
            then name_end fuel' body implicitEnd (locationEnd + 1)
            else Ok locationEnd
        end
      else Ok locationEnd
  end.

Fixpoint directory_list_loop (n : nat) (body : bytes) (pos implicitEnd : Z)
  : result (list DirectoryEntry.t) :=
  match n with
  | O => Ok []
  | S n' =>
      let hdr := py_slice body pos (pos + DirectoryEntry.struct_size) in
      if negb (blen hdr =? DirectoryEntry.struct_size) then Error StructError else
      let location := le_at hdr 12 2 in
      locationEnd <-? name_end (Z.to_nat (implicitEnd - location)) body implicitEnd location ;;
      let entry :=
        DirectoryEntry.mk (le_at hdr 0 4) (le_at hdr 4 4) (le_at hdr 8 4)
                          (py_slice body location locationEnd) (le_at hdr 14 2) in
      rest <-? directory_list_loop n' body (pos + DirectoryEntry.struct_size) location ;;
      Ok (entry :: rest)
  end.

Definition directory_list (self : t) : result (list DirectoryEntry.t) :=
  directory_list_loop (Z.to_nat (count self)) (body self) 0 (blen (body self)).

Definition stat (self : t) : result Stat.t := Stat.unpack (body self).

(** [array.array("I", body)]: little-endian 32-bit block numbers; a body
    whose length is not a multiple of four is a [ValueError]. *)
Fixpoint words_of (n : nat) (b : bytes) : list Z :=
  match n with
  | O => []
  | S n' => le_at b 0 4 :: words_of n' (skipn 4 b)
  end.

Definition indirect_blocks (self : t) : result (list Z) :=
  if blen (body self) mod 4 =? 0
  then Ok (words_of (Z.to_nat (blen (body self) / 4)) (body self))
  else Error ValueError.

End Item.

Module ItemHdr.

Record t : Type := mk {
  key : Key.t;
  count : Z;
  length : Z;
  location : Z;
  version : Z
}.

(** [struct.Struct("<16sHHHH")]. *)
Definition struct_size : Z := 24.

Definition unpack (b : bytes) : result t :=
  if negb (blen b =? struct_size) then Error StructError else
  let parts4 := le_at b 22 2 in
  k <-? Key.unpack (firstn 16 b) (Some (parts4 + 1)) ;;
  Ok (mk k (le_at b 16 2) (le_at b 18 2) (le_at b 20 2) parts4).

End ItemHdr.

Module Node.

Record t : Type := mk {
  level : Z;
  item_count : Z;
  free_space : Z;
  payload : bytes
}.

(** [struct.Struct("<HHHxx16x4072s")]. *)
Definition struct_size : Z := 4096.

Definition unpack (b : bytes) : result t :=
  if negb (blen b =? struct_size) then Error StructError else
  Ok (mk (le_at b 0 2) (le_at b 2 2) (le_at b 4 2) (firstn 4072 (skipn 24 b))).

(** The key-scanning [for] loops of [ptr_find] and [ptr_find_range]: at most
    [n] more iterations from index [i] and byte position [pos]; [stop] is the
    [break] condition.  The result is the index the code goes on with, after
    the [else: i += 1] of an exhausted loop, and the byte position. *)
Fixpoint key_scan (stop : Key.t -> bool) (n : nat) (payload : bytes) (i pos : Z)
  : result (Z * Z) :=
  match n with
  | O => Ok (i, pos)
  | S n' =>
      k <-? Key.unpack (py_slice payload pos (pos + Key.struct_size)) None ;;
      if stop k then Ok (i, pos)
      else key_scan stop n' payload (i + 1) (pos + Key.struct_size)
  end.

(** [ptr_find] is memoised by [functools.lru_cache]; it has no effect, so
    the cache is not visible.  With no key in the node the [else] branch
    increments an unbound [i]. *)
Definition ptr_find (self : t) (key : Key.t) : result (option Z) :=
  if level self =? 1 then Ok None else
  _ <-? rassert (ItemType.eqb (Key.type key) STAT) ;;
  if item_count self <=? 0 then Error UnboundLocalError else
  '(i, _) <-? key_scan (fun ikey => Key.gtb ikey key)
                (Z.to_nat (item_count self)) (payload self) 0 0 ;;
  p <-? ptr_struct_unpack_from (payload self)
          (item_count self * Key.struct_size + i * ptr_struct_size) ;;
  Ok (Some p).

Fixpoint ptrs_from (n : nat) (payload : bytes) (item_count i : Z) : result (list Z) :=
  match n with
  | O => Ok []
  | S n' =>
      p <-? ptr_struct_unpack_from payload
              (item_count * Key.struct_size + i * ptr_struct_size) ;;
      rest <-? ptrs_from n' payload item_count (i + 1) ;;
      Ok (p :: rest)
  end.

(** [keyStart] is inclusive, [keyEnd] is exclusive. *)
Definition ptr_find_range (self : t) (keyStart keyEnd : Key.t) : result (option (list Z)) :=
  if level self =? 1 then Ok None else
  if item_count self <=? 0 then Error UnboundLocalError else
  '(start, pos) <-? key_scan (fun tmpkey => Key.gtb tmpkey keyStart)
                      (Z.to_nat (item_count self)) (payload self) 0 0 ;;
  '(end_, _) <-? key_scan (fun tmpkey => Key.geb tmpkey keyEnd)
                   (Z.to_nat (item_count self - start)) (payload self) start pos ;;
  found <-? ptrs_from (Z.to_nat (end_ + 1 - start)) (payload self) (item_count self) start ;;
  Ok (Some found).

Definition ptr_blocks (self : t) : result (list Z) :=
  if level self =? 1 then Ok [] else
  ptrs_from (Z.to_nat (item_count self + 1)) (payload self) (item_count self) 0.

Definition item_of_hdr (self : t) (hdr : ItemHdr.t) : Item.t :=
  let body := py_slice (payload self) (ItemHdr.location hdr - 24)
                       (ItemHdr.location hdr - 24 + ItemHdr.length hdr) in
  Item.mk (ItemHdr.key hdr) (ItemHdr.count hdr) (ItemHdr.version hdr) body.

Fixpoint items_loop (self : t) (n : nat) (pos : Z) : result (list Item.t) :=
  match n with
  | O => Ok []
  | S n' =>
      hdr <-? ItemHdr.unpack (py_slice (payload self) pos (pos + ItemHdr.struct_size)) ;;
      rest <-? items_loop self n' (pos + ItemHdr.struct_size) ;;
      Ok (item_of_hdr self hdr :: rest)
  end.

Definition items (self : t) : result (list Item.t) :=
  items_loop self (Z.to_nat (item_count self)) 0.

Fixpoint item_find_loop (self : t) (key : bytes) (n : nat) (pos : Z) : result (option Item.t) :=
  match n with
  | O => Ok None
  | S n' =>
      (* Key is first field of ItemHdr *)
      if bytes_eqb key (py_slice (payload self) pos (pos + Key.struct_size)) then
        hdr <-? ItemHdr.unpack (py_slice (payload self) pos (pos + ItemHdr.struct_size)) ;;
        Ok (Some (item_of_hdr self hdr))
      else item_find_loop self key n' (pos + ItemHdr.struct_size)
  end.

Definition item_find (self : t) (key : Key.t) : result (option Item.t) :=
  key <-? Key.pack key ;;
  item_find_loop self key (Z.to_nat (item_count self)) 0.

Fixpoint item_find_range_loop (self : t) (keyStart keyEnd : Key.t) (n : nat) (pos : Z)
  : result (list Item.t) :=
  match n with
  | O => Ok []
  | S n' =>
      hdr <-? ItemHdr.unpack (py_slice (payload self) pos (pos + ItemHdr.struct_size)) ;;
      rest <-? item_find_range_loop self keyStart keyEnd n' (pos + ItemHdr.struct_size) ;;
      if Key.leb keyStart (ItemHdr.key hdr) && Key.ltb (ItemHdr.key hdr) keyEnd
      then Ok (item_of_hdr self hdr :: rest)
      else Ok rest
  end.

Definition item_find_range (self : t) (keyStart keyEnd : Key.t) : result (list Item.t) :=
  item_find_range_loop self keyStart keyEnd (Z.to_nat (item_count self)) 0.

Fixpoint indirect_item_blocks_loop (its : list Item.t) : result (list Z) :=
  match its with
  | [] => Ok []
  | item :: rest =>
      if negb (ItemType.eqb (Key.type (Item.key item)) INDIRECT)
      then indirect_item_blocks_loop rest
      else
        bs <-? Item.indirect_blocks item ;;
        more <-? indirect_item_blocks_loop rest ;;
        Ok (bs ++ more)
  end.

Definition indirect_item_blocks (self : t) : result (list Z) :=
  if negb (level self =? 1) then Ok [] else
  its <-? items self ;;
  indirect_item_blocks_loop its.

End Node.

(** ** The rescue map ([parse_ddrescue.py]) *)

Inductive Status : Type := NON_TRIED | NON_TRIMMED | NON_SCRAPED | BAD | FINISHED.

Module Status.

Definition eqb (a b : Status) : bool :=
  match a, b with
  | NON_TRIED, NON_TRIED | NON_TRIMMED, NON_TRIMMED | NON_SCRAPED, NON_SCRAPED
  | BAD, BAD | FINISHED, FINISHED => true
  | _, _ => false
  end.

End Status.

Module RescueMap.

Definition entry : Type := (Z * Z * Status)%type.

Record t : Type := mk {
  _ranges : list entry;
  offset : Z
}.

(** [bisect.bisect_left(a, (position,))].  An entry [(start, size, status)]
    is smaller than the one-element tuple [(position,)] exactly when
    [start < position]: on equal first components the shorter tuple is the
    smaller one.  The loop halves [hi - lo], so [length a] rounds suffice. *)
Fixpoint bisect_left_loop (fuel : nat) (a : list entry) (x : Z) (lo hi : nat) : nat :=
  match fuel with
  | O => lo
  | S fuel' =>
      if (lo <? hi)%nat then
        let mid := ((lo + hi) / 2)%nat in
        match nth_error a mid with
        | Some (start, _, _) =>
            if start <? x
            then bisect_left_loop fuel' a x (S mid) hi
            else bisect_left_loop fuel' a x lo mid
        | None => lo
        end
      else lo
  end.

Definition bisect_left (a : list entry) (x : Z) : nat :=
  bisect_left_loop (List.length a) a x 0 (List.length a).

(** [__getitem__] at an integer position.  [ValueError] is the map's own
    out-of-range error; the [assert] is a separate failure. *)
Definition getitem (self : t) (position : Z) : result Status :=
  let position := position + offset self in
  let i := bisect_left (_ranges self) position in
  let hit :=
    if negb (i =? List.length (_ranges self))%nat then
      match nth_error (_ranges self) i with
      | Some (start, _, val) => if start =? position then Some val else None
      | None => None
      end
    else None in
  match hit with
  | Some val => Ok val
  | None =>
      if negb (i =? 0)%nat then
        match nth_error (_ranges self) (i - 1) with
        | Some (start, size, val) =>
            _ <-? rassert ((start <=? position) && (start + size >? position)) ;;
            Ok val
        | None => Error IndexError
        end
      else Error ValueError
  end.

Definition size (self : t) : result Z :=
  match rev (_ranges self) with
  | (start, size, _) :: _ => Ok (start + size)
  | [] => Error IndexError
  end.

(** [RescueMap(ranges)]. *)
Definition new (ranges : list entry) : t := mk ranges 0.

(** [__iter__]: the entries, their starts taken relative to the offset. *)
Definition iter (self : t) : list entry :=
  map (fun '(start, size, val) => (start - offset self, size, val)) (_ranges self).

(** The invariant of a map: positive sizes, every entry starting where the
    previous one ends (sorted, no gaps, no overlaps). *)
Fixpoint contiguous_from (start : Z) (l : list entry) : Prop :=
  match l with
  | [] => True
  | (s, n, _) :: tl => s = start /\ 0 < n /\ contiguous_from (s + n) tl
  end.

Definition first_start (l : list entry) : Z :=
  match l with
  | (s, _, _) :: _ => s
  | [] => 0
  end.

Definition total_end (l : list entry) : Z :=
  fold_left (fun _ e => fst (fst e) + snd (fst e)) l (first_start l).

Definition well_formed (self : t) : Prop :=
  contiguous_from (first_start (_ranges self)) (_ranges self).

End RescueMap.

(** ** Range lists *)

Module Range.

Record t : Type := mk {
  start : Z;
  size : Z
}.

Definition end_ (r : t) : Z := start r + size r.

(** [__lt__]: by start, then by size. *)
Definition ltb (a b : t) : bool :=
  if start a <? start b then true
  else if start a >? start b then false
  else size a <? size b.

End Range.

Module RangeList.

Record t : Type := mk {
  items : list Range.t
}.

Definition empty : t := mk [].

(** Assumes ranges are added start-to-end and never overlap. *)
Definition add (self : t) (start size : Z) : result t :=
  match rev (items self) with
  | last :: before =>
      if Range.start last + Range.size last =? start then
        Ok (mk (rev before ++ [Range.mk (Range.start last) (Range.size last + size)]))
      else
        _ <-? rassert (Range.start last + Range.size last <? start) ;;
        Ok (mk (items self ++ [Range.mk start size]))
  | [] => Ok (mk (items self ++ [Range.mk start size]))
  end.

End RangeList.

(** ** Integer and list helpers of the Python runtime *)

(** [a // b]. *)
Definition floordiv (a b : Z) : result Z :=
  if b =? 0 then Error ZeroDivisionError else Ok (a / b).

(** [a % b]. *)
Definition pymod (a b : Z) : result Z :=
  if b =? 0 then Error ZeroDivisionError else Ok (a mod b).

(** [math.ceil(x / 512)]. *)
Definition ceil_div_512 (x : Z) : Z := - ((- x) / 512).

(** [range(a, b)]. *)
Definition zrange (a b : Z) : list Z :=
  map (fun i => a + Z.of_nat i) (seq 0 (Z.to_nat (b - a))).

(** [range(a, b, step)] for a positive step; a zero step is a
    [ValueError].  The code only uses steps that are at least zero. *)
Definition zrange_step (a b step : Z) : result (list Z) :=
  if step =? 0 then Error ValueError
  else Ok (map (fun i => a + Z.of_nat i * step)
               (seq 0 (Z.to_nat ((b - a + step - 1) / step)))).

(** [list.sort()], as a stable insertion sort for a given [<]. *)
Section Sort.
Context {A : Type} (lt : A -> A -> bool).

Fixpoint insert_sorted (x : A) (l : list A) : list A :=
  match l with
  | [] => [x]
  | y :: tl => if lt y x then y :: insert_sorted x tl else x :: y :: tl
  end.

Definition sort (l : list A) : list A := fold_right insert_sorted [] l.

End Sort.

(** A Python [set] of integers, kept as a duplicate-free list; only its
    sorted contents are ever observed. *)
Definition set_add (x : Z) (s : list Z) : list Z :=
  if existsb (Z.eqb x) s then s else s ++ [x].

Definition set_update (s : list Z) (xs : list Z) : list Z :=
  fold_left (fun s x => set_add x s) xs s.

(** ** The status picture of a map ([parse_ddrescue.py]) *)

Definition statusToBits (s : Status) : Z :=
  match s with
  | NON_TRIED => 0
  | NON_TRIMMED => 2
  | NON_SCRAPED => 2
  | BAD => 4
  | FINISHED => 1
  end.

(** [arr[i] |= bits] on a [bytearray]: a negative index counts from the
    end, an index outside the array is an [IndexError], and a value that is
    not a byte is a [ValueError]. *)
Definition bytearray_or (arr : bytes) (i bits : Z) : result bytes :=
  let i := if i <? 0 then i + blen arr else i in
  if (i <? 0) || (blen arr <=? i) then Error IndexError else
  match nth_error arr (Z.to_nat i) with
  | None => Error IndexError
  | Some c =>
      let v := Z.lor (byte.unsigned c) bits in
      if (0 <=? v) && (v <? 256)
      then Ok (firstn (Z.to_nat i) arr ++ byte.of_Z v :: skipn (S (Z.to_nat i)) arr)
      else Error ValueError
  end.

(** The inner loop of [compute_bitmap]: the pixels of one entry. *)
Fixpoint compute_bitmap_pixels (arr : bytes) (start_off bits : Z) (offs : list Z)
  : result bytes :=
  match offs with
  | [] => Ok arr
  | off :: tl =>
      arr <-? bytearray_or arr (start_off + off) bits ;;
      compute_bitmap_pixels arr start_off bits tl
  end.

Fixpoint compute_bitmap_loop (arr : bytes) (bytes_per_pixel : Z)
  (entries : list RescueMap.entry) : result bytes :=
  match entries with
  | [] => Ok arr
  | (start, size, status) :: tl =>
      let bits := statusToBits status in
      start_off <-? floordiv start bytes_per_pixel ;;
      m <-? pymod start bytes_per_pixel ;;
      last <-? floordiv (m + size - 1) bytes_per_pixel ;;
      arr <-? compute_bitmap_pixels arr start_off bits (zrange 0 (last + 1)) ;;
      compute_bitmap_loop arr bytes_per_pixel tl
  end.

(** [bytearray(n)] of a negative [n] is a [ValueError]. *)
Definition compute_bitmap (rescue_map : RescueMap.t) (bytes_per_pixel : Z) : result bytes :=
  disk_size <-? RescueMap.size rescue_map ;;
  n <-? floordiv disk_size bytes_per_pixel ;;
  if n + 1 <? 0 then Error ValueError else
  compute_bitmap_loop (zeros (n + 1)) bytes_per_pixel (RescueMap.iter rescue_map).

(** ** Output *)

(** A name as [get_name] and [get_full_name] produce it: bytes read from
    the disk, or the [dirid_objid] fallback [f"{dirid}_{objid}".encode()]. *)
Inductive name_part : Type :=
| NameBytes (b : bytes)
| NameIds (dirid objid : Z).

(** One printed value.  [TBytes b] stands for the text [b.decode()],
    [TReplace b] for [b.decode(errors="replace")] and [TPath parts] for
    [b"/".join(parts).decode(errors="replace")]. *)
Inductive token : Type :=
| TInt (z : Z)
| TStr (s : string)
| TBytes (b : bytes)
| TReplace (b : bytes)
| TPath (parts : list name_part)
| TFileType (f : FileType).

(** [print(v1, v2, ...)], the values separated by blanks; [print(f"...")]
    of one formatted string given by its pieces; a raw write of bytes. *)
Inductive output : Type :=
| Print (l : list token)
| PrintF (pieces : list token)
| Write (b : bytes).

(** ** The reader and its state *)

(** [fs.sectors] is a list, or a [SetList] whose [append] adds to a set. *)
Inductive sector_list : Type :=
| PyList (l : list Z)
| SetList (s : list Z).

Module ReiserFs.

Record t : Type := mk {
  f : bytes;
  rescue_map : RescueMap.t;
  sectors : sector_list;
  block_size : Z;
  sectors_per_block : Z;
  superblock : option Superblock.t;
  incomplete : bool;
  partition_start : Z
}.

(** [ReiserFs(f, rescue_map)]. *)
Definition new (f : bytes) (rescue_map : RescueMap.t) : t :=
  mk f rescue_map (PyList []) 512 (512 / 512) None false 0.

End ReiserFs.

(** The arguments of a [readNode] call as [functools.lru_cache] keys them:
    [readNode(block)] and [readNode(block, partial_only=p)] are different
    keys. *)
Definition cache_key : Type := (Z * option bool)%type.

Definition cache_key_eqb (a b : cache_key) : bool :=
  (fst a =? fst b) &&
  match snd a, snd b with
  | None, None => true
  | Some x, Some y => Bool.eqb x y
  | _, _ => false
  end.

Record World : Type := mkWorld {
  fs : ReiserFs.t;
  (** the memo table of [readNode], most recently used first *)
  readNode_cache : list (cache_key * (bool * option Node.t));
  stdout : list output;
  stderr : list output
}.

(** How a run ends: with a value, with an exception, or (in the model only)
    out of fuel, standing for a loop that has not finished yet. *)
Inductive outcome (A : Type) : Type :=
| Ret (a : A) (w : World)
| Exc (e : exn) (w : World)
| OutOfFuel.
Arguments Ret {A} a w.
Arguments Exc {A} e w.
Arguments OutOfFuel {A}.

Definition M (A : Type) : Type := World -> outcome A.

Definition ret {A : Type} (a : A) : M A := fun w => Ret a w.

Definition bind {A B : Type} (m : M A) (k : A -> M B) : M B :=
  fun w =>
    match m w with
    | Ret a w' => k a w'
    | Exc e w' => Exc e w'
    | OutOfFuel => OutOfFuel
    end.

Definition raise {A : Type} (e : exn) : M A := fun w => Exc e w.

Definition out_of_fuel {A : Type} : M A := fun _ => OutOfFuel.

Definition lift {A : Type} (r : result A) : M A :=
  match r with
  | Ok a => ret a
  | Error e => raise e
  end.

Notation "x <- e ;; k" := (bind e (fun x => k))
  (at level 61, e at next level, right associativity).
Notation "' p <- e ;; k" := (bind e (fun x => let p := x in k))
  (at level 61, p pattern, e at next level, right associativity).
Notation "e ;;; k" := (bind e (fun _ => k))
  (at level 61, right associativity).

Definition assert_ (b : bool) : M unit := lift (rassert b).

Definition get_fs : M ReiserFs.t := fun w => Ret (fs w) w.

Definition set_fs (x : ReiserFs.t) : M unit :=
  fun w => Ret tt (mkWorld x (readNode_cache w) (stdout w) (stderr w)).

Definition print_stdout (l : list token) : M unit :=
  fun w => Ret tt (mkWorld (fs w) (readNode_cache w) (stdout w ++ [Print l]) (stderr w)).

Definition write_stdout (b : bytes) : M unit :=
  fun w => Ret tt (mkWorld (fs w) (readNode_cache w) (stdout w ++ [Write b]) (stderr w)).

Definition print_stderr (l : list token) : M unit :=
  fun w => Ret tt (mkWorld (fs w) (readNode_cache w) (stdout w) (stderr w ++ [Print l])).

Definition printf_stderr (pieces : list token) : M unit :=
  fun w => Ret tt (mkWorld (fs w) (readNode_cache w) (stdout w) (stderr w ++ [PrintF pieces])).

Definition set_sectors (s : sector_list) : M unit :=
  x <- get_fs ;;
  set_fs (ReiserFs.mk (ReiserFs.f x) (ReiserFs.rescue_map x) s (ReiserFs.block_size x)
            (ReiserFs.sectors_per_block x) (ReiserFs.superblock x) (ReiserFs.incomplete x)
            (ReiserFs.partition_start x)).

Definition set_incomplete (b : bool) : M unit :=
  x <- get_fs ;;
  set_fs (ReiserFs.mk (ReiserFs.f x) (ReiserFs.rescue_map x) (ReiserFs.sectors x)
            (ReiserFs.block_size x) (ReiserFs.sectors_per_block x) (ReiserFs.superblock x)
            b (ReiserFs.partition_start x)).

Definition set_superblock (sb : Superblock.t) (block_size sectors_per_block : Z) : M unit :=
  x <- get_fs ;;
  set_fs (ReiserFs.mk (ReiserFs.f x) (ReiserFs.rescue_map x) (ReiserFs.sectors x)
            block_size sectors_per_block (Some sb) (ReiserFs.incomplete x)
            (ReiserFs.partition_start x)).

(** [self.sectors.append(x)]. *)
Definition sectors_append (x : Z) : M unit :=
  s <- get_fs ;;
  match ReiserFs.sectors s with
  | PyList l => set_sectors (PyList (l ++ [x]))
  | SetList l => set_sectors (SetList (set_add x l))
  end.

(** [self.rescue_map[position]]. *)
Definition rescue_map_getitem (position : Z) : M Status :=
  s <- get_fs ;;
  lift (RescueMap.getitem (ReiserFs.rescue_map s) position).

(** [self.superblock.<field>]; without a superblock an [AttributeError]. *)
Definition get_superblock : M Superblock.t :=
  s <- get_fs ;;
  match ReiserFs.superblock s with
  | Some sb => ret sb
  | None => raise AttributeError
  end.

(** [f.seek(pos); f.read(n)]: up to [n] bytes from [pos], fewer at the end
    of the file; a negative [n] reads to the end. *)
Definition file_read (img : bytes) (pos n : Z) : bytes :=
  if n <? 0 then skipn (Z.to_nat pos) img
  else firstn (Z.to_nat n) (skipn (Z.to_nat pos) img).

(** ** Generators *)

(** What a consumer tells a generator after a yielded value: go on, or the
    consumer has left its loop and the generator is never resumed. *)
Inductive flow (A : Type) : Type :=
| Continue (a : A)
| Break (a : A).
Arguments Continue {A} a.
Arguments Break {A} a.

Definition consumer (Y A : Type) : Type := A -> Y -> M (flow A).

(** Sequencing inside a generator: a part that was left by [Break] skips
    everything after it. *)
Definition gbind {A B : Type} (m : M (flow A)) (k : A -> M (flow B)) (brk : A -> B)
  : M (flow B) :=
  r <- m ;;
  match r with
  | Continue a => k a
  | Break a => ret (Break (brk a))
  end.

(** [for y in l: <body>] where the body may leave the loop; with
    [body := consume] it is [yield from l]. *)
Fixpoint for_each {Y A : Type} (l : list Y) (body : A -> Y -> M (flow A)) (acc : A)
  : M (flow A) :=
  match l with
  | [] => ret (Continue acc)
  | y :: tl => gbind (body acc y) (for_each tl body) (fun a => a)
  end.

(** The consumer of [list(generator)]. *)
Definition collect {Y : Type} : consumer Y (list Y) :=
  fun acc y => ret (Continue (acc ++ [y])).

Definition flow_value {A : Type} (r : flow A) : A :=
  match r with
  | Continue a => a
  | Break a => a
  end.

(** ** [ReiserFs] methods *)

Definition readBlock (block_num : Z) : M bytes :=
  s <- get_fs ;;
  let pos := ReiserFs.partition_start s + block_num * ReiserFs.block_size s in
  if pos <? 0 then raise OSError
  else ret (file_read (ReiserFs.f s) pos (ReiserFs.block_size s)).

Definition init : M bool :=
  sectors_append (65536 / 512) ;;;
  st <- rescue_map_getitem 65536 ;;
  if negb (Status.eqb st FINISHED) then ret false else
  s <- get_fs ;;
  blk <- lift (floordiv 65536 (ReiserFs.block_size s)) ;;
  b <- readBlock blk ;;
  sb <- lift (Superblock.unpack (py_slice b 0 0x50)) ;;
  set_superblock sb (Superblock.blocksize sb) (Superblock.blocksize sb / 512) ;;;
  ret true.

Fixpoint isBlockComplete_loop (sectors : list Z) : M bool :=
  match sectors with
  | [] => ret true
  | sector :: tl =>
      st <- rescue_map_getitem sector ;;
      if negb (Status.eqb st FINISHED) then ret false else isBlockComplete_loop tl
  end.

Definition isBlockComplete (block_num : Z) : M bool :=
  s <- get_fs ;;
  let start_sector := block_num * ReiserFs.block_size s in
  sectors <- lift (zrange_step start_sector (start_sector + ReiserFs.block_size s) 512) ;;
  isBlockComplete_loop sectors.

(** The sector offsets [readNode] goes through: the set built from the two
    ranges, taken in ascending order. *)
Definition node_offsets (node_size_left node_size_right sectors_per_block : Z) : list Z :=
  sort Z.ltb
    (set_update []
       (zrange 1 (ceil_div_512 node_size_left) ++
        zrange (sectors_per_block - ceil_div_512 node_size_right) sectors_per_block)).

Fixpoint readNode_offsets (block : Z) (offs : list Z) (incomplete : bool) : M bool :=
  match offs with
  | [] => ret incomplete
  | off :: tl =>
      if off =? 0 then readNode_offsets block tl incomplete else
      s <- get_fs ;;
      sectors_append (block * ReiserFs.sectors_per_block s + off) ;;;
      if negb incomplete then
        st <- rescue_map_getitem (block * ReiserFs.block_size s + off * 512) ;;
        readNode_offsets block tl (negb (Status.eqb st FINISHED))
      else readNode_offsets block tl incomplete
  end.

(** The body of [readNode], run on a cache miss. *)
Definition readNode_body (block : Z) (partial_only : bool) : M (bool * option Node.t) :=
  s <- get_fs ;;
  (if negb partial_only
   then sectors_append (block * ReiserFs.sectors_per_block s)
   else ret tt) ;;;
  st <- rescue_map_getitem (block * ReiserFs.block_size s) ;;
  if negb (Status.eqb st FINISHED) then ret (false, None) else
  b <- readBlock block ;;
  node <- lift (Node.unpack b) ;;
  let node_size_left :=
    if Node.level node =? 1
    then 24 + Node.item_count node * ItemHdr.struct_size
    else ReiserFs.block_size s - Node.free_space node in
  let node_size_right :=
    if Node.level node =? 1
    then ReiserFs.block_size s - node_size_left - Node.free_space node
    else 0 in
  incomplete <- readNode_offsets block
                  (node_offsets node_size_left node_size_right (ReiserFs.sectors_per_block s))
                  false ;;
  ret (negb incomplete, Some node).

Definition lru_maxsize : nat := 128.

(** [readNode] behind [functools.lru_cache(maxsize=128)]: a hit returns the
    stored result without running the body, so without touching
    [fs.sectors]; a call that raises stores nothing.  [partial_only = None]
    is a call that leaves the argument out. *)
Definition readNode (block : Z) (partial_only : option bool) : M (bool * option Node.t) :=
  fun w =>
    let k : cache_key := (block, partial_only) in
    match List.find (fun e => cache_key_eqb (fst e) k) (readNode_cache w) with
    | Some (_, v) =>
        Ret v (mkWorld (fs w)
                 ((k, v) :: filter (fun e => negb (cache_key_eqb (fst e) k)) (readNode_cache w))
                 (stdout w) (stderr w))
    | None =>
        match readNode_body block (match partial_only with Some p => p | None => false end) w with
        | Ret v w' =>
            Ret v (mkWorld (fs w') (firstn lru_maxsize ((k, v) :: readNode_cache w'))
                     (stdout w') (stderr w'))
        | Exc e w' => Exc e w'
        | OutOfFuel => OutOfFuel
        end
    end.

(** [find_item]: one round of the [while True] loop per unit of fuel. *)
Fixpoint find_item_loop (fuel : nat) (key : Key.t) (treeBlock : Z) : M (option Item.t) :=
  match fuel with
  | O => out_of_fuel
  | S fuel' =>
      '(complete, node) <- readNode treeBlock None ;;
      if negb complete then ret None else
      match node with
      | None => raise AttributeError
      | Some node =>
          if Node.level node =? 1 then lift (Node.item_find node key)
          else
            next <- lift (Node.ptr_find node key) ;;
            match next with
            | Some treeBlock' => find_item_loop fuel' key treeBlock'
            | None => raise AttributeError
            end
      end
  end.

Definition find_item (fuel : nat) (key : Key.t) : M (option Item.t) :=
  sb <- get_superblock ;;
  find_item_loop fuel key (Superblock.root_block sb).

(** [iter_items_in_range] from a given tree block; [keyStart] is inclusive,
    [keyEnd] is exclusive.  The recursion is as deep as the tree. *)
Fixpoint iter_items_in_range_from (fuel : nat) (keyStart keyEnd : Key.t) (treeBlock : Z)
  {A : Type} (consume : consumer Item.t A) (acc : A) : M (flow A) :=
  match fuel with
  | O => out_of_fuel
  | S fuel' =>
      '(complete, node) <- readNode treeBlock None ;;
      if negb complete then ret (Continue acc) else
      match node with
      | None => raise AttributeError
      | Some node =>
          if Node.level node =? 1 then
            its <- lift (Node.item_find_range node keyStart keyEnd) ;;
            for_each its consume acc
          else
            ptrs <- lift (Node.ptr_find_range node keyStart keyEnd) ;;
            match ptrs with
            | Some ptrs =>
                for_each ptrs
                  (fun acc treeBlock' =>
                     iter_items_in_range_from fuel' keyStart keyEnd treeBlock' consume acc)
                  acc
            | None => raise AttributeError
            end
      end
  end.

Definition iter_items_in_range (fuel : nat) (keyStart keyEnd : Key.t)
  {A : Type} (consume : consumer Item.t A) (acc : A) : M (flow A) :=
  sb <- get_superblock ;;
  iter_items_in_range_from fuel keyStart keyEnd (Superblock.root_block sb) consume acc.

(** What [regular_block_list] yields: a block number (an [int], 0 for a
    hole of one block) or literal file bytes. *)
Inductive chunk : Type :=
| Block (n : Z)
| Data (b : bytes).

(** The expected size both listings start with: the size in the object's
    Stat item, or -1 when the item cannot be retrieved. *)
Definition expected_size (fuel : nat) (key : Key.t) (ft : FileType) : M Z :=
  item <- find_item fuel key ;;
  match item with
  | None => ret (-1)
  | Some item =>
      stat <- lift (Item.stat item) ;;
      assert_ (FileType.eqb (Stat.filetype stat) ft) ;;;
      ret (Stat.size stat)
  end.

(** The loop body of [regular_block_list] for one item; the generator's own
    variable [size] travels with the consumer's accumulator. *)
Definition regular_block_list_item {A : Type} (consume : consumer chunk A)
  (st : Z * A) (item : Item.t) : M (flow (Z * A)) :=
  let '(size, acc) := st in
  let offset := Key.offset (Item.key item) in
  assert_ (offset >=? size) ;;;
  gbind
    (if offset >? size then
       set_incomplete true ;;;
       let missing := offset - size in
       s <- get_fs ;;
       whole <- lift (floordiv missing (ReiserFs.block_size s)) ;;
       gbind (for_each (repeat (Block 0) (Z.to_nat whole)) consume acc)
         (fun acc =>
            tail <- lift (pymod missing (ReiserFs.block_size s)) ;;
            gbind (if negb (tail =? 0) then consume acc (Data (zeros tail))
                   else ret (Continue acc))
              (fun acc => ret (Continue (size + missing, acc)))
              (fun acc => (size, acc)))
         (fun acc => (size, acc))
     else ret (Continue (size, acc)))
    (fun '(size, acc) =>
       if ItemType.eqb (Key.type (Item.key item)) INDIRECT then
         s <- get_fs ;;
         let size := size + blen (Item.body item) / 4 * ReiserFs.block_size s in
         blocks <- lift (Item.indirect_blocks item) ;;
         gbind (for_each (map Block blocks) consume acc)
           (fun acc => ret (Continue (size, acc)))
           (fun acc => (size, acc))
       else if ItemType.eqb (Key.type (Item.key item)) DIRECT then
         let size := size + blen (Item.body item) in
         gbind (consume acc (Data (Item.body item)))
           (fun acc => ret (Continue (size, acc)))
           (fun acc => (size, acc))
       else ret (Continue (size, acc)))
    (fun st => st).

Definition regular_block_list (fuel : nat) (key : Key.t)
  {A : Type} (consume : consumer chunk A) (acc : A) : M (flow A) :=
  assert_ (ItemType.eqb (Key.type key) STAT) ;;;
  expectedSize <- expected_size fuel key REGULAR ;;
  let keyStart := Key.mk (Key.dirid key) (Key.objid key) 1 STAT 1 in
  let keyEnd := Key.mk (Key.dirid key) (Key.objid key + 1) 0 STAT 1 in
  gbind
    (iter_items_in_range fuel keyStart keyEnd (regular_block_list_item consume) (1, acc))
    (fun '(size, acc) =>
       (if size <? expectedSize then set_incomplete true else ret tt) ;;;
       ret (Continue acc))
    snd.

Definition directory_list_item {A : Type} (consume : consumer DirectoryEntry.t A)
  (st : Z * A) (item : Item.t) : M (flow (Z * A)) :=
  let '(size, acc) := st in
  let size := size + blen (Item.body item) in
  entries <- lift (Item.directory_list item) ;;
  gbind (for_each entries consume acc)
    (fun acc => ret (Continue (size, acc)))
    (fun acc => (size, acc)).

Definition directory_list (fuel : nat) (key : Key.t)
  {A : Type} (consume : consumer DirectoryEntry.t A) (acc : A) : M (flow A) :=
  assert_ (ItemType.eqb (Key.type key) STAT) ;;;
  expectedSize <- expected_size fuel key FT_DIRECTORY ;;
  (* It appears that directory keys mostly use version 1 *)
  let keyStart := Key.mk (Key.dirid key) (Key.objid key) 1 DIRECTORY 1 in
  let keyEnd := Key.mk (Key.dirid key) (Key.objid key + 1) 0 STAT 1 in
  gbind
    (iter_items_in_range fuel keyStart keyEnd (directory_list_item consume) (0, acc))
    (fun '(size, acc) =>
       (if negb (size =? expectedSize) then set_incomplete true else ret tt) ;;;
       ret (Continue acc))
    snd.

Definition file_indirect_blocks_item {A : Type} (consume : consumer Z A)
  (acc : A) (item : Item.t) : M (flow A) :=
  if negb (ItemType.eqb (Key.type (Item.key item)) INDIRECT) then ret (Continue acc)
  else
    blocks <- lift (Item.indirect_blocks item) ;;
    for_each blocks consume acc.

Definition file_indirect_blocks (fuel : nat) (key : Key.t)
  {A : Type} (consume : consumer Z A) (acc : A) : M (flow A) :=
  assert_ (ItemType.eqb (Key.type key) STAT) ;;;
  let keyStart := Key.mk (Key.dirid key) (Key.objid key) 1 INDIRECT 1 in
  let keyEnd := Key.mk (Key.dirid key) (Key.objid key + 1) 0 STAT 1 in
  iter_items_in_range fuel keyStart keyEnd (file_indirect_blocks_item consume) acc.

(** ** Byte-string functions used on paths *)

Definition slash : byte := Byte.x2f.
Definition underscore : byte := Byte.x5f.
Definition dash : byte := Byte.x2d.
Definition dot : byte := Byte.x2e.

(** [b.split(sep)] for a one-byte separator. *)
Fixpoint split_on (sep : byte) (b : bytes) : list bytes :=
  match b with
  | [] => [[]]
  | c :: tl =>
      if Byte.eqb c sep then [] :: split_on sep tl
      else match split_on sep tl with
           | p :: ps => (c :: p) :: ps
           | [] => [[c]]
           end
  end.

(** [sep.join(parts)]. *)
Fixpoint join (sep : byte) (parts : list bytes) : bytes :=
  match parts with
  | [] => []
  | [p] => p
  | p :: tl => p ++ sep :: join sep tl
  end.

Definition is_space (c : byte) : bool :=
  existsb (Byte.eqb c) [Byte.x20; Byte.x09; Byte.x0a; Byte.x0b; Byte.x0c; Byte.x0d].

Fixpoint lstrip (b : bytes) : bytes :=
  match b with
  | c :: tl => if is_space c then lstrip tl else b
  | [] => []
  end.

Fixpoint digits_value (acc : Z) (b : bytes) : result Z :=
  match b with
  | [] => Ok acc
  | c :: tl =>
      let v := byte.unsigned c in
      if (48 <=? v) && (v <=? 57) then digits_value (acc * 10 + (v - 48)) tl
      else Error ValueError
  end.

(** [int(b)] on a part of a name split at underscores: optional blanks
    around, an optional sign, decimal digits. *)
Definition py_int (b : bytes) : result Z :=
  let s := rev (lstrip (rev (lstrip b))) in
  let '(negative, digits) :=
    match s with
    | c :: tl =>
        if Byte.eqb c dash then (true, tl)
        else if Byte.eqb c Byte.x2b then (false, tl)
        else (false, s)
    | [] => (false, s)
    end in
  match digits with
  | [] => Error ValueError
  | _ => v <-? digits_value 0 digits ;; Ok (if negative then - v else v)
  end.

(** ** Path resolution *)

Definition stat_key (dirid objid : Z) : Key.t := Key.mk dirid objid 0 STAT 2.

Fixpoint path_to_key_loop (fuel : nat) (parts : list bytes) (dirKey : Key.t)
  : M (option Key.t) :=
  match parts with
  | [] => ret (Some dirKey)
  | part :: tl =>
      if bytes_eqb part [] then path_to_key_loop fuel tl dirKey else
      r <- directory_list fuel dirKey
             (fun (_ : option Key.t) entry =>
                if bytes_eqb part (DirectoryEntry.name entry)
                then ret (Break (Some (stat_key (DirectoryEntry.dirid entry)
                                                (DirectoryEntry.objid entry))))
                else ret (Continue None))
             None ;;
      match r with
      | Break (Some k) => path_to_key_loop fuel tl k
      | _ => ret None
      end
  end.

Definition path_to_key (fuel : nat) (name : bytes) : M (option Key.t) :=
  let parts := split_on slash name in
  let parts0 := hd [] parts in
  dirKey <-
    (if negb (bytes_eqb parts0 []) then
       (* Unnamed file, identified by dirid_objid *)
       let id_parts := split_on underscore parts0 in
       assert_ (List.length id_parts =? 2)%nat ;;;
       a <- lift (py_int (nth 0 id_parts [])) ;;
       b <- lift (py_int (nth 1 id_parts [])) ;;
       ret (stat_key a b)
     else
       (* Rooted file *)
       ret (stat_key 1 2)) ;;
  path_to_key_loop fuel (tl parts) dirKey.

Definition get_name (fuel : nat) (key parent : Key.t) : M (option bytes) :=
  if Key.objid key =? 2 then ret (Some []) (* root *) else
  r <- directory_list fuel parent
         (fun (_ : option bytes) entry =>
            if DirectoryEntry.objid entry =? Key.objid key
            then ret (Break (Some (DirectoryEntry.name entry)))
            else ret (Continue None))
         None ;;
  ret (flow_value r).

(** The consumer of [itertools.islice(directory_list(parent), 2)] looking
    for [".."]: it counts the entries seen and leaves after the second. *)
Definition dotdot : bytes := [dot; dot].

Definition first_two_dotdot : consumer DirectoryEntry.t (nat * option DirectoryEntry.t) :=
  fun st entry =>
    let n := S (fst st) in
    if bytes_eqb (DirectoryEntry.name entry) dotdot then ret (Break (n, Some entry))
    else if (2 <=? n)%nat then ret (Break (n, None))
    else ret (Continue (n, None)).

(** [get_full_name]: the name parts from the innermost outwards; the code
    reverses them and joins them with slashes. *)
Fixpoint get_full_name_loop (fuel n : nat) (key parent : Key.t) (parts : list name_part)
  : M (list name_part) :=
  match n with
  | O => out_of_fuel
  | S n' =>
      part <- get_name fuel key parent ;;
      let part :=
        match part with
        | Some p => NameBytes p
        | None => NameIds (Key.dirid key) (Key.objid key)
        end in
      let parts := parts ++ [part] in
      if Key.objid key =? 2 then ret parts (* At the root *) else
      r <- directory_list fuel parent first_two_dotdot (O, None) ;;
      match snd (flow_value r) with
      | Some entry =>
          get_full_name_loop fuel n' parent
            (stat_key (DirectoryEntry.dirid entry) (DirectoryEntry.objid entry)) parts
      | None => ret parts (* Assume this name part was in the dirid_objid format *)
      end
  end.

Definition get_full_name (fuel : nat) (key parent : Key.t) : M (list name_part) :=
  parts <- get_full_name_loop fuel fuel key parent [] ;;
  ret (rev parts).

(** ** The two-heap tree walk *)

(** A heap entry [(block, level)]; entries compare as tuples. *)
Definition heap_entry : Type := (Z * Z)%type.

Definition entry_ltb (a b : heap_entry) : bool :=
  (fst a <? fst b) || ((fst a =? fst b) && (snd a <? snd b)).

(** [heapq] is taken by its contract: a heap is a bag of entries,
    [heappop] removes and returns a least one, [heappush] adds one and
    [heapify] rearranges nothing observable. *)
Fixpoint heap_min (x : heap_entry) (l : list heap_entry) : heap_entry :=
  match l with
  | [] => x
  | y :: tl => heap_min (if entry_ltb y x then y else x) tl
  end.

Definition entry_eqb (a b : heap_entry) : bool :=
  (fst a =? fst b) && (snd a =? snd b).

Fixpoint remove_first (x : heap_entry) (l : list heap_entry) : list heap_entry :=
  match l with
  | [] => []
  | y :: tl => if entry_eqb x y then tl else y :: remove_first x tl
  end.

Definition heappop (h : list heap_entry) : option (heap_entry * list heap_entry) :=
  match h with
  | [] => None
  | x :: tl => let m := heap_min x tl in Some (m, remove_first m h)
  end.

Definition heappush (h : list heap_entry) (x : heap_entry) : list heap_entry := x :: h.

Definition heapify (h : list heap_entry) : list heap_entry := h.

(** The variables of the walk.  [passes] is not a variable of the code: it
    records, pass by pass, the block numbers popped so far. *)
Record walk : Type := mkWalk {
  heap : list heap_entry;
  next_pass : list heap_entry;
  found : Z;
  incomplete_count : Z;
  partial : Z;
  passes : list (list Z)
}.

Definition walk_start (root_block : Z) : walk :=
  mkWalk [] [(root_block, -1)] 1 0 0 [].

(** The pops of the current pass get one more block. *)
Definition record_pop (block : Z) (passes : list (list Z)) : list (list Z) :=
  match rev passes with
  | cur :: before => rev before ++ [cur ++ [block]]
  | [] => [[block]]
  end.

(** The [for ptr_block in node.ptr_blocks()] loop: a child below the block
    just read waits for the next pass, any other child joins the heap. *)
Fixpoint push_children (block level : Z) (ptrs : list Z)
  (heap next_pass : list heap_entry) : list heap_entry * list heap_entry :=
  match ptrs with
  | [] => (heap, next_pass)
  | ptr_block :: tl =>
      if ptr_block <? block
      then push_children block level tl heap (next_pass ++ [(ptr_block, level - 1)])
      else push_children block level tl (heappush heap (ptr_block, level - 1)) next_pass
  end.

(** The start of a pass, when the heap has run empty and [next_pass] has
    not: the lists are swapped and the new [next_pass] is cleared. *)
Definition start_pass (st : walk) : walk :=
  mkWalk (heapify (next_pass st)) [] (found st) (incomplete_count st) (partial st)
         (passes st ++ [[]]).

Fixpoint add_block_sectors (blocks : list Z) : M unit :=
  match blocks with
  | [] => ret tt
  | item_block :: tl =>
      if item_block =? 0 then
        (* It's unclear why these exist. Maybe for sparce files? *)
        add_block_sectors tl
      else
        s <- get_fs ;;
        (fix offs (l : list Z) : M unit :=
           match l with
           | [] => ret tt
           | off :: l' =>
               sectors_append (item_block * ReiserFs.sectors_per_block s + off) ;;; offs l'
           end) (zrange 0 (ReiserFs.sectors_per_block s)) ;;;
        add_block_sectors tl
  end.

(** One step of [_findTree]: one round of [while heap], or, with the heap
    empty, the test of [while next_pass] and the start of the next pass.
    [None] is the end of both loops. *)
Definition findTree_step (level_limit : Z) (partial_only : bool) (st : walk)
  : M (option walk) :=
  match heappop (heap st) with
  | None =>
      match next_pass st with
      | [] => ret None
      | _ => ret (Some (start_pass st))
      end
  | Some ((block, level), heap') =>
      let log := record_pop block (passes st) in
      '(complete, node) <- readNode block (Some partial_only) ;;
      if negb complete then
        ret (Some (mkWalk heap' (next_pass st) (found st) (incomplete_count st + 1)
                     (match node with Some _ => partial st + 1 | None => partial st end)
                     log))
      else
        match node with
        | None => raise AttributeError
        | Some node =>
            if Node.level node <=? level_limit then
              ret (Some (mkWalk heap' (next_pass st) (found st) (incomplete_count st)
                           (partial st) log))
            else if Node.level node >? 1 then
              ptrs <- lift (Node.ptr_blocks node) ;;
              let '(h, np) := push_children block (Node.level node) ptrs heap' (next_pass st) in
              ret (Some (mkWalk h np (found st + blen ptrs) (incomplete_count st)
                           (partial st) log))
            else if Node.level node =? 1 then
              blocks <- lift (Node.indirect_item_blocks node) ;;
              add_block_sectors blocks ;;;
              ret (Some (mkWalk heap' (next_pass st) (found st) (incomplete_count st)
                           (partial st) log))
            else
              ret (Some (mkWalk heap' (next_pass st) (found st) (incomplete_count st)
                           (partial st) log))
        end
  end.

Fixpoint findTree_loop (fuel : nat) (level_limit : Z) (partial_only : bool) (st : walk)
  : M walk :=
  match fuel with
  | O => out_of_fuel
  | S fuel' =>
      r <- findTree_step level_limit partial_only st ;;
      match r with
      | None => ret st
      | Some st' => findTree_loop fuel' level_limit partial_only st'
      end
  end.

Definition _findTree (fuel : nat) (level_limit : Z) (partial_only : bool) : M walk :=
  sb <- get_superblock ;;
  st <- findTree_loop fuel level_limit partial_only (walk_start (Superblock.root_block sb)) ;;
  print_stderr [TStr "found:"; TInt (found st)] ;;;
  print_stderr [TStr "incomplete:"; TInt (incomplete_count st)] ;;;
  print_stderr [TStr "partial:"; TInt (partial st)] ;;;
  ret st.

(** One step of [iter_leafs], with the leaf it yields, if any. *)
Definition iter_leafs_step (st : walk) : M (option walk * option Node.t) :=
  match heappop (heap st) with
  | None =>
      match next_pass st with
      | [] => ret (None, None)
      | _ => ret (Some (start_pass st), None)
      end
  | Some ((block, level), heap') =>
      let log := record_pop block (passes st) in
      let same := mkWalk heap' (next_pass st) (found st) (incomplete_count st) (partial st) log in
      '(complete, node) <- readNode block None ;;
      if negb complete then ret (Some same, None)
      else
        match node with
        | None => raise AttributeError
        | Some node =>
            if Node.level node >? 1 then
              ptrs <- lift (Node.ptr_blocks node) ;;
              let '(h, np) := push_children block (Node.level node) ptrs heap' (next_pass st) in
              ret (Some (mkWalk h np (found st) (incomplete_count st) (partial st) log), None)
            else if Node.level node =? 1 then ret (Some same, Some node)
            else ret (Some same, None)
        end
  end.

Fixpoint iter_leafs_loop (fuel : nat) (st : walk)
  {A : Type} (consume : consumer Node.t A) (acc : A) : M (flow A) :=
  match fuel with
  | O => out_of_fuel
  | S fuel' =>
      '(next, leaf) <- iter_leafs_step st ;;
      match next with
      | None => ret (Continue acc)
      | Some st' =>
          match leaf with
          | None => iter_leafs_loop fuel' st' consume acc
          | Some node =>
              gbind (consume acc node) (iter_leafs_loop fuel' st' consume) (fun a => a)
          end
      end
  end.

Definition iter_leafs (fuel : nat) {A : Type} (consume : consumer Node.t A) (acc : A)
  : M (flow A) :=
  sb <- get_superblock ;;
  iter_leafs_loop fuel (walk_start (Superblock.root_block sb)) consume acc.

(** ** Commands *)

Fixpoint print_rangelist_loop (partition_start mult end_ : Z) (items : list Range.t)
  : M unit :=
  match items with
  | [] => ret tt
  | item :: tl =>
      (if negb (end_ =? Range.start item)
       then print_stdout [TInt (partition_start + end_ * mult);
                          TInt ((Range.start item - end_) * mult); TStr "-"]
       else ret tt) ;;;
      print_stdout [TInt (partition_start + Range.start item * mult);
                    TInt (Range.size item * mult); TStr "+"] ;;;
      print_rangelist_loop partition_start mult (Range.start item + Range.size item) tl
  end.

Definition print_rangelist (rangelist : RangeList.t) (mult : Z) : M unit :=
  s <- get_fs ;;
  print_stdout [TInt 0; TStr "*"; TInt 1] ;;;
  print_stdout [TInt 0; TInt (ReiserFs.partition_start s); TStr "-"] ;;;
  print_rangelist_loop (ReiserFs.partition_start s) mult 0 (RangeList.items rangelist).
  (* FIXME: need ending '-' to avoid ddrescuelog boolean logic strangeness *)

(** [for x in xs: rangelist.add(start x, size x)]. *)
Fixpoint add_all {X : Type} (start size : X -> Z) (xs : list X) (rangelist : RangeList.t)
  : result RangeList.t :=
  match xs with
  | [] => Ok rangelist
  | x :: tl => r <-? RangeList.add rangelist (start x) (size x) ;; add_all start size tl r
  end.

Definition could_not_access_superblock : M unit :=
  printf_stderr [TStr "Could not access superblock"].

(** The loop body of [find] for one leaf. *)
Definition find_leaf (fuel : nat) (name : bytes) : consumer Node.t unit :=
  fun _ leaf =>
    its <- lift (Node.items leaf) ;;
    for_each its
      (fun _ item =>
         if negb (ItemType.eqb (Key.type (Item.key item)) DIRECTORY) then ret (Continue tt)
         else
           entries <- lift (Item.directory_list item) ;;
           for_each entries
             (fun _ entry =>
                (if bytes_eqb (DirectoryEntry.name entry) name then
                   full <- get_full_name fuel
                             (stat_key (DirectoryEntry.dirid entry) (DirectoryEntry.objid entry))
                             (stat_key (Key.dirid (Item.key item)) (Key.objid (Item.key item))) ;;
                   print_stdout [TPath full]
                 else ret tt) ;;;
                ret (Continue tt))
             tt)
      tt.

Definition find (fuel : nat) (name : bytes) : M unit :=
  ok <- init ;;
  if negb ok then could_not_access_superblock else
  iter_leafs fuel (find_leaf fuel name) tt ;;;
  ret tt.

Section Ls.

(** [ls_], the recursive printer of a directory, is left open: it takes the
    directory key, the directory name as text and the [recurse] flag. *)
Variable ls_ : nat -> Key.t -> list token -> bool -> M unit.

Definition ls (fuel : nat) (name : bytes) (recurse : bool) : M unit :=
  ok <- init ;;
  if negb ok then could_not_access_superblock else
  dirKey <- path_to_key fuel name ;;
  match dirKey with
  | None => printf_stderr [TStr "Could not find "; TBytes name]
  | Some dirKey =>
      item <- find_item fuel dirKey ;;
      match item with
      | None => printf_stderr [TStr "Could not stat "; TBytes name]
      | Some item =>
          stat <- lift (Item.stat item) ;;
          if FileType.eqb (Stat.filetype stat) REGULAR then
            printf_stderr [TBytes name; TStr " (normal file)"]
          else if FileType.eqb (Stat.filetype stat) LINK then
            printf_stderr [TBytes name; TStr " (symbolic link)"]
          else if negb (FileType.eqb (Stat.filetype stat) FT_DIRECTORY) then
            printf_stderr [TBytes name; TStr " (special file)"]
          else
            r <- directory_list fuel dirKey
                   (fun (st : nat * option bytes) entry =>
                      let n := S (fst st) in
                      dirname <-
                        (if negb (bytes_eqb (DirectoryEntry.name entry) dotdot)
                         then ret (snd st)
                         else get_name fuel dirKey
                                (stat_key (DirectoryEntry.dirid entry)
                                          (DirectoryEntry.objid entry))) ;;
                      if (2 <=? n)%nat then ret (Break (n, dirname))
                      else ret (Continue (n, dirname)))
                   (O, None) ;;
            let dirname :=
              match snd (flow_value r) with
              | Some b => [TReplace b]
              | None =>
                  if recurse
                  then [TInt (Key.dirid dirKey); TStr "_"; TInt (Key.objid dirKey)]
                  else [TStr "(unknown)"]
              end in
            ls_ fuel dirKey (dirname ++ [TStr "/"]) recurse
      end
  end.

End Ls.

(** The loop body of [cat] for one yielded value. *)
Definition cat_block (expectedSize : Z) : consumer chunk Z :=
  fun currentSize block =>
    toWrite <-
      match block with
      | Data b => ret b
      | Block n =>
          if n =? 0 then (* assume block 0 is for sparse files *)
            s <- get_fs ;; ret (zeros (ReiserFs.block_size s))
          else readBlock n
      end ;;
    let toWrite :=
      if currentSize + blen toWrite >? expectedSize
      then py_slice toWrite 0 (expectedSize - currentSize)
      else toWrite in
    write_stdout toWrite ;;;
    ret (Continue (currentSize + blen toWrite)).

Definition cat (fuel : nat) (name : bytes) : M unit :=
  ok <- init ;;
  if negb ok then could_not_access_superblock else
  key <- path_to_key fuel name ;;
  match key with
  | None => printf_stderr [TStr "Could not find "; TBytes name]
  | Some key =>
      item <- find_item fuel key ;;
      match item with
      | None => printf_stderr [TStr "Could not stat "; TBytes name]
      | Some item =>
          stat <- lift (Item.stat item) ;;
          if negb (FileType.eqb (Stat.filetype stat) REGULAR) then
            printf_stderr [TBytes name; TStr " not a regular file: ";
                           TFileType (Stat.filetype stat)]
          else
            let expectedSize := Stat.size stat in
            set_incomplete false ;;;
            r <- regular_block_list fuel key (cat_block expectedSize) 0 ;;
            let currentSize := flow_value r in
            assert_ (expectedSize =? currentSize)
      end
  end.

(** The [for name in names] loop of [findFolder]; [None] after a name
    that could not be found. *)
Fixpoint findFolder_names (fuel : nat) (names : list bytes)
  (keysRemaining : list Key.t) (excludeIds : list Z) : M (option (list Key.t * list Z)) :=
  match names with
  | [] => ret (Some (keysRemaining, excludeIds))
  | name :: tl =>
      let exclude := match name with c :: _ => Byte.eqb c dash | [] => false end in
      let name := if exclude then List.tl name else name in
      key <- path_to_key fuel name ;;
      match key with
      | None => printf_stderr [TStr "Could not find "; TBytes name] ;;; ret None
      | Some key =>
          if exclude
          then findFolder_names fuel tl keysRemaining (set_add (Key.objid key) excludeIds)
          else findFolder_names fuel tl (keysRemaining ++ [key]) excludeIds
      end
  end.

(** The [while keysRemaining] loop of [findFolder]; the result is the set
    [blocks]. *)
Fixpoint findFolder_walk (n fuel : nat) (metadata_only : bool) (excludeIds : list Z)
  (keysRemaining : list Key.t) (blocks : list Z) : M (list Z) :=
  match n with
  | O => out_of_fuel
  | S n' =>
      match rev keysRemaining with
      | [] => ret blocks
      | key :: before =>
          let keysRemaining := rev before in
          item <- find_item fuel key ;;
          match item with
          | None => findFolder_walk n' fuel metadata_only excludeIds keysRemaining blocks
          | Some item =>
              stat <- lift (Item.stat item) ;;
              if FileType.eqb (Stat.filetype stat) FT_DIRECTORY then
                r <- directory_list fuel key
                       (fun keysRemaining entry =>
                          if bytes_eqb (DirectoryEntry.name entry) [dot]
                             || bytes_eqb (DirectoryEntry.name entry) dotdot
                          then ret (Continue keysRemaining)
                          else if existsb (Z.eqb (DirectoryEntry.objid entry)) excludeIds
                          then ret (Continue keysRemaining)
                          else ret (Continue
                                 (keysRemaining ++
                                  [stat_key (DirectoryEntry.dirid entry)
                                            (DirectoryEntry.objid entry)])))
                       keysRemaining ;;
                findFolder_walk n' fuel metadata_only excludeIds (flow_value r) blocks
              else if FileType.eqb (Stat.filetype stat) REGULAR then
                if metadata_only then
                  file_indirect_blocks fuel key collect [] ;;;
                  findFolder_walk n' fuel metadata_only excludeIds keysRemaining blocks
                else
                  r <- file_indirect_blocks fuel key
                         (fun blocks block => ret (Continue (set_add block blocks))) blocks ;;
                  findFolder_walk n' fuel metadata_only excludeIds keysRemaining (flow_value r)
              else findFolder_walk n' fuel metadata_only excludeIds keysRemaining blocks
          end
      end
  end.

Definition findFolder (fuel : nat) (names : list bytes) (metadata_only : bool) : M unit :=
  ok <- init ;;
  if negb ok then
    rangelist <- lift (RangeList.add RangeList.empty 65536 512) ;;
    print_rangelist rangelist 1
  else
    r <- findFolder_names fuel names [] [] ;;
    match r with
    | None => ret tt
    | Some (keysRemaining, excludeIds) =>
        set_sectors (SetList []) ;;;
        (* blocks may be repeated due to hard links *)
        blocks <- findFolder_walk fuel fuel metadata_only excludeIds keysRemaining [] ;;
        s <- get_fs ;;
        let blocks := sort Z.ltb blocks in
        rangelist <- lift (add_all (fun block => block * ReiserFs.sectors_per_block s)
                                   (fun _ => ReiserFs.sectors_per_block s)
                                   blocks RangeList.empty) ;;
        let ranges := RangeList.items rangelist in
        sectors <- match ReiserFs.sectors s with
                   | SetList l => ret (sort Z.ltb l)
                   | PyList _ => raise AttributeError
                   end ;;
        set_sectors (PyList sectors) ;;;
        rangelist <- lift (add_all (fun sector => sector) (fun _ => 1) sectors
                                   RangeList.empty) ;;
        let ranges := sort Range.ltb (ranges ++ RangeList.items rangelist) in
        rangelist <- lift (add_all Range.start Range.size ranges RangeList.empty) ;;
        print_rangelist rangelist 512
    end.

Definition findTree (fuel : nat) (level_limit : Z) (partial_only : bool) : M unit :=
  ok <- init ;;
  (if ok then _findTree fuel level_limit partial_only ;;; ret tt else ret tt) ;;;
  s <- get_fs ;;
  sectors <- match ReiserFs.sectors s with
             | PyList l => ret (sort Z.ltb l)
             | SetList _ => raise AttributeError
             end ;;
  set_sectors (PyList sectors) ;;;
  rangelist <- lift (add_all (fun sector => sector) (fun _ => 1) sectors RangeList.empty) ;;
  print_rangelist rangelist 512.

(** [markUsed]: one range per set bit of the bitmap. *)
Fixpoint markUsed_bits (rangelist : RangeList.t) (base : Z) (b : byte) (bits : list Z)
  : result RangeList.t :=
  match bits with
  | [] => Ok rangelist
  | bit :: tl =>
      if Z.testbit (byte.unsigned b) bit then
        r <-? RangeList.add rangelist (base + bit) 1 ;; markUsed_bits r base b tl
      else markUsed_bits rangelist base b tl
  end.

Fixpoint markUsed_loop (rangelist : RangeList.t) (pos i : Z) (bitmap : bytes)
  : result RangeList.t :=
  match bitmap with
  | [] => Ok rangelist
  | b :: tl =>
      r <-? markUsed_bits rangelist (pos + i * 8) b (zrange 0 8) ;;
      markUsed_loop r pos (i + 1) tl
  end.

Definition markUsed (rangelist : RangeList.t) (pos : Z) (bitmap : bytes) : result RangeList.t :=
  markUsed_loop rangelist pos 0 bitmap.

Fixpoint findBitmap_loop (rangelist : RangeList.t) (positions : list Z) : M RangeList.t :=
  match positions with
  | [] => ret rangelist
  | pos :: tl =>
      s <- get_fs ;;
      r <- readBlock pos ;;
      st <- rescue_map_getitem (pos * ReiserFs.block_size s) ;;
      rangelist <- (if negb (Status.eqb st FINISHED)
                    then lift (RangeList.add rangelist pos 1)
                    else ret rangelist) ;;
      rangelist <- lift (markUsed rangelist pos r) ;;
      findBitmap_loop rangelist tl
  end.

Definition findBitmap (metadataOnly : bool) : M unit :=
  let rangelist := RangeList.empty in
  ok <- init ;;
  if negb ok then
    rangelist <- lift (RangeList.add rangelist 65536 512) ;;
    print_rangelist rangelist 1
  else
    s <- get_fs ;;
    sb <- get_superblock ;;
    let bs := ReiserFs.block_size s in
    if metadataOnly then
      first <- lift (floordiv 65536 bs) ;;
      rangelist <- lift (RangeList.add rangelist first 1) ;;
      rangelist <- lift (RangeList.add rangelist (first + 1) 1) ;;
      positions <- lift (zrange_step (bs * 8) (Superblock.block_count sb) (bs * 8)) ;;
      rangelist <- lift (add_all (fun pos => pos) (fun _ => 1) positions rangelist) ;;
      print_rangelist rangelist bs
    else
      first <- lift (floordiv 65536 bs) ;;
      r <- readBlock (first + 1) ;;
      st <- rescue_map_getitem (65536 + bs) ;;
      rangelist <- (if negb (Status.eqb st FINISHED)
                    then lift (RangeList.add rangelist (first + 1) 1)
                    else ret rangelist) ;;
      rangelist <- lift (markUsed rangelist 0 r) ;;
      positions <- lift (zrange_step (bs * 8) (Superblock.block_count sb) (bs * 8)) ;;
      rangelist <- findBitmap_loop rangelist positions ;;
      print_rangelist rangelist bs.

(** ** The dispatcher of [main] *)

(** A command line that is not a usage error, after option parsing. *)
Inductive command : Type :=
| CmdBitmap
| CmdTree (level : Z)
| CmdFolder (names : list bytes)
| CmdLs (recurse : bool) (path : bytes)
| CmdCat (path : bytes)
| CmdFind (name : bytes).

(** The state [main] builds before it dispatches: the map rebased to the
    partition, a fresh reader on the image, nothing memoised or printed. *)
Definition main_world (image : bytes) (ranges : list RescueMap.entry) (partition_start : Z)
  : World :=
  let rescue_map := RescueMap.mk ranges partition_start in
  let r := ReiserFs.new image rescue_map in
  mkWorld (ReiserFs.mk (ReiserFs.f r) (ReiserFs.rescue_map r) (ReiserFs.sectors r)
             (ReiserFs.block_size r) (ReiserFs.sectors_per_block r) (ReiserFs.superblock r)
             (ReiserFs.incomplete r) partition_start)
          [] [] [].

Section Main.

Variable ls_ : nat -> Key.t -> list token -> bool -> M unit.

Definition run_command (fuel : nat) (metadata_only : bool) (cmd : command) : M unit :=
  match cmd with
  | CmdBitmap => findBitmap metadata_only
  | CmdTree level =>
      let level := if metadata_only then Z.max level 1 else level in
      findTree fuel level false
  | CmdFolder names => findFolder fuel names metadata_only
  | CmdLs recurse path => ls ls_ fuel path recurse
  | CmdCat path => cat fuel path
  | CmdFind name => find fuel name
  end.

Definition main (fuel : nat) (image : bytes) (ranges : list RescueMap.entry)
  (partition_start : Z) (metadata_only : bool) (cmd : command) : outcome unit :=
  run_command fuel metadata_only cmd (main_world image ranges partition_start).

End Main.

(** ** Growing the rescued areas ([ddrescuelog_processor.py]) *)

Module DdrescuelogProcessor.

(** This [print_rangelist] has no reader: what it prints is its result. *)
Fixpoint print_rangelist_loop (end_ : Z) (items : list Range.t) : list output :=
  match items with
  | [] => []
  | item :: tl =>
      (if negb (end_ =? Range.start item)
       then [Print [TInt end_; TInt (Range.start item - end_); TStr "-"]]
       else []) ++
      Print [TInt (Range.start item); TInt (Range.size item); TStr "+"] ::
      print_rangelist_loop (Range.start item + Range.size item) tl
  end.

Definition print_rangelist (rangelist : RangeList.t) : list output :=
  Print [TInt 0; TStr "*"; TInt 1] :: print_rangelist_loop 0 (RangeList.items rangelist).

Definition expandAmount : Z := 512 * 1.

(** The loop of [main] over the entries of the map; [last] is the end of
    the range added last. *)
Fixpoint main_loop (mapSize last : Z) (entries : list RescueMap.entry)
  (rangelist : RangeList.t) : result RangeList.t :=
  match entries with
  | [] => Ok rangelist
  | (start, size, val) :: tl =>
      if negb (Status.eqb val FINISHED) then main_loop mapSize last tl rangelist else
      let end_ := Z.min mapSize (start + size + expandAmount) in
      let start := Z.max last (start - expandAmount) in
      let last := end_ in
      rangelist <-? RangeList.add rangelist start (end_ - start) ;;
      main_loop mapSize last tl rangelist
  end.

(** [main] from the parsed map on; the result is what it prints. *)
Definition main (rescueMap : RescueMap.t) : result (list output) :=
  mapSize <-? RescueMap.size rescueMap ;;
  rangelist <-? main_loop mapSize 0 (RescueMap.iter rescueMap) RangeList.empty ;;
  Ok (print_rangelist rangelist).

End DdrescuelogProcessor.

(** ** Properties *)

(** The combined offset-and-type word that [Key.pack] writes. *)
Definition key_word (k : Key.t) : Z :=
  if Key.version k =? 1
  then Z.lor (Key.offset k) (Z.shiftl (ItemType.version1_type2id (Key.type k)) 32)
  else Z.lor (Key.offset k) (Z.shiftl (ItemType.value (Key.type k)) 60).

(** Whether the version inferred from the low four bits of a key's offset
    is the key's own version. *)
Definition inference_agrees (k : Key.t) : bool :=
  let low := Z.land (Key.offset k) 0xF in
  ((Key.version k =? 1) && ((low =? 0) || (low =? 15))) ||
  ((Key.version k =? 2) && negb ((low =? 0) || (low =? 15))).

Definition estart (e : RescueMap.entry) : Z := fst (fst e).
Definition esize (e : RescueMap.entry) : Z := snd (fst e).
Definition estatus (e : RescueMap.entry) : Status := snd e.

(** [i] splits [a] at [x]: the entries before index [i] start below [x],
    the others do not. *)
Definition splits_at (a : list RescueMap.entry) (x : Z) (i : nat) : Prop :=
  (i <= List.length a)%nat /\
  (forall j e, (j < i)%nat -> nth_error a j = Some e -> estart e < x) /\
  (forall j e, (i <= j)%nat -> nth_error a j = Some e -> x <= estart e).

Definition two_entry_map : RescueMap.t :=
  RescueMap.mk [(0, 65536, FINISHED); (65536, 512, BAD)] 0.

(** Every record has a size that is not negative and ends strictly before
    the next one starts. *)
Fixpoint separated (l : list Range.t) : Prop :=
  match l with
  | [] => True
  | a :: tl =>
      0 <= Range.size a /\
      match tl with
      | b :: _ => Range.end_ a < Range.start b
      | [] => True
      end /\
      separated tl
  end.

Definition sorted_by_start (l : list Range.t) : Prop :=
  forall i j a b, (i < j)%nat -> nth_error l i = Some a -> nth_error l j = Some b ->
                  Range.start a <= Range.start b.

Definition pairwise_disjoint (l : list Range.t) : Prop :=
  forall i j a b, (i < j)%nat -> nth_error l i = Some a -> nth_error l j = Some b ->
                  Range.end_ a <= Range.start b.

Definition no_adjacent (l : list Range.t) : Prop :=
  forall i a b, nth_error l i = Some a -> nth_error l (S i) = Some b ->
                Range.end_ a <> Range.start b.

(** The end of the last record, if there is one. *)
Definition last_end (rl : RangeList.t) : option Z :=
  match rev (RangeList.items rl) with
  | last :: _ => Some (Range.end_ last)
  | [] => None
  end.

(** A sequence of calls [(start, size)] in which no size is negative and
    each start is at or after the end of the previous record. *)
Fixpoint in_preorder (prev_end : option Z) (calls : list (Z * Z)) : Prop :=
  match calls with
  | [] => True
  | (s, n) :: tl =>
      0 <= n /\
      match prev_end with Some e => e <= s | None => True end /\
      in_preorder (Some (s + n)) tl
  end.

Fixpoint nondecreasing (l : list Z) : Prop :=
  match l with
  | [] => True
  | a :: tl =>
      match tl with
      | b :: _ => a <= b
      | [] => True
      end /\ nondecreasing tl
  end.

(** One step of a walk, from some state of the reader. *)
Definition walk_next (step : walk -> M (option walk)) (st st' : walk) : Prop :=
  exists w w', step st w = Ret (Some st') w'.

(** The states a walk goes through from [st], whatever the rest of the
    program does to the reader between two steps. *)
Definition walk_reaches (step : walk -> M (option walk)) : walk -> walk -> Prop :=
  clos_refl_trans_n1 walk (walk_next step).

(** [iter_leafs_step] without the leaf it yields. *)
Definition iter_leafs_walk_step (st : walk) : M (option walk) :=
  '(next, _) <- iter_leafs_step st ;; ret next.

(** The block popped last in the current pass. *)
Definition last_popped (passes : list (list Z)) : option Z :=
  match rev passes with
  | cur :: _ =>
      match rev cur with
      | b :: _ => Some b
      | [] => None
      end
  | [] => None
  end.

(** The invariant of the walk: the pops of every pass are in order, nothing
    is on the heap before the first pass, and nothing on the heap is below
    the block popped last. *)
Definition walk_inv (st : walk) : Prop :=
  Forall nondecreasing (passes st) /\
  (passes st = [] -> heap st = []) /\
  (forall b, last_popped (passes st) = Some b -> Forall (fun e => b <= fst e) (heap st)).

Definition child_entries (keep : Z -> bool) (level : Z) (ptrs : list Z) : list heap_entry :=
  map (fun p => (p, level - 1)) (filter keep ptrs).

(** [hoare P m Q]: a run of [m] from a state in [P] that returns a value
    leaves it and the state in [Q]. *)
Definition hoare {A : Type} (P : World -> Prop) (m : M A) (Q : A -> World -> Prop) : Prop :=
  forall w a w', P w -> m w = Ret a w' -> Q a w'.

(** The block size, the [incomplete] flag and the output are the same in
    both states. *)
Definition steady (w w' : World) : Prop :=
  ReiserFs.block_size (fs w') = ReiserFs.block_size (fs w) /\
  ReiserFs.incomplete (fs w') = ReiserFs.incomplete (fs w) /\
  stdout w' = stdout w /\ stderr w' = stderr w.

Definition keeps {A : Type} (m : M A) : Prop :=
  forall w a w', m w = Ret a w' -> steady w w'.

(** The logical length of what [regular_block_list] yields: a block
    number stands for one block, literal bytes for themselves. *)
Definition chunk_length (bs : Z) (c : chunk) : Z :=
  match c with
  | Block _ => bs
  | Data b => blen b
  end.

Definition logical_length (bs : Z) (ys : list chunk) : Z :=
  fold_right (fun c n => chunk_length bs c + n) 0 ys.

(** What a hole of [missing] bytes is to yield: a zero block number for
    every whole block, then zero bytes for the rest. *)
Definition hole_chunks (bs missing : Z) : list chunk :=
  repeat (Block 0) (Z.to_nat (missing / bs)) ++
  (if missing mod bs =? 0 then [] else [Data (zeros (missing mod bs))]).

(** What an item yields for itself, and the length it stands for. *)
Definition own_chunks (item : Item.t) : list chunk :=
  if ItemType.eqb (Key.type (Item.key item)) INDIRECT
  then map Block (Item.words_of (Z.to_nat (blen (Item.body item) / 4)) (Item.body item))
  else if ItemType.eqb (Key.type (Item.key item)) DIRECT
  then [Data (Item.body item)]
  else [].

Definition own_length (bs : Z) (item : Item.t) : Z :=
  if ItemType.eqb (Key.type (Item.key item)) INDIRECT
  then blen (Item.body item) / 4 * bs
  else if ItemType.eqb (Key.type (Item.key item)) DIRECT
  then blen (Item.body item)
  else 0.

(** The invariant of the scan in [list(regular_block_list(key))]: the
    running size is one more than the logical length yielded. *)
Definition block_list_inv (bs : Z) (r : flow (Z * list chunk)) (w : World) : Prop :=
  match r with
  | Continue (size, ys) =>
      ReiserFs.block_size (fs w) = bs /\ logical_length bs ys = size - 1
  | Break _ => False
  end.

(** The reader has marked the object as incomplete. *)
Definition flagged (w : World) : Prop := ReiserFs.incomplete (fs w) = true.

(** Two loop bodies are twins when a run of the first that leaves the
    object unmarked is matched by the second: from related accumulators and
    the same state it returns in the same state, with related
    accumulators, and neither has left its loop. *)
Definition twins {A B Y : Type} (R : A -> B -> Prop) (I : World -> Prop)
  (body1 : A -> Y -> M (flow A)) (body2 : B -> Y -> M (flow B)) : Prop :=
  forall a b y w r w',
    I w -> R a b -> body1 a y w = Ret r w' -> ReiserFs.incomplete (fs w') = false ->
    exists a' b', r = Continue a' /\ body2 b y w = Ret (Continue b') w' /\ R a' b' /\ I w'.

(** The items follow one another: each starts at the running size, which
    it moves on by its own length. *)
Fixpoint in_sequence (bs size : Z) (items : list Item.t) : Prop :=
  match items with
  | [] => True
  | item :: tl =>
      Key.offset (Item.key item) = size /\ in_sequence bs (size + own_length bs item) tl
  end.

Definition end_of (bs size : Z) (items : list Item.t) : Z :=
  fold_left (fun s item => s + own_length bs item) items size.

(** The scan of [regular_block_list] next to a plain [list(...)] of the
    same items. *)
Definition block_list_twin (bs : Z) (a : Z * list chunk) (items : list Item.t) : Prop :=
  snd a = flat_map own_chunks items /\ in_sequence bs 1 items /\ fst a = end_of bs 1 items.

Definition degenerate_map (partition_start : Z) : list output :=
  [Print [TInt 0; TStr "*"; TInt 1];
   Print [TInt 0; TInt partition_start; TStr "-"];
   Print [TInt partition_start; TInt 65536; TStr "-"];
   Print [TInt (partition_start + 65536); TInt 512; TStr "+"]].

Definition unmounted (image : bytes) (ranges : list RescueMap.entry) (partition_start : Z)
  : World :=
  mkWorld (ReiserFs.mk image (RescueMap.mk ranges partition_start) (PyList [128])
             512 1 None false partition_start)
          [] [] [].

(** The lines of the map that [folder 5_6] prints for the file whose only
    block pointer is 0. *)
Definition sparse_folder_map : list output :=
  [Print [TInt 0; TStr "*"; TInt 1];
   Print [TInt 0; TInt 0; TStr "-"];
   Print [TInt 0; TInt 4096; TStr "+"];
   Print [TInt 4096; TInt 65536; TStr "-"];
   Print [TInt 69632; TInt 512; TStr "+"];
   Print [TInt 70144; TInt 3072; TStr "-"];
   Print [TInt 73216; TInt 512; TStr "+"]].

Definition sparse_tree_map : list output :=
  [Print [TInt 0; TStr "*"; TInt 1];
   Print [TInt 0; TInt 0; TStr "-"];
   Print [TInt 0; TInt 65536; TStr "-"];
   Print [TInt 65536; TInt 512; TStr "+"];
   Print [TInt 66048; TInt 3584; TStr "-"];
   Print [TInt 69632; TInt 512; TStr "+"];
   Print [TInt 70144; TInt 3072; TStr "-"];
   Print [TInt 73216; TInt 512; TStr "+"]].

(** ** Hand-made images *)

(** A superblock of which only the block count, the root block and the
    block size are filled in. *)
Definition superblock_bytes (block_count root_block blocksize : Z) : bytes :=
  le_split 4 block_count ++ le_split 4 0 ++ le_split 4 root_block ++
  repeat Byte.x00 32 ++ le_split 2 blocksize ++ repeat Byte.x00 34.

Definition key_bytes (k : Key.t) : bytes :=
  match Key.pack k with
  | Ok b => b
  | Error _ => []
  end.

Definition item_hdr (k : Key.t) (count length location : Z) : bytes :=
  key_bytes k ++ le_split 2 count ++ le_split 2 length ++ le_split 2 location ++
  le_split 2 (Key.version k - 1).

(** A leaf block: the item headers from byte 24, the bodies at the end. *)
Definition leaf_block (item_count : Z) (hdrs bodies : bytes) : bytes :=
  let free := 4096 - 24 - blen hdrs - blen bodies in
  le_split 2 1 ++ le_split 2 item_count ++ le_split 2 free ++ repeat Byte.x00 18 ++
  hdrs ++ repeat Byte.x00 (Z.to_nat free) ++ bodies.

(** An internal block of level 2: the keys, then one pointer more. *)
Definition internal_block (keys : list Key.t) (ptrs : list Z) : bytes :=
  let used := flat_map key_bytes keys ++
              flat_map (fun p => le_split 4 p ++ le_split 2 4096 ++ repeat Byte.x00 2) ptrs in
  let free := 4096 - 24 - blen used in
  le_split 2 2 ++ le_split 2 (blen keys) ++ le_split 2 free ++ repeat Byte.x00 18 ++
  used ++ repeat Byte.x00 (Z.to_nat free).

(** A version 2 Stat body. *)
Definition stat_v2 (mode size : Z) : bytes :=
  le_split 2 mode ++ repeat Byte.x00 2 ++ le_split 4 1 ++ le_split 8 size ++
  repeat Byte.x00 28.

Definition dir_entry_hdr (offset dirid objid location : Z) : bytes :=
  le_split 4 offset ++ le_split 4 dirid ++ le_split 4 objid ++ le_split 2 location ++
  le_split 2 4.

(** An image with 4096-byte blocks: the superblock in block 16, then the
    given blocks from block 17 on. *)
Definition image_of (root_block : Z) (blocks : list bytes) : bytes :=
  repeat Byte.x00 (Z.to_nat 65536) ++
  superblock_bytes (17 + blen blocks) root_block 4096 ++ repeat Byte.x00 (Z.to_nat (4096 - 80)) ++
  List.concat blocks.

Definition all_finished (blocks : Z) : list RescueMap.entry :=
  [(0, (17 + blocks) * 4096, FINISHED)].

Definition bad_superblock : list RescueMap.entry :=
  [(0, 65536, FINISHED); (65536, 8192, BAD)].

(** The name [5_6] of the object with directory id 5 and object id 6. *)
Definition name_5_6 : bytes := [Byte.x35; Byte.x5f; Byte.x36].

Definition seven_bytes : bytes :=
  [Byte.x61; Byte.x62; Byte.x63; Byte.x64; Byte.x65; Byte.x66; Byte.x67].

(** A regular file of Stat size 10 whose only data is a direct item of
    seven bytes at offset 1. *)
Definition short_file_image : bytes :=
  image_of 17
    [leaf_block 2
       (item_hdr (Key.mk 5 6 0 STAT 2) 0xFFFF 44 4052 ++
        item_hdr (Key.mk 5 6 1 DIRECT 2) 0xFFFF 7 4045)
       (seven_bytes ++ stat_v2 0x81A4 10)].

(** A regular file of Stat size 4096 whose indirect item holds the single
    block pointer 0. *)
Definition sparse_file_image : bytes :=
  image_of 17
    [leaf_block 2
       (item_hdr (Key.mk 5 6 0 STAT 2) 0xFFFF 44 4052 ++
        item_hdr (Key.mk 5 6 1 INDIRECT 2) 0xFFFF 4 4048)
       (le_split 4 0 ++ stat_v2 0x81A4 4096)].

(** A regular file of Stat size 10 whose indirect item holds the single
    block pointer 18. *)
Definition one_block_file_image : bytes :=
  image_of 17
    [leaf_block 2
       (item_hdr (Key.mk 5 6 0 STAT 2) 0xFFFF 44 4052 ++
        item_hdr (Key.mk 5 6 1 INDIRECT 2) 0xFFFF 4 4048)
       (le_split 4 18 ++ stat_v2 0x81A4 10)].

(** The directory item of the root directory, with the entries [.] and
    [..], in a tree that has no Stat item. *)
Definition dir_body : bytes :=
  dir_entry_hdr 1 1 2 40 ++ dir_entry_hdr 2 0 1 32 ++
  [dot; dot] ++ repeat Byte.x00 6 ++ [dot] ++ repeat Byte.x00 7.

Definition lone_directory_image : bytes :=
  image_of 17
    [leaf_block 1 (item_hdr (Key.mk 1 2 1 DIRECTORY 1) 2 48 4048) dir_body].

(** A root at block 19 with an empty leaf on either side of it. *)
Definition three_node_image : bytes :=
  image_of 19
    [repeat Byte.x00 (Z.to_nat 4096);
     leaf_block 0 [] [];
     internal_block [Key.mk 5 6 0 STAT 1] [20; 18];
     leaf_block 0 [] []].

(** The state a run ends in. *)
Definition final_world {A : Type} (o : outcome A) (otherwise : World) : World :=
  match o with
  | Ret _ w => w
  | Exc _ w => w
  | OutOfFuel => otherwise
  end.

(** The state after [main]'s set-up and a successful mount. *)
Definition mounted (image : bytes) (ranges : list RescueMap.entry) : World :=
  final_world (init (main_world image ranges 0)) (main_world image ranges 0).

(** An [ls_] that prints nothing, for runs of the other commands. *)
Definition silent_ls_ : nat -> Key.t -> list token -> bool -> M unit :=
  fun _ _ _ _ => ret tt.

(** The value or the exception a run ends with. *)
Definition outcome_value {A : Type} (o : outcome A) : option (A + exn) :=
  match o with
  | Ret a _ => Some (inl a)
  | Exc e _ => Some (inr e)
  | OutOfFuel => None
  end.

(** The size in the Stat item of an object, when it can be retrieved. *)
Definition stat_size_of (fuel : nat) (key : Key.t) (w : World) : option Z :=
  match find_item fuel key w with
  | Ret (Some item) _ =>
      match Item.stat item with
      | Ok st => Some (Stat.size st)
      | Error _ => None
      end
  | _ => None
  end.

(** The Stat item of the file in [one_block_file_image], and its contents. *)
Definition one_block_stat_item : Item.t :=
  Item.mk (Key.mk 5 6 0 STAT 2) 0xFFFF 1 (stat_v2 0x81A4 10).

Definition one_block_stat : Stat.t := Stat.mk 0x1A4 REGULAR 1 0 0 10 0 0 0.

(** The entries of the directory in [lone_directory_image]. *)
Definition lone_directory_entries : list DirectoryEntry.t :=
  [DirectoryEntry.mk 1 1 2 [dot] 4; DirectoryEntry.mk 2 0 1 dotdot 4].

Definition indirect_key_bytes : bytes :=
  le_split 4 1 ++ le_split 4 2 ++ le_split 8 (4097 + 2 ^ 60).

Fixpoint lex_compare (a b : list Z) : comparison :=
  match a, b with
  | x :: a', y :: b' =>
      match x ?= y with
      | Eq => lex_compare a' b'
      | c => c
      end
  | _, _ => Eq
  end.

Definition key_fields (k : Key.t) : list Z :=
  [Key.dirid k; Key.objid k; Key.offset k; ItemType.value (Key.type k); Key.version k].

(** The key at index [j] of an internal node, as the scans decode it. *)
Definition key_at (payload : bytes) (j : Z) : result Key.t :=
  Key.unpack (py_slice payload (j * Key.struct_size) (j * Key.struct_size + Key.struct_size)) None.

Definition ptr_at (self : Node.t) (j : Z) : result Z :=
  ptr_struct_unpack_from (Node.payload self)
    (Node.item_count self * Key.struct_size + j * ptr_struct_size).

(** The root of [three_node_image]: one key and two children. *)
Definition two_child_node : Node.t :=
  match Node.unpack (internal_block [Key.mk 5 6 0 STAT 1] [20; 18]) with
  | Ok node => node
  | Error _ => Node.mk 0 0 0 []
  end.

(** The header bytes and the raw key bytes at byte position [pos]. *)
Definition hdr_bytes (self : Node.t) (pos : Z) : bytes :=
  py_slice (Node.payload self) pos (pos + ItemHdr.struct_size).

Definition raw_key (self : Node.t) (pos : Z) : bytes :=
  py_slice (Node.payload self) pos (pos + Key.struct_size).

Definition in_key_range (keyStart keyEnd : Key.t) (item : Item.t) : bool :=
  Key.leb keyStart (Item.key item) && Key.ltb (Item.key item) keyEnd.

(** The leaf of [short_file_image]: a Stat item and a direct item. *)
Definition short_file_leaf : Node.t :=
  match Node.unpack
          (leaf_block 2
             (item_hdr (Key.mk 5 6 0 STAT 2) 0xFFFF 44 4052 ++
              item_hdr (Key.mk 5 6 1 DIRECT 2) 0xFFFF 7 4045)
             (seven_bytes ++ stat_v2 0x81A4 10)) with
  | Ok node => node
  | Error _ => Node.mk 0 0 0 []
  end.

Definition short_file_stat_item : Item.t :=
  Item.mk (Key.mk 5 6 0 STAT 2) 0xFFFF 1 (stat_v2 0x81A4 10).

Definition covers (l : list Range.t) (x : Z) : Prop :=
  exists r, In r l /\ Range.start r <= x < Range.start r + Range.size r.

(** Bit [k] of a bitmap: bit [k mod 8] of byte [k / 8]. *)
Definition bit_set (bitmap : bytes) (k : Z) : Prop :=
  0 <= k /\
  exists b, nth_error bitmap (Z.to_nat (k / 8)) = Some b /\
            Z.testbit (byte.unsigned b) (k mod 8) = true.

(** The lines follow one another: each is a record [start size tag] that
    starts where the one before it ends, from [from] up to [to]. *)
Fixpoint chained (from : Z) (lines : list output) (to : Z) : Prop :=
  match lines with
  | [] => from = to
  | Print [TInt start; TInt size; TStr _] :: tl => start = from /\ chained (start + size) tl to
  | _ => False
  end.

Definition is_plus (line : output) : bool :=
  match line with
  | Print [TInt _; TInt _; TStr tag] => String.eqb tag "+"
  | _ => false
  end.

(** The end of the last range, or [end_] without ranges. *)
Definition list_end (end_ : Z) (items : list Range.t) : Z :=
  fold_left (fun _ r => Range.start r + Range.size r) items end_.

Definition plus_line (partition_start mult : Z) (r : Range.t) : output :=
  Print [TInt (partition_start + Range.start r * mult); TInt (Range.size r * mult); TStr "+"].

(** An entry grown by 512 bytes on either side. *)
Definition grown (s n x : Z) : Prop := s - 512 <= x < s + n + 512.

Definition processor_plus_line (r : Range.t) : output :=
  Print [TInt (Range.start r); TInt (Range.size r); TStr "+"].

Definition patchy_map : list RescueMap.entry :=
  [(0, 4096, FINISHED); (4096, 4096, BAD); (8192, 512, FINISHED); (8704, 512, NON_TRIED)].

(** The value of pixel [p]. *)
Definition pixel (arr : bytes) (p : Z) : Z := byte.unsigned (nth (Z.to_nat p) arr Byte.x00).

(** The pixels an entry touches. *)
Definition touches (bytes_per_pixel s n p : Z) : Prop :=
  s < (p + 1) * bytes_per_pixel /\ p * bytes_per_pixel < s + n.

(** A run of [m] that returns has printed nothing. *)
Definition quiet {A : Type} (m : M A) : Prop :=
  forall w a w', m w = Ret a w' -> stdout w' = stdout w /\ stderr w' = stderr w.

(** The output after writes of [chunks] with [n] bytes in all. *)
Definition wrote (out err : list output) (n : Z) (w : World) : Prop :=
  stderr w = err /\
  exists chunks, stdout w = out ++ map Write chunks /\ blen (List.concat chunks) = n.

Definition sparse_file_world : World := main_world sparse_file_image (all_finished 1) 0.

(** Every block found is popped or still waiting; the partial nodes are
    among the incomplete ones, and these among the popped ones. *)
Definition count_inv (st : walk) : Prop :=
  blen (List.concat (passes st)) + blen (heap st) + blen (next_pass st) = found st /\
  0 <= partial st <= incomplete_count st /\
  incomplete_count st <= blen (List.concat (passes st)).

Definition findTree_report (st : walk) : list output :=
  [Print [TStr "found:"; TInt (found st)];
   Print [TStr "incomplete:"; TInt (incomplete_count st)];
   Print [TStr "partial:"; TInt (partial st)]].

Definition three_node_world : World := mounted three_node_image (all_finished 4).

Definition short_file_world : World := mounted short_file_image (all_finished 1).

(** What a run has returned; [otherwise] if it has not. *)
Definition returned {A : Type} (o : outcome A) (otherwise : A) : A :=
  match o with
  | Ret a _ => a
  | _ => otherwise
  end.

(** Whether a run has returned. *)
Definition has_returned {A : Type} (o : outcome A) : bool :=
  match o with
  | Ret _ _ => true
  | _ => false
  end.

(** The sector offsets [readNode] goes through for a node. *)
Definition node_sector_offsets (s : ReiserFs.t) (node : Node.t) : list Z :=
  let node_size_left :=
    if Node.level node =? 1
    then 24 + Node.item_count node * ItemHdr.struct_size
    else ReiserFs.block_size s - Node.free_space node in
  let node_size_right :=
    if Node.level node =? 1
    then ReiserFs.block_size s - node_size_left - Node.free_space node
    else 0 in
  node_offsets node_size_left node_size_right (ReiserFs.sectors_per_block s).

(** [sectors.append(x)] for every [x] of a list. *)
Definition append_all (s : sector_list) (xs : list Z) : sector_list :=
  match s with
  | PyList l => PyList (l ++ xs)
  | SetList l => SetList (set_update l xs)
  end.

(** The reader is the same but for its recorded sectors: every other
    attribute of the object is unchanged. *)
Definition same_reader (s s' : ReiserFs.t) : Prop :=
  ReiserFs.rescue_map s' = ReiserFs.rescue_map s /\
  ReiserFs.block_size s' = ReiserFs.block_size s /\
  ReiserFs.sectors_per_block s' = ReiserFs.sectors_per_block s /\
  ReiserFs.f s' = ReiserFs.f s /\
  ReiserFs.partition_start s' = ReiserFs.partition_start s /\
  ReiserFs.superblock s' = ReiserFs.superblock s /\
  ReiserFs.incomplete s' = ReiserFs.incomplete s.

Definition nonzero (off : Z) : bool := negb (off =? 0).

Definition sparse_file_mounted : World := mounted sparse_file_image (all_finished 1).

Definition settled (w w' : World) : Prop :=
  ReiserFs.sectors_per_block (fs w') = ReiserFs.sectors_per_block (fs w) /\
  ReiserFs.partition_start (fs w') = ReiserFs.partition_start (fs w) /\
  stdout w' = stdout w /\ stderr w' = stderr w.

Definition stays {A : Type} (m : M A) : Prop :=
  forall w a w', m w = Ret a w' -> settled w w'.

Definition one_block_file_world : World := main_world one_block_file_image (all_finished 1) 0.

(** The blocks one byte of a bitmap marks, and those a whole bitmap marks,
    in the order [markUsed] adds them. *)
Definition byte_bits (base : Z) (b : byte) (bits : list Z) : list Z :=
  map (fun bit => base + bit) (filter (fun bit => Z.testbit (byte.unsigned b) bit) bits).

Fixpoint marked (pos i : Z) (bitmap : bytes) : list Z :=
  match bitmap with
  | [] => []
  | b :: tl => byte_bits (pos + i * 8) b (zrange 0 8) ++ marked pos (i + 1) tl
  end.

(** What [readBlock] returns for block [n]. *)
Definition block_at (s : ReiserFs.t) (n : Z) : bytes :=
  file_read (ReiserFs.f s) (ReiserFs.partition_start s + n * ReiserFs.block_size s)
            (ReiserFs.block_size s).

(** The byte at position [p] of the partition is not rescued. *)
Definition unrescued (s : ReiserFs.t) (p : Z) : Prop :=
  RescueMap.getitem (ReiserFs.rescue_map s) p <> Ok FINISHED.

(** The blocks where the further bitmaps are looked for: the multiples of
    eight times the block size below the block count. *)
Definition bitmap_position (bs count pos : Z) : Prop :=
  exists k, 1 <= k /\ pos = k * (bs * 8) /\ pos < count.

(** A bitmap in block 17 that marks the blocks 0 to 18, before an empty
    root leaf. *)
Definition bitmap_block : bytes :=
  [Byte.xff; Byte.xff; Byte.x07] ++ repeat Byte.x00 (Z.to_nat 4093).

Definition bitmap_image : bytes := image_of 18 [bitmap_block; leaf_block 0 [] []].

Definition bitmap_world : World := main_world bitmap_image (all_finished 2) 0.

(** * Proofs *)

(** ** Key packing and unpacking *)

Lemma lor_shiftl_low (a b n : Z) :
  0 <= n -> 0 <= a < 2 ^ n ->
  Z.land (Z.lor a (Z.shiftl b n)) (Z.ones n) = a.
Proof.
  intros Hn Ha.
  rewrite Z.land_lor_distr_l, !Z.land_ones by lia.
  rewrite Z.shiftl_mul_pow2 by lia.
  rewrite Z.mod_mul by lia.
  rewrite Z.mod_small by lia.
  apply Z.lor_0_r.
Qed.

Lemma lor_shiftl_high (a b n : Z) :
  0 <= n -> 0 <= a < 2 ^ n ->
  Z.shiftr (Z.lor a (Z.shiftl b n)) n = b.
Proof.
  intros Hn Ha.
  rewrite Z.shiftr_lor, Z.shiftr_shiftl_l by lia.
  rewrite Z.sub_diag, Z.shiftl_0_r.
  rewrite Z.shiftr_div_pow2 by lia.
  rewrite Z.div_small by lia.
  reflexivity.
Qed.

Lemma lor_shiftl_nibble (a b n : Z) :
  4 <= n -> Z.land (Z.lor a (Z.shiftl b n)) 0xF = Z.land a 0xF.
Proof.
  intros Hn.
  change 0xF with (Z.ones 4).
  rewrite Z.land_lor_distr_l, !Z.land_ones by lia.
  rewrite Z.shiftl_mul_pow2 by lia.
  replace n with ((n - 4) + 4) by lia.
  rewrite Z.pow_add_r by lia.
  rewrite Z.mul_assoc, Z.mod_mul by lia.
  apply Z.lor_0_r.
Qed.

Lemma lor_shiftl_add (a b n : Z) :
  0 <= n -> 0 <= a < 2 ^ n ->
  Z.lor a (Z.shiftl b n) = a + b * 2 ^ n.
Proof.
  intros Hn Ha.
  assert (Hd : Z.land a (Z.shiftl b n) = 0).
  { apply Z.bits_inj'. intros i Hi.
    rewrite Z.land_spec, Z.bits_0.
    destruct (Z.lt_ge_cases i n) as [Hlt|Hge].
    - rewrite Z.shiftl_spec_low by lia. apply andb_false_r.
    - rewrite <- (Z.mod_small a (2 ^ n)) by lia.
      rewrite Z.mod_pow2_bits_high by lia. reflexivity. }
  rewrite <- Z.lxor_lor by exact Hd.
  rewrite <- Z.add_nocarry_lxor by exact Hd.
  rewrite Z.shiftl_mul_pow2 by lia. reflexivity.
Qed.

Lemma lor_shiftl_bound (a b n m : Z) :
  0 <= n -> 0 <= m -> 0 <= a < 2 ^ n -> 0 <= b < 2 ^ m ->
  0 <= Z.lor a (Z.shiftl b n) < 2 ^ (n + m).
Proof.
  intros Hn Hm Ha Hb.
  rewrite lor_shiftl_add by lia.
  rewrite Z.pow_add_r by lia. nia.
Qed.

Lemma firstn_skipn_middle {A : Type} (x y z : list A) :
  firstn (List.length y) (skipn (List.length x) (x ++ y ++ z)) = y.
Proof.
  rewrite skipn_app, skipn_all, Nat.sub_diag, skipn_O. simpl app.
  rewrite firstn_app, firstn_all, Nat.sub_diag, firstn_O. apply app_nil_r.
Qed.

(** What [unpack] reads back from three packed fields. *)
Lemma le_at_packed (d o w : Z) :
  0 <= d < 2 ^ 32 -> 0 <= o < 2 ^ 32 -> 0 <= w < 2 ^ 64 ->
  let b := le_split 4 d ++ le_split 4 o ++ le_split 8 w in
  blen b = 16 /\ le_at b 0 4 = d /\ le_at b 4 4 = o /\ le_at b 8 8 = w.
Proof.
  intros Hd Ho Hw b. unfold b, blen, le_at.
  split; [|split; [|split]].
  - rewrite !length_app, !length_le_split. reflexivity.
  - pose proof (firstn_skipn_middle [] (le_split 4 d) (le_split 4 o ++ le_split 8 w)) as E.
    rewrite length_le_split in E. cbn [List.length skipn app] in E.
    cbn [skipn]. rewrite E.
    rewrite le_combine_split. apply Z.mod_small. simpl. lia.
  - pose proof (firstn_skipn_middle (le_split 4 d) (le_split 4 o) (le_split 8 w)) as E.
    rewrite !length_le_split in E. rewrite E.
    rewrite le_combine_split. apply Z.mod_small. simpl. lia.
  - pose proof (firstn_skipn_middle (le_split 4 d ++ le_split 4 o) (le_split 8 w) []) as E.
    rewrite length_app, !length_le_split, app_nil_r, <- app_assoc in E. simpl Nat.add in E.
    rewrite E.
    rewrite le_combine_split. apply Z.mod_small. simpl. lia.
Qed.

Lemma pack_uint_ok (len : nat) (z : Z) :
  0 <= z < 2 ^ (Z.of_nat len * 8) -> pack_uint len z = Ok (le_split len z).
Proof.
  intros H. unfold pack_uint.
  replace (0 <=? z) with true by (symmetry; apply Z.leb_le; lia).
  replace (z <? 2 ^ (Z.of_nat len * 8)) with true by (symmetry; apply Z.ltb_lt; lia).
  reflexivity.
Qed.

Lemma type2id_range (ty : ItemType) : 0 <= ItemType.version1_type2id ty < 2 ^ 32.
Proof. destruct ty; simpl; lia. Qed.

Lemma type_value_range (ty : ItemType) : 0 <= ItemType.value ty < 2 ^ 4.
Proof. destruct ty; simpl; lia. Qed.

Lemma id2type_type2id (ty : ItemType) :
  ItemType.version1_id2type (ItemType.version1_type2id ty) = Ok ty.
Proof. destruct ty; reflexivity. Qed.

Lemma of_value_value (ty : ItemType) : ItemType.of_value (ItemType.value ty) = Ok ty.
Proof. destruct ty; reflexivity. Qed.

Lemma key_word_range (k : Key.t) : Key.valid k -> 0 <= key_word k < 2 ^ 64.
Proof.
  intros (_ & _ & [[Hv Hoff] | [Hv Hoff]]); unfold key_word; rewrite Hv; simpl Z.eqb; cbv iota.
  - change 64 with (32 + 32). apply lor_shiftl_bound; try lia. apply type2id_range.
  - change 64 with (60 + 4). apply lor_shiftl_bound; try lia. apply type_value_range.
Qed.

Lemma key_pack_valid (k : Key.t) :
  Key.valid k ->
  Key.pack k =
  Ok (le_split 4 (Key.dirid k) ++ le_split 4 (Key.objid k) ++ le_split 8 (key_word k)).
Proof.
  intros Hk. pose proof (key_word_range k Hk) as Hw.
  destruct Hk as (Hd & Ho & _).
  unfold Key.pack. fold (key_word k).
  rewrite (pack_uint_ok 4), (pack_uint_ok 4), (pack_uint_ok 8) by (simpl; lia).
  reflexivity.
Qed.

(** Decoding a packed key under version [v]: the fields read back are the
    ones written, and only the split of the combined word depends on [v]. *)
Lemma key_unpack_packed (k : Key.t) (v : Z) :
  Key.valid k ->
  Key.unpack
    (le_split 4 (Key.dirid k) ++ le_split 4 (Key.objid k) ++ le_split 8 (key_word k))
    (Some v) =
  if v =? 1 then
    ty <-? ItemType.version1_id2type (Z.shiftr (key_word k) 32) ;;
    Ok (Key.mk (Key.dirid k) (Key.objid k) (Z.land (key_word k) 0xFFFFFFFF) ty 1)
  else
    ty <-? ItemType.of_value (Z.shiftr (key_word k) 60) ;;
    Ok (Key.mk (Key.dirid k) (Key.objid k) (Z.land (key_word k) 0x0FFFFFFFFFFFFFFF) ty 2).
Proof.
  intros Hk. pose proof (key_word_range k Hk) as Hw.
  destruct Hk as (Hd & Ho & _).
  destruct (le_at_packed _ _ _ Hd Ho Hw) as (Hl & E0 & E1 & E2).
  unfold Key.unpack. rewrite Hl, E0, E1, E2. reflexivity.
Qed.

Lemma key_unpack_infer_version (k : Key.t) :
  Key.valid k ->
  Key.unpack
    (le_split 4 (Key.dirid k) ++ le_split 4 (Key.objid k) ++ le_split 8 (key_word k))
    None =
  Key.unpack
    (le_split 4 (Key.dirid k) ++ le_split 4 (Key.objid k) ++ le_split 8 (key_word k))
    (Some (let low := Z.land (Key.offset k) 0xF in
           if (low =? 0) || (low =? 15) then 1 else 2)).
Proof.
  intros Hk. pose proof (key_word_range k Hk) as Hw.
  destruct Hk as (Hd & Ho & _).
  destruct (le_at_packed _ _ _ Hd Ho Hw) as (Hl & E0 & E1 & E2).
  unfold Key.unpack. rewrite Hl, E0, E1, E2.
  assert (En : Z.land (key_word k) 0xF = Z.land (Key.offset k) 0xF).
  { unfold key_word. destruct (Key.version k =? 1); apply lor_shiftl_nibble; lia. }
  rewrite En. reflexivity.
Qed.

Lemma key_split_v1 (k : Key.t) :
  Key.valid k -> Key.version k = 1 ->
  Z.shiftr (key_word k) 32 = ItemType.version1_type2id (Key.type k) /\
  Z.land (key_word k) 0xFFFFFFFF = Key.offset k.
Proof.
  intros (_ & _ & [[Hv Hoff] | [Hv Hoff]]) Hv1; [|lia].
  unfold key_word. rewrite Hv. simpl Z.eqb. cbv iota. split.
  - apply lor_shiftl_high; lia.
  - change 0xFFFFFFFF with (Z.ones 32). apply lor_shiftl_low; lia.
Qed.

Lemma key_split_v2 (k : Key.t) :
  Key.valid k -> Key.version k = 2 ->
  Z.shiftr (key_word k) 60 = ItemType.value (Key.type k) /\
  Z.land (key_word k) 0x0FFFFFFFFFFFFFFF = Key.offset k.
Proof.
  intros (_ & _ & [[Hv Hoff] | [Hv Hoff]]) Hv2; [lia|].
  unfold key_word. rewrite Hv. simpl Z.eqb. cbv iota. split.
  - apply lor_shiftl_high; lia.
  - change 0x0FFFFFFFFFFFFFFF with (Z.ones 60). apply lor_shiftl_low; lia.
Qed.

Lemma key_unpack_own_version (k : Key.t) :
  Key.valid k ->
  Key.unpack
    (le_split 4 (Key.dirid k) ++ le_split 4 (Key.objid k) ++ le_split 8 (key_word k))
    (Some (Key.version k)) = Ok k.
Proof.
  intros Hk. rewrite key_unpack_packed by exact Hk.
  destruct (proj2 (proj2 Hk)) as [[Hv Hoff] | [Hv Hoff]].
  - destruct (key_split_v1 k Hk Hv) as [Es El].
    rewrite Hv, Es, El, id2type_type2id. simpl.
    destruct k; simpl in *; subst; reflexivity.
  - destruct (key_split_v2 k Hk Hv) as [Es El].
    rewrite Hv, Es, El, of_value_value. simpl.
    destruct k; simpl in *; subst; reflexivity.
Qed.

Lemma key_unpack_version (b : bytes) (v : Z) (k : Key.t) :
  Key.unpack b (Some v) = Ok k -> Key.version k = if v =? 1 then 1 else 2.
Proof.
  unfold Key.unpack. destruct (negb (blen b =? Key.struct_size)); [discriminate|].
  destruct (v =? 1).
  - destruct (ItemType.version1_id2type _); simpl; [|discriminate].
    intros E. injection E as <-. reflexivity.
  - destruct (ItemType.of_value _); simpl; [|discriminate].
    intros E. injection E as <-. reflexivity.
Qed.

(** C5: packing a valid key (32-bit ids; version 1 with a 32-bit offset, or
    version 2 with a 60-bit offset) succeeds with 16 bytes, and unpacking
    them with the version forced to the key's version gives the key back. *)
Theorem key_pack_unpack_roundtrip (k : Key.t) :
  Key.valid k ->
  exists b : bytes,
    Key.pack k = Ok b /\ blen b = Key.struct_size /\
    Key.unpack b (Some (Key.version k)) = Ok k.
Proof.
  intros Hk. eexists. split; [apply key_pack_valid; exact Hk|]. split.
  - pose proof (key_word_range k Hk) as Hw. destruct Hk as (Hd & Ho & _).
    exact (proj1 (le_at_packed _ _ _ Hd Ho Hw)).
  - apply key_unpack_own_version. exact Hk.
Qed.

Lemma key_pack_unpack_roundtrip_witness :
  Key.valid (Key.mk 1 2 4097 INDIRECT 1) /\
  exists b : bytes,
    Key.pack (Key.mk 1 2 4097 INDIRECT 1) = Ok b /\ blen b = Key.struct_size /\
    Key.unpack b (Some 1) = Ok (Key.mk 1 2 4097 INDIRECT 1).
Proof.
  assert (H : Key.valid (Key.mk 1 2 4097 INDIRECT 1)).
  { unfold Key.valid; simpl; lia. }
  split; [exact H|]. exact (key_pack_unpack_roundtrip _ H).
Defined.

(** C9: unpacking the packing of a valid key without a forced version
    returns the key exactly when the key is version 1 with the low four bits
    of its offset 0 or 15, or version 2 with those bits neither 0 nor 15; in
    every other case the inference picks the other version, and the outcome
    (a key of that other version, or a decoding error) is not the key. *)
Theorem key_unpack_inferred_version (k : Key.t) (b : bytes) :
  Key.valid k -> Key.pack k = Ok b ->
  (Key.unpack b None = Ok k <-> inference_agrees k = true) /\
  (inference_agrees k = false ->
   Key.unpack b None = Key.unpack b (Some (3 - Key.version k)) /\
   Key.unpack b None <> Ok k).
Proof.
  intros Hk Hp. rewrite key_pack_valid in Hp by exact Hk.
  assert (Eb : b = le_split 4 (Key.dirid k) ++ le_split 4 (Key.objid k) ++ le_split 8 (key_word k))
    by congruence.
  subst b. clear Hp.
  rewrite key_unpack_infer_version by exact Hk.
  pose proof (key_unpack_own_version k Hk) as Hown.
  unfold inference_agrees. cbv zeta.
  set (low := Z.land (Key.offset k) 0xF).
  destruct ((low =? 0) || (low =? 15));
    destruct (proj2 (proj2 Hk)) as [[Hv Hoff] | [Hv Hoff]]; rewrite Hv in *; simpl.
  - (* version 1, inferred 1 *)
    split; [split; [reflexivity | intros _; exact Hown] | discriminate].
  - (* version 2, inferred 1 *)
    split; [split; [|discriminate] | intros _; split; [reflexivity|]];
      intros E; apply key_unpack_version in E; simpl in E; lia.
  - (* version 1, inferred 2 *)
    split; [split; [|discriminate] | intros _; split; [reflexivity|]];
      intros E; apply key_unpack_version in E; simpl in E; lia.
  - (* version 2, inferred 2 *)
    split; [split; [reflexivity | intros _; exact Hown] | discriminate].
Qed.

Lemma key_unpack_inferred_version_witness :
  Key.valid (Key.mk 1 2 4097 INDIRECT 2) /\
  exists b : bytes,
    Key.pack (Key.mk 1 2 4097 INDIRECT 2) = Ok b /\
    Key.unpack b None = Ok (Key.mk 1 2 4097 INDIRECT 2) /\
    inference_agrees (Key.mk 1 2 4097 INDIRECT 2) = true.
Proof.
  assert (H : Key.valid (Key.mk 1 2 4097 INDIRECT 2)).
  { unfold Key.valid; simpl; lia. }
  split; [exact H|].
  pose proof (key_pack_valid _ H) as Hp.
  eexists. split; [exact Hp|].
  destruct (key_unpack_inferred_version _ _ H Hp) as [Hiff _].
  split; [apply Hiff; reflexivity | reflexivity].
Defined.


(** ** The rescue map lookup *)

Section Lookup.

Lemma bisect_left_loop_spec (a : list RescueMap.entry) (x : Z) (i : nat) :
  splits_at a x i ->
  forall fuel lo hi,
    (lo <= i <= hi)%nat -> (hi <= List.length a)%nat -> (hi - lo <= fuel)%nat ->
    RescueMap.bisect_left_loop fuel a x lo hi = i.
Proof.
  intros (Hlen & Hlow & Hhigh).
  induction fuel as [|fuel IH]; intros lo hi Hi Hhi Hfuel;
    cbn [RescueMap.bisect_left_loop].
  - lia.
  - destruct (Nat.ltb_spec lo hi) as [Hlt|Hge]; [|lia].
    assert (Hmid : (lo <= (lo + hi) / 2 < hi)%nat).
    { split.
      - apply Nat.div_le_lower_bound; lia.
      - apply Nat.Div0.div_lt_upper_bound; lia. }
    set (mid := ((lo + hi) / 2)%nat) in *.
    destruct (nth_error a mid) as [[[s n] v]|] eqn:E.
    + destruct (Z.ltb_spec s x) as [Hsx|Hsx].
      * apply IH; try lia.
        destruct (Nat.lt_ge_cases mid i) as [?|Hc]; [lia|].
        specialize (Hhigh _ _ Hc E). unfold estart in Hhigh. simpl in Hhigh. lia.
      * apply IH; try lia.
        destruct (Nat.lt_ge_cases mid i) as [Hc|?]; [|lia].
        specialize (Hlow _ _ Hc E). unfold estart in Hlow. simpl in Hlow. lia.
    + apply nth_error_None in E. lia.
Qed.

Lemma bisect_left_spec (a : list RescueMap.entry) (x : Z) (i : nat) :
  splits_at a x i -> RescueMap.bisect_left a x = i.
Proof.
  intros H. unfold RescueMap.bisect_left.
  apply bisect_left_loop_spec; [exact H | destruct H; lia | lia | lia].
Qed.

(** In a contiguous map every entry starts at or after the map's start and
    ends at or before the start of every later entry. *)
Lemma contiguous_nth_lower (l : list RescueMap.entry) :
  forall s0 j e,
    RescueMap.contiguous_from s0 l -> nth_error l j = Some e ->
    s0 <= estart e /\ 0 < esize e.
Proof.
  induction l as [|[[s n] v] tl IH]; intros s0 j e Hc Hn.
  - destruct j; discriminate.
  - simpl in Hc. destruct Hc as (-> & Hpos & Hc).
    destruct j as [|j]; simpl in Hn.
    + injection Hn as <-. unfold estart, esize; simpl. lia.
    + destruct (IH _ _ _ Hc Hn). lia.
Qed.

Lemma contiguous_nth_order (l : list RescueMap.entry) :
  forall s0 j j' e e',
    RescueMap.contiguous_from s0 l -> (j < j')%nat ->
    nth_error l j = Some e -> nth_error l j' = Some e' ->
    estart e + esize e <= estart e'.
Proof.
  induction l as [|[[s n] v] tl IH]; intros s0 j j' e e' Hc Hlt Hn Hn'.
  - destruct j; discriminate.
  - simpl in Hc. destruct Hc as (-> & Hpos & Hc).
    destruct j' as [|j']; [lia|]. simpl in Hn'.
    destruct j as [|j]; simpl in Hn.
    + injection Hn as <-. unfold estart at 1, esize; simpl.
      destruct (contiguous_nth_lower _ _ _ _ Hc Hn'). lia.
    + apply (IH _ j j' e e' Hc); [lia | assumption | assumption].
Qed.

Lemma contiguous_next (l : list RescueMap.entry) :
  forall s0 j e e',
    RescueMap.contiguous_from s0 l ->
    nth_error l j = Some e -> nth_error l (S j) = Some e' ->
    estart e' = estart e + esize e.
Proof.
  induction l as [|[[s n] v] tl IH]; intros s0 j e e' Hc Hn Hn'.
  - destruct j; discriminate.
  - simpl in Hc. destruct Hc as (-> & Hpos & Hc). simpl in Hn'.
    destruct j as [|j]; simpl in Hn.
    + injection Hn as <-. destruct tl as [|[[s' n'] v'] tl']; [discriminate|].
      simpl in Hn'. injection Hn' as <-. simpl in Hc. unfold estart, esize; simpl. lia.
    + apply (IH _ j e e' Hc); assumption.
Qed.

Lemma total_end_last (l : list RescueMap.entry) (e : RescueMap.entry) :
  RescueMap.total_end (l ++ [e]) = estart e + esize e.
Proof.
  unfold RescueMap.total_end. rewrite fold_left_app. reflexivity.
Qed.

Lemma nth_error_first_start (l : list RescueMap.entry) (e : RescueMap.entry) :
  nth_error l 0 = Some e -> RescueMap.first_start l = estart e.
Proof. destruct l as [|[[s n] v] tl]; simpl; [discriminate|]. intros E. injection E as <-. reflexivity. Qed.

(** Every position of a contiguous map between its start and its end lies
    in one of its entries. *)
Lemma contiguous_cover (l : list RescueMap.entry) :
  forall s0 p,
    RescueMap.contiguous_from s0 l -> l <> [] ->
    s0 <= p < RescueMap.total_end l ->
    exists j e, nth_error l j = Some e /\ estart e <= p < estart e + esize e.
Proof.
  induction l as [|[[s n] v] tl IH]; intros s0 p Hc Hne Hp; [congruence|].
  simpl in Hc. destruct Hc as (Es & Hpos & Hc). subst s0.
  destruct (Z.lt_ge_cases p (s + n)) as [Hin|Hout].
  - exists 0%nat, (s, n, v). unfold estart, esize; simpl. split; [reflexivity|lia].
  - destruct tl as [|e1 tl'].
    + unfold RescueMap.total_end in Hp. simpl in Hp. lia.
    + assert (Hend : RescueMap.total_end ((s, n, v) :: e1 :: tl') = RescueMap.total_end (e1 :: tl')).
      { unfold RescueMap.total_end. simpl. clear.
        generalize (fst (fst e1) + snd (fst e1)). induction tl' as [|e2 tl2 IH2]; intros z; simpl; [reflexivity|].
        reflexivity. }
      destruct (IH (s + n) p Hc ltac:(discriminate)) as (j & e & Hj & Hcov).
      { rewrite <- Hend. split; [exact Hout | exact (proj2 Hp)]. }
      exists (S j), e. split; assumption.
Qed.

End Lookup.

Lemma nth_error_last_app {A : Type} (l : list A) (x : A) :
  nth_error (l ++ [x]) (List.length l) = Some x.
Proof. rewrite nth_error_app2 by lia. rewrite Nat.sub_diag. reflexivity. Qed.

Lemma contiguous_end_bound (l : list RescueMap.entry) (s0 : Z) (j : nat) (e : RescueMap.entry) :
  RescueMap.contiguous_from s0 l -> nth_error l j = Some e ->
  estart e + esize e <= RescueMap.total_end l.
Proof.
  intros Hc Hn.
  destruct (exists_last (l := l)) as (l' & z & ->).
  { intros ->. destruct j; discriminate. }
  rewrite total_end_last.
  assert (Hj : (j < List.length (l' ++ [z]))%nat) by (apply nth_error_Some; congruence).
  rewrite length_app in Hj. simpl in Hj.
  destruct (Nat.eq_dec j (List.length l')) as [->|Hne].
  - rewrite nth_error_last_app in Hn. injection Hn as <-. lia.
  - pose proof (contiguous_nth_order _ _ j (List.length l') e z Hc ltac:(lia) Hn
                  (nth_error_last_app l' z)) as Ho.
    destruct (contiguous_nth_lower _ _ _ _ Hc (nth_error_last_app l' z)). lia.
Qed.

(** The lookup finds the entry that covers the position. *)
Lemma getitem_covered (m : RescueMap.t) (pos : Z) (j : nat) (e : RescueMap.entry) :
  RescueMap.well_formed m ->
  nth_error (RescueMap._ranges m) j = Some e ->
  estart e <= pos + RescueMap.offset m < estart e + esize e ->
  RescueMap.getitem m pos = Ok (estatus e) /\
  (RescueMap.bisect_left (RescueMap._ranges m) (pos + RescueMap.offset m) =
     if estart e =? pos + RescueMap.offset m then j else S j) /\
  (forall j' e', nth_error (RescueMap._ranges m) j' = Some e' ->
                 estart e' <= pos + RescueMap.offset m -> estart e' <= estart e).
Proof.
  intros Hwf Hn Hcov. unfold RescueMap.well_formed in Hwf.
  set (l := RescueMap._ranges m) in *. set (p := pos + RescueMap.offset m) in *.
  assert (Hjl : (j < List.length l)%nat) by (apply nth_error_Some; congruence).
  assert (Hgreatest : forall j' e', nth_error l j' = Some e' -> estart e' <= p ->
                                    estart e' <= estart e).
  { intros j' e' Hn' Hle.
    destruct (Nat.lt_trichotomy j' j) as [Hlt|[->|Hgt]].
    - pose proof (contiguous_nth_order _ _ _ _ _ _ Hwf Hlt Hn' Hn).
      destruct (contiguous_nth_lower _ _ _ _ Hwf Hn'). lia.
    - rewrite Hn in Hn'. injection Hn' as <-. lia.
    - pose proof (contiguous_nth_order _ _ _ _ _ _ Hwf Hgt Hn Hn'). lia. }
  assert (Hsplit : splits_at l p (if estart e =? p then j else S j)).
  { destruct (Z.eqb_spec (estart e) p) as [Heq|Hneq]; (split; [lia|split]).
    - intros j' e' Hlt Hn'.
      pose proof (contiguous_nth_order _ _ _ _ _ _ Hwf Hlt Hn' Hn).
      destruct (contiguous_nth_lower _ _ _ _ Hwf Hn'). lia.
    - intros j' e' Hge Hn'.
      destruct (Nat.eq_dec j' j) as [->|Hne].
      + rewrite Hn in Hn'. injection Hn' as <-. lia.
      + pose proof (contiguous_nth_order _ _ j j' _ _ Hwf ltac:(lia) Hn Hn'). lia.
    - intros j' e' Hlt Hn'.
      destruct (Nat.eq_dec j' j) as [->|Hne].
      + rewrite Hn in Hn'. injection Hn' as <-. lia.
      + pose proof (contiguous_nth_order _ _ j' j _ _ Hwf ltac:(lia) Hn' Hn).
        destruct (contiguous_nth_lower _ _ _ _ Hwf Hn'). lia.
    - intros j' e' Hge Hn'.
      pose proof (contiguous_nth_order _ _ j j' _ _ Hwf ltac:(lia) Hn Hn'). lia. }
  pose proof (bisect_left_spec _ _ _ Hsplit) as Hb.
  split; [|split; [exact Hb | exact Hgreatest]].
  unfold RescueMap.getitem. fold l. fold p. rewrite Hb.
  destruct e as [[s n] v]. unfold estart, esize, estatus in *. simpl in *.
  destruct (Z.eqb_spec s p) as [Heq|Hneq].
  - destruct (Nat.eqb_spec j (List.length l)) as [?|_]; [lia|]. simpl.
    rewrite Hn. rewrite (proj2 (Z.eqb_eq s p) Heq). reflexivity.
  - assert (Hhit :
      (if negb (S j =? List.length l)%nat
       then match nth_error l (S j) with
            | Some (start, _, val) => if start =? p then Some val else None
            | None => None
            end
       else None) = None).
    { destruct (negb (S j =? List.length l)%nat); [|reflexivity].
      destruct (nth_error l (S j)) as [[[s' n'] v']|] eqn:E'; [|reflexivity].
      pose proof (contiguous_next _ _ _ _ _ Hwf Hn E') as Hs'.
      unfold estart, esize in Hs'. simpl in Hs'.
      destruct (Z.eqb_spec s' p); [lia | reflexivity]. }
    rewrite Hhit. simpl. rewrite Nat.sub_0_r, Hn.
    replace (s <=? p) with true by (symmetry; apply Z.leb_le; lia).
    replace (s + n >? p) with true by (symmetry; apply Z.gtb_lt; lia).
    reflexivity.
Qed.

(** Before the first entry, and in an empty map, the lookup raises the
    map's [ValueError]. *)
Lemma getitem_before_first (m : RescueMap.t) (pos : Z) :
  RescueMap.well_formed m ->
  RescueMap._ranges m = [] \/
  pos + RescueMap.offset m < RescueMap.first_start (RescueMap._ranges m) ->
  RescueMap.getitem m pos = Error ValueError.
Proof.
  intros Hwf Hp. unfold RescueMap.well_formed in Hwf.
  set (l := RescueMap._ranges m) in *. set (p := pos + RescueMap.offset m) in *.
  assert (Hsplit : splits_at l p 0).
  { split; [lia|split]; [intros; lia|].
    intros j e _ Hn. destruct Hp as [Hp|Hp]; [rewrite Hp in Hn; destruct j; discriminate|].
    destruct (contiguous_nth_lower _ _ _ _ Hwf Hn). lia. }
  unfold RescueMap.getitem. fold l. fold p. rewrite (bisect_left_spec _ _ _ Hsplit).
  destruct l as [|[[s n] v] tl]; [reflexivity|]. simpl.
  destruct Hp as [Hp|Hp]; [discriminate|]. simpl in Hp.
  destruct (Z.eqb_spec s p); [lia | reflexivity].
Qed.

(** At or past the end of the last entry the lookup fails its assertion. *)
Lemma getitem_past_end (m : RescueMap.t) (pos : Z) :
  RescueMap.well_formed m -> RescueMap._ranges m <> [] ->
  RescueMap.total_end (RescueMap._ranges m) <= pos + RescueMap.offset m ->
  RescueMap.getitem m pos = Error AssertionError.
Proof.
  intros Hwf Hne Hp. unfold RescueMap.well_formed in Hwf.
  set (l := RescueMap._ranges m) in *. set (p := pos + RescueMap.offset m) in *.
  assert (Hsplit : splits_at l p (List.length l)).
  { split; [lia|split].
    - intros j e _ Hn. pose proof (contiguous_end_bound _ _ _ _ Hwf Hn).
      destruct (contiguous_nth_lower _ _ _ _ Hwf Hn). lia.
    - intros j e Hge Hn. assert ((j < List.length l)%nat) by (apply nth_error_Some; congruence).
      lia. }
  unfold RescueMap.getitem. fold l. fold p. rewrite (bisect_left_spec _ _ _ Hsplit).
  rewrite Nat.eqb_refl. simpl.
  destruct (exists_last Hne) as (l' & z & E). rewrite E in *.
  rewrite length_app. simpl List.length.
  replace (List.length l' + 1 =? 0)%nat with false by (symmetry; apply Nat.eqb_neq; lia).
  simpl negb. cbv iota.
  replace (List.length l' + 1 - 1)%nat with (List.length l') by lia.
  rewrite nth_error_last_app. rewrite total_end_last in Hp.
  destruct z as [[s n] v]. unfold estart, esize in Hp. simpl in Hp.
  replace (s + n >? p) with false by (symmetry; rewrite Z.gtb_ltb; apply Z.ltb_ge; lia).
  rewrite andb_false_r. reflexivity.
Qed.

(** C6: on a map that is sorted, without gaps and without overlaps, the
    lookup binary-searches for the entry with the greatest start at or
    below [pos + offset] and returns its status when that entry covers the
    position; it fails when the position is outside the map, both before
    the first entry and at or past the end of the last one.  The two
    out-of-range failures are raised at different lines of [__getitem__]:
    before the first entry (and in an empty map) by the final
    [raise ValueError], at or past the end by the [assert] that the entry
    found covers the position.  Nothing in the program catches either. *)
Theorem rescue_map_lookup (m : RescueMap.t) (pos : Z) :
  RescueMap.well_formed m ->
  (RescueMap._ranges m = [] \/
   pos + RescueMap.offset m < RescueMap.first_start (RescueMap._ranges m) ->
   RescueMap.getitem m pos = Error ValueError) /\
  (RescueMap._ranges m <> [] ->
   RescueMap.first_start (RescueMap._ranges m) <= pos + RescueMap.offset m
     < RescueMap.total_end (RescueMap._ranges m) ->
   exists j e,
     nth_error (RescueMap._ranges m) j = Some e /\
     estart e <= pos + RescueMap.offset m < estart e + esize e /\
     (forall j' e', nth_error (RescueMap._ranges m) j' = Some e' ->
                    estart e' <= pos + RescueMap.offset m -> estart e' <= estart e) /\
     RescueMap.bisect_left (RescueMap._ranges m) (pos + RescueMap.offset m) =
       (if estart e =? pos + RescueMap.offset m then j else S j) /\
     RescueMap.getitem m pos = Ok (estatus e)) /\
  (RescueMap._ranges m <> [] ->
   RescueMap.total_end (RescueMap._ranges m) <= pos + RescueMap.offset m ->
   RescueMap.getitem m pos = Error AssertionError).
Proof.
  intros Hwf. split; [|split].
  - apply getitem_before_first. exact Hwf.
  - intros Hne Hp.
    destruct (contiguous_cover _ _ _ Hwf Hne Hp) as (j & e & Hn & Hcov).
    destruct (getitem_covered m pos j e Hwf Hn Hcov) as (Hg & Hb & Hmax).
    exists j, e. repeat split; try assumption; lia.
  - apply getitem_past_end. exact Hwf.
Qed.

Lemma rescue_map_lookup_witness :
  RescueMap.well_formed two_entry_map /\
  RescueMap.getitem two_entry_map 66048 = Error AssertionError /\
  RescueMap.getitem two_entry_map (-1) = Error ValueError.
Proof.
  assert (Hwf : RescueMap.well_formed two_entry_map).
  { unfold RescueMap.well_formed, two_entry_map. simpl. repeat split; lia. }
  split; [exact Hwf|].
  destruct (rescue_map_lookup two_entry_map 66048 Hwf) as (_ & _ & Hend).
  destruct (rescue_map_lookup two_entry_map (-1) Hwf) as (Hbefore & _ & _).
  split.
  - apply Hend; [discriminate | vm_compute; discriminate].
  - apply Hbefore. right. reflexivity.
Defined.

(** The boundary is exclusive: the last covered position is looked up, the
    position right after it is rejected by the assertion. *)
Example rescue_map_lookup_at_end :
  RescueMap.getitem (RescueMap.mk [(0, 10, FINISHED)] 0) 9 = Ok FINISHED /\
  RescueMap.getitem (RescueMap.mk [(0, 10, FINISHED)] 0) 10 = Error AssertionError.
Proof. split; reflexivity. Qed.

(** ** Range lists *)

Lemma separated_after_head (tl : list Range.t) :
  forall a j b, separated (a :: tl) -> nth_error tl j = Some b ->
                Range.end_ a < Range.start b.
Proof.
  induction tl as [|b0 tl IH]; intros a j b Hs Hn.
  - destruct j; discriminate.
  - destruct Hs as (Ha & Hab & Hs).
    destruct j as [|j]; simpl in Hn.
    + injection Hn as <-. exact Hab.
    + pose proof (IH b0 j b Hs Hn) as Hb.
      destruct Hs as (Hb0 & _). unfold Range.end_ in *. lia.
Qed.

Lemma separated_order (l : list Range.t) :
  forall i j a b, separated l -> (i < j)%nat ->
                  nth_error l i = Some a -> nth_error l j = Some b ->
                  0 <= Range.size a /\ Range.end_ a < Range.start b.
Proof.
  induction l as [|a0 tl IH]; intros i j a b Hs Hlt Hi Hj.
  - destruct i; discriminate.
  - destruct j as [|j]; [lia|]. simpl in Hj.
    destruct i as [|i]; simpl in Hi.
    + injection Hi as <-. split; [apply Hs | apply (separated_after_head tl a0 j b Hs Hj)].
    + apply (IH i j a b); [apply Hs | lia | assumption | assumption].
Qed.

Lemma separated_properties (l : list Range.t) :
  separated l -> sorted_by_start l /\ pairwise_disjoint l /\ no_adjacent l.
Proof.
  intros Hs. split; [|split].
  - intros i j a b Hlt Hi Hj.
    destruct (separated_order l i j a b Hs Hlt Hi Hj). unfold Range.end_ in *. lia.
  - intros i j a b Hlt Hi Hj.
    destruct (separated_order l i j a b Hs Hlt Hi Hj). lia.
  - intros i a b Hi Hj.
    destruct (separated_order l i (S i) a b Hs ltac:(lia) Hi Hj). lia.
Qed.

Lemma separated_snoc (l : list Range.t) :
  forall a b, separated (l ++ [a]) -> 0 <= Range.size b ->
              Range.end_ a < Range.start b -> separated ((l ++ [a]) ++ [b]).
Proof.
  induction l as [|x tl IH]; intros a b Hs Hb Hab.
  - simpl in *. tauto.
  - destruct Hs as (Hx & Hnext & Hs).
    change (((x :: tl) ++ [a]) ++ [b]) with (x :: ((tl ++ [a]) ++ [b])).
    split; [exact Hx|]. split.
    + destruct tl; exact Hnext.
    + apply IH; assumption.
Qed.

Lemma separated_grow_last (l : list Range.t) :
  forall a n, separated (l ++ [a]) -> 0 <= n ->
              separated (l ++ [Range.mk (Range.start a) (Range.size a + n)]).
Proof.
  induction l as [|x tl IH]; intros a n Hs Hn.
  - simpl in *. split; [lia | tauto].
  - destruct Hs as (Hx & Hnext & Hs).
    change ((x :: tl) ++ [Range.mk (Range.start a) (Range.size a + n)])
      with (x :: (tl ++ [Range.mk (Range.start a) (Range.size a + n)])).
    split; [exact Hx|]. split.
    + destruct tl; exact Hnext.
    + apply IH; assumption.
Qed.

(** One call of [add] on a list that is in order. *)
Lemma add_step (rl : RangeList.t) (start size : Z) :
  separated (RangeList.items rl) -> 0 <= size ->
  match rev (RangeList.items rl) with
  | [] => RangeList.add rl start size = Ok (RangeList.mk [Range.mk start size])
  | last :: before =>
      (Range.end_ last = start ->
       RangeList.add rl start size =
       Ok (RangeList.mk (rev before ++ [Range.mk (Range.start last) (Range.size last + size)]))) /\
      (Range.end_ last < start ->
       RangeList.add rl start size =
       Ok (RangeList.mk (RangeList.items rl ++ [Range.mk start size]))) /\
      (start < Range.end_ last -> RangeList.add rl start size = Error AssertionError)
  end /\
  (match last_end rl with Some e => e <= start | None => True end ->
   exists rl', RangeList.add rl start size = Ok rl' /\
               separated (RangeList.items rl') /\ last_end rl' = Some (start + size)).
Proof.
  intros Hs Hn. unfold RangeList.add, last_end.
  destruct (rev (RangeList.items rl)) as [|last before] eqn:E.
  - apply (f_equal (@rev _)) in E. rewrite rev_involutive in E. simpl in E.
    rewrite E. simpl. split; [reflexivity|]. intros _. eexists. split; [reflexivity|].
    simpl. split; [tauto|reflexivity].
  - apply (f_equal (@rev _)) in E. rewrite rev_involutive in E. simpl in E.
    rewrite E in *. unfold Range.end_.
    split; [split; [|split]|].
    + intros H. rewrite (proj2 (Z.eqb_eq _ _) H). reflexivity.
    + intros H. destruct (Z.eqb_spec (Range.start last + Range.size last) start); [lia|].
      rewrite (proj2 (Z.ltb_lt _ _) H). reflexivity.
    + intros H. destruct (Z.eqb_spec (Range.start last + Range.size last) start); [lia|].
      rewrite (proj2 (Z.ltb_ge _ _)) by lia. reflexivity.
    + intros Hle. destruct (Z.eqb_spec (Range.start last + Range.size last) start) as [Heq|Hne].
      * eexists. split; [reflexivity|]. simpl RangeList.items. split.
        -- apply separated_grow_last; assumption.
        -- rewrite rev_app_distr. simpl. unfold Range.end_. simpl. f_equal. lia.
      * rewrite (proj2 (Z.ltb_lt _ _)) by lia.
        eexists. split; [reflexivity|]. simpl RangeList.items. split.
        -- apply separated_snoc; [assumption | assumption | unfold Range.end_; simpl; lia].
        -- rewrite rev_app_distr. reflexivity.
Qed.

Lemma add_all_in_preorder (calls : list (Z * Z)) :
  forall rl, separated (RangeList.items rl) -> in_preorder (last_end rl) calls ->
             exists rl', add_all fst snd calls rl = Ok rl' /\ separated (RangeList.items rl').
Proof.
  induction calls as [|[s n] tl IH]; intros rl Hs Hp.
  - exists rl. split; [reflexivity | exact Hs].
  - destruct Hp as (Hn & Hle & Hp).
    destruct (proj2 (add_step rl s n Hs Hn) Hle) as (rl1 & Ha & Hs1 & He1).
    simpl. rewrite Ha. simpl. apply IH; [exact Hs1 | rewrite He1; exact Hp].
Qed.

Lemma in_preorder_firstn (calls : list (Z * Z)) :
  forall prev k, in_preorder prev calls -> in_preorder prev (firstn k calls).
Proof.
  induction calls as [|[s n] tl IH]; intros prev k Hp.
  - destruct k; exact I.
  - destruct k as [|k]; [exact I|]. destruct Hp as (Hn & Hle & Hp).
    simpl. repeat split; try assumption. apply IH. exact Hp.
Qed.

(** C7: with sizes that are not negative, [add] extends the last record
    when [start] is its end, appends a record when [start] is beyond it and
    fails its assertion when [start] is before it; and for every sequence of
    calls in which each start is at or after the end of the previous record,
    every call succeeds and after every call the items are sorted by start,
    pairwise disjoint and without two adjacent records that touch. *)
Theorem rangelist_add_in_order :
  (forall rl start size last before,
     separated (RangeList.items rl) -> 0 <= size ->
     rev (RangeList.items rl) = last :: before ->
     (Range.end_ last = start ->
      RangeList.add rl start size =
      Ok (RangeList.mk (rev before ++ [Range.mk (Range.start last) (Range.size last + size)]))) /\
     (Range.end_ last < start ->
      RangeList.add rl start size =
      Ok (RangeList.mk (RangeList.items rl ++ [Range.mk start size]))) /\
     (start < Range.end_ last -> RangeList.add rl start size = Error AssertionError)) /\
  (forall start size,
     RangeList.add RangeList.empty start size = Ok (RangeList.mk [Range.mk start size])) /\
  (forall calls k,
     in_preorder None calls ->
     exists rl,
       add_all fst snd (firstn k calls) RangeList.empty = Ok rl /\
       sorted_by_start (RangeList.items rl) /\
       pairwise_disjoint (RangeList.items rl) /\
       no_adjacent (RangeList.items rl)).
Proof.
  split; [|split].
  - intros rl start size last before Hs Hn E.
    pose proof (proj1 (add_step rl start size Hs Hn)) as H. rewrite E in H. exact H.
  - reflexivity.
  - intros calls k Hp.
    destruct (add_all_in_preorder (firstn k calls) RangeList.empty I
                (in_preorder_firstn calls None k Hp)) as (rl & Ha & Hs).
    exists rl. split; [exact Ha|]. apply separated_properties. exact Hs.
Qed.

Lemma rangelist_add_in_order_witness :
  in_preorder None [(8, 8); (16, 8); (128, 1)] /\
  exists rl,
    add_all fst snd (firstn 3 [(8, 8); (16, 8); (128, 1)]) RangeList.empty = Ok rl /\
    sorted_by_start (RangeList.items rl) /\
    pairwise_disjoint (RangeList.items rl) /\
    no_adjacent (RangeList.items rl).
Proof.
  assert (H : in_preorder None [(8, 8); (16, 8); (128, 1)]) by (simpl; lia).
  split; [exact H|].
  exact (proj2 (proj2 rangelist_add_in_order) _ 3%nat H).
Defined.


(** ** The order of reads in the tree walk *)

Section Heap.

Lemma entry_ltb_false (a b : heap_entry) : entry_ltb a b = false -> fst b <= fst a.
Proof.
  unfold entry_ltb. intros H. apply orb_false_iff in H. destruct H as [H _].
  apply Z.ltb_ge in H. exact H.
Qed.

Lemma entry_ltb_true (a b : heap_entry) : entry_ltb a b = true -> fst a <= fst b.
Proof.
  unfold entry_ltb. intros H. apply orb_true_iff in H. destruct H as [H|H].
  - apply Z.ltb_lt in H. lia.
  - apply andb_true_iff in H. destruct H as [H _]. apply Z.eqb_eq in H. lia.
Qed.

Lemma heap_min_spec (l : list heap_entry) :
  forall x, In (heap_min x l) (x :: l) /\
            fst (heap_min x l) <= fst x /\
            Forall (fun e => fst (heap_min x l) <= fst e) l.
Proof.
  induction l as [|y tl IH]; intros x; simpl.
  - split; [left; reflexivity|]. split; [lia | constructor].
  - destruct (entry_ltb y x) eqn:E.
    + destruct (IH y) as (Hin & Hle & Hall). split; [|split].
      * destruct Hin as [Hin|Hin]; [right; left; exact Hin | right; right; exact Hin].
      * apply entry_ltb_true in E. lia.
      * constructor; assumption.
    + destruct (IH x) as (Hin & Hle & Hall). split; [|split].
      * destruct Hin as [Hin|Hin]; [left; exact Hin | right; right; exact Hin].
      * exact Hle.
      * constructor; [|exact Hall]. apply entry_ltb_false in E. lia.
Qed.

Lemma remove_first_incl (x : heap_entry) (l : list heap_entry) :
  incl (remove_first x l) l.
Proof.
  induction l as [|y tl IH]; simpl; [apply incl_refl|].
  destruct (entry_eqb x y).
  - apply incl_tl, incl_refl.
  - intros e [->|He]; [left; reflexivity | right; apply IH; exact He].
Qed.

(** [heappop] returns an entry of the heap with the least block number and
    leaves only entries of the heap. *)
Lemma heappop_spec (h h' : list heap_entry) (block level : Z) :
  heappop h = Some ((block, level), h') ->
  In (block, level) h /\ Forall (fun e => block <= fst e) h /\ incl h' h.
Proof.
  destruct h as [|x tl]; [discriminate|]. unfold heappop.
  intros E. injection E as Em Eh.
  destruct (heap_min_spec tl x) as (Hin & Hle & Hall). rewrite Em in Hin, Hle, Hall.
  cbn [fst] in Hle, Hall.
  split; [exact Hin|]. split.
  - constructor; assumption.
  - subst h'. rewrite Em. exact (remove_first_incl (block, level) (x :: tl)).
Qed.

(** Where the children of a node go. *)
Lemma push_children_spec (block level : Z) (ptrs : list Z) :
  forall heap next_pass,
    push_children block level ptrs heap next_pass =
    (rev (map (fun p => (p, level - 1)) (filter (fun p => negb (p <? block)) ptrs)) ++ heap,
     next_pass ++ map (fun p => (p, level - 1)) (filter (fun p => p <? block) ptrs)).
Proof.
  induction ptrs as [|p tl IH]; intros heap next_pass; simpl.
  - rewrite app_nil_r. reflexivity.
  - destruct (p <? block) eqn:E; simpl; rewrite IH.
    + rewrite <- app_assoc. reflexivity.
    + unfold heappush. rewrite <- app_assoc. reflexivity.
Qed.

Lemma push_children_floor (block level : Z) (ptrs : list Z) (heap next_pass : list heap_entry) :
  Forall (fun e => block <= fst e) heap ->
  Forall (fun e => block <= fst e) (fst (push_children block level ptrs heap next_pass)).
Proof.
  intros H. rewrite push_children_spec. simpl. apply Forall_app. split; [|exact H].
  apply Forall_rev, Forall_map, Forall_forall. intros p Hp.
  apply filter_In in Hp. destruct Hp as [_ Hp]. apply negb_true_iff, Z.ltb_ge in Hp.
  simpl. exact Hp.
Qed.

End Heap.

Section Trace.

Lemma nondecreasing_snoc (l : list Z) (x : Z) :
  nondecreasing l ->
  (forall b, hd_error (rev l) = Some b -> b <= x) ->
  nondecreasing (l ++ [x]).
Proof.
  induction l as [|a tl IH]; intros Hs Hb; simpl.
  - tauto.
  - destruct Hs as (Hn & Hs). split.
    + destruct tl as [|b tl']; simpl.
      * apply Hb. reflexivity.
      * exact Hn.
    + apply IH; [exact Hs|]. intros b Hl. apply Hb.
      simpl. destruct (rev tl) as [|r rs] eqn:E; [discriminate|]. simpl in *. exact Hl.
Qed.

Lemma record_pop_passes (block : Z) (passes : list (list Z)) :
  passes <> [] ->
  exists before cur,
    passes = before ++ [cur] /\ record_pop block passes = before ++ [cur ++ [block]].
Proof.
  intros Hne. destruct (exists_last Hne) as (before & cur & ->).
  exists before, cur. split; [reflexivity|].
  unfold record_pop. rewrite rev_app_distr. simpl. rewrite rev_involutive. reflexivity.
Qed.

Lemma last_popped_snoc (before : list (list Z)) (cur : list Z) :
  last_popped (before ++ [cur]) = hd_error (rev cur).
Proof.
  unfold last_popped. rewrite rev_app_distr. simpl. destruct (rev cur); reflexivity.
Qed.

(** What a pop does to the invariant: the popped block is not below the
    one popped before it, and the rest of the heap is not below it. *)
Lemma walk_inv_pop (st : walk) (block level : Z) (heap' : list heap_entry) :
  walk_inv st -> heappop (heap st) = Some ((block, level), heap') ->
  Forall nondecreasing (record_pop block (passes st)) /\
  record_pop block (passes st) <> [] /\
  last_popped (record_pop block (passes st)) = Some block /\
  Forall (fun e => block <= fst e) heap'.
Proof.
  intros (Hsorted & Hstart & Hfloor) Hpop.
  destruct (heappop_spec _ _ _ _ Hpop) as (Hin & Hmin & Hincl).
  assert (Hne : passes st <> []).
  { intros E. rewrite (Hstart E) in Hin. destruct Hin. }
  destruct (record_pop_passes block _ Hne) as (before & cur & Ep & Er).
  rewrite Er. rewrite Ep in Hsorted, Hfloor.
  apply Forall_app in Hsorted. destruct Hsorted as (Hb & Hc).
  split; [|split; [|split]].
  - apply Forall_app. split; [exact Hb|]. constructor; [|constructor].
    apply nondecreasing_snoc; [inversion Hc; assumption|].
    intros b Hl. rewrite last_popped_snoc in Hfloor.
    pose proof (Hfloor b Hl) as Hf. rewrite Forall_forall in Hf.
    exact (Hf _ Hin).
  - destruct before; discriminate.
  - rewrite last_popped_snoc, rev_app_distr. reflexivity.
  - rewrite Forall_forall in *. intros e He. apply Hmin, Hincl, He.
Qed.

Lemma walk_inv_start_pass (st : walk) :
  walk_inv st -> walk_inv (start_pass st).
Proof.
  intros (Hsorted & _ & _). unfold walk_inv, start_pass. simpl. split; [|split].
  - apply Forall_app. split; [exact Hsorted|]. repeat constructor.
  - intros E. destruct (passes st); discriminate.
  - intros b Hb. rewrite last_popped_snoc in Hb. discriminate.
Qed.

Lemma walk_inv_start (root_block : Z) : walk_inv (walk_start root_block).
Proof.
  unfold walk_inv, walk_start. simpl. split; [constructor|]. split; [reflexivity|].
  intros b Hb. discriminate.
Qed.

(** A state after a pop, with some heap that respects the popped block. *)
Lemma walk_inv_after_pop (st : walk) (block level : Z) (heap' h np : list heap_entry)
  (f i p : Z) :
  walk_inv st -> heappop (heap st) = Some ((block, level), heap') ->
  (Forall (fun e => block <= fst e) heap' -> Forall (fun e => block <= fst e) h) ->
  walk_inv (mkWalk h np f i p (record_pop block (passes st))).
Proof.
  intros Hinv Hpop Hh.
  destruct (walk_inv_pop st block level heap' Hinv Hpop) as (Hs & Hne & Hl & Hf).
  unfold walk_inv. simpl. split; [exact Hs|]. split; [intros E; contradiction|].
  intros b Hb. rewrite Hl in Hb. injection Hb as <-. apply Hh, Hf.
Qed.

End Trace.

(** Closes a branch of a step that ends in a state built after a pop. *)
Ltac msimpl H :=
  repeat (progress (unfold bind, ret, raise, lift in H; cbv beta iota in H)).

Ltac popped_state Hstep Hinv Hpop :=
  msimpl Hstep; injection Hstep as <- _;
  eapply walk_inv_after_pop; [exact Hinv | exact Hpop | auto].

Lemma findTree_step_inv (level_limit : Z) (partial_only : bool) (st st' : walk) :
  walk_inv st -> walk_next (findTree_step level_limit partial_only) st st' -> walk_inv st'.
Proof.
  intros Hinv (w & w' & Hstep). unfold findTree_step in Hstep.
  destruct (heappop (heap st)) as [[[block level] heap']|] eqn:Hpop.
  - unfold bind, ret, raise, lift in Hstep.
    destruct (readNode block (Some partial_only) w) as [[complete node] w1| |]; try discriminate.
    destruct complete; cbn [negb] in Hstep; cbv iota in Hstep.
    + destruct node as [node|]; [|discriminate].
      destruct (Node.level node <=? level_limit); [popped_state Hstep Hinv Hpop|].
      destruct (Node.level node >? 1).
      { destruct (Node.ptr_blocks node) as [ptrs|]; [|discriminate].
        msimpl Hstep.
        destruct (push_children block (Node.level node) ptrs heap' (next_pass st))
          as [h np] eqn:Hpush.
        cbv beta iota in Hstep. injection Hstep as <- _.
        eapply walk_inv_after_pop; [exact Hinv | exact Hpop |].
        intros Hf.
        pose proof (push_children_floor block (Node.level node) ptrs heap' (next_pass st) Hf) as H.
        rewrite Hpush in H. exact H. }
      destruct (Node.level node =? 1); [|popped_state Hstep Hinv Hpop].
      destruct (Node.indirect_item_blocks node) as [blocks|]; [|discriminate].
      msimpl Hstep.
      destruct (add_block_sectors blocks w1); try discriminate.
      popped_state Hstep Hinv Hpop.
    + popped_state Hstep Hinv Hpop.
  - unfold ret in Hstep. destruct (next_pass st); [discriminate|].
    injection Hstep as <- _. apply walk_inv_start_pass. exact Hinv.
Qed.

Lemma iter_leafs_step_inv (st st' : walk) :
  walk_inv st -> walk_next iter_leafs_walk_step st st' -> walk_inv st'.
Proof.
  intros Hinv (w & w' & Hstep). unfold iter_leafs_walk_step, iter_leafs_step in Hstep.
  destruct (heappop (heap st)) as [[[block level] heap']|] eqn:Hpop.
  - unfold bind, ret, raise, lift in Hstep.
    destruct (readNode block None w) as [[complete node] w1| |]; try discriminate.
    destruct complete; cbn [negb] in Hstep; cbv iota in Hstep.
    + destruct node as [node|]; [|discriminate].
      destruct (Node.level node >? 1).
      { destruct (Node.ptr_blocks node) as [ptrs|]; [|discriminate].
        msimpl Hstep.
        destruct (push_children block (Node.level node) ptrs heap' (next_pass st))
          as [h np] eqn:Hpush.
        cbv beta iota in Hstep. injection Hstep as <- _.
        eapply walk_inv_after_pop; [exact Hinv | exact Hpop |].
        intros Hf.
        pose proof (push_children_floor block (Node.level node) ptrs heap' (next_pass st) Hf) as H.
        rewrite Hpush in H. exact H. }
      destruct (Node.level node =? 1); popped_state Hstep Hinv Hpop.
    + popped_state Hstep Hinv Hpop.
  - unfold bind, ret in Hstep. destruct (next_pass st); cbv beta iota in Hstep.
    + discriminate.
    + injection Hstep as <- _. apply walk_inv_start_pass. exact Hinv.
Qed.

Lemma walk_reaches_inv (step : walk -> M (option walk)) :
  (forall st st', walk_inv st -> walk_next step st st' -> walk_inv st') ->
  forall st st', walk_inv st -> walk_reaches step st st' -> walk_inv st'.
Proof.
  intros Hstep st st' Hinv Hr. induction Hr as [|st1 st2 Hn Hr IH].
  - exact Hinv.
  - apply (Hstep st1 st2 IH Hn).
Qed.

Lemma findTree_loop_reaches (level_limit : Z) (partial_only : bool) (fuel : nat) :
  forall st st' w w',
    findTree_loop fuel level_limit partial_only st w = Ret st' w' ->
    walk_reaches (findTree_step level_limit partial_only) st st'.
Proof.
  induction fuel as [|fuel IH]; intros st st' w w' H; simpl in H; [discriminate|].
  unfold bind in H.
  destruct (findTree_step level_limit partial_only st w) as [[st1|] w1| |] eqn:E;
    try discriminate.
  - apply IH in H. apply clos_rt_rtn1. apply rt_trans with (y := st1).
    + apply rt_step. exists w, w1. exact E.
    + apply clos_rtn1_rt. exact H.
  - unfold ret in H. injection H as <- _. apply rtn1_refl.
Qed.

(** C8: in [_findTree] and in [iter_leafs] the blocks popped and read within
    one pass never decrease, along every run and at every point of it:
    each child pointer that is not below the block just popped goes onto
    the heap of the current pass, each child pointer below it waits in
    [next_pass]. *)
Theorem tree_walk_reads_forward :
  (forall level_limit partial_only root_block st,
     walk_reaches (findTree_step level_limit partial_only) (walk_start root_block) st ->
     Forall nondecreasing (passes st)) /\
  (forall root_block st,
     walk_reaches iter_leafs_walk_step (walk_start root_block) st ->
     Forall nondecreasing (passes st)) /\
  (forall fuel level_limit partial_only w st w',
     _findTree fuel level_limit partial_only w = Ret st w' ->
     Forall nondecreasing (passes st)) /\
  (forall level_limit partial_only st w w1 block level heap' node ptrs,
     heappop (heap st) = Some ((block, level), heap') ->
     readNode block (Some partial_only) w = Ret (true, Some node) w1 ->
     level_limit < Node.level node -> 1 < Node.level node ->
     Node.ptr_blocks node = Ok ptrs ->
     exists st',
       findTree_step level_limit partial_only st w = Ret (Some st') w1 /\
       passes st' = record_pop block (passes st) /\
       heap st' =
         rev (child_entries (fun p => negb (p <? block)) (Node.level node) ptrs) ++ heap' /\
       next_pass st' =
         next_pass st ++ child_entries (fun p => p <? block) (Node.level node) ptrs) /\
  (forall st w w1 block level heap' node ptrs,
     heappop (heap st) = Some ((block, level), heap') ->
     readNode block None w = Ret (true, Some node) w1 ->
     1 < Node.level node ->
     Node.ptr_blocks node = Ok ptrs ->
     exists st',
       iter_leafs_step st w = Ret (Some st', None) w1 /\
       passes st' = record_pop block (passes st) /\
       heap st' =
         rev (child_entries (fun p => negb (p <? block)) (Node.level node) ptrs) ++ heap' /\
       next_pass st' =
         next_pass st ++ child_entries (fun p => p <? block) (Node.level node) ptrs).
Proof.
  split; [|split; [|split; [|split]]].
  - intros level_limit partial_only root_block st Hr.
    apply (walk_reaches_inv _ (findTree_step_inv level_limit partial_only) _ _
             (walk_inv_start root_block) Hr).
  - intros root_block st Hr.
    apply (walk_reaches_inv _ iter_leafs_step_inv _ _ (walk_inv_start root_block) Hr).
  - intros fuel level_limit partial_only w st w' H.
    unfold _findTree, get_superblock, get_fs in H. msimpl H.
    destruct (ReiserFs.superblock (fs w)) as [sb|]; [|discriminate].
    msimpl H.
    destruct (findTree_loop fuel level_limit partial_only
                (walk_start (Superblock.root_block sb)) w) as [st1 w1| |] eqn:E;
      try discriminate.
    unfold print_stderr in H. msimpl H. injection H as <- _.
    apply findTree_loop_reaches in E.
    apply (walk_reaches_inv _ (findTree_step_inv level_limit partial_only) _ _
             (walk_inv_start _) E).
  - intros level_limit partial_only st w w1 block level heap' node ptrs Hpop Hread Hlim Hlev Hptrs.
    unfold findTree_step. rewrite Hpop. unfold bind. rewrite Hread. cbn [negb].
    replace (Node.level node <=? level_limit) with false by (symmetry; apply Z.leb_gt; lia).
    replace (Node.level node >? 1) with true by (symmetry; apply Z.gtb_lt; lia).
    rewrite Hptrs. unfold lift, ret. rewrite push_children_spec.
    eexists. split; [reflexivity|]. simpl. repeat split; reflexivity.
  - intros st w w1 block level heap' node ptrs Hpop Hread Hlev Hptrs.
    unfold iter_leafs_step. rewrite Hpop. unfold bind. rewrite Hread. cbn [negb].
    replace (Node.level node >? 1) with true by (symmetry; apply Z.gtb_lt; lia).
    rewrite Hptrs. unfold lift, ret. rewrite push_children_spec.
    eexists. split; [reflexivity|]. simpl. repeat split; reflexivity.
Qed.


(** ** Reasoning about runs that return *)

Section Hoare.

Lemma bind_Ret {A B : Type} (m : M A) (k : A -> M B) (w w' : World) (b : B) :
  bind m k w = Ret b w' -> exists a w1, m w = Ret a w1 /\ k a w1 = Ret b w'.
Proof.
  unfold bind. destruct (m w) as [a w1| |]; try discriminate.
  intros H. exists a, w1. split; [reflexivity | exact H].
Qed.

Lemma lift_Ret {A : Type} (r : result A) (w w' : World) (a : A) :
  lift r w = Ret a w' -> r = Ok a /\ w' = w.
Proof.
  destruct r; simpl; unfold ret, raise; intros H; [|discriminate].
  injection H as -> ->. split; reflexivity.
Qed.

Lemma assert_Ret (b : bool) (w w' : World) (u : unit) :
  assert_ b w = Ret u w' -> b = true /\ w' = w.
Proof.
  unfold assert_. intros H. apply lift_Ret in H. destruct H as [H ->].
  destruct b; [split; reflexivity | discriminate].
Qed.

Lemma hoare_bind {A B : Type} (P : World -> Prop) (m : M A) (Q : A -> World -> Prop)
  (k : A -> M B) (R : B -> World -> Prop) :
  hoare P m Q -> (forall a, hoare (Q a) (k a) R) -> hoare P (bind m k) R.
Proof.
  intros Hm Hk w b w' HP H. apply bind_Ret in H. destruct H as (a & w1 & H1 & H2).
  exact (Hk a w1 b w' (Hm w a w1 HP H1) H2).
Qed.

Lemma hoare_ret {A : Type} (P : World -> Prop) (a : A) (Q : A -> World -> Prop) :
  (forall w, P w -> Q a w) -> hoare P (ret a) Q.
Proof. intros H w a' w' HP E. unfold ret in E. injection E as <- <-. auto. Qed.

Lemma hoare_lift {A : Type} (P : World -> Prop) (r : result A) (Q : A -> World -> Prop) :
  (forall a w, r = Ok a -> P w -> Q a w) -> hoare P (lift r) Q.
Proof. intros H w a w' HP E. apply lift_Ret in E. destruct E as [E ->]. auto. Qed.

Lemma hoare_weaken {A : Type} (P P' : World -> Prop) (m : M A) (Q Q' : A -> World -> Prop) :
  hoare P' m Q' -> (forall w, P w -> P' w) -> (forall a w, Q' a w -> Q a w) -> hoare P m Q.
Proof. intros H HP HQ w a w' Hw E. apply HQ. exact (H w a w' (HP w Hw) E). Qed.

(** Sequencing in a generator. *)
Lemma hoare_gbind {A B : Type} (P : World -> Prop) (m : M (flow A))
  (K1 : flow A -> World -> Prop) (k : A -> M (flow B)) (brk : A -> B)
  (K2 : flow B -> World -> Prop) :
  hoare P m K1 ->
  (forall a, hoare (K1 (Continue a)) (k a) K2) ->
  (forall a w, K1 (Break a) w -> K2 (Break (brk a)) w) ->
  hoare P (gbind m k brk) K2.
Proof.
  intros Hm Hk Hb. unfold gbind. apply (hoare_bind P m K1); [exact Hm|].
  intros [a|a].
  - apply Hk.
  - apply hoare_ret. apply Hb.
Qed.

(** A loop keeps what its body keeps. *)
Lemma hoare_for_each {Y A : Type} (K : flow A -> World -> Prop) (body : A -> Y -> M (flow A))
  (l : list Y) :
  (forall a y, In y l -> hoare (K (Continue a)) (body a y) K) ->
  forall acc, hoare (K (Continue acc)) (for_each l body acc) K.
Proof.
  induction l as [|y tl IH]; intros Hbody acc; simpl.
  - apply hoare_ret. auto.
  - apply (hoare_gbind _ _ K).
    + apply Hbody. left. reflexivity.
    + intros a. apply IH. intros a' y' Hy. apply Hbody. right. exact Hy.
    + auto.
Qed.

(** The item scan keeps what [readNode] and its consumer keep. *)
Lemma hoare_iter_items_in_range_from {A : Type} (K : flow A -> World -> Prop)
  (consume : consumer Item.t A) (keyStart keyEnd : Key.t) :
  (forall a block po, hoare (K (Continue a)) (readNode block po) (fun _ => K (Continue a))) ->
  (forall a item, hoare (K (Continue a)) (consume a item) K) ->
  forall fuel treeBlock acc,
    hoare (K (Continue acc))
          (iter_items_in_range_from fuel keyStart keyEnd treeBlock consume acc) K.
Proof.
  intros Hread Hcons. induction fuel as [|fuel IH]; intros treeBlock acc; simpl.
  - intros w a w' _ E. discriminate.
  - eapply hoare_bind; [apply Hread|].
    intros [complete node]. cbv beta iota.
    destruct complete; simpl negb; cbv iota.
    + destruct node as [node|].
      * destruct (Node.level node =? 1).
        -- eapply hoare_bind; [apply hoare_lift; intros its w _ Hw; exact Hw|].
           intros its. apply hoare_for_each. intros a item _. apply Hcons.
        -- eapply hoare_bind; [apply hoare_lift; intros its w _ Hw; exact Hw|].
           intros [ptrs|].
           ++ apply hoare_for_each. intros a blk _. apply IH.
           ++ intros w a w' _ E. discriminate.
      * intros w a w' _ E. discriminate.
    + apply hoare_ret. auto.
Qed.

Lemma hoare_get_superblock (P : World -> Prop) :
  hoare P get_superblock (fun _ => P).
Proof.
  intros w sb w' HP E. unfold get_superblock, get_fs, bind in E.
  destruct (ReiserFs.superblock (fs w)); [|discriminate].
  unfold ret in E. injection E as _ <-. exact HP.
Qed.

Lemma hoare_iter_items_in_range {A : Type} (K : flow A -> World -> Prop)
  (consume : consumer Item.t A) (keyStart keyEnd : Key.t) (fuel : nat) (acc : A) :
  (forall a block po, hoare (K (Continue a)) (readNode block po) (fun _ => K (Continue a))) ->
  (forall a item, hoare (K (Continue a)) (consume a item) K) ->
  hoare (K (Continue acc)) (iter_items_in_range fuel keyStart keyEnd consume acc) K.
Proof.
  intros Hread Hcons. unfold iter_items_in_range.
  eapply hoare_bind; [apply hoare_get_superblock|].
  intros sb. apply hoare_iter_items_in_range_from; assumption.
Qed.

End Hoare.

(** ** The directory listing of an object without a Stat item *)

Lemma set_incomplete_Ret (b : bool) (w w' : World) (u : unit) :
  set_incomplete b w = Ret u w' ->
  ReiserFs.incomplete (fs w') = b /\
  ReiserFs.block_size (fs w') = ReiserFs.block_size (fs w) /\
  stdout w' = stdout w /\ stderr w' = stderr w.
Proof.
  unfold set_incomplete, set_fs, get_fs, bind. intros H. injection H as _ <-.
  simpl. repeat split; reflexivity.
Qed.

(** The body-size counter of [directory_list] never goes below zero. *)
Lemma directory_list_item_size {A : Type} (consume : consumer DirectoryEntry.t A)
  (size : Z) (acc : A) (item : Item.t) :
  hoare (fun _ => 0 <= size) (directory_list_item consume (size, acc) item)
        (fun r _ => 0 <= fst (flow_value r)).
Proof.
  intros w r w' Hsize H. unfold directory_list_item in H.
  apply bind_Ret in H. destruct H as (entries & w1 & _ & H).
  unfold gbind in H. apply bind_Ret in H. destruct H as (r1 & w2 & _ & H).
  assert (Hlen : 0 <= blen (Item.body item)) by (unfold blen; lia).
  destruct r1; unfold ret in H; injection H as <- _; simpl; lia.
Qed.

(** C10: when [find_item] cannot retrieve the directory's own Stat item,
    a [directory_list] that is consumed to its end leaves [incomplete] set,
    whatever items were read and whatever the consumer did: the body size,
    which is never negative, is compared with the expected size -1. *)
Theorem directory_list_without_stat_incomplete (fuel : nat) (key : Key.t)
  (A : Type) (consume : consumer DirectoryEntry.t A) (acc a : A) (w w1 w' : World) :
  find_item fuel key w = Ret None w1 ->
  directory_list fuel key consume acc w = Ret (Continue a) w' ->
  ReiserFs.incomplete (fs w') = true.
Proof.
  intros Hfind H. unfold directory_list in H.
  apply bind_Ret in H. destruct H as (u & w0 & Hassert & H).
  apply assert_Ret in Hassert. destruct Hassert as [_ ->].
  apply bind_Ret in H. destruct H as (expectedSize & w2 & Hexp & H).
  assert (He : expectedSize = -1).
  { unfold expected_size, bind in Hexp. rewrite Hfind in Hexp.
    unfold ret in Hexp. injection Hexp as <- _. reflexivity. }
  subst expectedSize. unfold gbind in H.
  apply bind_Ret in H. destruct H as (r & w3 & Hscan & H).
  assert (Hsize : 0 <= fst (flow_value r)).
  { refine (hoare_iter_items_in_range (fun r _ => 0 <= fst (flow_value r))
              _ _ _ _ _ _ _ w2 r w3 _ Hscan).
    - intros a0 block po w4 x w5 Hk _. exact Hk.
    - intros [size a0] item w4 x w5 Hk E.
      exact (directory_list_item_size consume size a0 item w4 x w5 Hk E).
    - simpl. lia. }
  destruct r as [[size a0]|[size a0]]; [|unfold ret in H; discriminate].
  simpl in Hsize. cbv beta iota in H.
  replace (negb (size =? -1)) with true in H
    by (symmetry; apply negb_true_iff, Z.eqb_neq; lia).
  apply bind_Ret in H. destruct H as (u' & w4 & Hset & H).
  apply set_incomplete_Ret in Hset. destruct Hset as (Hinc & _).
  unfold ret in H. injection H as _ <-. exact Hinc.
Qed.

(** ** What reading the tree leaves alone *)

Section Keeps.

Lemma steady_refl (w : World) : steady w w.
Proof. repeat split. Qed.

Lemma steady_trans (w1 w2 w3 : World) : steady w1 w2 -> steady w2 w3 -> steady w1 w3.
Proof. unfold steady. intros (? & ? & ? & ?) (? & ? & ? & ?). repeat split; congruence. Qed.

Lemma keeps_bind {A B : Type} (m : M A) (k : A -> M B) :
  keeps m -> (forall a, keeps (k a)) -> keeps (bind m k).
Proof.
  intros Hm Hk w b w' H. apply bind_Ret in H. destruct H as (a & w1 & H1 & H2).
  exact (steady_trans _ _ _ (Hm _ _ _ H1) (Hk a _ _ _ H2)).
Qed.

Lemma keeps_ret {A : Type} (a : A) : keeps (ret a).
Proof. intros w a' w' H. unfold ret in H. injection H as _ <-. apply steady_refl. Qed.

Lemma keeps_raise {A : Type} (e : exn) : keeps (@raise A e).
Proof. intros w a w' H. discriminate. Qed.

Lemma keeps_lift {A : Type} (r : result A) : keeps (lift r).
Proof. intros w a w' H. apply lift_Ret in H. destruct H as [_ ->]. apply steady_refl. Qed.

Lemma keeps_get_fs : keeps get_fs.
Proof. intros w a w' E. unfold get_fs in E. injection E as _ <-. apply steady_refl. Qed.

Lemma keeps_set_sectors (s : sector_list) : keeps (set_sectors s).
Proof.
  intros w a w' E. unfold set_sectors, set_fs, get_fs, bind in E.
  injection E as _ <-. repeat split.
Qed.

Lemma keeps_sectors_append (x : Z) : keeps (sectors_append x).
Proof.
  unfold sectors_append. apply keeps_bind; [apply keeps_get_fs|].
  intros s. destruct (ReiserFs.sectors s); apply keeps_set_sectors.
Qed.

Lemma keeps_rescue_map_getitem (p : Z) : keeps (rescue_map_getitem p).
Proof.
  unfold rescue_map_getitem. apply keeps_bind; [apply keeps_get_fs|].
  intros s. apply keeps_lift.
Qed.

Lemma keeps_readBlock (n : Z) : keeps (readBlock n).
Proof.
  unfold readBlock. apply keeps_bind; [apply keeps_get_fs|].
  intros s. destruct (_ <? 0); [apply keeps_raise | apply keeps_ret].
Qed.

Lemma keeps_readNode_offsets (block : Z) (offs : list Z) :
  forall incomplete, keeps (readNode_offsets block offs incomplete).
Proof.
  induction offs as [|off tl IH]; intros incomplete; simpl.
  - apply keeps_ret.
  - destruct (off =? 0); [apply IH|].
    apply keeps_bind; [apply keeps_get_fs|]. intros s.
    apply keeps_bind; [apply keeps_sectors_append|]. intros _.
    destruct (negb incomplete); [|apply IH].
    apply keeps_bind; [apply keeps_rescue_map_getitem|]. intros st. apply IH.
Qed.

Lemma keeps_readNode_body (block : Z) (partial_only : bool) :
  keeps (readNode_body block partial_only).
Proof.
  unfold readNode_body. apply keeps_bind; [apply keeps_get_fs|]. intros s.
  apply keeps_bind.
  { destruct (negb partial_only); [apply keeps_sectors_append | apply keeps_ret]. }
  intros _. apply keeps_bind; [apply keeps_rescue_map_getitem|]. intros st.
  destruct (negb (Status.eqb st FINISHED)); [apply keeps_ret|].
  apply keeps_bind; [apply keeps_readBlock|]. intros b.
  apply keeps_bind; [apply keeps_lift|]. intros node.
  apply keeps_bind; [apply keeps_readNode_offsets|]. intros inc. apply keeps_ret.
Qed.

Lemma keeps_readNode (block : Z) (partial_only : option bool) :
  keeps (readNode block partial_only).
Proof.
  intros w v w' E. unfold readNode in E.
  destruct (List.find _ (readNode_cache w)) as [[k v0]|].
  - injection E as _ <-. repeat split.
  - destruct (readNode_body block _ w) as [v1 w1| |] eqn:Eb; try discriminate.
    injection E as _ <-. exact (keeps_readNode_body _ _ w v1 w1 Eb).
Qed.

Lemma keeps_find_item_loop (fuel : nat) (key : Key.t) :
  forall treeBlock, keeps (find_item_loop fuel key treeBlock).
Proof.
  induction fuel as [|fuel IH]; intros treeBlock; simpl.
  - intros w a w' E. discriminate.
  - apply keeps_bind; [apply keeps_readNode|]. intros [complete node]. cbv beta iota.
    destruct (negb complete); [apply keeps_ret|].
    destruct node as [node|]; [|apply keeps_raise].
    destruct (Node.level node =? 1); [apply keeps_lift|].
    apply keeps_bind; [apply keeps_lift|]. intros [next|]; [apply IH | apply keeps_raise].
Qed.

Lemma keeps_get_superblock : keeps get_superblock.
Proof.
  intros w sb w' E. unfold get_superblock, get_fs, bind in E.
  destruct (ReiserFs.superblock (fs w)); [|discriminate].
  unfold ret in E. injection E as _ <-. apply steady_refl.
Qed.

Lemma keeps_find_item (fuel : nat) (key : Key.t) : keeps (find_item fuel key).
Proof.
  unfold find_item. apply keeps_bind; [apply keeps_get_superblock|].
  intros sb. apply keeps_find_item_loop.
Qed.

Lemma keeps_expected_size (fuel : nat) (key : Key.t) (ft : FileType) :
  keeps (expected_size fuel key ft).
Proof.
  unfold expected_size. apply keeps_bind; [apply keeps_find_item|].
  intros [item|]; [|apply keeps_ret].
  apply keeps_bind; [apply keeps_lift|]. intros stat.
  apply keeps_bind; [apply keeps_lift|]. intros _. apply keeps_ret.
Qed.

End Keeps.

(** ** The block list of a regular file *)

Section BlockList.

Lemma logical_length_app (bs : Z) (xs ys : list chunk) :
  logical_length bs (xs ++ ys) = logical_length bs xs + logical_length bs ys.
Proof.
  unfold logical_length. induction xs as [|x tl IH]; simpl; [reflexivity|].
  rewrite IH. lia.
Qed.

Lemma logical_length_repeat (bs : Z) (n : nat) :
  logical_length bs (repeat (Block 0) n) = Z.of_nat n * bs.
Proof.
  unfold logical_length. induction n as [|n IH]; [reflexivity|].
  cbn [repeat fold_right chunk_length]. rewrite IH. lia.
Qed.

Lemma logical_length_blocks (bs : Z) (l : list Z) :
  logical_length bs (map Block l) = blen l * bs.
Proof.
  unfold logical_length, blen. induction l as [|x tl IH]; [reflexivity|].
  cbn [map fold_right chunk_length List.length]. rewrite IH. lia.
Qed.

Lemma length_words_of (n : nat) : forall b, List.length (Item.words_of n b) = n.
Proof. induction n as [|n IH]; intros b; simpl; [reflexivity|]. rewrite IH. reflexivity. Qed.

Lemma blen_zeros (n : Z) : 0 <= n -> blen (zeros n) = n.
Proof. intros H. unfold blen, zeros. rewrite repeat_length. lia. Qed.

Lemma logical_length_hole (bs missing : Z) :
  0 < bs -> 0 <= missing -> logical_length bs (hole_chunks bs missing) = missing.
Proof.
  intros Hbs Hm. unfold hole_chunks. rewrite logical_length_app, logical_length_repeat.
  assert (0 <= missing / bs) by (apply Z.div_pos; lia).
  pose proof (Z.mod_pos_bound missing bs Hbs).
  pose proof (Z.div_mod missing bs ltac:(lia)).
  rewrite Z2Nat.id by lia.
  destruct (Z.eqb_spec (missing mod bs) 0).
  - unfold logical_length. simpl. lia.
  - unfold logical_length. simpl. rewrite blen_zeros by lia. lia.
Qed.

Lemma logical_length_own (bs : Z) (item : Item.t) :
  logical_length bs (own_chunks item) = own_length bs item.
Proof.
  unfold own_chunks, own_length.
  destruct (ItemType.eqb (Key.type (Item.key item)) INDIRECT).
  - rewrite logical_length_blocks. unfold blen at 1. rewrite length_words_of.
    assert (0 <= blen (Item.body item) / 4) by (apply Z.div_pos; unfold blen; lia).
    rewrite Z2Nat.id by lia. reflexivity.
  - destruct (ItemType.eqb (Key.type (Item.key item)) DIRECT); unfold logical_length; simpl; lia.
Qed.

(** [list(...)] of a loop that yields every element of [l]. *)
Lemma for_each_collect {Y : Type} (l : list Y) :
  forall acc w, for_each l collect acc w = Ret (Continue (acc ++ l)) w.
Proof.
  induction l as [|y tl IH]; intros acc w; simpl.
  - unfold ret. rewrite app_nil_r. reflexivity.
  - unfold gbind, bind, collect, ret. rewrite IH. rewrite <- app_assoc. reflexivity.
Qed.

Lemma get_fs_Ret (w w' : World) (s : ReiserFs.t) :
  get_fs w = Ret s w' -> s = fs w /\ w' = w.
Proof. unfold get_fs. intros H. injection H as <- <-. split; reflexivity. Qed.

Lemma floordiv_Ok (a b q : Z) : floordiv a b = Ok q -> b <> 0 /\ q = a / b.
Proof.
  unfold floordiv. destruct (Z.eqb_spec b 0); [discriminate|].
  intros H. injection H as <-. split; [assumption | reflexivity].
Qed.

Lemma pymod_Ok (a b r : Z) : pymod a b = Ok r -> b <> 0 /\ r = a mod b.
Proof.
  unfold pymod. destruct (Z.eqb_spec b 0); [discriminate|].
  intros H. injection H as <-. split; [assumption | reflexivity].
Qed.

(** The hole part of the loop body, under [list(...)]. *)
Lemma hole_part_collect (size offset : Z) (ys : list chunk) (w w' : World)
  (r : flow (Z * list chunk)) :
  (if offset >? size then
     set_incomplete true ;;;
     let missing := offset - size in
     s <- get_fs ;;
     whole <- lift (floordiv missing (ReiserFs.block_size s)) ;;
     gbind (for_each (repeat (Block 0) (Z.to_nat whole)) collect ys)
       (fun acc =>
          tail <- lift (pymod missing (ReiserFs.block_size s)) ;;
          gbind (if negb (tail =? 0) then collect acc (Data (zeros tail))
                 else ret (Continue acc))
            (fun acc => ret (Continue (size + missing, acc)))
            (fun acc => (size, acc)))
       (fun acc => (size, acc))
   else ret (Continue (size, ys))) w = Ret r w' ->
  size <= offset ->
  ReiserFs.block_size (fs w') = ReiserFs.block_size (fs w) /\
  stdout w' = stdout w /\
  if offset >? size then
    ReiserFs.block_size (fs w) <> 0 /\
    ReiserFs.incomplete (fs w') = true /\
    r = Continue (offset, ys ++ hole_chunks (ReiserFs.block_size (fs w)) (offset - size))
  else
    w' = w /\ r = Continue (offset, ys).
Proof.
  intros H Hle. destruct (offset >? size) eqn:Egt.
  - apply bind_Ret in H. destruct H as (u & w1 & Hset & H).
    apply set_incomplete_Ret in Hset. destruct Hset as (Hinc & Hbs & Hout & Herr).
    cbv zeta in H.
    apply bind_Ret in H. destruct H as (s & w2 & Hs & H).
    apply get_fs_Ret in Hs. destruct Hs as [-> ->].
    apply bind_Ret in H. destruct H as (whole & w3 & Hdiv & H).
    apply lift_Ret in Hdiv. destruct Hdiv as [Hdiv ->].
    apply floordiv_Ok in Hdiv. destruct Hdiv as [Hnz ->].
    unfold gbind at 1 in H. unfold bind at 1 in H. rewrite for_each_collect in H.
    apply bind_Ret in H. destruct H as (tail & w4 & Hmod & H).
    apply lift_Ret in Hmod. destruct Hmod as [Hmod ->].
    apply pymod_Ok in Hmod. destruct Hmod as [_ ->].
    rewrite Hbs in *.
    assert (E : r = Continue (offset, ys ++ hole_chunks (ReiserFs.block_size (fs w)) (offset - size))
                /\ w' = w1).
    { unfold hole_chunks. destruct ((offset - size) mod ReiserFs.block_size (fs w) =? 0);
        unfold gbind, bind, collect, ret in H; cbn [negb] in H;
        injection H as <- <-; (split; [|reflexivity]).
      - rewrite app_nil_r. repeat f_equal. lia.
      - rewrite <- app_assoc. repeat f_equal. lia. }
    destruct E as [-> ->]. repeat split; try assumption; congruence.
  - unfold ret in H. injection H as <- <-.
    assert (offset = size) by (rewrite Z.gtb_ltb in Egt; apply Z.ltb_ge in Egt; lia).
    subst offset.
    repeat split; reflexivity.
Qed.

(** The whole loop body, under [list(...)]. *)
Lemma regular_block_list_item_collect (size : Z) (ys : list chunk) (item : Item.t)
  (w w' : World) (r : flow (Z * list chunk)) :
  regular_block_list_item collect (size, ys) item w = Ret r w' ->
  let offset := Key.offset (Item.key item) in
  let bs := ReiserFs.block_size (fs w) in
  size <= offset /\
  ReiserFs.block_size (fs w') = bs /\
  stdout w' = stdout w /\
  r = Continue (offset + own_length bs item,
                ys ++ (if offset >? size then hole_chunks bs (offset - size) else []) ++
                own_chunks item) /\
  if offset >? size
  then bs <> 0 /\ ReiserFs.incomplete (fs w') = true
  else w' = w.
Proof.
  intros H offset bs. unfold regular_block_list_item in H. fold offset in H.
  apply bind_Ret in H. destruct H as (u & w0 & Hassert & H).
  apply assert_Ret in Hassert. destruct Hassert as [Hge ->].
  assert (Hle : size <= offset) by (apply Z.geb_le in Hge; lia).
  unfold gbind at 1 in H. apply bind_Ret in H. destruct H as (r1 & w1 & Hhole & H).
  apply hole_part_collect in Hhole; [|exact Hle].
  destruct Hhole as (Hbs1 & Hout1 & Hhole). fold bs in Hbs1, Hhole.
  assert (Hr1 : r1 = Continue (offset, ys ++ (if offset >? size
                                               then hole_chunks bs (offset - size) else []))).
  { destruct (offset >? size); [apply Hhole|]. rewrite app_nil_r. apply Hhole. }
  subst r1. cbv beta iota in H.
  assert (Hrest :
    r = Continue (offset + own_length bs item,
                  (ys ++ (if offset >? size then hole_chunks bs (offset - size) else [])) ++
                  own_chunks item) /\ w' = w1).
  { unfold own_length, own_chunks.
    destruct (ItemType.eqb (Key.type (Item.key item)) INDIRECT).
    - apply bind_Ret in H. destruct H as (s & w2 & Hs & H).
      apply get_fs_Ret in Hs. destruct Hs as [-> ->]. cbv zeta in H.
      apply bind_Ret in H. destruct H as (blocks & w3 & Hblocks & H).
      apply lift_Ret in Hblocks. destruct Hblocks as [Hblocks ->].
      unfold Item.indirect_blocks in Hblocks.
      destruct (blen (Item.body item) mod 4 =? 0); [|discriminate].
      injection Hblocks as <-.
      unfold gbind, bind in H. rewrite for_each_collect in H.
      unfold ret in H. injection H as <- <-. rewrite Hbs1. split; reflexivity.
    - destruct (ItemType.eqb (Key.type (Item.key item)) DIRECT).
      + unfold gbind, bind, collect, ret in H. injection H as <- <-. split; reflexivity.
      + unfold ret in H. injection H as <- <-. rewrite Z.add_0_r, app_nil_r.
        split; reflexivity. }
  destruct Hrest as [-> ->]. rewrite <- app_assoc.
  split; [exact Hle|]. split; [exact Hbs1|]. split; [exact Hout1|]. split; [reflexivity|].
  destruct (offset >? size); tauto.
Qed.

End BlockList.

Lemma block_list_inv_item (bs size : Z) (ys : list chunk) (item : Item.t) :
  0 <= bs ->
  hoare (block_list_inv bs (Continue (size, ys)))
        (regular_block_list_item collect (size, ys) item)
        (block_list_inv bs).
Proof.
  intros Hbs w r w' (Hw & Hlen) H.
  apply regular_block_list_item_collect in H. cbv zeta in H.
  destruct H as (Hle & Hbs' & _ & -> & Hgap). rewrite Hw in *.
  unfold block_list_inv. split; [exact Hbs'|].
  rewrite !logical_length_app, logical_length_own, Hlen.
  destruct (Key.offset (Item.key item) >? size) eqn:Egt.
  - rewrite logical_length_hole by (destruct Hgap; lia). lia.
  - rewrite Z.gtb_ltb in Egt. apply Z.ltb_ge in Egt.
    unfold logical_length at 1. simpl. lia.
Qed.

Lemma block_list_inv_readNode (bs : Z) (a : Z * list chunk) (block : Z) (po : option bool) :
  hoare (block_list_inv bs (Continue a)) (readNode block po)
        (fun _ => block_list_inv bs (Continue a)).
Proof.
  intros w v w' H E. destruct a as [size ys].
  destruct (keeps_readNode _ _ _ _ _ E) as (Hb & Hi & _).
  unfold block_list_inv in *. rewrite Hb. exact H.
Qed.

(** *** A scan under two consumers *)

Lemma unflagged_before {X : Type} (m : M X) (w w' : World) (x : X) :
  hoare flagged m (fun _ => flagged) ->
  m w = Ret x w' -> ReiserFs.incomplete (fs w') = false ->
  ReiserFs.incomplete (fs w) = false.
Proof.
  intros Hm E Hf. destruct (ReiserFs.incomplete (fs w)) eqn:Ei; [|reflexivity].
  pose proof (Hm w x w' Ei E) as Hc. unfold flagged in Hc. congruence.
Qed.

Lemma flagged_readNode (block : Z) (po : option bool) :
  hoare flagged (readNode block po) (fun _ => flagged).
Proof.
  intros w v w' H E. destruct (keeps_readNode _ _ _ _ _ E) as (_ & Hi & _).
  unfold flagged in *. congruence.
Qed.

Section Twin.

Context {A B : Type} (R : A -> B -> Prop) (I : World -> Prop).

Lemma twins_for_each {Y : Type} (body1 : A -> Y -> M (flow A))
  (body2 : B -> Y -> M (flow B)) (l : list Y) :
  twins R I body1 body2 ->
  (forall a y, hoare flagged (body1 a y) (fun _ => flagged)) ->
  forall a b w r w',
    I w -> R a b -> for_each l body1 a w = Ret r w' ->
    ReiserFs.incomplete (fs w') = false ->
    exists a' b',
      r = Continue a' /\ for_each l body2 b w = Ret (Continue b') w' /\ R a' b' /\ I w'.
Proof.
  intros Htw Hst. induction l as [|y tl IH]; intros a b w r w' HI HR H Hf; simpl in H.
  - unfold ret in H. injection H as <- <-. exists a, b.
    split; [reflexivity|]. split; [reflexivity|]. split; assumption.
  - unfold gbind in H. apply bind_Ret in H. destruct H as (r1 & w1 & H1 & H).
    destruct r1 as [a1|a1].
    + assert (Hf1 : ReiserFs.incomplete (fs w1) = false).
      { apply (unflagged_before (for_each tl body1 a1) w1 w' r); [|exact H | exact Hf].
        apply (hoare_for_each (fun _ => flagged)). intros a0 y0 _. apply Hst. }
      destruct (Htw a b y w (Continue a1) w1 HI HR H1 Hf1) as (a' & b1 & E & H2 & HR1 & HI1).
      injection E as <-.
      destruct (IH a1 b1 w1 r w' HI1 HR1 H Hf) as (a2 & b2 & -> & H3 & HR2 & HI2).
      exists a2, b2. split; [reflexivity|]. split; [|split; assumption].
      simpl. unfold gbind, bind. rewrite H2. exact H3.
    + unfold ret in H. injection H as <- <-.
      destruct (Htw a b y w (Break a1) w1 HI HR H1 Hf) as (a' & b' & E & _). discriminate.
Qed.

Context (c1 : consumer Item.t A) (c2 : consumer Item.t B) (keyStart keyEnd : Key.t).

Hypothesis consumers_twins : twins R I c1 c2.
Hypothesis c1_flagged : forall a item, hoare flagged (c1 a item) (fun _ => flagged).
Hypothesis readNode_I : forall block po, hoare I (readNode block po) (fun _ => I).

Lemma twins_scan_from (fuel : nat) :
  twins R I
    (fun a treeBlock => iter_items_in_range_from fuel keyStart keyEnd treeBlock c1 a)
    (fun b treeBlock => iter_items_in_range_from fuel keyStart keyEnd treeBlock c2 b).
Proof.
  induction fuel as [|fuel IH]; intros a b treeBlock w r w' HI HR H Hf; simpl in H;
    [discriminate|].
  apply bind_Ret in H. destruct H as ([complete node] & w1 & Hread & H).
  cbv beta iota in H.
  pose proof (readNode_I _ _ _ _ _ HI Hread) as HI1.
  simpl. unfold bind at 1. rewrite Hread. cbv beta iota.
  destruct complete; cbn [negb] in *.
  2:{ unfold ret in H. injection H as <- <-. exists a, b.
      split; [reflexivity|]. split; [reflexivity|]. split; assumption. }
  destruct node as [node|]; [|discriminate].
  destruct (Node.level node =? 1).
  - apply bind_Ret in H. destruct H as (its & w2 & Hits & H).
    apply lift_Ret in Hits. destruct Hits as (Hits & ->).
    unfold bind. rewrite Hits. cbn [lift]. unfold ret at 1.
    exact (twins_for_each c1 c2 its consumers_twins c1_flagged a b w1 r w' HI1 HR H Hf).
  - apply bind_Ret in H. destruct H as (ptrs & w2 & Hptrs & H).
    apply lift_Ret in Hptrs. destruct Hptrs as (Hptrs & ->).
    unfold bind. rewrite Hptrs. cbn [lift]. unfold ret at 1.
    destruct ptrs as [ptrs|]; [|discriminate].
    refine (twins_for_each _ _ ptrs IH _ a b w1 r w' HI1 HR H Hf).
    intros a0 blk. apply (hoare_iter_items_in_range_from (fun _ => flagged)).
    + intros _ block po. apply flagged_readNode.
    + exact c1_flagged.
Qed.

Lemma twins_scan (fuel : nat) (a : A) (b : B) (w w' : World) (r : flow A) :
  I w -> R a b ->
  iter_items_in_range fuel keyStart keyEnd c1 a w = Ret r w' ->
  ReiserFs.incomplete (fs w') = false ->
  exists a' b',
    r = Continue a' /\
    iter_items_in_range fuel keyStart keyEnd c2 b w = Ret (Continue b') w' /\ R a' b'.
Proof.
  intros HI HR H Hf. unfold iter_items_in_range in *.
  apply bind_Ret in H. destruct H as (sb & w0 & Hsb & H).
  assert (w0 = w).
  { unfold get_superblock, get_fs, bind in Hsb.
    destruct (ReiserFs.superblock (fs w)); [|discriminate].
    unfold ret in Hsb. injection Hsb as _ <-. reflexivity. }
  subst w0. unfold bind. rewrite Hsb.
  destruct (twins_scan_from fuel a b (Superblock.root_block sb) w r w' HI HR H Hf)
    as (a' & b' & E & H2 & HR' & _).
  exists a', b'. split; [exact E|]. split; [exact H2 | exact HR'].
Qed.

End Twin.

Lemma in_sequence_snoc (bs : Z) (items : list Item.t) (item : Item.t) :
  forall size,
    in_sequence bs size items ->
    Key.offset (Item.key item) = end_of bs size items ->
    in_sequence bs size (items ++ [item]).
Proof.
  induction items as [|x tl IH]; intros size Hs Ho; simpl in *.
  - split; [exact Ho | exact I].
  - destruct Hs as (Hx & Htl). split; [exact Hx|]. apply IH; assumption.
Qed.

Lemma end_of_snoc (bs size : Z) (items : list Item.t) (item : Item.t) :
  end_of bs size (items ++ [item]) = end_of bs size items + own_length bs item.
Proof. unfold end_of. rewrite fold_left_app. reflexivity. Qed.

(** Without a gap the loop body of [regular_block_list] is the twin of
    [list.append]. *)
Lemma block_list_twins (bs : Z) :
  twins (block_list_twin bs) (fun w => ReiserFs.block_size (fs w) = bs)
        (regular_block_list_item collect) collect.
Proof.
  intros [size ys] items item w r w' Hbs (Hys & Hseq & Hsize) H Hf.
  cbn [fst snd] in Hys, Hsize.
  apply regular_block_list_item_collect in H. cbv zeta in H.
  destruct H as (Hle & _ & _ & -> & Hgap). rewrite Hbs in *.
  destruct (Key.offset (Item.key item) >? size) eqn:Egt.
  { destruct Hgap as (_ & Hgap). congruence. }
  subst w'. rewrite Z.gtb_ltb in Egt. apply Z.ltb_ge in Egt.
  assert (Ho : Key.offset (Item.key item) = size) by lia.
  exists (Key.offset (Item.key item) + own_length bs item, ys ++ [] ++ own_chunks item),
         (items ++ [item]).
  split; [reflexivity|]. split; [reflexivity|]. split; [|exact Hbs].
  unfold block_list_twin. cbn [fst snd]. split; [|split].
  - rewrite flat_map_app, Hys. simpl. rewrite app_nil_r. reflexivity.
  - apply in_sequence_snoc; [exact Hseq | congruence].
  - rewrite end_of_snoc. congruence.
Qed.

Lemma flagged_block_list_item (a : Z * list chunk) (item : Item.t) :
  hoare flagged (regular_block_list_item collect a item) (fun _ => flagged).
Proof.
  intros w r w' Hw H. destruct a as [size ys].
  apply regular_block_list_item_collect in H. cbv zeta in H.
  destruct H as (_ & _ & _ & _ & Hgap).
  destruct (Key.offset (Item.key item) >? size); [apply Hgap|]. subst w'. exact Hw.
Qed.

(** C3 (amended): (a) at an item whose key offset is beyond the running
    size the generator yields a zero block number for every whole missing
    block, then zero bytes for the rest of the gap, then the item's own
    data, and sets [incomplete]; (b) [incomplete] is set when after the scan
    the running size, which the scan keeps at one more than the logical
    length yielded, is below the size in the Stat item; (c) when
    [incomplete] is unset at the end, no hole was yielded: what was yielded
    is the own data of the items that a plain scan of the same range finds
    from the same state, one after the other, and each of these items
    starts where the one before it ended.  The logical length yielded (a
    block of bytes for every block number, the length of every direct body)
    is then at least the Stat size, and it may exceed it; the one case left
    aside is a length of exactly one less than the Stat size. *)
Theorem regular_block_list_length :
  (forall size ys item w r w',
     regular_block_list_item collect (size, ys) item w = Ret r w' ->
     Key.offset (Item.key item) > size ->
     ReiserFs.incomplete (fs w') = true /\
     exists size',
       r = Continue
             (size',
              ys ++ hole_chunks (ReiserFs.block_size (fs w))
                                (Key.offset (Item.key item) - size) ++
              own_chunks item)) /\
  (forall fuel key w r w' item w1 st,
     0 <= ReiserFs.block_size (fs w) ->
     find_item fuel key w = Ret (Some item) w1 -> Item.stat item = Ok st ->
     regular_block_list fuel key collect [] w = Ret r w' ->
     exists ys,
       r = Continue ys /\
       (1 + logical_length (ReiserFs.block_size (fs w)) ys < Stat.size st ->
        ReiserFs.incomplete (fs w') = true) /\
       (ReiserFs.incomplete (fs w') = false ->
        (exists w2 items,
           expected_size fuel key REGULAR w = Ret (Stat.size st) w2 /\
           iter_items_in_range fuel
             (Key.mk (Key.dirid key) (Key.objid key) 1 STAT 1)
             (Key.mk (Key.dirid key) (Key.objid key + 1) 0 STAT 1)
             collect [] w2 = Ret (Continue items) w' /\
           in_sequence (ReiserFs.block_size (fs w)) 1 items /\
           ys = flat_map own_chunks items) /\
        (logical_length (ReiserFs.block_size (fs w)) ys <> Stat.size st - 1 ->
         Stat.size st <= logical_length (ReiserFs.block_size (fs w)) ys))).
Proof.
  split.
  - intros size ys item w r w' H Hgt.
    apply regular_block_list_item_collect in H. cbv zeta in H.
    destruct H as (_ & _ & _ & -> & Hgap).
    replace (Key.offset (Item.key item) >? size) with true in *
      by (symmetry; apply Z.gtb_lt; lia).
    split; [apply Hgap|]. eexists. reflexivity.
  - intros fuel key w r w' item w1 st Hbs Hfind Hstat H.
    set (bs := ReiserFs.block_size (fs w)) in *.
    unfold regular_block_list in H.
    apply bind_Ret in H. destruct H as (u & w0 & Hassert & H).
    apply assert_Ret in Hassert. destruct Hassert as [_ ->].
    apply bind_Ret in H. destruct H as (e & w2 & Hexp & H).
    pose proof (keeps_expected_size _ _ _ _ _ _ Hexp) as (Hbs2 & Hinc2 & _).
    assert (He : e = Stat.size st).
    { unfold expected_size, bind in Hexp. rewrite Hfind in Hexp.
      rewrite Hstat in Hexp. simpl lift in Hexp. unfold ret at 1 in Hexp.
      destruct (assert_ (FileType.eqb (Stat.filetype st) REGULAR) w1); try discriminate.
      unfold ret in Hexp. injection Hexp as <- _. reflexivity. }
    subst e. unfold gbind in H.
    apply bind_Ret in H. destruct H as (r1 & w3 & Hscan & H).
    assert (Hinv : block_list_inv bs r1 w3).
    { refine (hoare_iter_items_in_range (block_list_inv bs) _ _ _ _ _ _ _ w2 r1 w3 _ Hscan).
      - intros a block po. apply block_list_inv_readNode.
      - intros [size ys] it. apply block_list_inv_item. exact Hbs.
      - unfold block_list_inv. split; [exact Hbs2 | reflexivity]. }
    destruct r1 as [[size ys]|[size ys]]; [|destruct Hinv].
    destruct Hinv as (Hbs3 & Hlen). cbv beta iota in H.
    exists ys.
    destruct (Z.ltb_spec size (Stat.size st)) as [Hlt|Hge].
    + apply bind_Ret in H. destruct H as (u' & w4 & Hset & H).
      apply set_incomplete_Ret in Hset. destruct Hset as (Hinc & _).
      unfold ret in H. injection H as <- <-.
      split; [reflexivity|]. split; [intros _; exact Hinc|].
      intros Hf. congruence.
    + unfold bind, ret in H. injection H as <- <-.
      split; [reflexivity|]. split; [intros Hlt; lia|].
      intros Hf. split; [|intros Hne; lia].
      destruct (twins_scan (block_list_twin bs) (fun w => ReiserFs.block_size (fs w) = bs)
                  (regular_block_list_item collect) collect _ _
                  (block_list_twins bs) flagged_block_list_item
                  (fun block po w v w' Hw E =>
                     eq_trans (proj1 (keeps_readNode _ _ _ _ _ E)) Hw)
                  fuel (1, []) [] w2 w3 (Continue (size, ys)) Hbs2
                  (conj eq_refl (conj I eq_refl)) Hscan Hf)
        as (a' & items & E & Hplain & Htw).
      injection E as <-. destruct Htw as (Hys & Hseq & _). cbn [snd] in Hys.
      exists w2, items. split; [exact Hexp|]. split; [exact Hplain|].
      split; [exact Hseq | exact Hys].
Qed.


(** ** An unreadable superblock *)

Section BadSuperblock.

Variables (image : bytes) (ranges : list RescueMap.entry) (partition_start : Z).
Variable st : Status.
Hypothesis Hlookup : RescueMap.getitem (RescueMap.mk ranges partition_start) 65536 = Ok st.
Hypothesis Hbad : st <> FINISHED.

Lemma init_bad_superblock :
  init (main_world image ranges partition_start) =
  Ret false (unmounted image ranges partition_start).
Proof.
  unfold init, bind, sectors_append, rescue_map_getitem, get_fs, set_sectors, set_fs,
    main_world, ReiserFs.new.
  cbn -[RescueMap.getitem Z.div]. rewrite Hlookup. cbn.
  destruct st; try reflexivity. contradiction Hbad. reflexivity.
Qed.

Lemma print_degenerate_map_bytes :
  print_rangelist (RangeList.mk [Range.mk 65536 512]) 1
    (unmounted image ranges partition_start) =
  Ret tt (mkWorld (fs (unmounted image ranges partition_start)) []
            (degenerate_map partition_start) []).
Proof.
  unfold print_rangelist, bind, get_fs, print_stdout, unmounted, degenerate_map. cbn.
  rewrite Z.add_0_r. reflexivity.
Qed.

Lemma print_degenerate_map_sectors :
  print_rangelist (RangeList.mk [Range.mk 128 1]) 512
    (unmounted image ranges partition_start) =
  Ret tt (mkWorld (fs (unmounted image ranges partition_start)) []
            (degenerate_map partition_start) []).
Proof.
  unfold print_rangelist, bind, get_fs, print_stdout, unmounted, degenerate_map. cbn.
  rewrite Z.add_0_r. reflexivity.
Qed.

End BadSuperblock.

(** C2 (amended): when the sector of the superblock is not finished, the
    map commands (bitmap, tree, folder) return after printing a map that
    starts with [0 * 1], a [-] line for the bytes before the partition, a
    [-] line for the 65536 bytes before the superblock and a [+] line of 512
    bytes for the superblock sector, and they write nothing to stderr; ls,
    cat and find return after writing [Could not access superblock] to
    stderr, and they print no map. *)
Theorem bad_superblock_output
  (ls_ : nat -> Key.t -> list token -> bool -> M unit) (fuel : nat)
  (image : bytes) (ranges : list RescueMap.entry) (partition_start : Z)
  (metadata_only : bool) (cmd : command) (st : Status) :
  RescueMap.getitem (RescueMap.mk ranges partition_start) 65536 = Ok st ->
  st <> FINISHED ->
  exists w,
    main ls_ fuel image ranges partition_start metadata_only cmd = Ret tt w /\
    match cmd with
    | CmdBitmap | CmdTree _ | CmdFolder _ =>
        (exists rest, stdout w = degenerate_map partition_start ++ rest) /\ stderr w = []
    | CmdLs _ _ | CmdCat _ | CmdFind _ =>
        stdout w = [] /\ stderr w = [PrintF [TStr "Could not access superblock"]]
    end.
Proof.
  intros Hlookup Hbad.
  pose proof (init_bad_superblock image ranges partition_start st Hlookup Hbad) as Hinit.
  pose proof (print_degenerate_map_bytes image ranges partition_start) as Hbytes.
  pose proof (print_degenerate_map_sectors image ranges partition_start) as Hsectors.
  unfold main, run_command. destruct cmd.
  - unfold findBitmap, bind. rewrite Hinit. cbn [negb lift RangeList.add RangeList.empty
      RangeList.items rev app ret]. rewrite Hbytes.
    eexists. split; [reflexivity|]. cbn [stdout stderr]. split; [|reflexivity].
    exists []. reflexivity.
  - unfold findTree, bind. rewrite Hinit. unfold ret at 1, get_fs at 1.
    cbn -[print_rangelist]. unfold unmounted in Hsectors. rewrite Hsectors.
    eexists. split; [reflexivity|]. cbn [stdout stderr]. split; [|reflexivity].
    exists []. reflexivity.
  - unfold findFolder, bind. rewrite Hinit. cbn [negb lift RangeList.add RangeList.empty
      RangeList.items rev app ret]. rewrite Hbytes.
    eexists. split; [reflexivity|]. cbn [stdout stderr]. split; [|reflexivity].
    exists []. reflexivity.
  - unfold ls, bind. rewrite Hinit. cbn.
    eexists. split; [reflexivity|]. split; reflexivity.
  - unfold cat, bind. rewrite Hinit. cbn.
    eexists. split; [reflexivity|]. split; reflexivity.
  - unfold find, bind. rewrite Hinit. cbn.
    eexists. split; [reflexivity|]. split; reflexivity.
Qed.

Lemma outcome_Ret {A : Type} (o : outcome A) (a : A) (d : World) :
  outcome_value o = Some (inl a) -> o = Ret a (final_world o d).
Proof. destruct o; simpl; intros H; try discriminate. injection H as <-. reflexivity. Qed.

Lemma outcome_Exc {A : Type} (o : outcome A) (e : exn) (d : World) :
  outcome_value o = Some (inr e) -> o = Exc e (final_world o d).
Proof. destruct o; simpl; intros H; try discriminate. injection H as <-. reflexivity. Qed.

(** Runs a closed command and reads off how it ends. *)
Ltac run_returns :=
  match goal with
  | |- exists w, ?o = Ret ?a w /\ _ =>
      exists (final_world o (mkWorld (ReiserFs.new [] (RescueMap.mk [] 0)) [] [] []));
      split; [apply outcome_Ret; vm_compute; reflexivity|]
  | |- exists w, ?o = Exc ?e w /\ _ =>
      exists (final_world o (mkWorld (ReiserFs.new [] (RescueMap.mk [] 0)) [] [] []));
      split; [apply outcome_Exc; vm_compute; reflexivity|]
  end.

Lemma bad_superblock_output_witness :
  RescueMap.getitem (RescueMap.mk bad_superblock 0) 65536 = Ok BAD /\
  BAD <> FINISHED /\
  exists w,
    main silent_ls_ 0 [] bad_superblock 0 false (CmdTree 0) = Ret tt w /\
    (exists rest, stdout w = degenerate_map 0 ++ rest) /\ stderr w = [].
Proof.
  assert (H1 : RescueMap.getitem (RescueMap.mk bad_superblock 0) 65536 = Ok BAD)
    by reflexivity.
  assert (H2 : BAD <> FINISHED) by discriminate.
  split; [exact H1|]. split; [exact H2|].
  exact (bad_superblock_output silent_ls_ 0 [] bad_superblock 0 false (CmdTree 0) BAD H1 H2).
Defined.

(** C2 as stated fails: with the superblock sector bad, [bitmap] prints the
    four lines and no closing [-] line and writes nothing to stderr, and
    [cat] prints no map at all. *)
Lemma bad_superblock_output_counterexample :
  RescueMap.getitem (RescueMap.mk bad_superblock 0) 65536 = Ok BAD /\
  (exists w,
     main silent_ls_ 0 [] bad_superblock 0 false CmdBitmap = Ret tt w /\
     stdout w = degenerate_map 0 /\ stderr w = []) /\
  (exists w,
     main silent_ls_ 0 [] bad_superblock 0 false (CmdCat name_5_6) = Ret tt w /\
     stdout w = []).
Proof.
  split; [reflexivity|]. split; run_returns.
  - split; reflexivity.
  - reflexivity.
Qed.

(** ** Block pointer 0 *)

(** C1: the folder driver does not skip a block pointer 0: for a file
    whose indirect item holds the pointer 0, [folder 5_6] prints a [+] range
    for the bytes of block 0.  On the same image the tree driver prints no
    range for them and [cat] writes a block of zero bytes. *)
Theorem folder_emits_block_zero (n : nat) :
  (exists w,
     findFolder (2 + n) [name_5_6] false (main_world sparse_file_image (all_finished 1) 0)
       = Ret tt w /\
     stdout w = sparse_folder_map) /\
  In (Print [TInt 0; TInt 4096; TStr "+"]) sparse_folder_map /\
  (exists w,
     findTree (3 + n) 0 false (main_world sparse_file_image (all_finished 1) 0) = Ret tt w /\
     stdout w = sparse_tree_map) /\
  (exists w,
     cat (1 + n) name_5_6 (main_world sparse_file_image (all_finished 1) 0) = Ret tt w /\
     stdout w = [Write (zeros 4096)]).
Proof.
  split; [|split; [|split]].
  - run_returns. vm_compute. reflexivity.
  - right; right; left; reflexivity.
  - run_returns. vm_compute. reflexivity.
  - run_returns. vm_compute. reflexivity.
Qed.

(** ** The short file *)

(** C4: on the regular file of Stat size 10 whose only data item is a
    direct item of seven bytes at offset 1, [regular_block_list] yields the
    seven bytes and sets [incomplete], and [cat] writes exactly those seven
    bytes; it then fails its own assertion [expectedSize == currentSize]
    with an [AssertionError], so it does not reach the branch for an
    incomplete file that follows the assertion and does not complete. *)
Theorem cat_short_file (n : nat) :
  stat_size_of (1 + n) (stat_key 5 6) (mounted short_file_image (all_finished 1)) = Some 10 /\
  (exists w,
     cat (1 + n) name_5_6 (main_world short_file_image (all_finished 1) 0)
       = Exc AssertionError w /\
     stdout w = [Write seven_bytes] /\ ReiserFs.incomplete (fs w) = true) /\
  (exists w,
     regular_block_list (1 + n) (stat_key 5 6) collect []
       (mounted short_file_image (all_finished 1)) = Ret (Continue [Data seven_bytes]) w /\
     ReiserFs.incomplete (fs w) = true).
Proof.
  split; [vm_compute; reflexivity|]. split.
  - run_returns. split; vm_compute; reflexivity.
  - run_returns. vm_compute. reflexivity.
Qed.

(** ** Whole blocks *)

(** C3 as stated fails in (c): for a file of Stat size 10 with one block
    pointer, [incomplete] stays unset and the logical length yielded is one
    whole block, not 10. *)
Lemma regular_block_list_length_counterexample :
  stat_size_of 1 (stat_key 5 6) (mounted one_block_file_image (all_finished 1)) = Some 10 /\
  ReiserFs.block_size (fs (mounted one_block_file_image (all_finished 1))) = 4096 /\
  (exists w,
     regular_block_list 1 (stat_key 5 6) collect []
       (mounted one_block_file_image (all_finished 1)) = Ret (Continue [Block 18]) w /\
     ReiserFs.incomplete (fs w) = false) /\
  logical_length 4096 [Block 18] = 4096 /\
  logical_length 4096 [Block 18] <> 10.
Proof.
  split; [vm_compute; reflexivity|]. split; [vm_compute; reflexivity|].
  split; [run_returns; vm_compute; reflexivity|].
  split; [reflexivity | discriminate].
Qed.

Lemma regular_block_list_length_witness :
  exists ys,
    Continue [Block 18] = Continue ys /\
    (1 + logical_length
           (ReiserFs.block_size (fs (mounted one_block_file_image (all_finished 1)))) ys
       < Stat.size one_block_stat ->
     ReiserFs.incomplete
       (fs (final_world
              (regular_block_list 1 (stat_key 5 6) collect []
                 (mounted one_block_file_image (all_finished 1)))
              (mounted one_block_file_image (all_finished 1)))) = true) /\
    (ReiserFs.incomplete
       (fs (final_world
              (regular_block_list 1 (stat_key 5 6) collect []
                 (mounted one_block_file_image (all_finished 1)))
              (mounted one_block_file_image (all_finished 1)))) = false ->
     (exists w2 items,
        expected_size 1 (stat_key 5 6) REGULAR
          (mounted one_block_file_image (all_finished 1))
          = Ret (Stat.size one_block_stat) w2 /\
        iter_items_in_range 1
          (Key.mk (Key.dirid (stat_key 5 6)) (Key.objid (stat_key 5 6)) 1 STAT 1)
          (Key.mk (Key.dirid (stat_key 5 6)) (Key.objid (stat_key 5 6) + 1) 0 STAT 1)
          collect [] w2
          = Ret (Continue items)
                (final_world
                   (regular_block_list 1 (stat_key 5 6) collect []
                      (mounted one_block_file_image (all_finished 1)))
                   (mounted one_block_file_image (all_finished 1))) /\
        in_sequence
          (ReiserFs.block_size (fs (mounted one_block_file_image (all_finished 1)))) 1 items /\
        ys = flat_map own_chunks items) /\
     (logical_length
        (ReiserFs.block_size (fs (mounted one_block_file_image (all_finished 1)))) ys
        <> Stat.size one_block_stat - 1 ->
      Stat.size one_block_stat <=
        logical_length
          (ReiserFs.block_size (fs (mounted one_block_file_image (all_finished 1)))) ys)).
Proof.
  refine (proj2 regular_block_list_length 1%nat (stat_key 5 6)
            (mounted one_block_file_image (all_finished 1))
            (Continue [Block 18]) _ one_block_stat_item
            (final_world (find_item 1 (stat_key 5 6)
                            (mounted one_block_file_image (all_finished 1)))
                         (mounted one_block_file_image (all_finished 1)))
            one_block_stat _ _ _ _).
  - vm_compute. discriminate.
  - apply outcome_Ret. vm_compute. reflexivity.
  - vm_compute. reflexivity.
  - apply outcome_Ret. vm_compute. reflexivity.
Defined.

(** ** Witnesses on the other images *)

Lemma tree_walk_reads_forward_witness :
  exists w,
    _findTree 6 0 false (mounted three_node_image (all_finished 4))
      = Ret (mkWalk [] [] 3 0 0 [[19; 20]; [18]]) w /\
    Forall nondecreasing [[19; 20]; [18]].
Proof.
  exists (final_world (_findTree 6 0 false (mounted three_node_image (all_finished 4)))
            (mounted three_node_image (all_finished 4))).
  assert (H : _findTree 6 0 false (mounted three_node_image (all_finished 4)) =
              Ret (mkWalk [] [] 3 0 0 [[19; 20]; [18]])
                  (final_world (_findTree 6 0 false (mounted three_node_image (all_finished 4)))
                     (mounted three_node_image (all_finished 4)))).
  { apply outcome_Ret. vm_compute. reflexivity. }
  split; [exact H|].
  exact (proj1 (proj2 (proj2 tree_walk_reads_forward)) _ _ _ _ _ _ H).
Defined.

Lemma directory_list_without_stat_incomplete_witness :
  exists w1 w',
    find_item 1 (stat_key 1 2) (mounted lone_directory_image (all_finished 1)) = Ret None w1 /\
    directory_list 1 (stat_key 1 2) collect []
      (mounted lone_directory_image (all_finished 1)) = Ret (Continue lone_directory_entries) w' /\
    ReiserFs.incomplete (fs w') = true.
Proof.
  exists (final_world (find_item 1 (stat_key 1 2) (mounted lone_directory_image (all_finished 1)))
            (mounted lone_directory_image (all_finished 1))).
  exists (final_world (directory_list 1 (stat_key 1 2) collect []
                         (mounted lone_directory_image (all_finished 1)))
            (mounted lone_directory_image (all_finished 1))).
  assert (H1 : find_item 1 (stat_key 1 2) (mounted lone_directory_image (all_finished 1)) =
               Ret None
                 (final_world (find_item 1 (stat_key 1 2)
                                 (mounted lone_directory_image (all_finished 1)))
                    (mounted lone_directory_image (all_finished 1)))).
  { apply outcome_Ret. vm_compute. reflexivity. }
  assert (H2 : directory_list 1 (stat_key 1 2) collect []
                 (mounted lone_directory_image (all_finished 1)) =
               Ret (Continue lone_directory_entries)
                 (final_world (directory_list 1 (stat_key 1 2) collect []
                                 (mounted lone_directory_image (all_finished 1)))
                    (mounted lone_directory_image (all_finished 1)))).
  { apply outcome_Ret. vm_compute. reflexivity. }
  split; [exact H1|]. split; [exact H2|].
  exact (directory_list_without_stat_incomplete _ _ _ _ _ _ _ _ _ H1 H2).
Defined.


(** ** Decoded keys *)

Lemma id2type_inv (id : Z) (ty : ItemType) :
  ItemType.version1_id2type id = Ok ty -> id = ItemType.version1_type2id ty.
Proof.
  unfold ItemType.version1_id2type.
  repeat match goal with
         | |- context [?a =? ?b] => destruct (Z.eqb_spec a b)
         end; intros E; try discriminate; injection E as <-; assumption.
Qed.

Lemma of_value_inv (v : Z) (ty : ItemType) :
  ItemType.of_value v = Ok ty -> v = ItemType.value ty.
Proof.
  unfold ItemType.of_value.
  repeat match goal with
         | |- context [?a =? ?b] => destruct (Z.eqb_spec a b)
         end; intros E; try discriminate; injection E as <-; assumption.
Qed.

(** A buffer of sixteen bytes is its three fields one after the other. *)
Lemma sixteen_bytes_fields (b : bytes) :
  blen b = 16 ->
  b = le_split 4 (le_at b 0 4) ++ le_split 4 (le_at b 4 4) ++ le_split 8 (le_at b 8 8) /\
  0 <= le_at b 0 4 < 2 ^ 32 /\ 0 <= le_at b 4 4 < 2 ^ 32 /\ 0 <= le_at b 8 8 < 2 ^ 64.
Proof.
  intros Hl. unfold blen in Hl. assert (Hn : List.length b = 16%nat) by lia.
  unfold le_at.
  assert (L0 : List.length (firstn 4 (skipn 0 b)) = 4%nat)
    by (rewrite length_firstn, length_skipn; lia).
  assert (L1 : List.length (firstn 4 (skipn 4 b)) = 4%nat)
    by (rewrite length_firstn, length_skipn; lia).
  assert (L2 : List.length (firstn 8 (skipn 8 b)) = 8%nat)
    by (rewrite length_firstn, length_skipn; lia).
  split; [|split; [|split]].
  - rewrite (split_le_combine' _ 4 L0), (split_le_combine' _ 4 L1), (split_le_combine' _ 8 L2).
    rewrite skipn_O.
    rewrite <- (firstn_skipn 4 b) at 1. f_equal.
    rewrite <- (firstn_skipn 4 (skipn 4 b)) at 1. f_equal.
    rewrite skipn_skipn. simpl Nat.add.
    symmetry. apply firstn_all2. rewrite length_skipn. lia.
  - pose proof (le_combine_bound (firstn 4 (skipn 0 b))) as B. rewrite L0 in B. exact B.
  - pose proof (le_combine_bound (firstn 4 (skipn 4 b))) as B. rewrite L1 in B. exact B.
  - pose proof (le_combine_bound (firstn 8 (skipn 8 b))) as B. rewrite L2 in B. exact B.
Qed.

Lemma split_word (w n : Z) :
  0 <= n -> 0 <= w ->
  Z.lor (Z.land w (Z.ones n)) (Z.shiftl (Z.shiftr w n) n) = w.
Proof.
  intros Hn Hw.
  rewrite Z.land_ones by lia.
  rewrite lor_shiftl_add by (try lia; apply Z.mod_pos_bound; lia).
  rewrite Z.shiftr_div_pow2 by lia.
  pose proof (Z.div_mod w (2 ^ n)). lia.
Qed.

Lemma key_unpack_packs_back (b : bytes) (version : option Z) (k : Key.t) :
  Key.unpack b version = Ok k ->
  Key.valid k /\ (Key.version k = 1 \/ Key.version k = 2) /\ Key.pack k = Ok b.
Proof.
  unfold Key.unpack.
  destruct (Z.eqb_spec (blen b) Key.struct_size) as [Hl|]; [|discriminate].
  simpl negb. cbv iota.
  destruct (sixteen_bytes_fields b Hl) as (Eb & H0 & H1 & H2).
  set (d := le_at b 0 4) in *. set (o := le_at b 4 4) in *. set (w := le_at b 8 8) in *.
  set (v := match version with Some v => v | None => _ end).
  destruct (v =? 1).
  - destruct (ItemType.version1_id2type (Z.shiftr w 32)) as [ty|] eqn:Ety; [|discriminate].
    simpl. intros E. injection E as <-.
    apply id2type_inv in Ety.
    assert (Hoff : 0 <= Z.land w 0xFFFFFFFF < 2 ^ 32).
    { change 0xFFFFFFFF with (Z.ones 32). rewrite Z.land_ones by lia.
      apply Z.mod_pos_bound. lia. }
    assert (Hk : Key.valid (Key.mk d o (Z.land w 0xFFFFFFFF) ty 1)).
    { unfold Key.valid. simpl. lia. }
    split; [exact Hk|]. split; [left; reflexivity|].
    rewrite key_pack_valid by exact Hk. unfold key_word.
    cbn [Key.dirid Key.objid Key.offset Key.type Key.version].
    change (1 =? 1) with true. cbv iota.
    rewrite <- Ety. change 4294967295 with (Z.ones 32).
    rewrite split_word by lia. rewrite <- Eb. reflexivity.
  - destruct (ItemType.of_value (Z.shiftr w 60)) as [ty|] eqn:Ety; [|discriminate].
    simpl. intros E. injection E as <-.
    apply of_value_inv in Ety.
    assert (Hoff : 0 <= Z.land w 0x0FFFFFFFFFFFFFFF < 2 ^ 60).
    { change 0x0FFFFFFFFFFFFFFF with (Z.ones 60). rewrite Z.land_ones by lia.
      apply Z.mod_pos_bound. lia. }
    assert (Hk : Key.valid (Key.mk d o (Z.land w 0x0FFFFFFFFFFFFFFF) ty 2)).
    { unfold Key.valid. simpl. lia. }
    split; [exact Hk|]. split; [right; reflexivity|].
    rewrite key_pack_valid by exact Hk. unfold key_word.
    cbn [Key.dirid Key.objid Key.offset Key.type Key.version].
    change (2 =? 1) with false. cbv iota.
    rewrite <- Ety. change 1152921504606846975 with (Z.ones 60).
    rewrite split_word by lia. rewrite <- Eb. reflexivity.
Qed.

(** X1: whatever [Key.unpack] decodes, under a forced or an inferred
    version, is a key the format can hold, and [Key.pack] writes it back as
    the very sixteen bytes it was read from. *)
Theorem key_unpack_pack_roundtrip (b : bytes) (version : option Z) (k : Key.t) :
  Key.unpack b version = Ok k ->
  Key.valid k /\ (Key.version k = 1 \/ Key.version k = 2) /\ Key.pack k = Ok b.
Proof. apply key_unpack_packs_back. Qed.

Lemma key_unpack_pack_roundtrip_witness :
  Key.unpack indirect_key_bytes None = Ok (Key.mk 1 2 4097 INDIRECT 2) /\
  Key.pack (Key.mk 1 2 4097 INDIRECT 2) = Ok indirect_key_bytes.
Proof.
  assert (H : Key.unpack indirect_key_bytes None = Ok (Key.mk 1 2 4097 INDIRECT 2))
    by reflexivity.
  split; [exact H|].
  exact (proj2 (proj2 (key_unpack_pack_roundtrip _ _ _ H))).
Defined.

(** ** The order on keys *)

Lemma key_compare_lex (a b : Key.t) :
  Key.compare a b = lex_compare (key_fields a) (key_fields b).
Proof.
  unfold Key.compare, key_fields, lex_compare.
  repeat match goal with
         | |- context [match ?x ?= ?y with _ => _ end] => destruct (x ?= y)
         end; reflexivity.
Qed.

Lemma lex_compare_lt_le (a : list Z) :
  forall b c, List.length a = List.length b -> List.length b = List.length c ->
    lex_compare a b = Lt -> lex_compare b c <> Gt -> lex_compare a c = Lt.
Proof.
  induction a as [|x a IH]; intros [|y b] [|z c] La Lb; simpl in *; try discriminate.
  destruct (Z.compare_spec x y), (Z.compare_spec y z), (Z.compare_spec x z);
    intros HA HB; try congruence; try lia.
  apply (IH b c); congruence || lia.
Qed.

Lemma lex_compare_le_lt (a : list Z) :
  forall b c, List.length a = List.length b -> List.length b = List.length c ->
    lex_compare a b <> Gt -> lex_compare b c = Lt -> lex_compare a c = Lt.
Proof.
  induction a as [|x a IH]; intros [|y b] [|z c] La Lb; simpl in *; try discriminate.
  destruct (Z.compare_spec x y), (Z.compare_spec y z), (Z.compare_spec x z);
    intros HA HB; try congruence; try lia.
  apply (IH b c); congruence || lia.
Qed.

Lemma key_lt_le_trans (a b c : Key.t) :
  Key.ltb a b = true -> Key.leb b c = true -> Key.ltb a c = true.
Proof.
  unfold Key.ltb, Key.leb. rewrite !key_compare_lex. intros H1 H2.
  rewrite (lex_compare_lt_le (key_fields a) (key_fields b) (key_fields c)); try reflexivity.
  - destruct (lex_compare (key_fields a) (key_fields b)); congruence.
  - destruct (lex_compare (key_fields b) (key_fields c)); congruence.
Qed.

Lemma key_le_lt_trans (a b c : Key.t) :
  Key.leb a b = true -> Key.ltb b c = true -> Key.ltb a c = true.
Proof.
  unfold Key.ltb, Key.leb. rewrite !key_compare_lex. intros H1 H2.
  rewrite (lex_compare_le_lt (key_fields a) (key_fields b) (key_fields c)); try reflexivity.
  - destruct (lex_compare (key_fields a) (key_fields b)); congruence.
  - destruct (lex_compare (key_fields b) (key_fields c)); congruence.
Qed.

Lemma lex_compare_antisym (a : list Z) :
  forall b, lex_compare b a = CompOpp (lex_compare a b).
Proof.
  induction a as [|x a IH]; intros [|y b]; simpl; try reflexivity.
  rewrite (Z.compare_antisym x y). destruct (x ?= y); simpl; auto.
Qed.

(** Exactly one of [a < b] and [b <= a] holds. *)
Lemma key_ltb_leb (a b : Key.t) : Key.ltb a b = negb (Key.leb b a).
Proof.
  unfold Key.ltb, Key.leb. rewrite !key_compare_lex.
  rewrite (lex_compare_antisym (key_fields a) (key_fields b)).
  destruct (lex_compare (key_fields a) (key_fields b)); reflexivity.
Qed.

(** ** Child pointers of an internal node *)

Lemma key_scan_spec (stop : Key.t -> bool) (payload : bytes) (n : nat) :
  forall i i' pos',
    Node.key_scan stop n payload i (i * Key.struct_size) = Ok (i', pos') ->
    i <= i' <= i + Z.of_nat n /\ pos' = i' * Key.struct_size /\
    (forall j, i <= j < i' -> exists k, key_at payload j = Ok k /\ stop k = false) /\
    (i' < i + Z.of_nat n -> exists k, key_at payload i' = Ok k /\ stop k = true).
Proof.
  induction n as [|n IH]; intros i i' pos' H.
  - simpl in H. injection H as <- <-. repeat split; intros; lia.
  - cbn [Node.key_scan] in H.
    destruct (Key.unpack _ None) as [k|] eqn:Ek; [|discriminate]. simpl in H.
    destruct (stop k) eqn:Es.
    + injection H as <- <-. split; [lia|]. split; [reflexivity|]. split.
      * intros j Hj. lia.
      * intros _. exists k. split; [exact Ek | exact Es].
    + replace (i * Key.struct_size + Key.struct_size) with ((i + 1) * Key.struct_size) in H by lia.
      destruct (IH _ _ _ H) as (Hr & Hp & Hbefore & Hat).
      split; [lia|]. split; [exact Hp|]. split.
      * intros j Hj. destruct (Z.eq_dec j i) as [->|Hne].
        -- exists k. split; [exact Ek | exact Es].
        -- apply Hbefore. lia.
      * intros Hlt. apply Hat. lia.
Qed.

Lemma ptrs_from_spec (payload : bytes) (ic : Z) (n : nat) :
  forall i ps,
    Node.ptrs_from n payload ic i = Ok ps ->
    List.length ps = n /\
    forall j : nat, (j < n)%nat ->
      ptr_struct_unpack_from payload (ic * Key.struct_size + (i + Z.of_nat j) * ptr_struct_size)
      = Ok (nth j ps 0).
Proof.
  induction n as [|n IH]; intros i ps H.
  - simpl in H. injection H as <-. split; [reflexivity|]. intros j Hj. lia.
  - cbn [Node.ptrs_from] in H.
    destruct (ptr_struct_unpack_from _ _) as [p|] eqn:Ep; [|discriminate]. simpl in H.
    destruct (Node.ptrs_from n payload ic (i + 1)) as [rest|] eqn:Er; [|discriminate].
    simpl in H. injection H as <-.
    destruct (IH _ _ Er) as (Hl & Hnth).
    split; [simpl; lia|].
    intros [|j] Hj.
    + simpl. rewrite Z.add_0_r. exact Ep.
    + cbn [nth]. rewrite <- (Hnth j) by lia. f_equal. lia.
Qed.

(** X2: the child [ptr_find] descends into for a key is always one of the
    children [ptr_find_range] descends into for a range that holds the key,
    whatever the order of the keys stored in the node. *)
Theorem ptr_find_within_range (self : Node.t) (key keyStart keyEnd : Key.t)
  (p : Z) (ps : list Z) :
  Key.leb keyStart key = true -> Key.ltb key keyEnd = true ->
  Node.ptr_find self key = Ok (Some p) ->
  Node.ptr_find_range self keyStart keyEnd = Ok (Some ps) ->
  In p ps.
Proof.
  intros Hlo Hhi Hf Hr.
  unfold Node.ptr_find in Hf. unfold Node.ptr_find_range in Hr.
  destruct (Node.level self =? 1); [discriminate|].
  destruct (rassert _); [|discriminate]. simpl in Hf.
  destruct (Node.item_count self <=? 0) eqn:Hic; [discriminate|].
  apply Z.leb_gt in Hic.
  destruct (Node.key_scan (fun ikey => Key.gtb ikey key) _ _ 0 0) as [[i1 pos1]|] eqn:E1;
    [|discriminate].
  simpl in Hf.
  destruct (ptr_struct_unpack_from _ _) as [p'|] eqn:Ep; [|discriminate].
  simpl in Hf. assert (p' = p) by congruence. subst p'.
  destruct (Node.key_scan (fun tmpkey => Key.gtb tmpkey keyStart) _ _ 0 0)
    as [[start pos]|] eqn:E2; [|discriminate].
  simpl in Hr.
  change 0 with (0 * Key.struct_size) in E1 at 2.
  change 0 with (0 * Key.struct_size) in E2 at 2.
  destruct (key_scan_spec _ _ _ _ _ _ E1) as (R1 & _ & B1 & A1).
  destruct (key_scan_spec _ _ _ _ _ _ E2) as (R2 & P2 & B2 & A2).
  subst pos.
  destruct (Node.key_scan (fun tmpkey => Key.geb tmpkey keyEnd) _ _ start _)
    as [[end_ pos3]|] eqn:E3; [|discriminate].
  simpl in Hr.
  destruct (key_scan_spec _ _ _ _ _ _ E3) as (R3 & _ & B3 & A3).
  destruct (Node.ptrs_from _ _ _ start) as [found|] eqn:E4; [|discriminate].
  simpl in Hr. assert (found = ps) by congruence. subst found.
  destruct (ptrs_from_spec _ _ _ _ _ E4) as (Hlen & Hnth).
  rewrite Z2Nat.id in R1, A1 by lia. rewrite Z2Nat.id in R2, A2 by lia.
  rewrite Z2Nat.id in R3, A3 by lia.
  assert (Hs : start <= i1).
  { destruct (Z.le_gt_cases start i1) as [|Hlt]; [assumption|]. exfalso.
    destruct A1 as (k & Hk & Hstop); [lia|].
    destruct (B2 i1) as (k' & Hk' & Hstop'); [lia|].
    assert (k' = k) by congruence. subst k'.
    unfold Key.gtb in Hstop, Hstop'.
    rewrite key_ltb_leb in Hstop'. apply negb_false_iff in Hstop'.
    pose proof (key_lt_le_trans _ _ _ Hstop Hstop') as Hc.
    rewrite key_ltb_leb, Hlo in Hc. discriminate. }
  assert (He : i1 <= end_).
  { destruct (Z.le_gt_cases i1 end_) as [|Hlt]; [assumption|]. exfalso.
    destruct A3 as (k & Hk & Hstop); [lia|].
    destruct (B1 end_) as (k' & Hk' & Hstop'); [lia|].
    assert (k' = k) by congruence. subst k'.
    unfold Key.geb in Hstop. unfold Key.gtb in Hstop'.
    pose proof (key_lt_le_trans _ _ _ Hhi Hstop) as Hc.
    congruence. }
  specialize (Hnth (Z.to_nat (i1 - start))).
  rewrite Z2Nat.id in Hnth by lia.
  replace (start + (i1 - start)) with i1 in Hnth by lia.
  rewrite Hnth in Ep by lia.
  injection Ep as <-. apply nth_In. lia.
Qed.

Lemma ptr_find_within_range_witness :
  Node.ptr_find two_child_node (stat_key 1 2) = Ok (Some 20) /\
  Node.ptr_find_range two_child_node (Key.mk 1 2 0 STAT 1) (Key.mk 1 3 0 STAT 1)
    = Ok (Some [20]) /\
  In 20 [20].
Proof.
  assert (Hf : Node.ptr_find two_child_node (stat_key 1 2) = Ok (Some 20))
    by (vm_compute; reflexivity).
  assert (Hr : Node.ptr_find_range two_child_node (Key.mk 1 2 0 STAT 1)
                 (Key.mk 1 3 0 STAT 1) = Ok (Some [20]))
    by (vm_compute; reflexivity).
  split; [exact Hf|]. split; [exact Hr|].
  apply (ptr_find_within_range two_child_node (stat_key 1 2)
           (Key.mk 1 2 0 STAT 1) (Key.mk 1 3 0 STAT 1) 20 [20]).
  - reflexivity.
  - reflexivity.
  - exact Hf.
  - exact Hr.
Defined.

Lemma nth_firstn_skipn {A : Type} (d : A) (l : list A) (s n j : nat) :
  (j < n)%nat -> nth j (firstn n (skipn s l)) d = nth (s + j) l d.
Proof.
  intros Hj. rewrite nth_firstn.
  replace (j <? n)%nat with true by (symmetry; apply Nat.ltb_lt; exact Hj).
  apply nth_skipn.
Qed.

Lemma ptrs_from_segment (payload : bytes) (ic : Z) (all ps : list Z) (n m : nat) (s : Z) :
  0 <= s ->
  Node.ptrs_from n payload ic 0 = Ok all ->
  Node.ptrs_from m payload ic s = Ok ps ->
  (Z.to_nat s + m <= n)%nat ->
  ps = firstn m (skipn (Z.to_nat s) all).
Proof.
  intros Hs Ha Hp Hle.
  destruct (ptrs_from_spec _ _ _ _ _ Ha) as (La & Na).
  destruct (ptrs_from_spec _ _ _ _ _ Hp) as (Lp & Np).
  apply (nth_ext _ _ 0 0).
  - rewrite length_firstn, length_skipn. lia.
  - intros j Hj. rewrite nth_firstn_skipn by lia.
    specialize (Np j ltac:(lia)). specialize (Na (Z.to_nat s + j)%nat ltac:(lia)).
    replace (0 + Z.of_nat (Z.to_nat s + j)) with (s + Z.of_nat j) in Na by lia.
    congruence.
Qed.

(** X3: the children [ptr_find] and [ptr_find_range] return are children
    [ptr_blocks] lists: [ptr_find] returns one of them, [ptr_find_range] a
    run of at least one consecutive child. *)
Theorem ptr_lookups_within_ptr_blocks (self : Node.t) (all : list Z) :
  Node.ptr_blocks self = Ok all ->
  (forall key p, Node.ptr_find self key = Ok (Some p) -> In p all) /\
  (forall keyStart keyEnd ps,
     Node.ptr_find_range self keyStart keyEnd = Ok (Some ps) ->
     ps <> [] /\ exists before after, all = before ++ ps ++ after).
Proof.
  intros Hall. unfold Node.ptr_blocks in Hall. split.
  - intros key p Hf. unfold Node.ptr_find in Hf.
    destruct (Node.level self =? 1); [discriminate|].
    destruct (rassert _); [|discriminate]. simpl in Hf.
    destruct (Node.item_count self <=? 0) eqn:Hic; [discriminate|].
    apply Z.leb_gt in Hic.
    destruct (Node.key_scan _ _ _ 0 0) as [[i1 pos1]|] eqn:E1; [|discriminate].
    simpl in Hf.
    destruct (ptr_struct_unpack_from _ _) as [p'|] eqn:Ep; [|discriminate].
    simpl in Hf. assert (p' = p) by congruence. subst p'.
    change 0 with (0 * Key.struct_size) in E1 at 2.
    destruct (key_scan_spec _ _ _ _ _ _ E1) as (R1 & _).
    rewrite Z2Nat.id in R1 by lia.
    destruct (ptrs_from_spec _ _ _ _ _ Hall) as (La & Na).
    specialize (Na (Z.to_nat i1) ltac:(lia)).
    rewrite Z2Nat.id in Na by lia. simpl Z.add in Na.
    rewrite Na in Ep. injection Ep as <-. apply nth_In. lia.
  - intros keyStart keyEnd ps Hr. unfold Node.ptr_find_range in Hr.
    destruct (Node.level self =? 1); [discriminate|].
    destruct (Node.item_count self <=? 0) eqn:Hic; [discriminate|].
    apply Z.leb_gt in Hic.
    destruct (Node.key_scan _ _ _ 0 0) as [[start pos]|] eqn:E2; [|discriminate].
    simpl in Hr.
    change 0 with (0 * Key.struct_size) in E2 at 2.
    destruct (key_scan_spec _ _ _ _ _ _ E2) as (R2 & P2 & _).
    subst pos.
    destruct (Node.key_scan _ _ _ start _) as [[end_ pos3]|] eqn:E3; [|discriminate].
    simpl in Hr.
    destruct (key_scan_spec _ _ _ _ _ _ E3) as (R3 & _).
    destruct (Node.ptrs_from _ _ _ start) as [found|] eqn:E4; [|discriminate].
    simpl in Hr. assert (found = ps) by congruence. subst found.
    rewrite Z2Nat.id in R2 by lia. rewrite Z2Nat.id in R3 by lia.
    pose proof (ptrs_from_segment _ _ _ _ _ _ _ (proj1 R2) Hall E4 ltac:(lia)) as Eps.
    split.
    + destruct (ptrs_from_spec _ _ _ _ _ E4) as (Lp & _).
      intros ->. simpl in Lp. lia.
    + exists (firstn (Z.to_nat start) all),
             (skipn (Z.to_nat (end_ + 1 - start)) (skipn (Z.to_nat start) all)).
      rewrite Eps. rewrite firstn_skipn. symmetry. apply firstn_skipn.
Qed.

(** ** Items of a leaf *)

Lemma item_find_range_loop_filter (self : Node.t) (keyStart keyEnd : Key.t) (n : nat) :
  forall pos,
    Node.item_find_range_loop self keyStart keyEnd n pos =
    (its <-? Node.items_loop self n pos ;; Ok (filter (in_key_range keyStart keyEnd) its)).
Proof.
  induction n as [|n IH]; intros pos; [reflexivity|].
  cbn [Node.item_find_range_loop Node.items_loop].
  destruct (ItemHdr.unpack _) as [hdr|]; [|reflexivity]. cbn [rbind].
  rewrite IH.
  destruct (Node.items_loop self n _) as [rest|]; [|reflexivity]. cbn [rbind filter].
  change (in_key_range keyStart keyEnd (Node.item_of_hdr self hdr))
    with (Key.leb keyStart (ItemHdr.key hdr) && Key.ltb (ItemHdr.key hdr) keyEnd).
  destruct (Key.leb keyStart (ItemHdr.key hdr) && Key.ltb (ItemHdr.key hdr) keyEnd);
    reflexivity.
Qed.

(** X4: [item_find_range] returns the items of [items] whose key lies in
    the range, in their order in the leaf, and it fails exactly when
    [items] fails, with the same error. *)
Theorem item_find_range_filters_items (self : Node.t) (keyStart keyEnd : Key.t) :
  Node.item_find_range self keyStart keyEnd =
  (its <-? Node.items self ;;
   Ok (filter (fun item => Key.leb keyStart (Item.key item) && Key.ltb (Item.key item) keyEnd)
         its)).
Proof. apply item_find_range_loop_filter. Qed.

Lemma py_slice_from (l : bytes) (a n : Z) :
  0 <= a -> 0 < n -> blen (py_slice l a (a + n)) = n ->
  py_slice l a (a + n) = firstn (Z.to_nat n) (skipn (Z.to_nat a) l) /\ a + n <= blen l.
Proof.
  intros Ha Hn. unfold py_slice, clamp_index, blen.
  replace (a <? 0) with false by (symmetry; apply Z.ltb_ge; lia).
  replace (a + n <? 0) with false by (symmetry; apply Z.ltb_ge; lia).
  rewrite length_firstn, length_skipn. intros Hl.
  assert (a + n <= Z.of_nat (List.length l)) by lia.
  split; [|assumption].
  rewrite !Z.min_l by lia. f_equal. lia.
Qed.

Lemma hdr_bytes_key (self : Node.t) (pos : Z) :
  0 <= pos -> blen (hdr_bytes self pos) = ItemHdr.struct_size ->
  firstn 16 (hdr_bytes self pos) = raw_key self pos.
Proof.
  intros Hp Hl. unfold hdr_bytes in *. unfold raw_key.
  assert (H24 : 0 < ItemHdr.struct_size) by (unfold ItemHdr.struct_size; lia).
  destruct (py_slice_from _ _ _ Hp H24 Hl) as (E & Hb).
  rewrite E. rewrite firstn_firstn.
  unfold py_slice, clamp_index, blen in *.
  replace (pos <? 0) with false by (symmetry; apply Z.ltb_ge; lia).
  replace (pos + Key.struct_size <? 0) with false
    by (symmetry; apply Z.ltb_ge; unfold Key.struct_size; lia).
  unfold Key.struct_size, ItemHdr.struct_size in *.
  rewrite !Z.min_l by lia. f_equal. lia.
Qed.

Lemma itemhdr_unpack_key (b : bytes) (hdr : ItemHdr.t) :
  ItemHdr.unpack b = Ok hdr ->
  blen b = ItemHdr.struct_size /\
  Key.unpack (firstn 16 b) (Some (ItemHdr.version hdr + 1)) = Ok (ItemHdr.key hdr).
Proof.
  unfold ItemHdr.unpack.
  destruct (Z.eqb_spec (blen b) ItemHdr.struct_size) as [Hl|]; [|discriminate].
  simpl negb. cbv iota.
  destruct (Key.unpack _ _) as [k|] eqn:Ek; [|discriminate]. simpl.
  intros E. injection E as <-. simpl. split; [exact Hl | exact Ek].
Qed.

(** The first header whose key bytes are [kb], among [n] headers from
    byte position [pos]. *)
Lemma item_find_loop_hit (self : Node.t) (kb : bytes) (n : nat) :
  forall pos it,
    Node.item_find_loop self kb n pos = Ok (Some it) ->
    exists (j : nat) hdr,
      (j < n)%nat /\
      raw_key self (pos + Z.of_nat j * ItemHdr.struct_size) = kb /\
      ItemHdr.unpack (hdr_bytes self (pos + Z.of_nat j * ItemHdr.struct_size)) = Ok hdr /\
      it = Node.item_of_hdr self hdr.
Proof.
  induction n as [|n IH]; intros pos it H; [discriminate|].
  cbn [Node.item_find_loop] in H.
  destruct (bytes_eqb kb _) eqn:Eb.
  - destruct (ItemHdr.unpack _) as [hdr|] eqn:Eh; [|discriminate].
    simpl in H. injection H as <-.
    exists O, hdr. rewrite Z.add_0_r. split; [lia|]. split; [|split; [exact Eh | reflexivity]].
    unfold bytes_eqb in Eb. destruct (list_eq_dec _ _ _); [|discriminate].
    symmetry. assumption.
  - destruct (IH _ _ H) as (j & hdr & Hj & Hk & Hh & Hit).
    exists (S j), hdr. split; [lia|].
    replace (pos + Z.of_nat (S j) * ItemHdr.struct_size)
      with (pos + ItemHdr.struct_size + Z.of_nat j * ItemHdr.struct_size) by lia.
    auto.
Qed.

Lemma item_find_loop_miss (self : Node.t) (kb : bytes) (n : nat) :
  forall pos,
    Node.item_find_loop self kb n pos = Ok None ->
    forall j : nat, (j < n)%nat ->
      raw_key self (pos + Z.of_nat j * ItemHdr.struct_size) <> kb.
Proof.
  induction n as [|n IH]; intros pos H j Hj; [lia|].
  cbn [Node.item_find_loop] in H.
  destruct (bytes_eqb kb _) eqn:Eb.
  - destruct (ItemHdr.unpack _); discriminate.
  - destruct j as [|j].
    + rewrite Z.add_0_r. unfold bytes_eqb in Eb.
      destruct (list_eq_dec _ _ _); [discriminate|]. intros E. apply n0. symmetry. exact E.
    + replace (pos + Z.of_nat (S j) * ItemHdr.struct_size)
        with (pos + ItemHdr.struct_size + Z.of_nat j * ItemHdr.struct_size) by lia.
      apply IH; [exact H | lia].
Qed.

Lemma items_loop_nth (self : Node.t) (n : nat) :
  forall pos its,
    Node.items_loop self n pos = Ok its ->
    List.length its = n /\
    forall j : nat, (j < n)%nat ->
      exists hdr,
        ItemHdr.unpack (hdr_bytes self (pos + Z.of_nat j * ItemHdr.struct_size)) = Ok hdr /\
        nth_error its j = Some (Node.item_of_hdr self hdr).
Proof.
  induction n as [|n IH]; intros pos its H.
  - simpl in H. injection H as <-. split; [reflexivity|]. intros j Hj. lia.
  - cbn [Node.items_loop] in H.
    destruct (ItemHdr.unpack _) as [hdr|] eqn:Eh; [|discriminate]. simpl in H.
    destruct (Node.items_loop self n _) as [rest|] eqn:Er; [|discriminate].
    simpl in H. injection H as <-.
    destruct (IH _ _ Er) as (Hl & Hn). split; [simpl; lia|].
    intros [|j] Hj.
    + exists hdr. rewrite Z.add_0_r. split; [exact Eh | reflexivity].
    + destruct (Hn j ltac:(lia)) as (h & Hh & Hnth). exists h.
      replace (pos + Z.of_nat (S j) * ItemHdr.struct_size)
        with (pos + ItemHdr.struct_size + Z.of_nat j * ItemHdr.struct_size) by lia.
      split; [exact Hh | exact Hnth].
Qed.

Lemma stat_key_word (k : Key.t) :
  Key.type k = STAT -> Key.offset k = 0 -> key_word k = 0.
Proof.
  intros Ht Ho. unfold key_word. rewrite Ht, Ho. destruct (Key.version k =? 1); reflexivity.
Qed.

Lemma item_find_spec (self : Node.t) (key : Key.t) :
  (forall it,
     Node.item_find self key = Ok (Some it) -> Key.valid key ->
     (forall its, Node.items self = Ok its -> In it its) /\
     Key.dirid (Item.key it) = Key.dirid key /\
     Key.objid (Item.key it) = Key.objid key /\
     (Key.version (Item.key it) = Key.version key -> Item.key it = key) /\
     (Key.type key = STAT -> Key.offset key = 0 ->
      Key.type (Item.key it) = STAT /\ Key.offset (Item.key it) = 0)) /\
  (Node.item_find self key = Ok None ->
   forall its, Node.items self = Ok its ->
   forall it, In it its -> Item.key it <> key).
Proof.
  unfold Node.item_find, Node.items. split.
  - intros it H Hk.
    rewrite key_pack_valid in H by exact Hk. cbn [rbind] in H.
    destruct (item_find_loop_hit _ _ _ _ _ H) as (j & hdr & Hj & Hraw & Hh & ->).
    simpl Z.add in *.
    destruct (itemhdr_unpack_key _ _ Hh) as (Hl & Hkey).
    rewrite hdr_bytes_key in Hkey by (unfold ItemHdr.struct_size; lia || exact Hl).
    rewrite Hraw in Hkey.
    pose proof (key_unpack_version _ _ _ Hkey) as Hver.
    rewrite key_unpack_packed in Hkey by exact Hk.
    split; [|split; [|split; [|split]]].
    + intros its Hits. destruct (items_loop_nth _ _ _ _ Hits) as (_ & Hn).
      destruct (Hn j Hj) as (h & Hh' & Hnth). simpl Z.add in Hh'.
      assert (h = hdr) by congruence. subst h.
      apply nth_error_In with j. exact Hnth.
    + unfold Node.item_of_hdr. simpl.
      destruct (ItemHdr.version hdr + 1 =? 1);
        match type of Hkey with (rbind ?r _) = _ => destruct r; [|discriminate] end;
        simpl in Hkey; injection Hkey as <-; reflexivity.
    + unfold Node.item_of_hdr. simpl.
      destruct (ItemHdr.version hdr + 1 =? 1);
        match type of Hkey with (rbind ?r _) = _ => destruct r; [|discriminate] end;
        simpl in Hkey; injection Hkey as <-; reflexivity.
    + unfold Node.item_of_hdr. simpl. intros Hsame.
      pose proof (key_unpack_own_version key Hk) as Hown.
      rewrite key_unpack_packed in Hown by exact Hk.
      assert (Ev : (ItemHdr.version hdr + 1 =? 1) = (Key.version key =? 1)).
      { rewrite <- Hsame, Hver. destruct (ItemHdr.version hdr + 1 =? 1); reflexivity. }
      rewrite Ev in Hkey. congruence.
    + unfold Node.item_of_hdr. simpl. intros Ht Ho.
      rewrite (stat_key_word key Ht Ho) in Hkey.
      destruct (ItemHdr.version hdr + 1 =? 1); simpl in Hkey; injection Hkey as <-;
        split; reflexivity.
  - intros H its Hits it Hin Heq.
    destruct (Key.pack key) as [kb|] eqn:Ep; [|discriminate]. simpl in H.
    destruct (items_loop_nth _ _ _ _ Hits) as (Hlen & Hn).
    destruct (In_nth_error _ _ Hin) as (j & Hj).
    assert (Hjn : (j < Z.to_nat (Node.item_count self))%nat).
    { rewrite <- Hlen. apply nth_error_Some. congruence. }
    destruct (Hn j Hjn) as (hdr & Hh & Hnth). simpl Z.add in Hh.
    assert (it = Node.item_of_hdr self hdr) by congruence. subst it.
    destruct (itemhdr_unpack_key _ _ Hh) as (Hl & Hkey).
    rewrite hdr_bytes_key in Hkey by (unfold ItemHdr.struct_size; lia || exact Hl).
    unfold Node.item_of_hdr in Heq. simpl in Heq. rewrite Heq in Hkey.
    destruct (key_unpack_packs_back _ _ _ Hkey) as (_ & _ & Hpack).
    apply (item_find_loop_miss _ _ _ _ H j Hjn). simpl Z.add. congruence.
Qed.

(** X5: [item_find] looks a key up by its packed bytes.  An item it
    returns is an item of the leaf, with the directory and object ids asked
    for; its key is the key asked for once the two agree on the version, and
    a Stat key (offset 0) finds a Stat item under either version.  When it
    returns nothing, no item of the leaf has the key. *)
Theorem item_find_by_packed_key (self : Node.t) (key : Key.t) :
  (forall it,
     Node.item_find self key = Ok (Some it) -> Key.valid key ->
     (forall its, Node.items self = Ok its -> In it its) /\
     Key.dirid (Item.key it) = Key.dirid key /\
     Key.objid (Item.key it) = Key.objid key /\
     (Key.version (Item.key it) = Key.version key -> Item.key it = key) /\
     (Key.type key = STAT -> Key.offset key = 0 ->
      Key.type (Item.key it) = STAT /\ Key.offset (Item.key it) = 0)) /\
  (Node.item_find self key = Ok None ->
   forall its, Node.items self = Ok its ->
   forall it, In it its -> Item.key it <> key).
Proof. apply item_find_spec. Qed.

Lemma item_find_by_packed_key_witness :
  Node.item_find short_file_leaf (stat_key 5 6) = Ok (Some short_file_stat_item) /\
  Key.valid (stat_key 5 6) /\
  Item.key short_file_stat_item = stat_key 5 6.
Proof.
  assert (Hf : Node.item_find short_file_leaf (stat_key 5 6) = Ok (Some short_file_stat_item))
    by (vm_compute; reflexivity).
  assert (Hk : Key.valid (stat_key 5 6)) by (unfold Key.valid; simpl; lia).
  split; [exact Hf|]. split; [exact Hk|].
  destruct (item_find_by_packed_key short_file_leaf (stat_key 5 6)) as [Hhit _].
  destruct (Hhit _ Hf Hk) as (_ & _ & _ & Hsame & _).
  apply Hsame. reflexivity.
Defined.

Lemma ptr_lookups_within_ptr_blocks_witness :
  Node.ptr_blocks two_child_node = Ok [20; 18] /\
  Node.ptr_find two_child_node (stat_key 5 7) = Ok (Some 18) /\
  In 18 [20; 18].
Proof.
  assert (Ha : Node.ptr_blocks two_child_node = Ok [20; 18]) by (vm_compute; reflexivity).
  assert (Hf : Node.ptr_find two_child_node (stat_key 5 7) = Ok (Some 18))
    by (vm_compute; reflexivity).
  split; [exact Ha|]. split; [exact Hf|].
  destruct (ptr_lookups_within_ptr_blocks two_child_node [20; 18] Ha) as [Hfind _].
  exact (Hfind _ _ Hf).
Defined.

(** ** Directory entries *)

Lemma name_end_spec (body : bytes) (implicitEnd : Z) (fuel : nat) :
  forall location locationEnd,
    0 <= location ->
    Item.name_end fuel body implicitEnd location = Ok locationEnd ->
    location <= locationEnd /\
    (location < locationEnd -> locationEnd <= blen body /\ locationEnd <= implicitEnd) /\
    forall i, location <= i < locationEnd ->
      exists c, nth_error body (Z.to_nat i) = Some c /\ c <> Byte.x00.
Proof.
  induction fuel as [|fuel IH]; intros location locationEnd Hl H.
  - simpl in H. injection H as <-. repeat split; intros; lia.
  - cbn [Item.name_end] in H.
    destruct (location <? implicitEnd) eqn:Hlt.
    + apply Z.ltb_lt in Hlt.
      destruct (nth_error body (Z.to_nat location)) as [c|] eqn:Ec; [|discriminate].
      destruct (Byte.eqb c Byte.x00) eqn:Ez; simpl in H.
      * injection H as <-. repeat split; intros; lia.
      * assert (Hl1 : 0 <= location + 1) by lia.
        destruct (IH _ _ Hl1 H) as (Hle & Hb & Hn).
        assert (Hin : location + 1 <= blen body).
        { assert (Hs : nth_error body (Z.to_nat location) <> None) by congruence.
          apply nth_error_Some in Hs. unfold blen. lia. }
        split; [lia|]. split.
        -- intros _. destruct (Z.eq_dec locationEnd (location + 1)) as [->|Hne];
             [split; lia | split; apply Hb; lia].
        -- intros i Hi. destruct (Z.eq_dec i location) as [->|Hne].
           ++ exists c. split; [exact Ec|]. intros ->. vm_compute in Ez. discriminate.
           ++ apply Hn. lia.
    + injection H as <-. repeat split; intros; lia.
Qed.

Lemma py_slice_exact (l : bytes) (a b : Z) (c : byte) :
  0 <= a <= b -> b <= blen l ->
  In c (py_slice l a b) -> exists i, a <= i < b /\ nth_error l (Z.to_nat i) = Some c.
Proof.
  intros Ha Hb. unfold py_slice, clamp_index. unfold blen in *.
  replace (a <? 0) with false by (symmetry; apply Z.ltb_ge; lia).
  replace (b <? 0) with false by (symmetry; apply Z.ltb_ge; lia).
  rewrite !Z.min_l by lia.
  intros Hin. destruct (In_nth_error _ _ Hin) as (j & Hj).
  assert (Hjl : (j < Z.to_nat (b - a))%nat).
  { assert (Hs : nth_error (firstn (Z.to_nat (b - a)) (skipn (Z.to_nat a) l)) j <> None)
      by congruence.
    apply nth_error_Some in Hs. rewrite length_firstn in Hs. lia. }
  rewrite nth_error_firstn in Hj.
  replace (j <? Z.to_nat (b - a))%nat with true in Hj by (symmetry; apply Nat.ltb_lt; lia).
  rewrite nth_error_skipn in Hj.
  exists (a + Z.of_nat j). split; [lia|].
  replace (Z.to_nat (a + Z.of_nat j)) with (Z.to_nat a + j)%nat by lia. exact Hj.
Qed.

Lemma directory_list_loop_spec (body : bytes) (n : nat) :
  forall pos implicitEnd entries,
    Item.directory_list_loop n body pos implicitEnd = Ok entries ->
    List.length entries = n /\
    Forall (fun e => ~ In Byte.x00 (DirectoryEntry.name e)) entries.
Proof.
  induction n as [|n IH]; intros pos implicitEnd entries H.
  - simpl in H. injection H as <-. split; [reflexivity | constructor].
  - cbn [Item.directory_list_loop] in H. cbv zeta in H.
    destruct (negb _); [discriminate|].
    set (hdr := py_slice body pos (pos + DirectoryEntry.struct_size)) in *.
    set (location := le_at hdr 12 2) in *.
    destruct (Item.name_end _ body implicitEnd location) as [locationEnd|] eqn:En;
      [|discriminate].
    cbn [rbind] in H.
    destruct (Item.directory_list_loop n body _ location) as [rest|] eqn:Er; [|discriminate].
    cbn [rbind] in H. injection H as <-.
    destruct (IH _ _ _ Er) as (Hl & Hall).
    split; [simpl; lia|].
    constructor; [|exact Hall]. cbn [DirectoryEntry.name].
    assert (Hloc : 0 <= location) by (unfold location, le_at; apply le_combine_bound).
    destruct (name_end_spec _ _ _ _ _ Hloc En) as (Hle & Hb & Hn).
    intros Hin.
    destruct (Z.eq_dec location locationEnd) as [<-|Hne].
    + unfold py_slice in Hin. rewrite Z.sub_diag in Hin. simpl in Hin. exact Hin.
    + destruct (py_slice_exact body location locationEnd Byte.x00) as (i & Hi & Hnth);
        [lia | apply Hb; lia | exact Hin |].
      destruct (Hn i Hi) as (c & Hc & Hz). congruence.
Qed.

(** X6: when [Item.directory_list] decodes a directory item, it returns
    one entry per counted header, and no name it returns holds a NUL
    byte. *)
Theorem directory_list_names (self : Item.t) (entries : list DirectoryEntry.t) :
  Item.directory_list self = Ok entries ->
  List.length entries = Z.to_nat (Item.count self) /\
  Forall (fun e => ~ In Byte.x00 (DirectoryEntry.name e)) entries.
Proof. apply directory_list_loop_spec. Qed.

Lemma directory_list_names_witness :
  Item.directory_list (Item.mk (Key.mk 1 2 1 DIRECTORY 1) 2 0 dir_body)
    = Ok lone_directory_entries /\
  List.length lone_directory_entries = 2%nat.
Proof.
  assert (H : Item.directory_list (Item.mk (Key.mk 1 2 1 DIRECTORY 1) 2 0 dir_body)
              = Ok lone_directory_entries) by (vm_compute; reflexivity).
  split; [exact H|].
  exact (proj1 (directory_list_names _ _ H)).
Defined.


(** ** What a range list covers *)

Lemma covers_nil (x : Z) : ~ covers [] x.
Proof. intros (r & [] & _). Qed.

Lemma covers_app (l1 l2 : list Range.t) (x : Z) :
  covers (l1 ++ l2) x <-> covers l1 x \/ covers l2 x.
Proof.
  unfold covers. split.
  - intros (r & Hin & Hr). apply in_app_or in Hin. destruct Hin; [left|right]; eauto.
  - intros [(r & Hin & Hr)|(r & Hin & Hr)]; exists r; split; auto using in_or_app.
Qed.

Lemma covers_one (r : Range.t) (x : Z) :
  covers [r] x <-> Range.start r <= x < Range.start r + Range.size r.
Proof.
  unfold covers. split.
  - intros (r' & [<-|[]] & Hr). exact Hr.
  - intros Hr. exists r. split; [left; reflexivity | exact Hr].
Qed.

Lemma separated_last_size (l : list Range.t) :
  forall a, separated (l ++ [a]) -> 0 <= Range.size a.
Proof.
  induction l as [|x tl IH]; intros a Hs.
  - simpl in Hs. tauto.
  - apply IH. apply Hs.
Qed.

(** One call of [add] at or after the end of the list: what is covered
    afterwards is what was covered before and the new range. *)
Lemma add_covers (rl : RangeList.t) (start size : Z) :
  separated (RangeList.items rl) -> 0 <= size ->
  (forall e, last_end rl = Some e -> e <= start) ->
  exists rl',
    RangeList.add rl start size = Ok rl' /\
    separated (RangeList.items rl') /\
    last_end rl' = Some (start + size) /\
    forall x, covers (RangeList.items rl') x <->
              covers (RangeList.items rl) x \/ start <= x < start + size.
Proof.
  intros Hs Hn Hle.
  destruct (add_step rl start size Hs Hn) as (Hshape & Hok).
  destruct Hok as (rl' & Ha & Hs' & He').
  { destruct (last_end rl); [apply Hle; reflexivity | exact I]. }
  exists rl'. split; [exact Ha|]. split; [exact Hs'|]. split; [exact He'|].
  unfold last_end in Hle.
  destruct (rev (RangeList.items rl)) as [|last before] eqn:E.
  - apply (f_equal (@rev _)) in E. rewrite rev_involutive in E. simpl in E.
    rewrite Ha in Hshape. injection Hshape as ->. rewrite E. simpl.
    intros x. rewrite covers_one. simpl. split; [auto|].
    intros [H|H]; [destruct (covers_nil _ H) | exact H].
  - apply (f_equal (@rev _)) in E. rewrite rev_involutive in E. simpl in E.
    specialize (Hle _ eq_refl).
    rewrite E in Hs. pose proof (separated_last_size _ _ Hs) as Hlast.
    destruct Hshape as (Heq & Hlt & _). unfold Range.end_ in *.
    destruct (Z.eq_dec (Range.start last + Range.size last) start) as [Hst|Hst].
    + rewrite (Heq Hst) in Ha. injection Ha as <-. rewrite E. simpl.
      intros x. rewrite !covers_app, !covers_one. simpl. intuition lia.
    + rewrite (Hlt ltac:(lia)) in Ha. injection Ha as <-. rewrite E. simpl.
      intros x. rewrite !covers_app, !covers_one. simpl. tauto.
Qed.

(** ** Sorted sectors *)

Lemma insert_sorted_perm {A : Type} (lt : A -> A -> bool) (x : A) (l : list A) :
  Permutation (insert_sorted lt x l) (x :: l).
Proof.
  induction l as [|y tl IH]; simpl; [apply Permutation_refl|].
  destruct (lt y x); [|apply Permutation_refl].
  eapply perm_trans; [apply perm_skip; exact IH | apply perm_swap].
Qed.

Lemma sort_perm {A : Type} (lt : A -> A -> bool) (l : list A) :
  Permutation (sort lt l) l.
Proof.
  induction l as [|x tl IH]; [apply Permutation_refl|].
  unfold sort in *. simpl.
  eapply perm_trans; [apply insert_sorted_perm | apply perm_skip; exact IH].
Qed.

Lemma insert_sorted_Z (x : Z) (l : list Z) :
  StronglySorted Z.le l -> StronglySorted Z.le (insert_sorted Z.ltb x l).
Proof.
  induction 1 as [|y tl Hs IH Hall]; simpl.
  - constructor; constructor.
  - destruct (Z.ltb_spec y x) as [Hlt|Hge].
    + constructor; [exact IH|].
      apply Forall_forall. intros z Hz.
      apply (Permutation_in _ (insert_sorted_perm Z.ltb x tl)) in Hz.
      destruct Hz as [<-|Hz]; [lia|]. rewrite Forall_forall in Hall. auto.
    + constructor; [constructor; assumption|].
      constructor; [exact Hge|].
      apply Forall_forall. intros z Hz. rewrite Forall_forall in Hall.
      specialize (Hall z Hz). lia.
Qed.

Lemma sort_sorted_Z (l : list Z) : StronglySorted Z.le (sort Z.ltb l).
Proof.
  induction l as [|x tl IH]; [constructor|].
  unfold sort in *. simpl. apply insert_sorted_Z. exact IH.
Qed.

Lemma add_all_error {X : Type} (start size : X -> Z) (x : X) (tl : list X)
  (rl : RangeList.t) (e : exn) :
  RangeList.add rl (start x) (size x) = Error e ->
  add_all start size (x :: tl) rl = Error e.
Proof. intros H. simpl. rewrite H. reflexivity. Qed.

(** Sectors in ascending order, added one by one after a list that ends
    at [prev + 1] or is empty. *)
Lemma add_sorted_sectors (s : list Z) :
  forall rl,
    StronglySorted Z.le s ->
    separated (RangeList.items rl) ->
    (forall e x, last_end rl = Some e -> In x s -> e - 1 <= x) ->
    ((forall e, last_end rl = Some e -> ~ In (e - 1) s) -> NoDup s ->
     exists rl',
       add_all (fun sector => sector) (fun _ => 1) s rl = Ok rl' /\
       separated (RangeList.items rl') /\
       forall x, covers (RangeList.items rl') x <-> covers (RangeList.items rl) x \/ In x s) /\
    (~ ((forall e, last_end rl = Some e -> ~ In (e - 1) s) /\ NoDup s) ->
     add_all (fun sector => sector) (fun _ => 1) s rl = Error AssertionError).
Proof.
  induction s as [|x tl IH]; intros rl Hsorted Hsep Hprev.
  - split.
    + intros _ _. exists rl. split; [reflexivity|]. split; [exact Hsep|].
      intros x. simpl. tauto.
    + intros Hn. exfalso. apply Hn. split; [intros e _ []|constructor].
  - inversion Hsorted as [|? ? Htl Hall]; subst.
    rewrite Forall_forall in Hall.
    assert (Hcase : (exists e, last_end rl = Some e) \/ last_end rl = None)
      by (destruct (last_end rl); eauto).
    destruct Hcase as [(e & Ee)|Ee].
    + destruct (Z.eq_dec (e - 1) x) as [Hdup|Hnew].
      * (* the sector is already the last one of the list *)
        split.
        -- intros Hfresh _. exfalso. apply (Hfresh e Ee). left. symmetry. exact Hdup.
        -- intros _. apply add_all_error.
           destruct (add_step rl x 1 Hsep ltac:(lia)) as (Hshape & _).
           unfold last_end in Ee.
           destruct (rev (RangeList.items rl)) as [|last before]; [discriminate|].
           injection Ee as Ee. apply Hshape. lia.
      * assert (Hle : e <= x) by (specialize (Hprev e x Ee (or_introl eq_refl)); lia).
        destruct (add_covers rl x 1 Hsep ltac:(lia)) as (rl1 & Ha & Hs1 & He1 & Hc1).
        { intros e' He'. rewrite Ee in He'. injection He' as <-. exact Hle. }
        destruct (IH rl1 Htl Hs1) as (IHok & IHerr).
        { intros e' y He' Hy. rewrite He1 in He'. injection He' as <-.
          specialize (Hall y Hy). lia. }
        split.
        -- intros _ Hnd. inversion Hnd as [|? ? Hnotin Hnd']; subst.
           destruct IHok as (rl' & Hr & Hs' & Hc'); [|exact Hnd'|].
           { intros e' He'. rewrite He1 in He'. injection He' as <-.
             replace (x + 1 - 1) with x by lia. exact Hnotin. }
           exists rl'. simpl. rewrite Ha. simpl. split; [exact Hr|]. split; [exact Hs'|].
           intros y. rewrite Hc', Hc1. simpl. intuition lia.
        -- intros Hn. simpl. rewrite Ha. simpl. apply IHerr.
           intros (Hfresh & Hnd'). apply Hn. split.
           ++ intros e' He' Hin. rewrite Ee in He'. injection He' as <-.
              destruct Hin as [Hx|Hin]; [lia|]. specialize (Hall _ Hin). lia.
           ++ constructor; [|exact Hnd'].
              specialize (Hfresh _ He1). replace (x + 1 - 1) with x in Hfresh by lia.
              exact Hfresh.
    + destruct (add_covers rl x 1 Hsep ltac:(lia)) as (rl1 & Ha & Hs1 & He1 & Hc1).
      { intros e' He'. rewrite Ee in He'. discriminate. }
      destruct (IH rl1 Htl Hs1) as (IHok & IHerr).
      { intros e' y He' Hy. rewrite He1 in He'. injection He' as <-.
        specialize (Hall y Hy). lia. }
      split.
      * intros _ Hnd. inversion Hnd as [|? ? Hnotin Hnd']; subst.
        destruct IHok as (rl' & Hr & Hs' & Hc'); [|exact Hnd'|].
        { intros e' He'. rewrite He1 in He'. injection He' as <-.
          replace (x + 1 - 1) with x by lia. exact Hnotin. }
        exists rl'. simpl. rewrite Ha. simpl. split; [exact Hr|]. split; [exact Hs'|].
        intros y. rewrite Hc', Hc1. simpl. intuition lia.
      * intros Hn. simpl. rewrite Ha. simpl. apply IHerr.
        intros (Hfresh & Hnd'). apply Hn. split.
        -- intros e' He'. rewrite Ee in He'. discriminate.
        -- constructor; [|exact Hnd'].
           specialize (Hfresh _ He1). replace (x + 1 - 1) with x in Hfresh by lia.
           exact Hfresh.
Qed.

Lemma sorted_sectors_spec (sectors : list Z) :
  (NoDup sectors ->
   exists rl,
     add_all (fun sector => sector) (fun _ => 1) (sort Z.ltb sectors) RangeList.empty = Ok rl /\
     separated (RangeList.items rl) /\
     forall x, covers (RangeList.items rl) x <-> In x sectors) /\
  (~ NoDup sectors ->
   add_all (fun sector => sector) (fun _ => 1) (sort Z.ltb sectors) RangeList.empty
   = Error AssertionError).
Proof.
  destruct (add_sorted_sectors (sort Z.ltb sectors) RangeList.empty
              (sort_sorted_Z sectors) I) as (Hok & Herr).
  { intros e x He. discriminate. }
  pose proof (sort_perm Z.ltb sectors) as Hp.
  split.
  - intros Hnd. destruct Hok as (rl & Ha & Hs & Hc).
    + intros e He. discriminate.
    + apply (Permutation_NoDup (Permutation_sym Hp)). exact Hnd.
    + exists rl. split; [exact Ha|]. split; [exact Hs|].
      intros x. rewrite Hc. split.
      * intros [H|H]; [destruct (covers_nil _ H)|]. apply (Permutation_in _ Hp). exact H.
      * intros H. right. apply (Permutation_in _ (Permutation_sym Hp)). exact H.
  - intros Hnd. apply Herr. intros (_ & H). apply Hnd.
    apply (Permutation_NoDup Hp). exact H.
Qed.

(** X7: the last phase of [findTree], and the sector phase of
    [findFolder]: the recorded sectors are sorted and added one by one.
    Without a sector recorded twice this gives ranges in order that cover
    exactly the recorded sectors; with one recorded twice, the second [add]
    fails its assertion. *)
Theorem sorted_sectors_to_ranges (sectors : list Z) :
  (NoDup sectors ->
   exists rl,
     add_all (fun sector => sector) (fun _ => 1) (sort Z.ltb sectors) RangeList.empty = Ok rl /\
     separated (RangeList.items rl) /\
     forall x, covers (RangeList.items rl) x <-> In x sectors) /\
  (~ NoDup sectors ->
   add_all (fun sector => sector) (fun _ => 1) (sort Z.ltb sectors) RangeList.empty
   = Error AssertionError).
Proof. apply sorted_sectors_spec. Qed.

Lemma sorted_sectors_to_ranges_witness :
  NoDup [136; 128; 137] /\
  add_all (fun sector => sector) (fun _ => 1) (sort Z.ltb [136; 128; 137]) RangeList.empty
  = Ok (RangeList.mk [Range.mk 128 1; Range.mk 136 2]) /\
  add_all (fun sector => sector) (fun _ => 1) (sort Z.ltb [136; 128; 136]) RangeList.empty
  = Error AssertionError.
Proof.
  assert (Hnd : NoDup [136; 128; 137]).
  { repeat constructor; simpl; intuition lia. }
  assert (Hd : ~ NoDup [136; 128; 136]).
  { intros H. inversion H as [|? ? Hn _]. apply Hn. simpl. auto. }
  split; [exact Hnd|]. split.
  - destruct (proj1 (sorted_sectors_to_ranges [136; 128; 137]) Hnd) as (rl & Ha & _).
    reflexivity.
  - exact (proj2 (sorted_sectors_to_ranges [136; 128; 136]) Hd).
Defined.

(** ** The free-space bitmap *)

Lemma zrange_cons (a b : Z) : a < b -> zrange a b = a :: zrange (a + 1) b.
Proof.
  intros H. unfold zrange.
  replace (Z.to_nat (b - a)) with (S (Z.to_nat (b - (a + 1)))) by lia.
  cbn [seq map]. f_equal; [lia|].
  rewrite <- seq_shift, map_map. apply map_ext. intros i. lia.
Qed.

Lemma zrange_nil (a b : Z) : b <= a -> zrange a b = [].
Proof. intros H. unfold zrange. replace (Z.to_nat (b - a)) with O by lia. reflexivity. Qed.

Lemma markUsed_bits_spec (b : byte) (base : Z) (n : nat) :
  forall lo rl,
    separated (RangeList.items rl) ->
    (forall e, last_end rl = Some e -> e <= base + lo) ->
    exists rl',
      markUsed_bits rl base b (zrange lo (lo + Z.of_nat n)) = Ok rl' /\
      separated (RangeList.items rl') /\
      (forall e, last_end rl' = Some e -> e <= base + lo + Z.of_nat n) /\
      forall x, covers (RangeList.items rl') x <->
                covers (RangeList.items rl) x \/
                (base + lo <= x < base + lo + Z.of_nat n /\
                 Z.testbit (byte.unsigned b) (x - base) = true).
Proof.
  induction n as [|n IH]; intros lo rl Hs He.
  - rewrite zrange_nil by lia. exists rl. split; [reflexivity|]. split; [exact Hs|].
    split; [intros e H; specialize (He e H); lia|]. intros x. intuition lia.
  - rewrite zrange_cons by lia. cbn [markUsed_bits].
    replace (lo + Z.of_nat (S n)) with (lo + 1 + Z.of_nat n) by lia.
    destruct (Z.testbit (byte.unsigned b) lo) eqn:Eb.
    + destruct (add_covers rl (base + lo) 1 Hs ltac:(lia) He) as (rl1 & Ha & Hs1 & He1 & Hc1).
      rewrite Ha. cbn [rbind].
      destruct (IH (lo + 1) rl1 Hs1) as (rl' & Hm & Hs' & He' & Hc').
      { intros e H. rewrite He1 in H. injection H as <-. lia. }
      exists rl'. split; [exact Hm|]. split; [exact Hs'|].
      split; [intros e H; specialize (He' e H); lia|].
      intros x. rewrite Hc', Hc1. split.
      * intros [[H|H]|[H1 H2]]; [left; exact H | right | right; split; [lia | exact H2]].
        replace (x - base) with lo by lia. split; [lia | exact Eb].
      * intros [H|[H1 H2]]; [left; left; exact H|].
        destruct (Z.eq_dec x (base + lo)); [left; right; lia | right; split; [lia | exact H2]].
    + destruct (IH (lo + 1) rl Hs) as (rl' & Hm & Hs' & He' & Hc').
      { intros e H. specialize (He e H). lia. }
      exists rl'. split; [exact Hm|]. split; [exact Hs'|].
      split; [intros e H; specialize (He' e H); lia|].
      intros x. rewrite Hc'. split.
      * intros [H|[H1 H2]]; [left; exact H | right; split; [lia | exact H2]].
      * intros [H|[H1 H2]]; [left; exact H|].
        destruct (Z.eq_dec x (base + lo)) as [->|Hne].
        -- replace (base + lo - base) with lo in H2 by lia. congruence.
        -- right. split; [lia | exact H2].
Qed.

Lemma markUsed_loop_spec (bitmap : bytes) :
  forall i rl pos,
    0 <= i ->
    separated (RangeList.items rl) ->
    (forall e, last_end rl = Some e -> e <= pos + i * 8) ->
    exists rl',
      markUsed_loop rl pos i bitmap = Ok rl' /\
      separated (RangeList.items rl') /\
      forall x, covers (RangeList.items rl') x <->
                covers (RangeList.items rl) x \/
                (pos + i * 8 <= x /\ bit_set bitmap (x - pos - i * 8)).
Proof.
  induction bitmap as [|b tl IH]; intros i rl pos Hi Hs He.
  - exists rl. split; [reflexivity|]. split; [exact Hs|].
    intros x. split; [auto|]. intros [H|(_ & _ & c & Hc & _)]; [exact H|].
    destruct (Z.to_nat _); discriminate.
  - cbn [markUsed_loop].
    change (zrange 0 8) with (zrange 0 (0 + Z.of_nat 8)).
    destruct (markUsed_bits_spec b (pos + i * 8) 8 0 rl Hs) as (rl1 & Hm & Hs1 & He1 & Hc1).
    { intros e H. specialize (He e H). lia. }
    rewrite Hm. cbn [rbind].
    destruct (IH (i + 1) rl1 pos ltac:(lia) Hs1) as (rl' & Hl & Hs' & Hc').
    { intros e H. specialize (He1 e H). lia. }
    exists rl'. split; [exact Hl|]. split; [exact Hs'|].
    intros x. rewrite Hc', Hc1. unfold bit_set.
    assert (Hdiv : forall k, 0 <= k < 8 -> k / 8 = 0 /\ k mod 8 = k).
    { intros k Hk. split; [apply Z.div_small | apply Z.mod_small]; lia. }
    assert (Hshift : forall k, 8 <= k -> Z.to_nat (k / 8) = S (Z.to_nat ((k - 8) / 8)) /\
                                          k mod 8 = (k - 8) mod 8).
    { intros k Hk. replace k with ((k - 8) + 1 * 8) at 1 3 by lia.
      rewrite Z.div_add, Z.mod_add by lia.
      split; [|reflexivity].
      assert (0 <= (k - 8) / 8) by (apply Z.div_pos; lia). lia. }
    split.
    + intros [[H|(H1 & H2)]|(H1 & H2 & c & Hc & Hbit)].
      * left. exact H.
      * right. split; [lia|]. split; [lia|]. exists b.
        destruct (Hdiv (x - pos - i * 8) ltac:(lia)) as (Ed & Em).
        rewrite Ed, Em. split; [reflexivity|].
        replace (x - pos - i * 8) with (x - (pos + i * 8)) by lia. exact H2.
      * right. split; [lia|]. split; [lia|]. exists c.
        destruct (Hshift (x - pos - i * 8) ltac:(lia)) as (Ed & Em).
        rewrite Ed, Em. cbn [nth_error].
        replace (x - pos - i * 8 - 8) with (x - pos - (i + 1) * 8) by lia.
        split; assumption.
    + intros [H|(H1 & H2 & c & Hc & Hbit)]; [left; left; exact H|].
      destruct (Z.lt_ge_cases (x - pos - i * 8) 8) as [Hlow|Hhigh].
      * left. right. split; [lia|].
        destruct (Hdiv (x - pos - i * 8) ltac:(lia)) as (Ed & Em).
        rewrite Ed, Em in *. simpl in Hc. injection Hc as <-.
        replace (x - (pos + i * 8)) with (x - pos - i * 8) by lia. exact Hbit.
      * right. split; [lia|]. split; [lia|]. exists c.
        destruct (Hshift (x - pos - i * 8) Hhigh) as (Ed & Em).
        rewrite Ed, Em in *. cbn [nth_error] in Hc.
        replace (x - pos - (i + 1) * 8) with (x - pos - i * 8 - 8) by lia.
        split; assumption.
Qed.

(** X8: after a list that ends at or before [pos], [markUsed] never fails
    its assertion and adds exactly the blocks whose bit is set: block
    [pos + k] for every set bit [k] of the bitmap, least significant bit
    first within each byte. *)
Theorem markUsed_marks_set_bits (rangelist : RangeList.t) (pos : Z) (bitmap : bytes) :
  separated (RangeList.items rangelist) ->
  (forall e, last_end rangelist = Some e -> e <= pos) ->
  exists rl,
    markUsed rangelist pos bitmap = Ok rl /\
    separated (RangeList.items rl) /\
    forall x, covers (RangeList.items rl) x <->
              covers (RangeList.items rangelist) x \/ bit_set bitmap (x - pos).
Proof.
  intros Hs He. unfold markUsed.
  destruct (markUsed_loop_spec bitmap 0 rangelist pos ltac:(lia) Hs) as (rl & Hm & Hs' & Hc).
  { intros e H. specialize (He e H). lia. }
  exists rl. split; [exact Hm|]. split; [exact Hs'|].
  intros x. rewrite Hc. replace (x - pos - 0 * 8) with (x - pos) by lia.
  unfold bit_set. intuition lia.
Qed.

Lemma markUsed_marks_set_bits_witness :
  exists rl,
    markUsed RangeList.empty 32768 [Byte.x07; Byte.x81] = Ok rl /\
    RangeList.items rl = [Range.mk 32768 3; Range.mk 32776 1; Range.mk 32783 1].
Proof.
  destruct (markUsed_marks_set_bits RangeList.empty 32768 [Byte.x07; Byte.x81] I)
    as (rl & Hm & _).
  { intros e H. discriminate. }
  exists rl. split; [exact Hm|].
  vm_compute in Hm. injection Hm as <-. reflexivity.
Defined.

(** ** The printed map *)

Lemma print_stdout_Ret (l : list token) (w : World) :
  print_stdout l w = Ret tt (mkWorld (fs w) (readNode_cache w) (stdout w ++ [Print l]) (stderr w)).
Proof. reflexivity. Qed.

Lemma print_rangelist_loop_spec (partition_start mult : Z) (items : list Range.t) :
  forall end_ w,
  exists lines,
    print_rangelist_loop partition_start mult end_ items w =
    Ret tt (mkWorld (fs w) (readNode_cache w) (stdout w ++ lines) (stderr w)) /\
    chained (partition_start + end_ * mult) lines
            (partition_start + list_end end_ items * mult) /\
    filter is_plus lines = map (plus_line partition_start mult) items.
Proof.
  induction items as [|item tl IH]; intros end_ w.
  - exists []. simpl. rewrite app_nil_r. split; [destruct w; reflexivity|].
    split; reflexivity.
  - cbn [print_rangelist_loop].
    destruct (Z.eqb_spec end_ (Range.start item)) as [Heq|Hne]; cbn [negb].
    + set (w1 := mkWorld (fs w) (readNode_cache w)
                   (stdout w ++ [plus_line partition_start mult item]) (stderr w)).
      destruct (IH (Range.start item + Range.size item) w1) as (lines & Hr & Hc & Hf).
      exists (plus_line partition_start mult item :: lines).
      split; [|split].
      * unfold bind, ret. rewrite print_stdout_Ret. fold (plus_line partition_start mult item).
        fold w1. rewrite Hr. unfold w1. simpl. rewrite <- app_assoc. reflexivity.
      * simpl. split; [subst; reflexivity|].
        replace (partition_start + Range.start item * mult + Range.size item * mult)
          with (partition_start + (Range.start item + Range.size item) * mult) by lia.
        exact Hc.
      * simpl. rewrite Hf. reflexivity.
    + set (minus := Print [TInt (partition_start + end_ * mult);
                           TInt ((Range.start item - end_) * mult); TStr "-"]).
      set (w1 := mkWorld (fs w) (readNode_cache w)
                   ((stdout w ++ [minus]) ++ [plus_line partition_start mult item]) (stderr w)).
      destruct (IH (Range.start item + Range.size item) w1) as (lines & Hr & Hc & Hf).
      exists (minus :: plus_line partition_start mult item :: lines).
      split; [|split].
      * unfold bind. rewrite print_stdout_Ret. fold minus.
        rewrite print_stdout_Ret. cbn [fs readNode_cache stdout stderr].
        fold (plus_line partition_start mult item). fold w1. rewrite Hr.
        unfold w1. simpl. rewrite <- !app_assoc. reflexivity.
      * simpl. split; [reflexivity|]. split; [lia|].
        replace (partition_start + Range.start item * mult + Range.size item * mult)
          with (partition_start + (Range.start item + Range.size item) * mult) by lia.
        exact Hc.
      * simpl. rewrite Hf. reflexivity.
Qed.

(** What [print_rangelist] prints, and the state it leaves. *)
Lemma print_rangelist_spec (rangelist : RangeList.t) (mult : Z) (w : World) :
  exists lines,
    print_rangelist rangelist mult w =
    Ret tt (mkWorld (fs w) (readNode_cache w)
              (stdout w ++ Print [TInt 0; TStr "*"; TInt 1] :: lines) (stderr w)) /\
    chained 0 lines
      (ReiserFs.partition_start (fs w) + list_end 0 (RangeList.items rangelist) * mult) /\
    filter is_plus lines =
    map (plus_line (ReiserFs.partition_start (fs w)) mult) (RangeList.items rangelist).
Proof.
  set (P := ReiserFs.partition_start (fs w)).
  set (first := Print [TInt 0; TInt P; TStr "-"]).
  set (w1 := mkWorld (fs w) (readNode_cache w)
               ((stdout w ++ [Print [TInt 0; TStr "*"; TInt 1]]) ++ [first]) (stderr w)).
  destruct (print_rangelist_loop_spec P mult (RangeList.items rangelist) 0 w1)
    as (lines & Hr & Hc & Hf).
  exists (first :: lines). split; [|split].
  - unfold print_rangelist, bind, get_fs. rewrite print_stdout_Ret.
    rewrite print_stdout_Ret. cbn [fs readNode_cache stdout stderr].
    fold P. fold first. fold w1. rewrite Hr. unfold w1. simpl.
    rewrite <- !app_assoc. reflexivity.
  - simpl. split; [reflexivity|]. replace (P + 0 * mult) with P in Hc by lia. exact Hc.
  - simpl. exact Hf.
Qed.

(** X9: [print_rangelist] always prints a map without gaps: after the
    header line the records follow one another from position 0 to the end
    of the last range, and the records tagged [+] are exactly the ranges,
    scaled by [mult] and shifted by the partition start.  Nothing else of
    the state changes. *)
Theorem print_rangelist_gap_free (rangelist : RangeList.t) (mult : Z) (w : World) :
  exists lines,
    print_rangelist rangelist mult w =
    Ret tt (mkWorld (fs w) (readNode_cache w)
              (stdout w ++ Print [TInt 0; TStr "*"; TInt 1] :: lines) (stderr w)) /\
    chained 0 lines
      (ReiserFs.partition_start (fs w) + list_end 0 (RangeList.items rangelist) * mult) /\
    filter is_plus lines =
    map (plus_line (ReiserFs.partition_start (fs w)) mult) (RangeList.items rangelist).
Proof. exact (print_rangelist_spec rangelist mult w). Qed.

(** ** Growing the rescued areas *)

Lemma iter_new (ranges : list RescueMap.entry) :
  RescueMap.iter (RescueMap.new ranges) = ranges.
Proof.
  unfold RescueMap.iter, RescueMap.new. simpl.
  induction ranges as [|[[s n] v] tl IH]; simpl; [reflexivity|].
  rewrite IH, Z.sub_0_r. reflexivity.
Qed.

Lemma size_total_end (ranges : list RescueMap.entry) (offset : Z) :
  ranges <> [] ->
  RescueMap.size (RescueMap.mk ranges offset) = Ok (RescueMap.total_end ranges).
Proof.
  intros Hne. destruct (exists_last Hne) as (l' & [[s n] v] & ->).
  unfold RescueMap.size. simpl. rewrite rev_app_distr. simpl.
  rewrite total_end_last. reflexivity.
Qed.

Lemma status_eqb_finished (v : Status) : Status.eqb v FINISHED = true <-> v = FINISHED.
Proof. destruct v; simpl; split; congruence. Qed.

Lemma main_loop_spec (mapSize : Z) (entries : list RescueMap.entry) :
  forall s0 last rl,
    RescueMap.contiguous_from s0 entries ->
    (forall e, In e entries -> estart e + esize e <= mapSize) ->
    separated (RangeList.items rl) ->
    0 <= last -> last <= mapSize -> last <= s0 + 512 ->
    (forall e, last_end rl = Some e -> e <= last) ->
    exists rl',
      DdrescuelogProcessor.main_loop mapSize last entries rl = Ok rl' /\
      separated (RangeList.items rl') /\
      forall x, covers (RangeList.items rl') x <->
                covers (RangeList.items rl) x \/
                (last <= x < mapSize /\
                 exists s n, In (s, n, FINISHED) entries /\ grown s n x).
Proof.
  induction entries as [|[[s n] v] tl IH]; intros s0 last rl Hc Hin Hs H0 Hm Hl He.
  - exists rl. split; [reflexivity|]. split; [exact Hs|].
    intros x. split; [auto|]. intros [H|(_ & s & n & [] & _)]. exact H.
  - simpl in Hc. destruct Hc as (-> & Hn & Hc).
    pose proof (Hin _ (or_introl eq_refl)) as Hend. unfold estart, esize in Hend. simpl in Hend.
    assert (Hin' : forall e, In e tl -> estart e + esize e <= mapSize)
      by (intros e H; apply Hin; right; exact H).
    cbn [DdrescuelogProcessor.main_loop].
    destruct (Status.eqb v FINISHED) eqn:Ev; cbn [negb].
    + apply status_eqb_finished in Ev. subst v.
      unfold DdrescuelogProcessor.expandAmount. change (512 * 1) with 512.
      set (b := Z.min mapSize (s0 + n + 512)).
      set (a := Z.max last (s0 - 512)).
      destruct (add_covers rl a (b - a) Hs ltac:(lia)) as (rl1 & Ha & Hs1 & He1 & Hc1).
      { intros e H. specialize (He e H). lia. }
      rewrite Ha. cbn [rbind].
      destruct (IH (s0 + n) b rl1 Hc Hin' Hs1 ltac:(lia) ltac:(lia) ltac:(lia))
        as (rl' & Hr & Hs' & Hc').
      { intros e H. rewrite He1 in H. injection H as <-. lia. }
      exists rl'. split; [exact Hr|]. split; [exact Hs'|].
      intros x. rewrite Hc', Hc1. unfold grown. split.
      * intros [[H|H]|(H1 & s & m & Hi & Hg)].
        -- left. exact H.
        -- right. split; [lia|]. exists s0, n. split; [left; reflexivity | lia].
        -- right. split; [lia|]. exists s, m. split; [right; exact Hi | exact Hg].
      * intros [H|(H1 & s & m & [Hi|Hi] & Hg)].
        -- left. left. exact H.
        -- injection Hi as <- <-. left. right. lia.
        -- destruct (Z.lt_ge_cases x b) as [Hlt|Hge].
           ++ left. right.
              destruct (In_nth_error _ _ Hi) as (j & Hj).
              destruct (contiguous_nth_lower _ _ _ _ Hc Hj) as (Hlow & _).
              unfold estart in Hlow. simpl in Hlow. lia.
           ++ right. split; [lia|]. exists s, m. split; assumption.
    + destruct (IH (s0 + n) last rl Hc Hin' Hs H0 Hm ltac:(lia) He) as (rl' & Hr & Hs' & Hc').
      exists rl'. split; [exact Hr|]. split; [exact Hs'|].
      intros x. rewrite Hc'. split.
      * intros [H|(H1 & s & m & Hi & Hg)]; [left; exact H|].
        right. split; [exact H1|]. exists s, m. split; [right; exact Hi | exact Hg].
      * intros [H|(H1 & s & m & [Hi|Hi] & Hg)]; [left; exact H| |].
        -- assert (Hv : v = FINISHED) by congruence. rewrite Hv in Ev. discriminate.
        -- right. split; [exact H1|]. exists s, m. split; assumption.
Qed.

Lemma processor_print_rangelist_loop_spec (items : list Range.t) :
  forall end_,
    chained end_ (DdrescuelogProcessor.print_rangelist_loop end_ items) (list_end end_ items) /\
    filter is_plus (DdrescuelogProcessor.print_rangelist_loop end_ items) =
    map processor_plus_line items.
Proof.
  induction items as [|item tl IH]; intros end_; [split; reflexivity|].
  cbn [DdrescuelogProcessor.print_rangelist_loop].
  destruct (IH (Range.start item + Range.size item)) as (Hc & Hf).
  destruct (Z.eqb_spec end_ (Range.start item)) as [Heq|Hne]; cbn [negb app].
  - split; [simpl; split; [auto | exact Hc] | simpl; rewrite Hf; reflexivity].
  - split.
    + simpl. split; [reflexivity|]. split; [lia | exact Hc].
    + simpl. rewrite Hf. reflexivity.
Qed.

(** X10: on a map without gaps that starts at or after 0, the processor
    never fails: it prints a map without gaps whose [+] records are ranges
    in order, and these ranges cover exactly the positions of the map that
    lie within 512 bytes of a finished entry. *)
Theorem processor_main_grows_finished (ranges : list RescueMap.entry) :
  RescueMap.well_formed (RescueMap.new ranges) -> ranges <> [] ->
  0 <= RescueMap.first_start ranges ->
  exists rl lines,
    DdrescuelogProcessor.main (RescueMap.new ranges)
    = Ok (Print [TInt 0; TStr "*"; TInt 1] :: lines) /\
    chained 0 lines (list_end 0 (RangeList.items rl)) /\
    filter is_plus lines = map processor_plus_line (RangeList.items rl) /\
    separated (RangeList.items rl) /\
    forall x, covers (RangeList.items rl) x <->
              0 <= x < RescueMap.total_end ranges /\
              exists s n, In (s, n, FINISHED) ranges /\ s - 512 <= x < s + n + 512.
Proof.
  intros Hwf Hne H0. unfold RescueMap.well_formed in Hwf. simpl in Hwf.
  unfold DdrescuelogProcessor.main. unfold RescueMap.new.
  rewrite size_total_end by exact Hne. cbn [rbind].
  fold (RescueMap.new ranges). rewrite iter_new.
  destruct (main_loop_spec (RescueMap.total_end ranges) ranges
              (RescueMap.first_start ranges) 0 RangeList.empty Hwf) as (rl & Hr & Hs & Hc).
  - intros e Hin. destruct (In_nth_error _ _ Hin) as (j & Hj).
    exact (contiguous_end_bound _ _ _ _ Hwf Hj).
  - exact I.
  - lia.
  - destruct (exists_last Hne) as (l' & z & E). rewrite E in *. rewrite total_end_last.
    destruct (contiguous_nth_lower _ _ _ _ Hwf (nth_error_last_app l' z)). lia.
  - lia.
  - intros e H. discriminate.
  - rewrite Hr. cbn [rbind]. unfold DdrescuelogProcessor.print_rangelist.
    exists rl, (DdrescuelogProcessor.print_rangelist_loop 0 (RangeList.items rl)).
    destruct (processor_print_rangelist_loop_spec (RangeList.items rl) 0) as (Hch & Hf).
    split; [reflexivity|]. split; [exact Hch|]. split; [exact Hf|]. split; [exact Hs|].
    intros x. rewrite Hc. unfold grown. split.
    + intros [H|H]; [destruct (covers_nil _ H) | exact H].
    + intros H. right. exact H.
Qed.

Lemma processor_main_grows_finished_witness :
  RescueMap.well_formed (RescueMap.new patchy_map) /\
  DdrescuelogProcessor.main (RescueMap.new patchy_map)
  = Ok [Print [TInt 0; TStr "*"; TInt 1];
        Print [TInt 0; TInt 4608; TStr "+"];
        Print [TInt 4608; TInt 3072; TStr "-"];
        Print [TInt 7680; TInt 1536; TStr "+"]].
Proof.
  assert (Hwf : RescueMap.well_formed (RescueMap.new patchy_map)).
  { unfold RescueMap.well_formed, patchy_map. simpl. repeat split; lia. }
  split; [exact Hwf|].
  destruct (processor_main_grows_finished patchy_map Hwf) as (rl & lines & Hm & _).
  - discriminate.
  - simpl. lia.
  - reflexivity.
Defined.


(** ** Iterating over a map and looking positions up *)

Lemma in_iter (m : RescueMap.t) (s n : Z) (v : Status) :
  In (s, n, v) (RescueMap.iter m) ->
  exists j, nth_error (RescueMap._ranges m) j = Some (s + RescueMap.offset m, n, v).
Proof.
  unfold RescueMap.iter. intros Hin. apply in_map_iff in Hin.
  destruct Hin as ([[s' n'] v'] & E & Hin). injection E as <- <- <-.
  destruct (In_nth_error _ _ Hin) as (j & Hj). exists j.
  replace (s' - RescueMap.offset m + RescueMap.offset m) with s' by lia. exact Hj.
Qed.

(** X11: the positions [__iter__] hands out are positions [__getitem__]
    understands: on a map without gaps, every position inside an entry
    yielded by the iteration looks up to the status of that entry, whatever
    the offset of the map. *)
Theorem iter_entries_look_up (m : RescueMap.t) (s n : Z) (v : Status) :
  RescueMap.well_formed m ->
  In (s, n, v) (RescueMap.iter m) ->
  forall pos, s <= pos < s + n -> RescueMap.getitem m pos = Ok v.
Proof.
  intros Hwf Hin pos Hpos. destruct (in_iter _ _ _ _ Hin) as (j & Hj).
  destruct (getitem_covered m pos j _ Hwf Hj) as (Hg & _).
  - unfold estart, esize. simpl. lia.
  - exact Hg.
Qed.

Lemma iter_entries_look_up_witness :
  RescueMap.getitem (RescueMap.mk [(4096, 65536, FINISHED); (69632, 512, BAD)] 4096) 65536
  = Ok BAD.
Proof.
  apply (iter_entries_look_up (RescueMap.mk [(4096, 65536, FINISHED); (69632, 512, BAD)] 4096)
           65536 512 BAD).
  - unfold RescueMap.well_formed. simpl. repeat split; lia.
  - simpl. right. left. reflexivity.
  - lia.
Defined.

(** ** The status picture *)

Lemma lor_byte_range (a b : Z) : 0 <= a < 256 -> 0 <= b < 256 -> 0 <= Z.lor a b < 256.
Proof.
  intros Ha Hb. split; [apply Z.lor_nonneg; lia|].
  destruct (Z.eq_dec (Z.lor a b) 0) as [->|Hne]; [lia|].
  change 256 with (2 ^ 8). apply Z.log2_lt_pow2.
  - assert (0 <= Z.lor a b) by (apply Z.lor_nonneg; lia). lia.
  - rewrite Z.log2_lor by lia.
    assert (La : Z.log2 a < 8).
    { destruct (Z.eq_dec a 0) as [->|]; [simpl; lia|]. apply Z.log2_lt_pow2; simpl; lia. }
    assert (Lb : Z.log2 b < 8).
    { destruct (Z.eq_dec b 0) as [->|]; [simpl; lia|]. apply Z.log2_lt_pow2; simpl; lia. }
    lia.
Qed.

Lemma nth_update {A : Type} (d x : A) (l : list A) (i p : nat) :
  (i < List.length l)%nat ->
  nth p (firstn i l ++ x :: skipn (S i) l) d = if (p =? i)%nat then x else nth p l d.
Proof.
  intros Hi.
  assert (Lf : List.length (firstn i l) = i) by (rewrite length_firstn; lia).
  destruct (Nat.eqb_spec p i) as [->|Hne].
  - rewrite app_nth2 by lia. rewrite Lf, Nat.sub_diag. reflexivity.
  - destruct (Nat.lt_ge_cases p i) as [Hlt|Hge].
    + rewrite app_nth1 by lia. rewrite nth_firstn.
      replace (p <? i)%nat with true by (symmetry; apply Nat.ltb_lt; lia). reflexivity.
    + rewrite app_nth2 by lia. rewrite Lf.
      destruct (p - i)%nat as [|k] eqn:Ek; [lia|]. cbn [nth].
      rewrite nth_skipn. f_equal. lia.
Qed.

Lemma pixel_range (arr : bytes) (p : Z) : 0 <= pixel arr p < 256.
Proof. unfold pixel. apply byte.unsigned_range. Qed.

Lemma bytearray_or_spec (arr : bytes) (i bits : Z) :
  0 <= i < blen arr -> 0 <= bits < 256 ->
  exists arr',
    bytearray_or arr i bits = Ok arr' /\ blen arr' = blen arr /\
    forall p, 0 <= p ->
      pixel arr' p = if p =? i then Z.lor (pixel arr i) bits else pixel arr p.
Proof.
  intros Hi Hb. unfold bytearray_or.
  replace (i <? 0) with false by (symmetry; apply Z.ltb_ge; lia).
  replace (i <? 0) with false by (symmetry; apply Z.ltb_ge; lia).
  replace (blen arr <=? i) with false by (symmetry; apply Z.leb_gt; lia).
  cbn [orb]. unfold blen in *.
  destruct (nth_error arr (Z.to_nat i)) as [c|] eqn:Ec.
  2:{ apply nth_error_None in Ec. lia. }
  assert (Hc : pixel arr i = byte.unsigned c).
  { unfold pixel. rewrite (nth_error_nth _ _ _ Ec). reflexivity. }
  pose proof (lor_byte_range _ _ (byte.unsigned_range c) Hb) as Hv.
  replace (0 <=? Z.lor (byte.unsigned c) bits) with true by (symmetry; apply Z.leb_le; lia).
  replace (Z.lor (byte.unsigned c) bits <? 256) with true by (symmetry; apply Z.ltb_lt; lia).
  cbn [andb]. eexists. split; [reflexivity|]. split.
  - rewrite length_app. cbn [List.length]. rewrite length_firstn, length_skipn. lia.
  - intros p Hp. unfold pixel at 1. rewrite nth_update by lia.
    destruct (Z.eqb_spec p i) as [->|Hne].
    + rewrite Nat.eqb_refl. rewrite byte.unsigned_of_Z. unfold byte.wrap.
      rewrite Z.mod_small by (simpl; lia). rewrite Hc. reflexivity.
    + replace (Z.to_nat p =? Z.to_nat i)%nat with false
        by (symmetry; apply Nat.eqb_neq; lia).
      reflexivity.
Qed.

Lemma compute_bitmap_pixels_spec (start_off bits : Z) (n : nat) :
  forall a arr,
    0 <= start_off + a -> start_off + a + Z.of_nat n <= blen arr -> 0 <= bits < 256 ->
    exists arr',
      compute_bitmap_pixels arr start_off bits (zrange a (a + Z.of_nat n)) = Ok arr' /\
      blen arr' = blen arr /\
      forall p, 0 <= p ->
        pixel arr' p =
        if (start_off + a <=? p) && (p <? start_off + a + Z.of_nat n)
        then Z.lor (pixel arr p) bits else pixel arr p.
Proof.
  induction n as [|n IH]; intros a arr Ha Hlen Hb.
  - rewrite zrange_nil by lia. exists arr. split; [reflexivity|]. split; [reflexivity|].
    intros p Hp.
    destruct (Z.leb_spec (start_off + a) p), (Z.ltb_spec p (start_off + a + Z.of_nat 0));
      simpl; try reflexivity; lia.
  - rewrite zrange_cons by lia. cbn [compute_bitmap_pixels].
    destruct (bytearray_or_spec arr (start_off + a) bits ltac:(lia) Hb) as (arr1 & H1 & L1 & P1).
    rewrite H1. cbn [rbind].
    replace (a + Z.of_nat (S n)) with (a + 1 + Z.of_nat n) by lia.
    destruct (IH (a + 1) arr1 ltac:(lia) ltac:(lia) Hb) as (arr' & H2 & L2 & P2).
    exists arr'. split; [exact H2|]. split; [lia|].
    intros p Hp. rewrite (P2 p Hp), (P1 p Hp).
    destruct (Z.eqb_spec p (start_off + a)) as [->|Hne].
    + replace (start_off + (a + 1) <=? start_off + a) with false
        by (symmetry; apply Z.leb_gt; lia).
      replace (start_off + a <=? start_off + a) with true by (symmetry; apply Z.leb_le; lia).
      replace (start_off + a <? start_off + a + Z.of_nat (S n)) with true
        by (symmetry; apply Z.ltb_lt; lia).
      reflexivity.
    + destruct (Z.leb_spec (start_off + (a + 1)) p), (Z.leb_spec (start_off + a) p),
        (Z.ltb_spec p (start_off + (a + 1) + Z.of_nat n)),
        (Z.ltb_spec p (start_off + a + Z.of_nat (S n))); simpl; try reflexivity; lia.
Qed.

Lemma touches_div (bpp s n p : Z) :
  0 < bpp -> 0 < n ->
  (s / bpp <= p <= (s + n - 1) / bpp <-> touches bpp s n p).
Proof.
  intros Hb Hn. unfold touches.
  pose proof (Z.div_mod s bpp ltac:(lia)) as E1.
  pose proof (Z.mod_pos_bound s bpp Hb) as B1.
  pose proof (Z.div_mod (s + n - 1) bpp ltac:(lia)) as E2.
  pose proof (Z.mod_pos_bound (s + n - 1) bpp Hb) as B2.
  split; intros H; nia.
Qed.

Lemma testbit_lor_true (a b k : Z) :
  Z.testbit (Z.lor a b) k = true <-> Z.testbit a k = true \/ Z.testbit b k = true.
Proof. rewrite Z.lor_spec. apply orb_true_iff. Qed.

Lemma compute_bitmap_loop_spec (bpp : Z) (entries : list RescueMap.entry) :
  forall arr,
    0 < bpp ->
    (forall s n v, In (s, n, v) entries -> 0 <= s /\ 0 < n /\ (s + n - 1) / bpp < blen arr) ->
    exists arr',
      compute_bitmap_loop arr bpp entries = Ok arr' /\
      blen arr' = blen arr /\
      forall p k, 0 <= p ->
        (Z.testbit (pixel arr' p) k = true <->
         Z.testbit (pixel arr p) k = true \/
         exists s n v, In (s, n, v) entries /\
                       Z.testbit (statusToBits v) k = true /\ touches bpp s n p).
Proof.
  induction entries as [|[[s n] v] tl IH]; intros arr Hb Hin.
  - exists arr. split; [reflexivity|]. split; [reflexivity|].
    intros p k Hp. split; [auto|]. intros [H|(s & n & v & [] & _)]. exact H.
  - destruct (Hin s n v (or_introl eq_refl)) as (Hs & Hn & Hend).
    cbn [compute_bitmap_loop]. unfold floordiv, pymod.
    replace (bpp =? 0) with false by (symmetry; apply Z.eqb_neq; lia).
    cbn [rbind].
    set (last := (s mod bpp + n - 1) / bpp).
    assert (Hlast : s / bpp + last = (s + n - 1) / bpp).
    { unfold last. rewrite <- Z.div_add_l by lia. f_equal.
      pose proof (Z.div_mod s bpp ltac:(lia)). lia. }
    assert (Hl0 : 0 <= last).
    { unfold last. apply Z.div_pos; [|lia].
      pose proof (Z.mod_pos_bound s bpp Hb). lia. }
    assert (Hs0 : 0 <= s / bpp) by (apply Z.div_pos; lia).
    assert (Hbits : 0 <= statusToBits v < 256) by (destruct v; simpl; lia).
    replace (last + 1) with (0 + Z.of_nat (Z.to_nat (last + 1))) by lia.
    destruct (compute_bitmap_pixels_spec (s / bpp) (statusToBits v) (Z.to_nat (last + 1)) 0 arr
                ltac:(lia) ltac:(lia) Hbits) as (arr1 & H1 & L1 & P1).
    rewrite H1. cbn [rbind].
    destruct (IH arr1 Hb) as (arr' & H2 & L2 & P2).
    { intros s' n' v' Hi. rewrite L1. apply (Hin s' n' v'). right. exact Hi. }
    exists arr'. split; [exact H2|]. split; [lia|].
    intros p k Hp. rewrite (P2 p k Hp), (P1 p Hp).
    assert (Hrange : (s / bpp + 0 <=? p) && (p <? s / bpp + 0 + Z.of_nat (Z.to_nat (last + 1)))
                     = true <-> touches bpp s n p).
    { rewrite <- touches_div by lia. rewrite andb_true_iff, Z.leb_le, Z.ltb_lt. lia. }
    destruct ((s / bpp + 0 <=? p) && (p <? s / bpp + 0 + Z.of_nat (Z.to_nat (last + 1)))) eqn:Er.
    + rewrite testbit_lor_true. split.
      * intros [[H|H]|(s' & n' & v' & Hi & Hbit & Ht)].
        -- left. exact H.
        -- right. exists s, n, v. split; [left; reflexivity|]. split; [exact H|].
           apply Hrange. reflexivity.
        -- right. exists s', n', v'. split; [right; exact Hi|]. split; assumption.
      * intros [H|(s' & n' & v' & [Hi|Hi] & Hbit & Ht)].
        -- left. left. exact H.
        -- injection Hi as <- <- <-. left. right. exact Hbit.
        -- right. exists s', n', v'. split; [exact Hi|]. split; assumption.
    + split.
      * intros [H|(s' & n' & v' & Hi & Hbit & Ht)]; [left; exact H|].
        right. exists s', n', v'. split; [right; exact Hi|]. split; assumption.
      * intros [H|(s' & n' & v' & [Hi|Hi] & Hbit & Ht)]; [left; exact H| |].
        -- injection Hi as <- <- <-. apply Hrange in Ht. discriminate.
        -- right. exists s', n', v'. split; [exact Hi|]. split; assumption.
Qed.

Lemma pixel_zeros (n p : Z) : pixel (zeros n) p = 0.
Proof.
  unfold pixel, zeros.
  destruct (Nat.lt_ge_cases (Z.to_nat p) (Z.to_nat n)) as [Hlt|Hge].
  - rewrite nth_repeat_lt by exact Hlt. reflexivity.
  - rewrite nth_overflow by (rewrite repeat_length; lia). reflexivity.
Qed.

(** X12: on a map without gaps, whose offset lies between 0 and its first
    start, [compute_bitmap] succeeds for every positive pixel size.  The
    picture has one pixel per [bytes_per_pixel] bytes up to the end of the
    map, and a bit is set in a pixel exactly when an entry whose status
    carries that bit overlaps the bytes of the pixel. *)
Theorem compute_bitmap_marks_overlaps (rescue_map : RescueMap.t) (bytes_per_pixel : Z) :
  RescueMap.well_formed rescue_map ->
  RescueMap._ranges rescue_map <> [] ->
  0 <= RescueMap.offset rescue_map <= RescueMap.first_start (RescueMap._ranges rescue_map) ->
  0 < bytes_per_pixel ->
  exists arr,
    compute_bitmap rescue_map bytes_per_pixel = Ok arr /\
    blen arr = RescueMap.total_end (RescueMap._ranges rescue_map) / bytes_per_pixel + 1 /\
    forall p k, 0 <= p ->
      (Z.testbit (pixel arr p) k = true <->
       exists s n v,
         In (s, n, v) (RescueMap.iter rescue_map) /\
         Z.testbit (statusToBits v) k = true /\
         s < (p + 1) * bytes_per_pixel /\ p * bytes_per_pixel < s + n).
Proof.
  intros Hwf Hne Hoff Hb. destruct rescue_map as [ranges offset]. simpl in *.
  unfold RescueMap.well_formed in Hwf. simpl in Hwf.
  unfold compute_bitmap. rewrite size_total_end by exact Hne. cbn [rbind].
  unfold floordiv. replace (bytes_per_pixel =? 0) with false by (symmetry; apply Z.eqb_neq; lia).
  cbn [rbind].
  set (total := RescueMap.total_end ranges).
  assert (Htotal : RescueMap.first_start ranges < total).
  { destruct (exists_last Hne) as (l' & z & E). unfold total. rewrite E in *.
    rewrite total_end_last.
    destruct (contiguous_nth_lower _ _ _ _ Hwf (nth_error_last_app l' z)). lia. }
  assert (Hq : 0 <= total / bytes_per_pixel) by (apply Z.div_pos; lia).
  replace (total / bytes_per_pixel + 1 <? 0) with false by (symmetry; apply Z.ltb_ge; lia).
  destruct (compute_bitmap_loop_spec bytes_per_pixel
              (RescueMap.iter (RescueMap.mk ranges offset))
              (zeros (total / bytes_per_pixel + 1)) Hb) as (arr & Hr & Hl & Hp).
  - intros s n v Hin. destruct (in_iter _ _ _ _ Hin) as (j & Hj). simpl in Hj.
    destruct (contiguous_nth_lower _ _ _ _ Hwf Hj) as (Hlow & Hpos).
    pose proof (contiguous_end_bound _ _ _ _ Hwf Hj) as Hend.
    unfold estart, esize in *. simpl in *. fold total in Hend.
    split; [lia|]. split; [lia|].
    rewrite blen_zeros by lia.
    assert ((s + n - 1) / bytes_per_pixel <= total / bytes_per_pixel)
      by (apply Z.div_le_mono; lia).
    lia.
  - exists arr. split; [exact Hr|]. split; [rewrite Hl; apply blen_zeros; lia|].
    intros p k Hp0. rewrite (Hp p k Hp0). rewrite pixel_zeros, Z.bits_0.
    unfold touches. split.
    + intros [H|H]; [discriminate | exact H].
    + intros H. right. exact H.
Qed.

Lemma compute_bitmap_marks_overlaps_witness :
  compute_bitmap (RescueMap.new patchy_map) 4096 = Ok [Byte.x01; Byte.x04; Byte.x01] /\
  blen [Byte.x01; Byte.x04; Byte.x01] = RescueMap.total_end patchy_map / 4096 + 1.
Proof.
  destruct (compute_bitmap_marks_overlaps (RescueMap.new patchy_map) 4096)
    as (arr & Hc & Hl & _).
  - unfold RescueMap.well_formed, patchy_map. simpl. repeat split; lia.
  - discriminate.
  - simpl. lia.
  - lia.
  - split; reflexivity.
Defined.


(** ** Runs that print nothing *)

Section Quiet.

Lemma quiet_keeps {A : Type} (m : M A) : keeps m -> quiet m.
Proof. intros H w a w' E. destruct (H w a w' E) as (_ & _ & Ho & He). split; assumption. Qed.

Lemma quiet_bind {A B : Type} (m : M A) (k : A -> M B) :
  quiet m -> (forall a, quiet (k a)) -> quiet (bind m k).
Proof.
  intros Hm Hk w b w' H. apply bind_Ret in H. destruct H as (a & w1 & H1 & H2).
  destruct (Hm _ _ _ H1) as (Ho1 & He1). destruct (Hk a _ _ _ H2) as (Ho2 & He2).
  split; congruence.
Qed.

Lemma quiet_ret {A : Type} (a : A) : quiet (ret a).
Proof. apply quiet_keeps, keeps_ret. Qed.

Lemma quiet_raise {A : Type} (e : exn) : quiet (@raise A e).
Proof. apply quiet_keeps, keeps_raise. Qed.

Lemma quiet_lift {A : Type} (r : result A) : quiet (lift r).
Proof. apply quiet_keeps, keeps_lift. Qed.

Lemma quiet_out_of_fuel {A : Type} : quiet (@out_of_fuel A).
Proof. intros w a w' H. discriminate. Qed.

Lemma quiet_set_incomplete (b : bool) : quiet (set_incomplete b).
Proof.
  intros w a w' H. apply set_incomplete_Ret in H. destruct H as (_ & _ & Ho & He).
  split; assumption.
Qed.

Lemma quiet_set_superblock (sb : Superblock.t) (bs spb : Z) : quiet (set_superblock sb bs spb).
Proof.
  intros w a w' H. unfold set_superblock, set_fs, get_fs, bind in H.
  injection H as _ <-. split; reflexivity.
Qed.

Lemma quiet_init : quiet init.
Proof.
  unfold init. apply quiet_bind; [apply quiet_keeps, keeps_sectors_append|]. intros _.
  apply quiet_bind; [apply quiet_keeps, keeps_rescue_map_getitem|]. intros st.
  destruct (negb (Status.eqb st FINISHED)); [apply quiet_ret|].
  apply quiet_bind; [apply quiet_keeps, keeps_get_fs|]. intros s.
  apply quiet_bind; [apply quiet_lift|]. intros blk.
  apply quiet_bind; [apply quiet_keeps, keeps_readBlock|]. intros b.
  apply quiet_bind; [apply quiet_lift|]. intros sb.
  apply quiet_bind; [apply quiet_set_superblock|]. intros _. apply quiet_ret.
Qed.

Lemma quiet_gbind {A B : Type} (m : M (flow A)) (k : A -> M (flow B)) (brk : A -> B) :
  quiet m -> (forall a, quiet (k a)) -> quiet (gbind m k brk).
Proof.
  intros Hm Hk. unfold gbind. apply quiet_bind; [exact Hm|].
  intros [a|a]; [apply Hk | apply quiet_ret].
Qed.

Lemma quiet_for_each {Y A : Type} (body : A -> Y -> M (flow A)) (l : list Y) :
  (forall a y, quiet (body a y)) -> forall acc, quiet (for_each l body acc).
Proof.
  intros Hb. induction l as [|y tl IH]; intros acc; simpl.
  - apply quiet_ret.
  - apply quiet_gbind; [apply Hb | exact IH].
Qed.

Lemma quiet_iter_items_in_range_from {A : Type} (consume : consumer Item.t A)
  (keyStart keyEnd : Key.t) :
  (forall a item, quiet (consume a item)) ->
  forall fuel treeBlock acc,
    quiet (iter_items_in_range_from fuel keyStart keyEnd treeBlock consume acc).
Proof.
  intros Hc. induction fuel as [|fuel IH]; intros treeBlock acc; simpl.
  - apply quiet_out_of_fuel.
  - apply quiet_bind; [apply quiet_keeps, keeps_readNode|].
    intros [complete node]. cbv beta iota.
    destruct (negb complete); [apply quiet_ret|].
    destruct node as [node|]; [|apply quiet_raise].
    destruct (Node.level node =? 1).
    + apply quiet_bind; [apply quiet_lift|]. intros its. apply quiet_for_each. exact Hc.
    + apply quiet_bind; [apply quiet_lift|]. intros [ptrs|]; [|apply quiet_raise].
      apply quiet_for_each. intros a blk. apply IH.
Qed.

Lemma quiet_iter_items_in_range {A : Type} (consume : consumer Item.t A)
  (keyStart keyEnd : Key.t) (fuel : nat) (acc : A) :
  (forall a item, quiet (consume a item)) ->
  quiet (iter_items_in_range fuel keyStart keyEnd consume acc).
Proof.
  intros Hc. unfold iter_items_in_range.
  apply quiet_bind; [apply quiet_keeps, keeps_get_superblock|].
  intros sb. apply quiet_iter_items_in_range_from. exact Hc.
Qed.

Lemma quiet_directory_list {A : Type} (consume : consumer DirectoryEntry.t A)
  (fuel : nat) (key : Key.t) (acc : A) :
  (forall a entry, quiet (consume a entry)) ->
  quiet (directory_list fuel key consume acc).
Proof.
  intros Hc. unfold directory_list.
  apply quiet_bind; [apply quiet_lift|]. intros _.
  apply quiet_bind; [apply quiet_keeps, keeps_expected_size|]. intros expectedSize.
  apply quiet_gbind.
  - apply quiet_iter_items_in_range. intros [size a] item. unfold directory_list_item.
    apply quiet_bind; [apply quiet_lift|]. intros entries.
    apply quiet_gbind; [apply quiet_for_each; exact Hc|]. intros a'. apply quiet_ret.
  - intros [size a].
    apply quiet_bind; [|intros _; apply quiet_ret].
    destruct (negb (size =? expectedSize)); [apply quiet_set_incomplete | apply quiet_ret].
Qed.

Lemma quiet_path_to_key_loop (fuel : nat) (parts : list bytes) :
  forall dirKey, quiet (path_to_key_loop fuel parts dirKey).
Proof.
  induction parts as [|part tl IH]; intros dirKey; simpl.
  - apply quiet_ret.
  - destruct (bytes_eqb part []); [apply IH|].
    apply quiet_bind.
    + apply quiet_directory_list. intros a entry.
      destruct (bytes_eqb part (DirectoryEntry.name entry)); apply quiet_ret.
    + intros [a|[k|]]; try apply quiet_ret. apply IH.
Qed.

Lemma quiet_path_to_key (fuel : nat) (name : bytes) : quiet (path_to_key fuel name).
Proof.
  unfold path_to_key. apply quiet_bind; [|intros dirKey; apply quiet_path_to_key_loop].
  destruct (negb _); [|apply quiet_ret].
  apply quiet_bind; [apply quiet_lift|]. intros _.
  apply quiet_bind; [apply quiet_lift|]. intros a.
  apply quiet_bind; [apply quiet_lift|]. intros b. apply quiet_ret.
Qed.

End Quiet.

(** ** What [cat] writes *)

Section Frame.

Context {A : Type} (J : A -> World -> Prop).

(** [J] only looks at what has been printed. *)
Hypothesis J_output :
  forall a w w', stdout w' = stdout w -> stderr w' = stderr w -> J a w -> J a w'.

Lemma hoare_quiet {B : Type} (m : M B) (a : A) :
  quiet m -> hoare (J a) m (fun _ => J a).
Proof.
  intros Hq w b w' HJ E. destruct (Hq w b w' E) as (Ho & He).
  exact (J_output a w w' Ho He HJ).
Qed.

Context (consume : consumer chunk A).

Hypothesis consume_J :
  forall a c, hoare (J a) (consume a c) (fun r => J (flow_value r)).

Let K : flow A -> World -> Prop := fun r => J (flow_value r).
Let K2 : flow (Z * A) -> World -> Prop := fun r => J (snd (flow_value r)).

Lemma hoare_consume_all (l : list chunk) (acc : A) :
  hoare (J acc) (for_each l consume acc) K.
Proof.
  exact (hoare_for_each K consume l (fun a y _ => consume_J a y) acc).
Qed.

Lemma hoare_regular_block_list_item (size : Z) (acc : A) (item : Item.t) :
  hoare (J acc) (regular_block_list_item consume (size, acc) item) K2.
Proof.
  unfold regular_block_list_item.
  eapply hoare_bind; [apply (hoare_quiet _ acc), quiet_lift|]. intros ?u.
  apply (hoare_gbind _ _ K2).
  - destruct (Key.offset (Item.key item) >? size); [|apply hoare_ret; auto].
    eapply hoare_bind; [apply (hoare_quiet _ acc), quiet_set_incomplete|]. intros ?u.
    eapply hoare_bind; [apply (hoare_quiet _ acc), quiet_keeps, keeps_get_fs|]. intros s.
    eapply hoare_bind; [apply (hoare_quiet _ acc), quiet_lift|]. intros whole.
    apply (hoare_gbind _ _ K).
    + apply hoare_consume_all.
    + intros a. eapply hoare_bind; [apply (hoare_quiet _ a), quiet_lift|]. intros tail.
      apply (hoare_gbind _ _ K).
      * destruct (negb (tail =? 0)); [apply consume_J | apply hoare_ret; auto].
      * intros a'. apply hoare_ret. auto.
      * auto.
    + auto.
  - intros [size' a]. unfold K2 at 1. cbn [flow_value snd].
    destruct (ItemType.eqb (Key.type (Item.key item)) INDIRECT).
    + eapply hoare_bind; [apply (hoare_quiet _ a), quiet_keeps, keeps_get_fs|]. intros s.
      eapply hoare_bind; [apply (hoare_quiet _ a), quiet_lift|]. intros blocks.
      apply (hoare_gbind _ _ K).
      * apply hoare_consume_all.
      * intros a'. apply hoare_ret. auto.
      * auto.
    + destruct (ItemType.eqb (Key.type (Item.key item)) DIRECT).
      * apply (hoare_gbind _ _ K).
        -- apply consume_J.
        -- intros a'. apply hoare_ret. auto.
        -- auto.
      * apply hoare_ret. auto.
  - auto.
Qed.

(** [regular_block_list] prints nothing itself: what holds of the output
    and the consumer's accumulator is kept if the consumer keeps it. *)
Lemma hoare_regular_block_list (fuel : nat) (key : Key.t) (acc : A) :
  hoare (J acc) (regular_block_list fuel key consume acc) K.
Proof.
  unfold regular_block_list.
  eapply hoare_bind; [apply (hoare_quiet _ acc), quiet_lift|]. intros ?u.
  eapply hoare_bind; [apply (hoare_quiet _ acc), quiet_keeps, keeps_expected_size|].
  intros expectedSize.
  apply (hoare_gbind _ _ K2).
  - apply (hoare_iter_items_in_range K2 (regular_block_list_item consume) _ _ fuel (1, acc)).
    + intros [size a] block po. unfold K2. cbn [flow_value snd].
      apply (hoare_quiet _ a), quiet_keeps, keeps_readNode.
    + intros [size a] item. apply hoare_regular_block_list_item.
  - intros [size a]. unfold K2. cbn [flow_value snd].
    apply (hoare_bind _ _ (fun _ => J a)).
    + destruct (size <? expectedSize);
        [apply (hoare_quiet _ a), quiet_set_incomplete | apply hoare_ret; auto].
    + intros ?u. apply hoare_ret. auto.
  - intros [size a] w H. exact H.
Qed.

End Frame.

Lemma wrote_output (out err : list output) (n : Z) (w w' : World) :
  stdout w' = stdout w -> stderr w' = stderr w -> wrote out err n w -> wrote out err n w'.
Proof.
  intros Ho He (H1 & chunks & H2 & H3). split; [congruence|].
  exists chunks. split; [congruence | exact H3].
Qed.

Lemma blen_app {X : Type} (a b : list X) : blen (a ++ b) = blen a + blen b.
Proof. unfold blen. rewrite length_app. lia. Qed.

Lemma hoare_cat_block (out err : list output) (expectedSize : Z) (a : Z) (c : chunk) :
  hoare (wrote out err a) (cat_block expectedSize a c)
        (fun r => wrote out err (flow_value r)).
Proof.
  unfold cat_block.
  eapply hoare_bind.
  - apply (hoare_quiet (wrote out err) (wrote_output out err) _ a).
    destruct c as [n|b]; [|apply quiet_ret].
    destruct (n =? 0); [|apply quiet_keeps, keeps_readBlock].
    apply quiet_bind; [apply quiet_keeps, keeps_get_fs|]. intros s. apply quiet_ret.
  - intros toWrite. cbv zeta.
    set (t := if a + blen toWrite >? expectedSize
              then py_slice toWrite 0 (expectedSize - a) else toWrite).
    intros w r w' (He & chunks & Ho & Hn) E.
    unfold bind, write_stdout, ret in E. injection E as <- <-.
    split; [exact He|]. exists (chunks ++ [t]). simpl. split.
    + rewrite Ho, map_app, <- app_assoc. reflexivity.
    + rewrite concat_app, blen_app. simpl. rewrite app_nil_r. lia.
Qed.

Lemma filetype_eqb_eq (a b : FileType) : FileType.eqb a b = true -> a = b.
Proof. destruct a, b; simpl; congruence. Qed.

Lemma printf_stderr_Ret (msg : list token) (w w' : World) (u : unit) :
  printf_stderr msg w = Ret u w' ->
  stdout w' = stdout w /\ stderr w' = stderr w ++ [PrintF msg].
Proof. unfold printf_stderr. intros E. injection E as _ <-. split; reflexivity. Qed.

(** X13: a run of [cat] that returns has either reported one error and
    written nothing, or reported nothing and written exactly as many bytes
    as the size in the Stat item of the file the path resolves to. *)
Theorem cat_writes_stat_size (fuel : nat) (name : bytes) (w w' : World) :
  cat fuel name w = Ret tt w' ->
  (stdout w' = stdout w /\ exists msg, stderr w' = stderr w ++ [PrintF msg]) \/
  (stderr w' = stderr w /\
   exists w0 w1 w2 key item stat chunks,
     init w = Ret true w0 /\
     path_to_key fuel name w0 = Ret (Some key) w1 /\
     find_item fuel key w1 = Ret (Some item) w2 /\
     Item.stat item = Ok stat /\ Stat.filetype stat = REGULAR /\
     stdout w' = stdout w ++ map Write chunks /\
     blen (List.concat chunks) = Stat.size stat).
Proof.
  intros H. unfold cat in H.
  apply bind_Ret in H. destruct H as (ok & w0 & Hinit & H).
  destruct (quiet_init _ _ _ Hinit) as (Ho0 & He0).
  destruct ok; cbn [negb] in H.
  2:{ left. apply printf_stderr_Ret in H. destruct H as (Ho & He).
      split; [congruence|]. eexists. rewrite He, He0. reflexivity. }
  apply bind_Ret in H. destruct H as (key & w1 & Hpath & H).
  destruct (quiet_path_to_key _ _ _ _ _ Hpath) as (Ho1 & He1).
  destruct key as [key|].
  2:{ left. apply printf_stderr_Ret in H. destruct H as (Ho & He).
      split; [congruence|]. eexists. rewrite He, He1, He0. reflexivity. }
  apply bind_Ret in H. destruct H as (item & w2 & Hfind & H).
  destruct (quiet_keeps _ (keeps_find_item fuel key) _ _ _ Hfind) as (Ho2 & He2).
  destruct item as [item|].
  2:{ left. apply printf_stderr_Ret in H. destruct H as (Ho & He).
      split; [congruence|]. eexists. rewrite He, He2, He1, He0. reflexivity. }
  apply bind_Ret in H. destruct H as (stat & w3 & Hstat & H).
  apply lift_Ret in Hstat. destruct Hstat as (Hstat & ->).
  destruct (FileType.eqb (Stat.filetype stat) REGULAR) eqn:Eft; cbn [negb] in H.
  2:{ left. apply printf_stderr_Ret in H. destruct H as (Ho & He).
      split; [congruence|]. eexists. rewrite He, He2, He1, He0. reflexivity. }
  apply filetype_eqb_eq in Eft. cbv zeta in H.
  apply bind_Ret in H. destruct H as (u & w4 & Hset & H).
  destruct (quiet_set_incomplete _ _ _ _ Hset) as (Ho4 & He4).
  apply bind_Ret in H. destruct H as (r & w5 & Hlist & H).
  apply assert_Ret in H. destruct H as (Hsize & ->).
  apply Z.eqb_eq in Hsize.
  assert (Hw : wrote (stdout w) (stderr w) (flow_value r) w5).
  { refine (hoare_regular_block_list (wrote (stdout w) (stderr w))
              (wrote_output _ _) (cat_block (Stat.size stat))
              (hoare_cat_block _ _ _) fuel key 0 w4 r w5 _ Hlist).
    split; [congruence|]. exists []. simpl. rewrite app_nil_r. split; [congruence | reflexivity]. }
  destruct Hw as (He5 & chunks & Ho5 & Hn).
  right. split; [exact He5|].
  exists w0, w1, w2, key, item, stat, chunks.
  repeat split; try assumption. congruence.
Qed.

Lemma cat_writes_stat_size_witness :
  exists w',
    cat 1 name_5_6 sparse_file_world = Ret tt w' /\
    ((stdout w' = stdout sparse_file_world /\
      exists msg, stderr w' = stderr sparse_file_world ++ [PrintF msg]) \/
     (stderr w' = stderr sparse_file_world /\
      exists w0 w1 w2 key item stat chunks,
        init sparse_file_world = Ret true w0 /\
        path_to_key 1 name_5_6 w0 = Ret (Some key) w1 /\
        find_item 1 key w1 = Ret (Some item) w2 /\
        Item.stat item = Ok stat /\ Stat.filetype stat = REGULAR /\
        stdout w' = stdout sparse_file_world ++ map Write chunks /\
        blen (List.concat chunks) = Stat.size stat)).
Proof.
  exists (final_world (cat 1 name_5_6 sparse_file_world) sparse_file_world).
  assert (H : cat 1 name_5_6 sparse_file_world =
              Ret tt (final_world (cat 1 name_5_6 sparse_file_world) sparse_file_world)).
  { apply outcome_Ret. vm_compute. reflexivity. }
  split; [exact H|].
  exact (cat_writes_stat_size _ _ _ _ H).
Defined.

(** ** The counters of the tree walk *)

Lemma entry_eqb_refl (x : heap_entry) : entry_eqb x x = true.
Proof. unfold entry_eqb. rewrite !Z.eqb_refl. reflexivity. Qed.

Lemma remove_first_length (x : heap_entry) (l : list heap_entry) :
  In x l -> blen l = blen (remove_first x l) + 1.
Proof.
  unfold blen. induction l as [|y tl IH]; intros Hin; [destruct Hin|].
  simpl remove_first. destruct (entry_eqb x y) eqn:E.
  - simpl. lia.
  - destruct Hin as [->|Hin]; [rewrite entry_eqb_refl in E; discriminate|].
    specialize (IH Hin). simpl List.length. lia.
Qed.

Lemma heappop_length (h h' : list heap_entry) (m : heap_entry) :
  heappop h = Some (m, h') -> blen h = blen h' + 1.
Proof.
  destruct h as [|x tl]; [discriminate|]. unfold heappop. intros E. injection E as Em Eh.
  subst h'. clear Em.
  change (blen (x :: tl) = blen (remove_first (heap_min x tl) (x :: tl)) + 1).
  apply remove_first_length. apply (proj1 (heap_min_spec tl x)).
Qed.

Lemma heappop_none (h : list heap_entry) : heappop h = None -> h = [].
Proof. destruct h; [reflexivity | discriminate]. Qed.

Lemma record_pop_length (block : Z) (passes : list (list Z)) :
  blen (List.concat (record_pop block passes)) = blen (List.concat passes) + 1.
Proof.
  unfold record_pop. destruct (rev passes) as [|cur before] eqn:E.
  - apply (f_equal (@rev _)) in E. rewrite rev_involutive in E. simpl in E. subst. reflexivity.
  - apply (f_equal (@rev _)) in E. rewrite rev_involutive in E. simpl in E. subst.
    rewrite !concat_app. simpl. rewrite !app_nil_r, !blen_app.
    unfold blen. simpl. lia.
Qed.

Lemma push_children_length (block level : Z) (ptrs : list Z) :
  forall heap next_pass h np,
    push_children block level ptrs heap next_pass = (h, np) ->
    blen h + blen np = blen heap + blen next_pass + blen ptrs.
Proof.
  unfold blen. induction ptrs as [|p tl IH]; intros heap next_pass h np H; simpl in H.
  - injection H as <- <-. simpl. lia.
  - destruct (p <? block); apply IH in H; unfold heappush in H;
      rewrite ?length_app in H; cbn [List.length] in *; lia.
Qed.

Ltac popped_count Hstep Hpop :=
  msimpl Hstep; injection Hstep as <- _;
  unfold count_inv; cbn [passes heap next_pass found partial incomplete_count];
  rewrite record_pop_length; apply heappop_length in Hpop; lia.

Lemma findTree_step_count (level_limit : Z) (partial_only : bool) (st st' : walk)
  (w w' : World) :
  count_inv st -> findTree_step level_limit partial_only st w = Ret (Some st') w' ->
  count_inv st'.
Proof.
  intros (Hf & Hp & Hi) Hstep. unfold findTree_step in Hstep.
  destruct (heappop (heap st)) as [[[block level] heap']|] eqn:Hpop.
  - unfold bind, ret, raise, lift in Hstep.
    destruct (readNode block (Some partial_only) w) as [[complete node] w1| |]; try discriminate.
    destruct complete; cbn [negb] in Hstep; cbv iota in Hstep.
    + destruct node as [node|]; [|discriminate].
      destruct (Node.level node <=? level_limit); [popped_count Hstep Hpop|].
      destruct (Node.level node >? 1).
      { destruct (Node.ptr_blocks node) as [ptrs|]; [|discriminate].
        msimpl Hstep.
        destruct (push_children block (Node.level node) ptrs heap' (next_pass st))
          as [h np] eqn:Hpush.
        cbv beta iota in Hstep. injection Hstep as <- _.
        apply push_children_length in Hpush.
        unfold count_inv; cbn [passes heap next_pass found partial incomplete_count].
        rewrite record_pop_length. apply heappop_length in Hpop. lia. }
      destruct (Node.level node =? 1); [|popped_count Hstep Hpop].
      destruct (Node.indirect_item_blocks node) as [blocks|]; [|discriminate].
      msimpl Hstep.
      destruct (add_block_sectors blocks w1); try discriminate.
      popped_count Hstep Hpop.
    + destruct node; popped_count Hstep Hpop.
  - unfold ret in Hstep. apply heappop_none in Hpop.
    destruct (next_pass st) eqn:En; [discriminate|].
    injection Hstep as <- _. unfold count_inv, start_pass.
    cbn [passes heap next_pass found partial incomplete_count]. unfold heapify.
    rewrite concat_app. simpl. rewrite app_nil_r. rewrite Hpop in Hf. try rewrite En in Hf.
    change (blen (@nil heap_entry)) with 0 in *. rewrite En. lia.
Qed.

Lemma findTree_loop_count (level_limit : Z) (partial_only : bool) (fuel : nat) :
  forall st st' w w',
    count_inv st ->
    findTree_loop fuel level_limit partial_only st w = Ret st' w' ->
    count_inv st' /\ heap st' = [] /\ next_pass st' = [].
Proof.
  induction fuel as [|fuel IH]; intros st st' w w' Hinv H; simpl in H; [discriminate|].
  unfold bind in H.
  destruct (findTree_step level_limit partial_only st w) as [[st1|] w1| |] eqn:E;
    try discriminate.
  - apply (IH st1 st' w1 w'); [|exact H]. exact (findTree_step_count _ _ _ _ _ _ Hinv E).
  - unfold ret in H. injection H as <- _. split; [exact Hinv|].
    unfold findTree_step in E.
    destruct (heappop (heap st)) as [[[block level] heap']|] eqn:Hpop.
    + exfalso. unfold bind, ret, raise, lift in E.
      destruct (readNode block (Some partial_only) w) as [[complete node] w2| |];
        try discriminate.
      destruct complete; cbn [negb] in E; cbv iota in E.
      * destruct node as [node|]; [|discriminate].
        destruct (Node.level node <=? level_limit); [discriminate|].
        destruct (Node.level node >? 1).
        { destruct (Node.ptr_blocks node) as [ptrs|]; [|discriminate].
          msimpl E. destruct (push_children _ _ _ _ _). discriminate. }
        destruct (Node.level node =? 1); [|discriminate].
        destruct (Node.indirect_item_blocks node) as [blocks|]; [|discriminate].
        msimpl E. destruct (add_block_sectors blocks w2); discriminate.
      * discriminate.
    + apply heappop_none in Hpop. split; [exact Hpop|].
      unfold ret in E. destruct (next_pass st); [reflexivity | discriminate].
Qed.

Lemma keeps_add_block_sectors (blocks : list Z) : keeps (add_block_sectors blocks).
Proof.
  induction blocks as [|b tl IH]; simpl; [apply keeps_ret|].
  destruct (b =? 0); [exact IH|].
  apply keeps_bind; [apply keeps_get_fs|]. intros s.
  apply keeps_bind; [|intros _; exact IH].
  induction (zrange 0 (ReiserFs.sectors_per_block s)) as [|off l IHl]; [apply keeps_ret|].
  apply keeps_bind; [apply keeps_sectors_append|]. intros _. exact IHl.
Qed.

Lemma keeps_findTree_step (level_limit : Z) (partial_only : bool) (st : walk) :
  keeps (findTree_step level_limit partial_only st).
Proof.
  unfold findTree_step.
  destruct (heappop (heap st)) as [[[block level] heap']|].
  - apply keeps_bind; [apply keeps_readNode|]. intros [complete node]. cbv beta iota.
    destruct (negb complete); [apply keeps_ret|].
    destruct node as [node|]; [|apply keeps_raise].
    destruct (Node.level node <=? level_limit); [apply keeps_ret|].
    destruct (Node.level node >? 1).
    { apply keeps_bind; [apply keeps_lift|]. intros ptrs.
      destruct (push_children _ _ _ _ _). apply keeps_ret. }
    destruct (Node.level node =? 1); [|apply keeps_ret].
    apply keeps_bind; [apply keeps_lift|]. intros blocks.
    apply keeps_bind; [apply keeps_add_block_sectors|]. intros _. apply keeps_ret.
  - destruct (next_pass st); apply keeps_ret.
Qed.

Lemma keeps_findTree_loop (level_limit : Z) (partial_only : bool) (fuel : nat) :
  forall st, keeps (findTree_loop fuel level_limit partial_only st).
Proof.
  induction fuel as [|fuel IH]; intros st; simpl.
  - intros w a w' E. discriminate.
  - apply keeps_bind; [apply keeps_findTree_step|].
    intros [st'|]; [apply IH | apply keeps_ret].
Qed.

Lemma count_inv_start (root_block : Z) : count_inv (walk_start root_block).
Proof. unfold count_inv, walk_start. simpl. unfold blen. simpl. lia. Qed.

Lemma findTree_report_spec (fuel : nat) (level_limit : Z) (partial_only : bool)
  (w w' : World) (st : walk) :
  _findTree fuel level_limit partial_only w = Ret st w' ->
  found st = blen (List.concat (passes st)) /\
  0 <= partial st <= incomplete_count st /\ incomplete_count st <= found st /\
  stdout w' = stdout w /\ stderr w' = stderr w ++ findTree_report st.
Proof.
  intros H. unfold _findTree in H.
  apply bind_Ret in H. destruct H as (sb & w0 & Hsb & H).
  destruct (keeps_get_superblock _ _ _ Hsb) as (_ & _ & Ho0 & He0).
  apply bind_Ret in H. destruct H as (st1 & w1 & Hloop & H).
  destruct (keeps_findTree_loop _ _ _ _ _ _ _ Hloop) as (_ & _ & Ho1 & He1).
  destruct (findTree_loop_count _ _ _ _ _ _ _ (count_inv_start _) Hloop)
    as ((Hf & Hp & Hi) & Hheap & Hnext).
  unfold print_stderr, bind, ret in H. injection H as <- <-.
  rewrite Hheap, Hnext in Hf. change (blen (@nil heap_entry)) with 0 in Hf.
  cbn [stdout stderr]. unfold findTree_report.
  split; [lia|]. split; [exact Hp|]. split; [lia|]. split; [congruence|].
  rewrite He1, He0, <- !app_assoc. reflexivity.
Qed.

(** X14: the three numbers [_findTree] reports add up: [found] is the
    number of blocks the walk popped and tried to read, [incomplete] counts
    some of these and [partial] some of the incomplete ones.  The report
    goes to the error stream as three lines, and nothing goes to the
    output. *)
Theorem findTree_report_counts_reads (fuel : nat) (level_limit : Z) (partial_only : bool)
  (w w' : World) (st : walk) :
  _findTree fuel level_limit partial_only w = Ret st w' ->
  found st = blen (List.concat (passes st)) /\
  0 <= partial st <= incomplete_count st /\ incomplete_count st <= found st /\
  stdout w' = stdout w /\ stderr w' = stderr w ++ findTree_report st.
Proof. apply findTree_report_spec. Qed.

Lemma findTree_report_counts_reads_witness :
  exists w',
    _findTree 6 0 false three_node_world = Ret (mkWalk [] [] 3 0 0 [[19; 20]; [18]]) w' /\
    stderr w' = stderr three_node_world ++
                [Print [TStr "found:"; TInt 3]; Print [TStr "incomplete:"; TInt 0];
                 Print [TStr "partial:"; TInt 0]].
Proof.
  exists (final_world (_findTree 6 0 false three_node_world) three_node_world).
  assert (H : _findTree 6 0 false three_node_world =
              Ret (mkWalk [] [] 3 0 0 [[19; 20]; [18]])
                  (final_world (_findTree 6 0 false three_node_world) three_node_world)).
  { apply outcome_Ret. vm_compute. reflexivity. }
  split; [exact H|].
  exact (proj2 (proj2 (proj2 (proj2 (findTree_report_counts_reads _ _ _ _ _ _ H))))).
Defined.

(** ** The map [findTree] prints *)

Lemma set_sectors_Ret (s : sector_list) (w w' : World) (u : unit) :
  set_sectors s w = Ret u w' ->
  ReiserFs.sectors (fs w') = s /\
  ReiserFs.partition_start (fs w') = ReiserFs.partition_start (fs w) /\
  stdout w' = stdout w /\ stderr w' = stderr w.
Proof.
  unfold set_sectors, set_fs, get_fs, bind. intros H. injection H as _ <-.
  simpl. repeat split; reflexivity.
Qed.

(** X15: when [findTree] returns, the map it has printed has no gaps, and
    its [+] records are ranges in order that cover exactly the sectors
    recorded in [fs.sectors], each once, scaled to bytes and shifted by the
    partition start. *)
Theorem findTree_prints_recorded_sectors (fuel : nat) (level_limit : Z)
  (partial_only : bool) (w w' : World) :
  findTree fuel level_limit partial_only w = Ret tt w' ->
  exists sectors rl lines,
    ReiserFs.sectors (fs w') = PyList sectors /\ NoDup sectors /\
    separated (RangeList.items rl) /\
    (forall x, covers (RangeList.items rl) x <-> In x sectors) /\
    stdout w' = stdout w ++ Print [TInt 0; TStr "*"; TInt 1] :: lines /\
    chained 0 lines
      (ReiserFs.partition_start (fs w') + list_end 0 (RangeList.items rl) * 512) /\
    filter is_plus lines =
    map (plus_line (ReiserFs.partition_start (fs w')) 512) (RangeList.items rl).
Proof.
  intros H. unfold findTree in H.
  apply bind_Ret in H. destruct H as (ok & w0 & Hinit & H).
  destruct (quiet_init _ _ _ Hinit) as (Ho0 & _).
  apply bind_Ret in H. destruct H as (u1 & w1 & Hwalk & H).
  assert (Ho1 : stdout w1 = stdout w0).
  { destruct ok.
    - apply bind_Ret in Hwalk. destruct Hwalk as (st & w2 & Hw & Hr).
      unfold ret in Hr. injection Hr as _ <-.
      exact (proj1 (proj2 (proj2 (proj2 (findTree_report_spec _ _ _ _ _ _ Hw))))).
    - unfold ret in Hwalk. injection Hwalk as _ <-. reflexivity. }
  apply bind_Ret in H. destruct H as (s & w2 & Hs & H).
  unfold get_fs in Hs. injection Hs as <- <-.
  apply bind_Ret in H. destruct H as (sectors & w3 & Hsort & H).
  destruct (ReiserFs.sectors (fs w1)) as [l|l] eqn:El; [|discriminate].
  unfold ret in Hsort. injection Hsort as <- <-.
  apply bind_Ret in H. destruct H as (u2 & w4 & Hset & H).
  apply set_sectors_Ret in Hset. destruct Hset as (Hsec & Hps & Ho4 & _).
  apply bind_Ret in H. destruct H as (rl & w5 & Hadd & H).
  apply lift_Ret in Hadd. destruct Hadd as (Hadd & ->).
  destruct (sorted_sectors_spec l) as (Hok & Herr).
  destruct (ListDec.NoDup_dec Z.eq_dec l) as [Hnd|Hnd].
  2:{ rewrite (Herr Hnd) in Hadd. discriminate. }
  destruct (Hok Hnd) as (rl' & Hadd' & Hsep & Hcov).
  assert (rl' = rl) by congruence. subst rl'.
  destruct (print_rangelist_spec rl 512 w4) as (lines & Hp & Hch & Hf).
  rewrite Hp in H. injection H as <-. cbn [fs stdout].
  pose proof (sort_perm Z.ltb l) as Hperm.
  exists (sort Z.ltb l), rl, lines.
  split; [exact Hsec|]. split.
  { apply (Permutation_NoDup (Permutation_sym Hperm)). exact Hnd. }
  split; [exact Hsep|]. split.
  { intros x. rewrite Hcov. split; intros Hin.
    - apply (Permutation_in _ (Permutation_sym Hperm)). exact Hin.
    - apply (Permutation_in _ Hperm). exact Hin. }
  split; [congruence|]. split; assumption.
Qed.

Lemma findTree_prints_recorded_sectors_witness :
  exists w',
    findTree 3 0 false sparse_file_world = Ret tt w' /\
    ReiserFs.sectors (fs w') = PyList [128; 136; 143] /\
    exists sectors rl lines,
      ReiserFs.sectors (fs w') = PyList sectors /\ NoDup sectors /\
      separated (RangeList.items rl) /\
      (forall x, covers (RangeList.items rl) x <-> In x sectors) /\
      stdout w' = stdout sparse_file_world ++ Print [TInt 0; TStr "*"; TInt 1] :: lines /\
      chained 0 lines
        (ReiserFs.partition_start (fs w') + list_end 0 (RangeList.items rl) * 512) /\
      filter is_plus lines =
      map (plus_line (ReiserFs.partition_start (fs w')) 512) (RangeList.items rl).
Proof.
  exists (final_world (findTree 3 0 false sparse_file_world) sparse_file_world).
  assert (H : findTree 3 0 false sparse_file_world =
              Ret tt (final_world (findTree 3 0 false sparse_file_world) sparse_file_world)).
  { apply outcome_Ret. vm_compute. reflexivity. }
  split; [exact H|]. split; [vm_compute; reflexivity|].
  exact (findTree_prints_recorded_sectors _ _ _ _ _ H).
Defined.

(** ** What [find_item] returns *)

Lemma find_item_loop_leaf (fuel : nat) (key : Key.t) :
  forall treeBlock w it w',
    find_item_loop fuel key treeBlock w = Ret (Some it) w' ->
    exists node, Node.level node = 1 /\ Node.item_find node key = Ok (Some it).
Proof.
  induction fuel as [|fuel IH]; intros treeBlock w it w' H; simpl in H; [discriminate|].
  apply bind_Ret in H. destruct H as ([complete node] & w1 & _ & H). cbv beta iota in H.
  destruct (negb complete); [unfold ret in H; discriminate|].
  destruct node as [node|]; [|discriminate].
  destruct (Z.eqb_spec (Node.level node) 1) as [Hl|Hl].
  - apply lift_Ret in H. destruct H as (H & _). exists node. split; assumption.
  - apply bind_Ret in H. destruct H as (next & w2 & _ & H).
    destruct next as [treeBlock'|]; [|discriminate]. exact (IH _ _ _ _ H).
Qed.

(** X16: [find_item] never returns an item of another object: the item
    has the directory and object ids of the key asked for; it has the very
    key once the versions agree; and a Stat key finds a Stat item whatever
    the version the item was stored under. *)
Theorem find_item_returns_asked_object (fuel : nat) (key : Key.t) (w w' : World)
  (it : Item.t) :
  Key.valid key ->
  find_item fuel key w = Ret (Some it) w' ->
  Key.dirid (Item.key it) = Key.dirid key /\
  Key.objid (Item.key it) = Key.objid key /\
  (Key.version (Item.key it) = Key.version key -> Item.key it = key) /\
  (Key.type key = STAT -> Key.offset key = 0 ->
   Key.type (Item.key it) = STAT /\ Key.offset (Item.key it) = 0).
Proof.
  intros Hk H. unfold find_item in H.
  apply bind_Ret in H. destruct H as (sb & w0 & _ & H).
  destruct (find_item_loop_leaf _ _ _ _ _ _ H) as (node & _ & Hfind).
  destruct (item_find_spec node key) as (Hhit & _).
  destruct (Hhit it Hfind Hk) as (_ & Hd & Ho & Hv & Hs).
  repeat split; try assumption; apply Hs; assumption.
Qed.

Lemma find_item_returns_asked_object_witness :
  exists w',
    find_item 1 (stat_key 5 6) short_file_world = Ret (Some short_file_stat_item) w' /\
    Key.valid (stat_key 5 6) /\
    Item.key short_file_stat_item = stat_key 5 6.
Proof.
  exists (final_world (find_item 1 (stat_key 5 6) short_file_world) short_file_world).
  assert (H : find_item 1 (stat_key 5 6) short_file_world =
              Ret (Some short_file_stat_item)
                  (final_world (find_item 1 (stat_key 5 6) short_file_world) short_file_world)).
  { apply outcome_Ret. vm_compute. reflexivity. }
  assert (Hk : Key.valid (stat_key 5 6)) by (unfold Key.valid; simpl; lia).
  split; [exact H|]. split; [exact Hk|].
  destruct (find_item_returns_asked_object _ _ _ _ _ Hk H) as (_ & _ & Hv & _).
  apply Hv. reflexivity.
Defined.

(** ** The leaves [iter_leafs] yields *)

Lemma iter_leafs_step_leaf (st : walk) (w w1 : World) (next : option walk) (node : Node.t) :
  iter_leafs_step st w = Ret (next, Some node) w1 ->
  Node.level node = 1 /\
  exists block level heap',
    heappop (heap st) = Some ((block, level), heap') /\
    readNode block None w = Ret (true, Some node) w1.
Proof.
  intros H. unfold iter_leafs_step in H.
  destruct (heappop (heap st)) as [[[block level] heap']|].
  2:{ destruct (next_pass st); unfold ret in H; discriminate. }
  apply bind_Ret in H. destruct H as ([complete n] & w2 & Hread & H). cbv beta iota in H.
  destruct complete; cbn [negb] in H; [|unfold ret in H; discriminate].
  destruct n as [n|]; [|discriminate].
  destruct (Node.level n >? 1).
  { apply bind_Ret in H. destruct H as (ptrs & w3 & _ & H).
    destruct (push_children _ _ _ _ _). unfold ret in H. discriminate. }
  destruct (Z.eqb_spec (Node.level n) 1) as [Hl|Hl]; unfold ret in H; [|discriminate].
  injection H as _ <- <-. split; [exact Hl|].
  exists block, level, heap'. split; [reflexivity | exact Hread].
Qed.

Lemma iter_leafs_loop_leaves (fuel : nat) :
  forall st acc w r w',
    Forall (fun node => Node.level node = 1) acc ->
    iter_leafs_loop fuel st collect acc w = Ret r w' ->
    Forall (fun node => Node.level node = 1) (flow_value r).
Proof.
  induction fuel as [|fuel IH]; intros st acc w r w' Hacc H; simpl in H; [discriminate|].
  apply bind_Ret in H. destruct H as ([next leaf] & w1 & Hstep & H). cbv beta iota in H.
  destruct next as [st'|]; [|unfold ret in H; injection H as <- _; exact Hacc].
  destruct leaf as [node|]; [|exact (IH _ _ _ _ _ Hacc H)].
  destruct (iter_leafs_step_leaf _ _ _ _ _ Hstep) as (Hl & _).
  unfold gbind, collect in H. unfold bind at 1 in H. unfold ret at 1 in H.
  apply (IH _ _ _ _ _ (proj2 (Forall_app _ _ _) (conj Hacc (Forall_cons _ Hl (Forall_nil _)))) H).
Qed.

(** X17: every node [iter_leafs] yields is a leaf: a node of level 1
    that [readNode] returned as complete.  Internal nodes, and nodes
    of which a sector is missing, are never handed to the consumer. *)
Theorem iter_leafs_yields_leaves (fuel : nat) (w w' : World) (r : flow (list Node.t)) :
  iter_leafs fuel collect [] w = Ret r w' ->
  Forall (fun node => Node.level node = 1) (flow_value r) /\
  forall st w0 w1 next node,
    iter_leafs_step st w0 = Ret (next, Some node) w1 ->
    exists block level heap',
      heappop (heap st) = Some ((block, level), heap') /\
      readNode block None w0 = Ret (true, Some node) w1.
Proof.
  intros H. split.
  - unfold iter_leafs in H. apply bind_Ret in H. destruct H as (sb & w0 & _ & H).
    exact (iter_leafs_loop_leaves _ _ _ _ _ _ (Forall_nil _) H).
  - intros st w0 w1 next node Hs. exact (proj2 (iter_leafs_step_leaf _ _ _ _ _ Hs)).
Qed.

Lemma returned_Ret {A : Type} (o : outcome A) (otherwise : A) (d : World) :
  has_returned o = true -> o = Ret (returned o otherwise) (final_world o d).
Proof. destruct o; simpl; intros H; try discriminate. reflexivity. Qed.

Local Abbreviation leaves_run := (iter_leafs 6 collect [] three_node_world).

Lemma iter_leafs_yields_leaves_witness :
  leaves_run = Ret (returned leaves_run (Continue [])) (final_world leaves_run three_node_world) /\
  List.length (flow_value (returned leaves_run (Continue []))) = 2%nat /\
  Forall (fun node => Node.level node = 1) (flow_value (returned leaves_run (Continue []))).
Proof.
  assert (H0 : has_returned leaves_run = true) by (vm_compute; reflexivity).
  pose proof (returned_Ret leaves_run (Continue []) three_node_world H0) as H.
  split; [exact H|]. split; [vm_compute; reflexivity|].
  exact (proj1 (iter_leafs_yields_leaves 6 three_node_world
                  (final_world leaves_run three_node_world)
                  (returned leaves_run (Continue [])) H)).
Defined.

(** ** When a node counts as complete *)

Lemma append_all_app (s : sector_list) (xs ys : list Z) :
  append_all (append_all s xs) ys = append_all s (xs ++ ys).
Proof.
  destruct s as [l|l]; simpl.
  - rewrite app_assoc. reflexivity.
  - unfold set_update. rewrite fold_left_app. reflexivity.
Qed.

Lemma append_all_nil (s : sector_list) : append_all s [] = s.
Proof. destruct s; simpl; [rewrite app_nil_r|]; reflexivity. Qed.

Lemma sectors_append_Ret (x : Z) (w w' : World) (u : unit) :
  sectors_append x w = Ret u w' ->
  same_reader (fs w) (fs w') /\
  ReiserFs.sectors (fs w') = append_all (ReiserFs.sectors (fs w)) [x].
Proof.
  unfold sectors_append, set_sectors, set_fs, get_fs, bind. intros H.
  destruct (ReiserFs.sectors (fs w)) eqn:E; injection H as _ <-; simpl;
    (split; [repeat split|reflexivity]).
Qed.

Lemma rescue_map_getitem_Ret (p : Z) (w w' : World) (st : Status) :
  rescue_map_getitem p w = Ret st w' ->
  w' = w /\ RescueMap.getitem (ReiserFs.rescue_map (fs w)) p = Ok st.
Proof.
  unfold rescue_map_getitem, get_fs, bind. intros H. apply lift_Ret in H.
  destruct H as (H & ->). split; [reflexivity | exact H].
Qed.

Lemma readNode_offsets_spec (block : Z) (offs : list Z) :
  forall incomplete w r w',
    readNode_offsets block offs incomplete w = Ret r w' ->
    same_reader (fs w) (fs w') /\
    ReiserFs.sectors (fs w') =
      append_all (ReiserFs.sectors (fs w))
        (map (fun off => block * ReiserFs.sectors_per_block (fs w) + off) (filter nonzero offs)) /\
    (r = false <->
     incomplete = false /\
     forall off, In off offs -> off <> 0 ->
       RescueMap.getitem (ReiserFs.rescue_map (fs w))
         (block * ReiserFs.block_size (fs w) + off * 512) = Ok FINISHED).
Proof.
  induction offs as [|off tl IH]; intros incomplete w r w' H; simpl in H.
  - unfold ret in H. injection H as <- <-. split; [repeat split|].
    split; [simpl; rewrite append_all_nil; reflexivity|].
    split; [intros ->; split; [reflexivity | intros off []] | intros (-> & _); reflexivity].
  - unfold nonzero at 1. cbn [filter].
    destruct (Z.eqb_spec off 0) as [->|Hne]; cbn [negb].
    + destruct (IH _ _ _ _ H) as (Hsame & Hsec & Hiff).
      split; [exact Hsame|]. split; [exact Hsec|].
      rewrite Hiff. split; intros (Hi & Hall); (split; [exact Hi|]).
      * intros o [<-|Ho] Hn; [congruence | apply Hall; assumption].
      * intros o Ho Hn. apply Hall; [right; exact Ho | exact Hn].
    + apply bind_Ret in H. destruct H as (s & w0 & Hs & H).
      unfold get_fs in Hs. injection Hs as <- <-.
      apply bind_Ret in H. destruct H as (u & w1 & Happ & H).
      apply sectors_append_Ret in Happ.
      destruct Happ as ((Hm1 & Hb1 & Hp1 & Hf1 & Hs1 & Hsb1 & Hi1) & Hsec1).
      assert (Hstep : forall inc' w2,
                readNode_offsets block tl inc' w2 = Ret r w' ->
                fs w2 = fs w1 ->
                same_reader (fs w) (fs w') /\
                ReiserFs.sectors (fs w') =
                  append_all (ReiserFs.sectors (fs w))
                    (map (fun off => block * ReiserFs.sectors_per_block (fs w) + off)
                       (off :: filter nonzero tl)) /\
                (r = false <->
                 inc' = false /\
                 forall o, In o tl -> o <> 0 ->
                   RescueMap.getitem (ReiserFs.rescue_map (fs w))
                     (block * ReiserFs.block_size (fs w) + o * 512) = Ok FINISHED)).
      { intros inc' w2 H2 Efs.
        destruct (IH _ _ _ _ H2) as ((Hm & Hb & Hp & Hf & Hs & Hsb & Hi) & Hsec & Hiff).
        rewrite Efs in *. split; [repeat split; congruence|]. split.
        - rewrite Hsec, Hsec1, append_all_app, Hp1. reflexivity.
        - rewrite Hiff, Hm1, Hb1. reflexivity. }
      destruct incomplete; cbn [negb] in H.
      * destruct (Hstep _ _ H eq_refl) as (Hsame & Hsec & Hiff).
        split; [exact Hsame|]. split; [exact Hsec|].
        rewrite Hiff. split; intros (Hi & _); discriminate.
      * apply bind_Ret in H. destruct H as (st & w2 & Hget & H).
        apply rescue_map_getitem_Ret in Hget. destruct Hget as (-> & Hget).
        rewrite Hm1 in Hget.
        destruct (Hstep _ _ H eq_refl) as (Hsame & Hsec & Hiff).
        split; [exact Hsame|]. split; [exact Hsec|].
        rewrite Hiff. split.
        -- intros (Hst & Hall). apply negb_false_iff, status_eqb_finished in Hst. subst st.
           split; [reflexivity|]. intros o [<-|Ho] Hn; [exact Hget | apply Hall; assumption].
        -- intros (_ & Hall). split.
           ++ apply negb_false_iff, status_eqb_finished.
              pose proof (Hall off (or_introl eq_refl) Hne) as Hoff. congruence.
           ++ intros o Ho Hn. apply Hall; [right; exact Ho | exact Hn].
Qed.

(** X18: the body of [readNode] trusts the map, sector by sector.  It
    returns no node exactly when the first sector of the block is not
    finished; it returns a node as complete exactly when every further
    sector the node's header lays claim to is finished; and it records the
    first sector (unless [partial_only]) and each of those further sectors,
    changing nothing else of the reader. *)
Theorem readNode_complete_iff_finished (block : Z) (partial_only : bool) (w w' : World)
  (complete : bool) (node : option Node.t) :
  readNode_body block partial_only w = Ret (complete, node) w' ->
  let s := fs w in
  let first := if partial_only then [] else [block * ReiserFs.sectors_per_block s] in
  same_reader s (fs w') /\
  match node with
  | None =>
      complete = false /\
      ReiserFs.sectors (fs w') = append_all (ReiserFs.sectors s) first /\
      exists st, RescueMap.getitem (ReiserFs.rescue_map s) (block * ReiserFs.block_size s)
                 = Ok st /\ st <> FINISHED
  | Some node =>
      RescueMap.getitem (ReiserFs.rescue_map s) (block * ReiserFs.block_size s) = Ok FINISHED /\
      ReiserFs.sectors (fs w') =
        append_all (ReiserFs.sectors s)
          (first ++ map (fun off => block * ReiserFs.sectors_per_block s + off)
                      (filter nonzero (node_sector_offsets s node))) /\
      (complete = true <->
       forall off, In off (node_sector_offsets s node) -> off <> 0 ->
         RescueMap.getitem (ReiserFs.rescue_map s)
           (block * ReiserFs.block_size s + off * 512) = Ok FINISHED)
  end.
Proof.
  intros H s first. unfold readNode_body in H.
  apply bind_Ret in H. destruct H as (s0 & w0 & Hs & H).
  unfold get_fs in Hs. injection Hs as <- <-. fold s in H.
  apply bind_Ret in H. destruct H as (u & w1 & Hfirst & H).
  assert (Hw1 : same_reader s (fs w1) /\
                ReiserFs.sectors (fs w1) = append_all (ReiserFs.sectors s) first).
  { unfold first. destruct partial_only; cbn [negb] in Hfirst.
    - unfold ret in Hfirst. injection Hfirst as _ <-.
      split; [repeat split | rewrite append_all_nil; reflexivity].
    - apply sectors_append_Ret in Hfirst. exact Hfirst. }
  destruct Hw1 as ((Hm1 & Hb1 & Hp1 & Hf1 & Hs1 & Hsb1 & Hi1) & Hsec1).
  apply bind_Ret in H. destruct H as (st & w2 & Hget & H).
  apply rescue_map_getitem_Ret in Hget. destruct Hget as (-> & Hget).
  rewrite Hm1 in Hget.
  destruct (Status.eqb st FINISHED) eqn:Est; cbn [negb] in H.
  - apply status_eqb_finished in Est. subst st.
    apply bind_Ret in H. destruct H as (b & w3 & Hread & H).
    assert (w3 = w1).
    { unfold readBlock, get_fs, bind in Hread.
      destruct (_ <? 0); [discriminate|]. unfold ret in Hread. injection Hread as _ <-.
      reflexivity. }
    subst w3.
    apply bind_Ret in H. destruct H as (n & w4 & Hun & H).
    apply lift_Ret in Hun. destruct Hun as (_ & ->).
    apply bind_Ret in H. destruct H as (inc & w5 & Hoffs & H).
    unfold ret in H. injection H as <- <- <-.
    destruct (readNode_offsets_spec _ _ _ _ _ _ Hoffs) as ((Hm & Hb & Hp & Hf & Hs & Hsb & Hi) & Hsec & Hiff).
    split; [repeat split; congruence|].
    split; [exact Hget|]. split.
    + rewrite Hsec, Hsec1, append_all_app, Hp1. reflexivity.
    + rewrite negb_true_iff, Hiff, Hm1, Hb1. unfold node_sector_offsets. fold s.
      split; [intros (_ & Hall); exact Hall | intros Hall; split; [reflexivity | exact Hall]].
  - unfold ret in H. injection H as <- <- <-.
    split; [repeat split; assumption|].
    split; [reflexivity|]. split; [exact Hsec1|].
    exists st. split; [exact Hget|]. intros ->. discriminate.
Qed.

Lemma readNode_complete_iff_finished_witness :
  exists node w',
    readNode_body 17 false short_file_world = Ret (true, Some node) w' /\
    ReiserFs.sectors (fs w') = PyList [128; 136; 143] /\
    RescueMap.getitem (ReiserFs.rescue_map (fs short_file_world))
      (17 * ReiserFs.block_size (fs short_file_world)) = Ok FINISHED.
Proof.
  exists short_file_leaf.
  exists (final_world (readNode_body 17 false short_file_world) short_file_world).
  assert (H : readNode_body 17 false short_file_world =
              Ret (true, Some short_file_leaf)
                  (final_world (readNode_body 17 false short_file_world) short_file_world)).
  { apply outcome_Ret. vm_compute. reflexivity. }
  split; [exact H|]. split; [vm_compute; reflexivity|].
  exact (proj1 (proj2 (readNode_complete_iff_finished _ _ _ _ _ _ H))).
Defined.


(** ** The items a range scan yields *)

Lemma item_find_range_in_range (node : Node.t) (keyStart keyEnd : Key.t) (its : list Item.t) :
  Node.item_find_range node keyStart keyEnd = Ok its ->
  Forall (fun item => in_key_range keyStart keyEnd item = true) its.
Proof.
  unfold Node.item_find_range. rewrite item_find_range_loop_filter.
  destruct (Node.items_loop _ _ _) as [all|]; [|discriminate]. simpl.
  intros E. injection E as <-. apply Forall_forall. intros it Hin.
  apply filter_In in Hin. exact (proj2 Hin).
Qed.

Lemma iter_items_in_range_from_in_range (keyStart keyEnd : Key.t) (fuel : nat) :
  forall treeBlock acc,
    hoare (fun _ => Forall (fun item => in_key_range keyStart keyEnd item = true) acc)
          (iter_items_in_range_from fuel keyStart keyEnd treeBlock collect acc)
          (fun r _ => Forall (fun item => in_key_range keyStart keyEnd item = true)
                        (flow_value r)).
Proof.
  set (P := fun item => in_key_range keyStart keyEnd item = true).
  set (K := fun (r : flow (list Item.t)) (_ : World) => Forall P (flow_value r)).
  induction fuel as [|fuel IH]; intros treeBlock acc; simpl.
  - intros w a w' _ E. discriminate.
  - apply (hoare_bind _ _ (fun _ _ => Forall P acc)).
    { intros w v w' H _. exact H. }
    intros [complete node]. cbv beta iota.
    destruct (negb complete); [apply hoare_ret; auto|].
    destruct node as [node|]; [|intros w a w' _ E; discriminate].
    destruct (Node.level node =? 1).
    + intros w r w' Hacc H. apply bind_Ret in H. destruct H as (its & w1 & Hits & H).
      apply lift_Ret in Hits. destruct Hits as (Hits & ->).
      rewrite for_each_collect in H. injection H as <- _. simpl.
      apply Forall_app. split; [exact Hacc|].
      exact (item_find_range_in_range _ _ _ _ Hits).
    + apply (hoare_bind _ _ (fun _ _ => Forall P acc)).
      { intros w v w' H _. exact H. }
      intros [ptrs|]; [|intros w a w' _ E; discriminate].
      exact (hoare_for_each K _ ptrs (fun a blk _ => IH blk a) acc).
Qed.

(** X19: a range scan only yields items of the range: every item that
    [iter_items_in_range] hands out has a key at or after [keyStart] and
    before [keyEnd], whatever the tree holds. *)
Theorem range_scan_yields_in_range (fuel : nat) (keyStart keyEnd : Key.t)
  (w w' : World) (r : flow (list Item.t)) :
  iter_items_in_range fuel keyStart keyEnd collect [] w = Ret r w' ->
  Forall (fun item => Key.leb keyStart (Item.key item) = true /\
                      Key.ltb (Item.key item) keyEnd = true) (flow_value r).
Proof.
  intros H. unfold iter_items_in_range in H.
  apply bind_Ret in H. destruct H as (sb & w0 & _ & H).
  pose proof (iter_items_in_range_from_in_range keyStart keyEnd fuel _ [] w0 r w'
                (Forall_nil _) H) as Hall.
  eapply Forall_impl; [|exact Hall].
  intros it Hit. unfold in_key_range in Hit. apply andb_true_iff in Hit. exact Hit.
Qed.

Local Abbreviation short_file_scan :=
  (iter_items_in_range 1 (Key.mk 5 6 1 STAT 1) (Key.mk 5 7 0 STAT 1) collect []
     short_file_world).

Lemma range_scan_yields_in_range_witness :
  short_file_scan =
    Ret (returned short_file_scan (Continue [])) (final_world short_file_scan short_file_world) /\
  List.length (flow_value (returned short_file_scan (Continue []))) = 1%nat /\
  Forall (fun item => Key.leb (Key.mk 5 6 1 STAT 1) (Item.key item) = true /\
                      Key.ltb (Item.key item) (Key.mk 5 7 0 STAT 1) = true)
         (flow_value (returned short_file_scan (Continue []))).
Proof.
  assert (H0 : has_returned short_file_scan = true) by (vm_compute; reflexivity).
  pose proof (returned_Ret short_file_scan (Continue []) short_file_world H0) as H.
  split; [exact H|]. split; [vm_compute; reflexivity|].
  exact (range_scan_yields_in_range 1 (Key.mk 5 6 1 STAT 1) (Key.mk 5 7 0 STAT 1)
           short_file_world (final_world short_file_scan short_file_world)
           (returned short_file_scan (Continue [])) H).
Defined.

(** ** Walks restricted to metadata *)

Lemma findFolder_walk_metadata (n fuel : nat) (excludeIds : list Z) :
  forall keysRemaining blocks w bs w',
    findFolder_walk n fuel true excludeIds keysRemaining blocks w = Ret bs w' ->
    bs = blocks.
Proof.
  induction n as [|n IH]; intros keysRemaining blocks w bs w' H; simpl in H; [discriminate|].
  destruct (rev keysRemaining) as [|key before].
  - unfold ret in H. injection H as <- _. reflexivity.
  - apply bind_Ret in H. destruct H as (item & w1 & _ & H).
    destruct item as [item|]; [|exact (IH _ _ _ _ _ H)].
    apply bind_Ret in H. destruct H as (stat & w2 & _ & H).
    destruct (FileType.eqb (Stat.filetype stat) FT_DIRECTORY).
    + apply bind_Ret in H. destruct H as (r & w3 & _ & H). exact (IH _ _ _ _ _ H).
    + destruct (FileType.eqb (Stat.filetype stat) REGULAR).
      * apply bind_Ret in H. destruct H as (r & w3 & _ & H). exact (IH _ _ _ _ _ H).
      * exact (IH _ _ _ _ _ H).
Qed.

Lemma findTree_step_metadata (level_limit : Z) (partial_only : bool) (st : walk)
  (w w' : World) (r : option walk) :
  1 <= level_limit ->
  findTree_step level_limit partial_only st w = Ret r w' ->
  match heappop (heap st) with
  | Some ((block, _), _) => exists v, readNode block (Some partial_only) w = Ret v w'
  | None => w' = w
  end.
Proof.
  intros Hl H. unfold findTree_step in H.
  destruct (heappop (heap st)) as [[[block level] heap']|].
  - apply bind_Ret in H. destruct H as ([complete node] & w1 & Hread & H). cbv beta iota in H.
    exists (complete, node).
    destruct (negb complete); [unfold ret in H; injection H as _ <-; exact Hread|].
    destruct node as [node|]; [|discriminate].
    destruct (Z.leb_spec (Node.level node) level_limit) as [Hle|Hgt];
      [unfold ret in H; injection H as _ <-; exact Hread|].
    replace (Node.level node >? 1) with true in H by (symmetry; apply Z.gtb_lt; lia).
    apply bind_Ret in H. destruct H as (ptrs & w2 & Hp & H).
    apply lift_Ret in Hp. destruct Hp as (_ & ->).
    destruct (push_children _ _ _ _ _). unfold ret in H. injection H as _ <-. exact Hread.
  - destruct (next_pass st); unfold ret in H; injection H as _ <-; reflexivity.
Qed.

Section Metadata.

Variable ls_ : nat -> Key.t -> list token -> bool -> M unit.

(** X20: with [--metadata] no data block gets into a map.  The tree
    command then walks with a level limit of at least 1, under which a
    step of the walk leaves the reader exactly as [readNode] left it; and
    the folder command's walk returns its set of data blocks as it was
    given, empty. *)
Theorem metadata_walks_record_no_data :
  (forall fuel level,
     run_command ls_ fuel true (CmdTree level) = findTree fuel (Z.max level 1) false /\
     1 <= Z.max level 1) /\
  (forall level_limit partial_only st w w' r,
     1 <= level_limit ->
     findTree_step level_limit partial_only st w = Ret r w' ->
     match heappop (heap st) with
     | Some ((block, _), _) => exists v, readNode block (Some partial_only) w = Ret v w'
     | None => w' = w
     end) /\
  (forall n fuel excludeIds keysRemaining blocks w bs w',
     findFolder_walk n fuel true excludeIds keysRemaining blocks w = Ret bs w' ->
     bs = blocks).
Proof.
  split; [|split].
  - intros fuel level. split; [reflexivity | lia].
  - intros level_limit partial_only st w w' r. apply findTree_step_metadata.
  - intros n fuel excludeIds. apply findFolder_walk_metadata.
Qed.

End Metadata.

Local Abbreviation metadata_walk :=
  (findFolder_walk 2 2 true [] [stat_key 5 6] [] sparse_file_mounted).

Lemma metadata_walks_record_no_data_witness :
  metadata_walk =
    Ret (returned metadata_walk [0]) (final_world metadata_walk sparse_file_mounted) /\
  returned metadata_walk [0] = [].
Proof.
  assert (H0 : has_returned metadata_walk = true) by (vm_compute; reflexivity).
  pose proof (returned_Ret metadata_walk [0] sparse_file_mounted H0) as H.
  split; [exact H|].
  exact (proj2 (proj2 (metadata_walks_record_no_data silent_ls_))
           2%nat 2%nat [] [stat_key 5 6] [] sparse_file_mounted
           (returned metadata_walk [0]) (final_world metadata_walk sparse_file_mounted) H).
Defined.

(** ** Complete data blocks *)

Lemma isBlockComplete_loop_spec (sectors : list Z) :
  forall w r w',
    isBlockComplete_loop sectors w = Ret r w' ->
    w' = w /\
    (r = true <->
     forall sector, In sector sectors ->
       RescueMap.getitem (ReiserFs.rescue_map (fs w)) sector = Ok FINISHED).
Proof.
  induction sectors as [|x tl IH]; intros w r w' H; simpl in H.
  - unfold ret in H. injection H as <- <-. split; [reflexivity|].
    split; [intros _ s [] | reflexivity].
  - apply bind_Ret in H. destruct H as (st & w1 & Hget & H).
    apply rescue_map_getitem_Ret in Hget. destruct Hget as (-> & Hget).
    destruct (Status.eqb st FINISHED) eqn:Est; cbn [negb] in H.
    + apply status_eqb_finished in Est. subst st.
      destruct (IH _ _ _ H) as (-> & Hiff). split; [reflexivity|].
      rewrite Hiff. split.
      * intros Hall s [<-|Hs]; [exact Hget | apply Hall; exact Hs].
      * intros Hall s Hs. apply Hall. right. exact Hs.
    + unfold ret in H. injection H as <- <-. split; [reflexivity|].
      split; [discriminate|]. intros Hall.
      pose proof (Hall x (or_introl eq_refl)) as Hx.
      assert (st = FINISHED) by congruence. subst st. discriminate.
Qed.

Lemma range_steps (a b step k : Z) :
  0 < step -> (k < (b - a + step - 1) / step <-> a + k * step < b).
Proof.
  intros Hs. split; intros H.
  - destruct (Z.lt_ge_cases (a + k * step) b) as [|Hge]; [assumption|]. exfalso.
    assert ((b - a + step - 1) / step < k + 1); [|lia].
    apply Z.div_lt_upper_bound; [exact Hs | nia].
  - assert (k + 1 <= (b - a + step - 1) / step); [|lia].
    apply Z.div_le_lower_bound; [exact Hs | nia].
Qed.

Lemma in_zrange_step (a b step x : Z) (l : list Z) :
  0 < step -> zrange_step a b step = Ok l ->
  (In x l <-> exists k, 0 <= k /\ a + k * step < b /\ x = a + k * step).
Proof.
  intros Hs H. unfold zrange_step in H.
  replace (step =? 0) with false in H by (symmetry; apply Z.eqb_neq; lia).
  injection H as <-. rewrite in_map_iff. split.
  - intros (i & <- & Hi). apply in_seq in Hi. exists (Z.of_nat i).
    split; [lia|]. split; [|reflexivity].
    apply range_steps; [exact Hs | lia].
  - intros (k & Hk & Hlt & ->). exists (Z.to_nat k). split; [lia|].
    apply in_seq. apply (range_steps a b step k Hs) in Hlt. lia.
Qed.

(** X21: [isBlockComplete] changes nothing, and it answers true exactly
    when every 512-byte sector of the block is finished in the map. *)
Theorem isBlockComplete_iff_sectors_finished (block_num : Z) (w w' : World) (r : bool) :
  isBlockComplete block_num w = Ret r w' ->
  w' = w /\
  (r = true <->
   forall k, 0 <= k -> k * 512 < ReiserFs.block_size (fs w) ->
     RescueMap.getitem (ReiserFs.rescue_map (fs w))
       (block_num * ReiserFs.block_size (fs w) + k * 512) = Ok FINISHED).
Proof.
  intros H. unfold isBlockComplete in H.
  apply bind_Ret in H. destruct H as (s & w0 & Hs & H).
  unfold get_fs in Hs. injection Hs as <- <-.
  apply bind_Ret in H. destruct H as (sectors & w1 & Hz & H).
  apply lift_Ret in Hz. destruct Hz as (Hz & ->).
  destruct (isBlockComplete_loop_spec _ _ _ _ H) as (-> & Hiff).
  split; [reflexivity|]. rewrite Hiff.
  assert (Hpos : 0 < 512) by lia.
  pose proof (fun x => in_zrange_step _ _ _ x _ Hpos Hz) as Hin.
  split.
  - intros Hall k Hk Hlt. apply Hall. apply Hin.
    exists k. split; [lia|]. split; [lia | reflexivity].
  - intros Hall sector Hs. apply Hin in Hs.
    destruct Hs as (k & Hk & Hlt & ->). apply Hall; lia.
Qed.

Lemma isBlockComplete_iff_sectors_finished_witness :
  isBlockComplete 17 short_file_world = Ret true short_file_world /\
  RescueMap.getitem (ReiserFs.rescue_map (fs short_file_world))
    (17 * ReiserFs.block_size (fs short_file_world) + 7 * 512) = Ok FINISHED.
Proof.
  assert (E : isBlockComplete 17 short_file_world =
              Ret true (final_world (isBlockComplete 17 short_file_world) short_file_world))
    by (apply outcome_Ret; vm_compute; reflexivity).
  destruct (isBlockComplete_iff_sectors_finished 17 short_file_world _ true E) as (Hw & Hiff).
  rewrite Hw in E. split; [exact E|].
  apply (proj1 Hiff eq_refl 7); [lia | vm_compute; reflexivity].
Defined.


(** ** The map [findFolder] prints *)

(** What a successful [add] tells about where the list ended. *)
Lemma add_Ok_after (rl r : RangeList.t) (start size : Z) :
  RangeList.add rl start size = Ok r ->
  forall e, last_end rl = Some e -> e <= start.
Proof.
  unfold RangeList.add, last_end, Range.end_.
  destruct (rev (RangeList.items rl)) as [|last before]; [discriminate|].
  intros H e He. injection He as <-.
  destruct (Z.eqb_spec (Range.start last + Range.size last) start) as [->|_]; [lia|].
  destruct (Z.ltb_spec (Range.start last + Range.size last) start) as [Hlt|_]; [lia|].
  simpl in H. discriminate.
Qed.

(** One call of [add] that went through. *)
Lemma add_one_covers (rl r : RangeList.t) (start size : Z) :
  separated (RangeList.items rl) -> 0 <= size ->
  RangeList.add rl start size = Ok r ->
  separated (RangeList.items r) /\
  forall x, covers (RangeList.items r) x <->
            covers (RangeList.items rl) x \/ start <= x < start + size.
Proof.
  intros Hs Hn Ea.
  destruct (add_covers rl start size Hs Hn (add_Ok_after _ _ _ _ Ea))
    as (r' & Ea' & Hs' & _ & Hc').
  assert (r' = r) by congruence. subst r'. split; assumption.
Qed.

(** A loop of [add] that went through without an assertion error: the list
    is in order, and it covers what it covered before and every range
    handed in. *)
Lemma add_all_covers {X : Type} (start size : X -> Z) (xs : list X) :
  forall rl rl',
    separated (RangeList.items rl) ->
    (forall x, In x xs -> 0 <= size x) ->
    add_all start size xs rl = Ok rl' ->
    separated (RangeList.items rl') /\
    forall y, covers (RangeList.items rl') y <->
              covers (RangeList.items rl) y \/
              exists x, In x xs /\ start x <= y < start x + size x.
Proof.
  induction xs as [|x tl IH]; intros rl rl' Hs Hn H; simpl in H.
  - injection H as <-. split; [exact Hs|]. intros y. split; [auto|].
    intros [Hc|(x & [] & _)]. exact Hc.
  - destruct (RangeList.add rl (start x) (size x)) as [r|e] eqn:Ea; [|discriminate].
    cbn [rbind] in H.
    destruct (add_one_covers rl r (start x) (size x) Hs (Hn x (or_introl eq_refl)) Ea)
      as (Hs' & Hc').
    destruct (IH r rl' Hs' (fun z Hz => Hn z (or_intror Hz)) H) as (Hsep & Hcov).
    split; [exact Hsep|]. intros y. rewrite Hcov, Hc'. split.
    + intros [[Hc|Hx]|(z & Hz & Hy)]; [left; exact Hc | right | right].
      * exists x. split; [left; reflexivity | exact Hx].
      * exists z. split; [right; exact Hz | exact Hy].
    + intros [Hc|(z & [<-|Hz] & Hy)]; [left; left; exact Hc | left; right; exact Hy | right].
      exists z. split; assumption.
Qed.

Lemma separated_sizes (l : list Range.t) :
  separated l -> forall r, In r l -> 0 <= Range.size r.
Proof.
  induction l as [|a tl IH]; intros Hs r Hin; [destruct Hin|].
  destruct Hs as (Ha & _ & Htl). destruct Hin as [<-|Hin]; [exact Ha | exact (IH Htl r Hin)].
Qed.

(** *** Runs that leave the geometry and the output alone *)

Section Stays.

Lemma settled_refl (w : World) : settled w w.
Proof. repeat split. Qed.

Lemma settled_trans (w1 w2 w3 : World) : settled w1 w2 -> settled w2 w3 -> settled w1 w3.
Proof. unfold settled. intros (? & ? & ? & ?) (? & ? & ? & ?). repeat split; congruence. Qed.

Lemma stays_bind {A B : Type} (m : M A) (k : A -> M B) :
  stays m -> (forall a, stays (k a)) -> stays (bind m k).
Proof.
  intros Hm Hk w b w' H. apply bind_Ret in H. destruct H as (a & w1 & H1 & H2).
  exact (settled_trans _ _ _ (Hm _ _ _ H1) (Hk a _ _ _ H2)).
Qed.

Lemma stays_ret {A : Type} (a : A) : stays (ret a).
Proof. intros w a' w' H. unfold ret in H. injection H as _ <-. apply settled_refl. Qed.

Lemma stays_raise {A : Type} (e : exn) : stays (@raise A e).
Proof. intros w a w' H. discriminate. Qed.

Lemma stays_out_of_fuel {A : Type} : stays (@out_of_fuel A).
Proof. intros w a w' H. discriminate. Qed.

Lemma stays_lift {A : Type} (r : result A) : stays (lift r).
Proof. intros w a w' H. apply lift_Ret in H. destruct H as [_ ->]. apply settled_refl. Qed.

Lemma stays_get_fs : stays get_fs.
Proof. intros w a w' E. unfold get_fs in E. injection E as _ <-. apply settled_refl. Qed.

Lemma stays_set_sectors (s : sector_list) : stays (set_sectors s).
Proof.
  intros w a w' E. unfold set_sectors, set_fs, get_fs, bind in E.
  injection E as _ <-. repeat split.
Qed.

Lemma stays_set_incomplete (b : bool) : stays (set_incomplete b).
Proof.
  intros w a w' E. unfold set_incomplete, set_fs, get_fs, bind in E.
  injection E as _ <-. repeat split.
Qed.

Lemma stays_sectors_append (x : Z) : stays (sectors_append x).
Proof.
  unfold sectors_append. apply stays_bind; [apply stays_get_fs|].
  intros s. destruct (ReiserFs.sectors s); apply stays_set_sectors.
Qed.

Lemma stays_rescue_map_getitem (p : Z) : stays (rescue_map_getitem p).
Proof.
  unfold rescue_map_getitem. apply stays_bind; [apply stays_get_fs|].
  intros s. apply stays_lift.
Qed.

Lemma stays_readBlock (n : Z) : stays (readBlock n).
Proof.
  unfold readBlock. apply stays_bind; [apply stays_get_fs|].
  intros s. destruct (_ <? 0); [apply stays_raise | apply stays_ret].
Qed.

Lemma stays_readNode_offsets (block : Z) (offs : list Z) :
  forall incomplete, stays (readNode_offsets block offs incomplete).
Proof.
  induction offs as [|off tl IH]; intros incomplete; simpl.
  - apply stays_ret.
  - destruct (off =? 0); [apply IH|].
    apply stays_bind; [apply stays_get_fs|]. intros s.
    apply stays_bind; [apply stays_sectors_append|]. intros _.
    destruct (negb incomplete); [|apply IH].
    apply stays_bind; [apply stays_rescue_map_getitem|]. intros st. apply IH.
Qed.

Lemma stays_readNode_body (block : Z) (partial_only : bool) :
  stays (readNode_body block partial_only).
Proof.
  unfold readNode_body. apply stays_bind; [apply stays_get_fs|]. intros s.
  apply stays_bind.
  { destruct (negb partial_only); [apply stays_sectors_append | apply stays_ret]. }
  intros _. apply stays_bind; [apply stays_rescue_map_getitem|]. intros st.
  destruct (negb (Status.eqb st FINISHED)); [apply stays_ret|].
  apply stays_bind; [apply stays_readBlock|]. intros b.
  apply stays_bind; [apply stays_lift|]. intros node.
  apply stays_bind; [apply stays_readNode_offsets|]. intros inc. apply stays_ret.
Qed.

Lemma stays_readNode (block : Z) (partial_only : option bool) :
  stays (readNode block partial_only).
Proof.
  intros w v w' E. unfold readNode in E.
  destruct (List.find _ (readNode_cache w)) as [[k v0]|].
  - injection E as _ <-. repeat split.
  - destruct (readNode_body block _ w) as [v1 w1| |] eqn:Eb; try discriminate.
    injection E as _ <-. exact (stays_readNode_body _ _ w v1 w1 Eb).
Qed.

Lemma stays_find_item_loop (fuel : nat) (key : Key.t) :
  forall treeBlock, stays (find_item_loop fuel key treeBlock).
Proof.
  induction fuel as [|fuel IH]; intros treeBlock; simpl.
  - apply stays_out_of_fuel.
  - apply stays_bind; [apply stays_readNode|]. intros [complete node]. cbv beta iota.
    destruct (negb complete); [apply stays_ret|].
    destruct node as [node|]; [|apply stays_raise].
    destruct (Node.level node =? 1); [apply stays_lift|].
    apply stays_bind; [apply stays_lift|]. intros [next|]; [apply IH | apply stays_raise].
Qed.

Lemma stays_get_superblock : stays get_superblock.
Proof.
  intros w sb w' E. unfold get_superblock, get_fs, bind in E.
  destruct (ReiserFs.superblock (fs w)); [|discriminate].
  unfold ret in E. injection E as _ <-. apply settled_refl.
Qed.

Lemma stays_find_item (fuel : nat) (key : Key.t) : stays (find_item fuel key).
Proof.
  unfold find_item. apply stays_bind; [apply stays_get_superblock|].
  intros sb. apply stays_find_item_loop.
Qed.

Lemma stays_expected_size (fuel : nat) (key : Key.t) (ft : FileType) :
  stays (expected_size fuel key ft).
Proof.
  unfold expected_size. apply stays_bind; [apply stays_find_item|].
  intros [item|]; [|apply stays_ret].
  apply stays_bind; [apply stays_lift|]. intros stat.
  apply stays_bind; [apply stays_lift|]. intros _. apply stays_ret.
Qed.

Lemma stays_gbind {A B : Type} (m : M (flow A)) (k : A -> M (flow B)) (brk : A -> B) :
  stays m -> (forall a, stays (k a)) -> stays (gbind m k brk).
Proof.
  intros Hm Hk. unfold gbind. apply stays_bind; [exact Hm|].
  intros [a|a]; [apply Hk | apply stays_ret].
Qed.

Lemma stays_for_each {Y A : Type} (body : A -> Y -> M (flow A)) (l : list Y) :
  (forall a y, stays (body a y)) -> forall acc, stays (for_each l body acc).
Proof.
  intros Hb. induction l as [|y tl IH]; intros acc; simpl.
  - apply stays_ret.
  - apply stays_gbind; [apply Hb | exact IH].
Qed.

Lemma stays_iter_items_in_range_from {A : Type} (consume : consumer Item.t A)
  (keyStart keyEnd : Key.t) :
  (forall a item, stays (consume a item)) ->
  forall fuel treeBlock acc,
    stays (iter_items_in_range_from fuel keyStart keyEnd treeBlock consume acc).
Proof.
  intros Hc. induction fuel as [|fuel IH]; intros treeBlock acc; simpl.
  - apply stays_out_of_fuel.
  - apply stays_bind; [apply stays_readNode|].
    intros [complete node]. cbv beta iota.
    destruct (negb complete); [apply stays_ret|].
    destruct node as [node|]; [|apply stays_raise].
    destruct (Node.level node =? 1).
    + apply stays_bind; [apply stays_lift|]. intros its. apply stays_for_each. exact Hc.
    + apply stays_bind; [apply stays_lift|]. intros [ptrs|]; [|apply stays_raise].
      apply stays_for_each. intros a blk. apply IH.
Qed.

Lemma stays_iter_items_in_range {A : Type} (consume : consumer Item.t A)
  (keyStart keyEnd : Key.t) (fuel : nat) (acc : A) :
  (forall a item, stays (consume a item)) ->
  stays (iter_items_in_range fuel keyStart keyEnd consume acc).
Proof.
  intros Hc. unfold iter_items_in_range.
  apply stays_bind; [apply stays_get_superblock|].
  intros sb. apply stays_iter_items_in_range_from. exact Hc.
Qed.

Lemma stays_directory_list {A : Type} (consume : consumer DirectoryEntry.t A)
  (fuel : nat) (key : Key.t) (acc : A) :
  (forall a entry, stays (consume a entry)) ->
  stays (directory_list fuel key consume acc).
Proof.
  intros Hc. unfold directory_list.
  apply stays_bind; [apply stays_lift|]. intros _.
  apply stays_bind; [apply stays_expected_size|]. intros expectedSize.
  apply stays_gbind.
  - apply stays_iter_items_in_range. intros [size a] item. unfold directory_list_item.
    apply stays_bind; [apply stays_lift|]. intros entries.
    apply stays_gbind; [apply stays_for_each; exact Hc|]. intros a'. apply stays_ret.
  - intros [size a].
    apply stays_bind; [|intros _; apply stays_ret].
    destruct (negb (size =? expectedSize)); [apply stays_set_incomplete | apply stays_ret].
Qed.

Lemma stays_file_indirect_blocks {A : Type} (consume : consumer Z A)
  (fuel : nat) (key : Key.t) (acc : A) :
  (forall a block, stays (consume a block)) ->
  stays (file_indirect_blocks fuel key consume acc).
Proof.
  intros Hc. unfold file_indirect_blocks.
  apply stays_bind; [apply stays_lift|]. intros _.
  apply stays_iter_items_in_range. intros a item. unfold file_indirect_blocks_item.
  destruct (negb _); [apply stays_ret|].
  apply stays_bind; [apply stays_lift|]. intros blocks. apply stays_for_each. exact Hc.
Qed.

Lemma stays_path_to_key_loop (fuel : nat) (parts : list bytes) :
  forall dirKey, stays (path_to_key_loop fuel parts dirKey).
Proof.
  induction parts as [|part tl IH]; intros dirKey; simpl.
  - apply stays_ret.
  - destruct (bytes_eqb part []); [apply IH|].
    apply stays_bind.
    + apply stays_directory_list. intros a entry.
      destruct (bytes_eqb part (DirectoryEntry.name entry)); apply stays_ret.
    + intros [a|[k|]]; try apply stays_ret. apply IH.
Qed.

Lemma stays_path_to_key (fuel : nat) (name : bytes) : stays (path_to_key fuel name).
Proof.
  unfold path_to_key. apply stays_bind; [|intros dirKey; apply stays_path_to_key_loop].
  destruct (negb _); [|apply stays_ret].
  apply stays_bind; [apply stays_lift|]. intros _.
  apply stays_bind; [apply stays_lift|]. intros a.
  apply stays_bind; [apply stays_lift|]. intros b. apply stays_ret.
Qed.

Lemma stays_findFolder_walk (fuel : nat) (metadata_only : bool) (excludeIds : list Z) :
  forall n keysRemaining blocks,
    stays (findFolder_walk n fuel metadata_only excludeIds keysRemaining blocks).
Proof.
  induction n as [|n IH]; intros keysRemaining blocks; simpl.
  - apply stays_out_of_fuel.
  - destruct (rev keysRemaining) as [|key before]; [apply stays_ret|].
    apply stays_bind; [apply stays_find_item|]. intros [item|]; [|apply IH].
    apply stays_bind; [apply stays_lift|]. intros stat.
    destruct (FileType.eqb (Stat.filetype stat) FT_DIRECTORY).
    + apply stays_bind; [|intros r; apply IH].
      apply stays_directory_list. intros a entry.
      destruct (_ || _); [apply stays_ret|].
      destruct (existsb _ _); apply stays_ret.
    + destruct (FileType.eqb (Stat.filetype stat) REGULAR); [|apply IH].
      destruct metadata_only.
      * apply stays_bind; [|intros r; apply IH].
        apply stays_file_indirect_blocks. intros a block. apply stays_ret.
      * apply stays_bind; [|intros r; apply IH].
        apply stays_file_indirect_blocks. intros a block. apply stays_ret.
Qed.

End Stays.

(** The name loop of [findFolder]: with every name found nothing is
    printed; a name that is not found leaves one message on stderr. *)
Lemma findFolder_names_spec (fuel : nat) (names : list bytes) :
  forall keysRemaining excludeIds w r w',
    findFolder_names fuel names keysRemaining excludeIds w = Ret r w' ->
    ReiserFs.sectors_per_block (fs w') = ReiserFs.sectors_per_block (fs w) /\
    ReiserFs.partition_start (fs w') = ReiserFs.partition_start (fs w) /\
    stdout w' = stdout w /\
    match r with
    | Some _ => stderr w' = stderr w
    | None => exists name,
        stderr w' = stderr w ++ [PrintF [TStr "Could not find "; TBytes name]]
    end.
Proof.
  induction names as [|name tl IH]; intros keysRemaining excludeIds w r w' H; simpl in H.
  - unfold ret in H. injection H as <- <-. repeat split.
  - apply bind_Ret in H. destruct H as (key & w1 & Hkey & H).
    destruct (stays_path_to_key _ _ _ _ _ Hkey) as (Hs1 & Hp1 & Ho1 & He1).
    destruct key as [key|].
    + assert (Hrest : exists k e, findFolder_names fuel tl k e w1 = Ret r w').
      { destruct (match name with c :: _ => Byte.eqb c dash | [] => false end);
          eexists; eexists; exact H. }
      destruct Hrest as (k & e & Hrest).
      destruct (IH _ _ _ _ _ Hrest) as (Hs & Hp & Ho & He).
      split; [congruence|]. split; [congruence|]. split; [congruence|].
      destruct r; [congruence|].
      destruct He as (nm & He). exists nm. rewrite He, He1. reflexivity.
    + apply bind_Ret in H. destruct H as (u & w2 & Hpr & H).
      unfold printf_stderr in Hpr. injection Hpr as _ <-.
      unfold ret in H. injection H as <- <-. cbn [fs stdout stderr].
      split; [exact Hs1|]. split; [exact Hp1|]. split; [exact Ho1|].
      eexists. rewrite He1. reflexivity.
Qed.

(** After a successful mount the block size is the one of the superblock:
    a number that is not negative, and so is the number of sectors of a
    block. *)
Lemma init_block_size (w w0 : World) :
  init w = Ret true w0 ->
  0 <= ReiserFs.block_size (fs w0) /\
  ReiserFs.sectors_per_block (fs w0) = ReiserFs.block_size (fs w0) / 512.
Proof.
  intros H. unfold init in H.
  apply bind_Ret in H. destruct H as (u & w1 & _ & H).
  apply bind_Ret in H. destruct H as (st & w2 & _ & H).
  destruct (negb (Status.eqb st FINISHED)); [unfold ret in H; discriminate|].
  apply bind_Ret in H. destruct H as (s & w3 & _ & H).
  apply bind_Ret in H. destruct H as (blk & w4 & _ & H).
  apply bind_Ret in H. destruct H as (b & w5 & _ & H).
  apply bind_Ret in H. destruct H as (sb & w6 & Hsb & H).
  apply lift_Ret in Hsb. destruct Hsb as (Hsb & _).
  apply bind_Ret in H. destruct H as (u2 & w7 & Hset & H).
  unfold ret in H. injection H as <-.
  unfold set_superblock, set_fs, get_fs, bind in Hset. injection Hset as _ <-.
  cbn [fs ReiserFs.sectors_per_block ReiserFs.block_size].
  split; [|reflexivity].
  unfold Superblock.unpack in Hsb.
  destruct (negb _); [discriminate|]. injection Hsb as <-.
  cbn [Superblock.blocksize]. unfold le_at.
  pose proof (le_combine_bound (firstn 2 (skipn 44 (py_slice b 0 80)))). lia.
Qed.

Lemma init_sectors_per_block (w w0 : World) :
  init w = Ret true w0 -> 0 <= ReiserFs.sectors_per_block (fs w0).
Proof.
  intros H. destruct (init_block_size _ _ H) as (Hbs & ->). apply Z.div_pos; lia.
Qed.

(** X22: after a successful mount a run of [findFolder] that returns has
    either reported one name it could not find and printed no map, or
    printed a map without gaps whose [+] records are ranges in order that
    cover exactly the sectors recorded during the walk and the sectors of
    the data blocks the walk has collected. *)
Theorem findFolder_prints_sectors_and_blocks (fuel : nat) (names : list bytes)
  (metadata_only : bool) (w w0 w' : World) :
  init w = Ret true w0 ->
  findFolder fuel names metadata_only w = Ret tt w' ->
  (stdout w' = stdout w /\
   exists name, stderr w' = stderr w ++ [PrintF [TStr "Could not find "; TBytes name]]) \/
  (stderr w' = stderr w /\
   exists keysRemaining excludeIds w1 w2 blocks sectors rl lines,
     findFolder_names fuel names [] [] w0 = Ret (Some (keysRemaining, excludeIds)) w1 /\
     (set_sectors (SetList []) ;;;
      findFolder_walk fuel fuel metadata_only excludeIds keysRemaining []) w1
     = Ret blocks w2 /\
     ReiserFs.sectors (fs w2) = SetList sectors /\
     ReiserFs.sectors (fs w') = PyList (sort Z.ltb sectors) /\
     stdout w' = stdout w ++ Print [TInt 0; TStr "*"; TInt 1] :: lines /\
     chained 0 lines
       (ReiserFs.partition_start (fs w') + list_end 0 (RangeList.items rl) * 512) /\
     filter is_plus lines =
     map (plus_line (ReiserFs.partition_start (fs w')) 512) (RangeList.items rl) /\
     separated (RangeList.items rl) /\
     forall x, covers (RangeList.items rl) x <->
               In x sectors \/
               exists block, In block blocks /\
                 block * ReiserFs.sectors_per_block (fs w') <= x
                 < block * ReiserFs.sectors_per_block (fs w')
                   + ReiserFs.sectors_per_block (fs w')).
Proof.
  intros Hinit H. unfold findFolder in H.
  apply bind_Ret in H. destruct H as (ok & w0' & Hinit' & H).
  rewrite Hinit in Hinit'. injection Hinit' as <- <-. cbn [negb] in H.
  destruct (quiet_init _ _ _ Hinit) as (Ho0 & He0).
  pose proof (init_sectors_per_block _ _ Hinit) as Hspb0.
  apply bind_Ret in H. destruct H as (r & w1 & Hnames & H).
  destruct (findFolder_names_spec _ _ _ _ _ _ _ Hnames) as (Hs1 & Hp1 & Ho1 & He1).
  destruct r as [[keysRemaining excludeIds]|].
  2:{ left. unfold ret in H. injection H as <-. split; [congruence|].
      destruct He1 as (name & He1). exists name. congruence. }
  right.
  apply bind_Ret in H. destruct H as (u1 & w1' & Hset & H).
  apply bind_Ret in H. destruct H as (blocks & w2 & Hwalk & H).
  pose proof (stays_set_sectors _ _ _ _ Hset) as (Hs1' & Hp1' & Ho1' & He1').
  pose proof (stays_findFolder_walk _ _ _ _ _ _ _ _ _ Hwalk) as (Hs2 & Hp2 & Ho2 & He2).
  apply bind_Ret in H. destruct H as (s & w3 & Hs & H).
  unfold get_fs in Hs. injection Hs as <- <-.
  apply bind_Ret in H. destruct H as (rl1 & w4 & Hadd1 & H).
  apply lift_Ret in Hadd1. destruct Hadd1 as (Hadd1 & ->).
  apply bind_Ret in H. destruct H as (sectors & w5 & Hsort & H).
  destruct (ReiserFs.sectors (fs w2)) as [l|l] eqn:El; [discriminate|].
  unfold ret in Hsort. injection Hsort as <- <-.
  apply bind_Ret in H. destruct H as (u2 & w6 & Hset2 & H).
  pose proof (stays_set_sectors _ _ _ _ Hset2) as (Hs6 & Hp6 & Ho6 & He6).
  apply set_sectors_Ret in Hset2. destruct Hset2 as (Hsec & _).
  apply bind_Ret in H. destruct H as (rl2 & w7 & Hadd2 & H).
  apply lift_Ret in Hadd2. destruct Hadd2 as (Hadd2 & ->).
  apply bind_Ret in H. destruct H as (rl & w8 & Hadd3 & H).
  apply lift_Ret in Hadd3. destruct Hadd3 as (Hadd3 & ->).
  assert (Hspb : 0 <= ReiserFs.sectors_per_block (fs w2)) by lia.
  destruct (add_all_covers _ _ _ RangeList.empty _ I (fun _ _ => Hspb) Hadd1) as (Hsep1 & Hcov1).
  assert (Hone : forall x : Z, In x (sort Z.ltb l) -> 0 <= 1) by (intros; lia).
  destruct (add_all_covers _ _ _ RangeList.empty _ I Hone Hadd2) as (Hsep2 & Hcov2).
  set (merged := RangeList.items rl1 ++ RangeList.items rl2) in *.
  assert (Hsizes : forall x, In x (sort Range.ltb merged) -> 0 <= Range.size x).
  { intros x Hx. apply (Permutation_in _ (sort_perm Range.ltb merged)) in Hx.
    apply in_app_or in Hx.
    destruct Hx as [Hx|Hx]; [exact (separated_sizes _ Hsep1 x Hx) | exact (separated_sizes _ Hsep2 x Hx)]. }
  destruct (add_all_covers _ _ _ RangeList.empty _ I Hsizes Hadd3) as (Hsep & Hcov).
  destruct (print_rangelist_spec rl 512 w6) as (lines & Hp & Hch & Hf).
  rewrite Hp in H. injection H as <-. cbn [fs stdout stderr].
  split; [congruence|].
  exists keysRemaining, excludeIds, w1, w2, blocks, l, rl, lines.
  split; [exact Hnames|]. split.
  { unfold bind. rewrite Hset. exact Hwalk. }
  split; [exact El|]. split; [exact Hsec|]. split; [congruence|].
  split; [exact Hch|]. split; [exact Hf|]. split; [exact Hsep|].
  intros x. rewrite Hcov. rewrite Hs6. split.
  - intros [Hnil|(r & Hr & Hx)]; [destruct (covers_nil _ Hnil)|].
    apply (Permutation_in _ (sort_perm Range.ltb merged)) in Hr.
    assert (Hc : covers merged x) by (exists r; split; assumption).
    apply covers_app in Hc. destruct Hc as [Hc|Hc].
    + right. apply Hcov1 in Hc. destruct Hc as [Hnil|(b & Hb & Hx')]; [destruct (covers_nil _ Hnil)|].
      exists b. split; [|exact Hx'].
      apply (Permutation_in _ (sort_perm Z.ltb blocks)). exact Hb.
    + left. apply Hcov2 in Hc. destruct Hc as [Hnil|(y & Hy & Hx')]; [destruct (covers_nil _ Hnil)|].
      apply (Permutation_in _ (sort_perm Z.ltb l)) in Hy.
      assert (y = x) by lia. subst y. exact Hy.
  - intros Hx. right.
    assert (Hc : covers merged x).
    { apply covers_app. destruct Hx as [Hx|(b & Hb & Hx)].
      - right. apply Hcov2. right. exists x. split; [|lia].
        apply (Permutation_in _ (Permutation_sym (sort_perm Z.ltb l))). exact Hx.
      - left. apply Hcov1. right. exists b. split; [|exact Hx].
        apply (Permutation_in _ (Permutation_sym (sort_perm Z.ltb blocks))). exact Hb. }
    destruct Hc as (r & Hr & Hrx). exists r. split; [|exact Hrx].
    apply (Permutation_in _ (Permutation_sym (sort_perm Range.ltb merged))). exact Hr.
Qed.

Local Abbreviation folder_run := (findFolder 4 [name_5_6] false one_block_file_world).

Local Abbreviation folder_end := (final_world folder_run one_block_file_world).

Local Abbreviation folder_mounted :=
  (final_world (init one_block_file_world) one_block_file_world).

Lemma findFolder_prints_sectors_and_blocks_witness :
  init one_block_file_world = Ret true folder_mounted /\
  folder_run = Ret tt folder_end /\
  stdout folder_end =
  [Print [TInt 0; TStr "*"; TInt 1]; Print [TInt 0; TInt 0; TStr "-"];
   Print [TInt 0; TInt 69632; TStr "-"]; Print [TInt 69632; TInt 512; TStr "+"];
   Print [TInt 70144; TInt 3072; TStr "-"]; Print [TInt 73216; TInt 4608; TStr "+"]] /\
  ((stdout folder_end = stdout one_block_file_world /\
    exists name,
      stderr folder_end =
      stderr one_block_file_world ++ [PrintF [TStr "Could not find "; TBytes name]]) \/
   (stderr folder_end = stderr one_block_file_world /\
    exists keysRemaining excludeIds w1 w2 blocks sectors rl lines,
      findFolder_names 4 [name_5_6] [] [] folder_mounted
      = Ret (Some (keysRemaining, excludeIds)) w1 /\
      (set_sectors (SetList []) ;;;
       findFolder_walk 4 4 false excludeIds keysRemaining []) w1 = Ret blocks w2 /\
      ReiserFs.sectors (fs w2) = SetList sectors /\
      ReiserFs.sectors (fs folder_end) = PyList (sort Z.ltb sectors) /\
      stdout folder_end =
      stdout one_block_file_world ++ Print [TInt 0; TStr "*"; TInt 1] :: lines /\
      chained 0 lines
        (ReiserFs.partition_start (fs folder_end) + list_end 0 (RangeList.items rl) * 512) /\
      filter is_plus lines =
      map (plus_line (ReiserFs.partition_start (fs folder_end)) 512) (RangeList.items rl) /\
      separated (RangeList.items rl) /\
      forall x, covers (RangeList.items rl) x <->
                In x sectors \/
                exists block, In block blocks /\
                  block * ReiserFs.sectors_per_block (fs folder_end) <= x
                  < block * ReiserFs.sectors_per_block (fs folder_end)
                    + ReiserFs.sectors_per_block (fs folder_end))).
Proof.
  assert (Hinit : init one_block_file_world = Ret true folder_mounted)
    by (apply outcome_Ret; vm_compute; reflexivity).
  assert (H : folder_run = Ret tt folder_end)
    by (apply outcome_Ret; vm_compute; reflexivity).
  split; [exact Hinit|]. split; [exact H|]. split; [vm_compute; reflexivity|].
  exact (findFolder_prints_sectors_and_blocks 4 [name_5_6] false one_block_file_world
           folder_mounted folder_end Hinit H).
Defined.


(** ** The map [findBitmap] prints *)

Lemma add_all_app {X : Type} (start size : X -> Z) (xs ys : list X) :
  forall rl,
    add_all start size (xs ++ ys) rl =
    (r <-? add_all start size xs rl ;; add_all start size ys r).
Proof.
  induction xs as [|x tl IH]; intros rl; simpl; [reflexivity|].
  destruct (RangeList.add rl (start x) (size x)) as [r|e]; simpl; [apply IH | reflexivity].
Qed.

Lemma markUsed_bits_add_all (base : Z) (b : byte) (bits : list Z) :
  forall rl,
    markUsed_bits rl base b bits =
    add_all (fun x => x) (fun _ => 1) (byte_bits base b bits) rl.
Proof.
  unfold byte_bits. induction bits as [|bit tl IH]; intros rl; simpl; [reflexivity|].
  destruct (Z.testbit (byte.unsigned b) bit); simpl; [|apply IH].
  destruct (RangeList.add rl (base + bit) 1) as [r|e]; simpl; [apply IH | reflexivity].
Qed.

Lemma markUsed_loop_add_all (pos : Z) (bitmap : bytes) :
  forall i rl,
    markUsed_loop rl pos i bitmap =
    add_all (fun x => x) (fun _ => 1) (marked pos i bitmap) rl.
Proof.
  induction bitmap as [|b tl IH]; intros i rl; [reflexivity|].
  cbn [markUsed_loop marked]. rewrite add_all_app, markUsed_bits_add_all.
  destruct (add_all _ _ (byte_bits (pos + i * 8) b (zrange 0 8)) rl) as [r|e];
    cbn [rbind]; [apply IH | reflexivity].
Qed.

Lemma marked_bit_set (pos : Z) (bitmap : bytes) (x : Z) :
  In x (marked pos 0 bitmap) <-> bit_set bitmap (x - pos).
Proof.
  assert (Hnone : forall e, last_end RangeList.empty = Some e -> e <= pos + 0 * 8)
    by (intros e H; discriminate).
  destruct (markUsed_loop_spec bitmap 0 RangeList.empty pos ltac:(lia) I Hnone)
    as (rl & Hm & _ & Hc).
  rewrite markUsed_loop_add_all in Hm.
  assert (Hone : forall y : Z, In y (marked pos 0 bitmap) -> 0 <= 1) by (intros; lia).
  destruct (add_all_covers _ _ _ RangeList.empty rl I Hone Hm) as (_ & Hc2).
  specialize (Hc x). specialize (Hc2 x). rewrite Hc in Hc2.
  replace (x - pos - 0 * 8) with (x - pos) in Hc2 by lia.
  split.
  - intros Hin.
    assert (H : covers (RangeList.items RangeList.empty) x \/
                pos + 0 * 8 <= x /\ bit_set bitmap (x - pos)).
    { apply Hc2. right. exists x. split; [exact Hin | lia]. }
    destruct H as [H|(_ & H)]; [destruct (covers_nil _ H) | exact H].
  - intros Hb.
    assert (H : covers (RangeList.items RangeList.empty) x \/
                exists y, In y (marked pos 0 bitmap) /\ y <= x < y + 1).
    { apply Hc2. right. split; [|exact Hb]. destruct Hb as (H0 & _). lia. }
    destruct H as [H|(y & Hy & Hxy)]; [destruct (covers_nil _ H)|].
    assert (y = x) by lia. subst y. exact Hy.
Qed.

(** A call of [markUsed] that went through, after whatever list: the
    blocks whose bit is set are added. *)
Lemma markUsed_covers (rl rl' : RangeList.t) (pos : Z) (bitmap : bytes) :
  separated (RangeList.items rl) ->
  markUsed rl pos bitmap = Ok rl' ->
  separated (RangeList.items rl') /\
  forall x, covers (RangeList.items rl') x <->
            covers (RangeList.items rl) x \/ bit_set bitmap (x - pos).
Proof.
  intros Hs H. unfold markUsed in H. rewrite markUsed_loop_add_all in H.
  assert (Hone : forall y : Z, In y (marked pos 0 bitmap) -> 0 <= 1) by (intros; lia).
  destruct (add_all_covers _ _ _ rl rl' Hs Hone H) as (Hs' & Hc).
  split; [exact Hs'|]. intros x. rewrite Hc. split.
  - intros [Hx|(y & Hy & Hxy)]; [left; exact Hx | right].
    assert (y = x) by lia. subst y. apply marked_bit_set. exact Hy.
  - intros [Hx|Hb]; [left; exact Hx | right].
    exists x. split; [apply marked_bit_set; exact Hb | lia].
Qed.

Lemma readBlock_Ret (n : Z) (w w' : World) (b : bytes) :
  readBlock n w = Ret b w' -> w' = w /\ b = block_at (fs w) n.
Proof.
  unfold readBlock, get_fs, bind, block_at.
  destruct (_ <? 0); [discriminate|]. unfold ret. intros H. injection H as <- <-.
  split; reflexivity.
Qed.

Lemma get_superblock_Ret (w w' : World) (sb : Superblock.t) :
  get_superblock w = Ret sb w' -> w' = w /\ ReiserFs.superblock (fs w) = Some sb.
Proof.
  unfold get_superblock, get_fs, bind.
  destruct (ReiserFs.superblock (fs w)) as [sb0|]; [|discriminate].
  unfold ret. intros H. injection H as <- <-. split; reflexivity.
Qed.

(** The bitmap block itself is put on the list when it is not rescued. *)
Lemma mark_unrescued (rl r1 : RangeList.t) (pos p : Z) (st : Status) (w w1 : World) :
  RescueMap.getitem (ReiserFs.rescue_map (fs w)) p = Ok st ->
  (if negb (Status.eqb st FINISHED) then lift (RangeList.add rl pos 1) else ret rl) w
  = Ret r1 w1 ->
  separated (RangeList.items rl) ->
  w1 = w /\ separated (RangeList.items r1) /\
  forall x, covers (RangeList.items r1) x <->
            covers (RangeList.items rl) x \/ (unrescued (fs w) p /\ x = pos).
Proof.
  intros Hget H Hs. unfold unrescued. rewrite Hget.
  destruct (Status.eqb st FINISHED) eqn:Est; cbn [negb] in H.
  - apply status_eqb_finished in Est. subst st.
    unfold ret in H. injection H as <- <-.
    split; [reflexivity|]. split; [exact Hs|].
    intros x. split; [auto|]. intros [Hx|(Hne & _)]; [exact Hx | congruence].
  - apply lift_Ret in H. destruct H as (Ha & ->).
    destruct (add_one_covers rl r1 pos 1 Hs ltac:(lia) Ha) as (Hs1 & Hc1).
    split; [reflexivity|]. split; [exact Hs1|].
    intros x. rewrite Hc1. split.
    + intros [Hx|Hx]; [left; exact Hx | right]. split; [|lia].
      intros E. injection E as ->. discriminate.
    + intros [Hx|(_ & ->)]; [left; exact Hx | right; lia].
Qed.

Lemma findBitmap_loop_spec (positions : list Z) :
  forall rl w rl' w',
    separated (RangeList.items rl) ->
    findBitmap_loop rl positions w = Ret rl' w' ->
    w' = w /\ separated (RangeList.items rl') /\
    forall x, covers (RangeList.items rl') x <->
              covers (RangeList.items rl) x \/
              exists pos, In pos positions /\
                ((unrescued (fs w) (pos * ReiserFs.block_size (fs w)) /\ x = pos) \/
                 bit_set (block_at (fs w) pos) (x - pos)).
Proof.
  induction positions as [|pos tl IH]; intros rl w rl' w' Hs H; simpl in H.
  - unfold ret in H. injection H as <- <-. split; [reflexivity|]. split; [exact Hs|].
    intros x. split; [auto|]. intros [Hx|(p & [] & _)]. exact Hx.
  - apply bind_Ret in H. destruct H as (s & w0 & Hfs & H).
    unfold get_fs in Hfs. injection Hfs as <- <-.
    apply bind_Ret in H. destruct H as (r & w1 & Hr & H).
    apply readBlock_Ret in Hr. destruct Hr as (-> & ->).
    apply bind_Ret in H. destruct H as (st & w2 & Hget & H).
    apply rescue_map_getitem_Ret in Hget. destruct Hget as (-> & Hget).
    apply bind_Ret in H. destruct H as (r1 & w3 & Hadd & H).
    destruct (mark_unrescued _ _ _ _ _ _ _ Hget Hadd Hs) as (-> & Hs1 & Hc1).
    apply bind_Ret in H. destruct H as (r2 & w4 & Hmark & H).
    apply lift_Ret in Hmark. destruct Hmark as (Hmark & ->).
    destruct (markUsed_covers _ _ _ _ Hs1 Hmark) as (Hs2 & Hc2).
    destruct (IH _ _ _ _ Hs2 H) as (-> & Hs' & Hc').
    split; [reflexivity|]. split; [exact Hs'|].
    intros x. rewrite Hc', Hc2, Hc1. split.
    + intros [[[Hx|Hx]|Hx]|(p & Hp & Hx)].
      * left. exact Hx.
      * right. exists pos. split; [left; reflexivity | left; exact Hx].
      * right. exists pos. split; [left; reflexivity | right; exact Hx].
      * right. exists p. split; [right; exact Hp | exact Hx].
    + intros [Hx|(p & [<-|Hp] & [Hx|Hx])].
      * left. left. left. exact Hx.
      * left. left. right. exact Hx.
      * left. right. exact Hx.
      * right. exists p. split; [exact Hp | left; exact Hx].
      * right. exists p. split; [exact Hp | right; exact Hx].
Qed.

Lemma bitmap_positions (bs count : Z) (positions : list Z) :
  0 < bs ->
  zrange_step (bs * 8) count (bs * 8) = Ok positions ->
  forall pos, In pos positions <-> bitmap_position bs count pos.
Proof.
  intros Hbs Hz pos. assert (Hstep : 0 < bs * 8) by lia.
  rewrite (in_zrange_step _ _ _ pos _ Hstep Hz).
  unfold bitmap_position. split.
  - intros (k & Hk & Hlt & ->). exists (k + 1). split; [lia|]. split; lia.
  - intros (k & Hk & -> & Hlt). exists (k - 1). split; [lia|]. split; lia.
Qed.

(** X23: after a successful mount a run of [findBitmap] that returns has
    printed a map without gaps, in units of blocks.  With [metadataOnly]
    its [+] records cover the superblock's block, the block after it and
    every further bitmap position.  Without, they cover exactly the blocks
    whose bit is set in the bitmap blocks as read from the image, and the
    bitmap blocks that are not rescued. *)
Theorem findBitmap_marks_used_blocks (metadataOnly : bool) (w w0 w' : World) :
  init w = Ret true w0 ->
  findBitmap metadataOnly w = Ret tt w' ->
  let s := fs w0 in
  let bs := ReiserFs.block_size s in
  let first := 65536 / bs in
  exists sb rl lines,
    ReiserFs.superblock s = Some sb /\ 0 < bs /\
    fs w' = s /\ stderr w' = stderr w /\
    stdout w' = stdout w ++ Print [TInt 0; TStr "*"; TInt 1] :: lines /\
    chained 0 lines
      (ReiserFs.partition_start s + list_end 0 (RangeList.items rl) * bs) /\
    filter is_plus lines = map (plus_line (ReiserFs.partition_start s) bs) (RangeList.items rl) /\
    separated (RangeList.items rl) /\
    forall x, covers (RangeList.items rl) x <->
      if metadataOnly then
        x = first \/ x = first + 1 \/ bitmap_position bs (Superblock.block_count sb) x
      else
        (unrescued s (65536 + bs) /\ x = first + 1) \/
        bit_set (block_at s (first + 1)) x \/
        exists pos, bitmap_position bs (Superblock.block_count sb) pos /\
          ((unrescued s (pos * bs) /\ x = pos) \/ bit_set (block_at s pos) (x - pos)).
Proof.
  intros Hinit H s bs first. unfold findBitmap in H.
  apply bind_Ret in H. destruct H as (ok & w0' & Hinit' & H).
  rewrite Hinit in Hinit'. injection Hinit' as <- <-. cbn [negb] in H.
  destruct (quiet_init _ _ _ Hinit) as (Ho0 & He0).
  destruct (init_block_size _ _ Hinit) as (Hbs0 & _).
  apply bind_Ret in H. destruct H as (s' & w1 & Hfs & H).
  unfold get_fs in Hfs. injection Hfs as <- <-. fold s in H. fold bs in H.
  apply bind_Ret in H. destruct H as (sb & w2 & Hsb & H).
  apply get_superblock_Ret in Hsb. destruct Hsb as (-> & Hsb).
  exists sb.
  destruct metadataOnly.
  - apply bind_Ret in H. destruct H as (fst_ & w3 & Hdiv & H).
    apply lift_Ret in Hdiv. destruct Hdiv as (Hdiv & ->).
    apply floordiv_Ok in Hdiv. destruct Hdiv as (Hne & ->). fold first in H.
    assert (Hbs : 0 < bs) by (unfold bs, s in *; lia).
    apply bind_Ret in H. destruct H as (r1 & w4 & Ha1 & H).
    apply lift_Ret in Ha1. destruct Ha1 as (Ha1 & ->).
    apply bind_Ret in H. destruct H as (r2 & w5 & Ha2 & H).
    apply lift_Ret in Ha2. destruct Ha2 as (Ha2 & ->).
    apply bind_Ret in H. destruct H as (positions & w6 & Hz & H).
    apply lift_Ret in Hz. destruct Hz as (Hz & ->).
    apply bind_Ret in H. destruct H as (rl & w7 & Ha3 & H).
    apply lift_Ret in Ha3. destruct Ha3 as (Ha3 & ->).
    destruct (add_one_covers RangeList.empty r1 first 1 I ltac:(lia) Ha1) as (Hs1 & Hc1).
    destruct (add_one_covers r1 r2 (first + 1) 1 Hs1 ltac:(lia) Ha2) as (Hs2 & Hc2).
    assert (Hone : forall y : Z, In y positions -> 0 <= 1) by (intros; lia).
    destruct (add_all_covers _ _ _ r2 rl Hs2 Hone Ha3) as (Hs3 & Hc3).
    destruct (print_rangelist_spec rl bs w0) as (lines & Hp & Hch & Hf).
    rewrite Hp in H. injection H as <-. cbn [fs stdout stderr].
    exists rl, lines.
    split; [exact Hsb|]. split; [exact Hbs|]. split; [reflexivity|].
    split; [exact He0|]. split; [rewrite Ho0; reflexivity|].
    split; [exact Hch|]. split; [exact Hf|]. split; [exact Hs3|].
    intros x. rewrite Hc3, Hc2, Hc1.
    pose proof (bitmap_positions bs _ positions Hbs Hz) as Hpos. split.
    + intros [[[Hx|Hx]|Hx]|(y & Hy & Hxy)].
      * destruct (covers_nil _ Hx).
      * left. lia.
      * right. left. lia.
      * right. right. assert (y = x) by lia. subst y. apply Hpos. exact Hy.
    + intros [->|[->|Hx]].
      * left. left. right. lia.
      * left. right. lia.
      * right. exists x. split; [apply Hpos; exact Hx | lia].
  - apply bind_Ret in H. destruct H as (fst_ & w3 & Hdiv & H).
    apply lift_Ret in Hdiv. destruct Hdiv as (Hdiv & ->).
    apply floordiv_Ok in Hdiv. destruct Hdiv as (Hne & ->). fold first in H.
    assert (Hbs : 0 < bs) by (unfold bs, s in *; lia).
    apply bind_Ret in H. destruct H as (r & w4 & Hr & H).
    apply readBlock_Ret in Hr. destruct Hr as (-> & ->).
    apply bind_Ret in H. destruct H as (st & w5 & Hget & H).
    apply rescue_map_getitem_Ret in Hget. destruct Hget as (-> & Hget).
    apply bind_Ret in H. destruct H as (r1 & w6 & Hadd & H).
    destruct (mark_unrescued _ _ _ _ _ _ _ Hget Hadd I) as (-> & Hs1 & Hc1).
    apply bind_Ret in H. destruct H as (r2 & w7 & Hmark & H).
    apply lift_Ret in Hmark. destruct Hmark as (Hmark & ->).
    destruct (markUsed_covers _ _ _ _ Hs1 Hmark) as (Hs2 & Hc2).
    apply bind_Ret in H. destruct H as (positions & w8 & Hz & H).
    apply lift_Ret in Hz. destruct Hz as (Hz & ->).
    apply bind_Ret in H. destruct H as (rl & w9 & Hloop & H).
    destruct (findBitmap_loop_spec _ _ _ _ _ Hs2 Hloop) as (-> & Hs3 & Hc3).
    destruct (print_rangelist_spec rl bs w0) as (lines & Hp & Hch & Hf).
    rewrite Hp in H. injection H as <-. cbn [fs stdout stderr].
    exists rl, lines.
    split; [exact Hsb|]. split; [exact Hbs|]. split; [reflexivity|].
    split; [exact He0|]. split; [rewrite Ho0; reflexivity|].
    split; [exact Hch|]. split; [exact Hf|]. split; [exact Hs3|].
    intros x. rewrite Hc3, Hc2, Hc1.
    pose proof (bitmap_positions bs _ positions Hbs Hz) as Hpos.
    replace (x - 0) with x by lia. fold s. fold bs. split.
    + intros [[[Hx|Hx]|Hx]|(p & Hp' & Hx)].
      * destruct (covers_nil _ Hx).
      * left. exact Hx.
      * right. left. exact Hx.
      * right. right. exists p. split; [apply Hpos; exact Hp' | exact Hx].
    + intros [Hx|[Hx|(p & Hp' & Hx)]].
      * left. left. right. exact Hx.
      * left. right. exact Hx.
      * right. exists p. split; [apply Hpos; exact Hp' | exact Hx].
Qed.

Local Abbreviation bitmap_run := (findBitmap false bitmap_world).

Local Abbreviation bitmap_end := (final_world bitmap_run bitmap_world).

Local Abbreviation bitmap_mounted := (final_world (init bitmap_world) bitmap_world).

Lemma findBitmap_marks_used_blocks_witness :
  init bitmap_world = Ret true bitmap_mounted /\
  bitmap_run = Ret tt bitmap_end /\
  stdout bitmap_end =
  [Print [TInt 0; TStr "*"; TInt 1]; Print [TInt 0; TInt 0; TStr "-"];
   Print [TInt 0; TInt 77824; TStr "+"]] /\
  let s := fs bitmap_mounted in
  let bs := ReiserFs.block_size s in
  let first := 65536 / bs in
  exists sb rl lines,
    ReiserFs.superblock s = Some sb /\ 0 < bs /\
    fs bitmap_end = s /\ stderr bitmap_end = stderr bitmap_world /\
    stdout bitmap_end = stdout bitmap_world ++ Print [TInt 0; TStr "*"; TInt 1] :: lines /\
    chained 0 lines
      (ReiserFs.partition_start s + list_end 0 (RangeList.items rl) * bs) /\
    filter is_plus lines = map (plus_line (ReiserFs.partition_start s) bs) (RangeList.items rl) /\
    separated (RangeList.items rl) /\
    forall x, covers (RangeList.items rl) x <->
      (unrescued s (65536 + bs) /\ x = first + 1) \/
      bit_set (block_at s (first + 1)) x \/
      exists pos, bitmap_position bs (Superblock.block_count sb) pos /\
        ((unrescued s (pos * bs) /\ x = pos) \/ bit_set (block_at s pos) (x - pos)).
Proof.
  assert (Hinit : init bitmap_world = Ret true bitmap_mounted)
    by (apply outcome_Ret; vm_compute; reflexivity).
  assert (H : bitmap_run = Ret tt bitmap_end)
    by (apply outcome_Ret; vm_compute; reflexivity).
  split; [exact Hinit|]. split; [exact H|]. split; [vm_compute; reflexivity|].
  exact (findBitmap_marks_used_blocks false bitmap_world bitmap_mounted bitmap_end Hinit H).
Defined.

